(** * vg genotypekit: snarl classification and representative traversals

    A shallow embedding of the parts of [src/genotypekit.cpp] that decide how
    snarls are classified ([CactusSnarlFinder]) and how the
    [RepresentativeTraversalFinder] searches for, splices and emits
    traversals, together with the [Support] arithmetic helpers.

    Conventions.
    - [size_t] and [int64_t] values are [Z]; where the source does
      arithmetic on them the 64-bit wrap-around is written out ([wrap64]).
    - [double] is the kernel's binary64 [float]; [std::min] on doubles is
      [fmin].
    - A [const Snarl*] into the Snarl Manager is a [SnarlPtr]: the slot of
      the record in the manager's arena together with the (immutable)
      record read through it.
    - A failed [assert], a thrown exception and undefined behaviour (a null
      pointer read, a read past the end of a vector) are constructors of
      [outcome]; loops without an evident bound take fuel. *)

From Stdlib Require Import Floats ZArith List Bool Lia Sorted.
From stdpp Require Import base option list gmap.
Import ListNotations.

Local Open Scope Z_scope.

(** ** Machine integers *)

Definition wrap64 (z : Z) : Z := z mod 2 ^ 64.

(** ** Support (genotypekit.cpp, 2701-2760) *)

Module SupportOps.

(** The [Support] protobuf message: five doubles, all defaulting to zero. *)
Record Support := mkSupport {
  quality : float;
  forward : float;
  reverse : float;
  left : float;
  right : float
}.

(** [Support()], the default message *)
Definition Support_default : Support := mkSupport 0 0 0 0 0.

(** [std::min] on doubles: [(b < a) ? b : a] *)
Definition fmin (a b : float) : float := if PrimFloat.ltb b a then b else a.

(** [std::max] on doubles: [(a < b) ? b : a] *)
Definition fmax (a b : float) : float := if PrimFloat.ltb a b then b else a.

Definition make_support (forward reverse quality : float) : Support :=
  mkSupport quality forward reverse 0 0.

Definition total (support : Support) : float :=
  PrimFloat.add (forward support) (reverse support).

(** [support_min] starts from a default message and sets three fields. *)
Definition support_min (a b : Support) : Support :=
  let to_return := Support_default in
  let to_return := mkSupport (quality to_return) (fmin (forward a) (forward b))
                     (reverse to_return) (left to_return) (right to_return) in
  let to_return := mkSupport (quality to_return) (forward to_return)
                     (fmin (reverse a) (reverse b)) (left to_return) (right to_return) in
  let to_return := mkSupport (fmin (quality a) (quality b)) (forward to_return)
                     (reverse to_return) (left to_return) (right to_return) in
  to_return.

Definition support_max (a b : Support) : Support :=
  let to_return := Support_default in
  let to_return := mkSupport (quality to_return) (fmax (forward a) (forward b))
                     (reverse to_return) (left to_return) (right to_return) in
  let to_return := mkSupport (quality to_return) (forward to_return)
                     (fmax (reverse a) (reverse b)) (left to_return) (right to_return) in
  let to_return := mkSupport (fmax (quality a) (quality b)) (forward to_return)
                     (reverse to_return) (left to_return) (right to_return) in
  to_return.

(** [operator+] *)
Definition support_add (one other : Support) : Support :=
  mkSupport (PrimFloat.add (quality one) (quality other))
            (PrimFloat.add (forward one) (forward other))
            (PrimFloat.add (reverse one) (reverse other))
            (PrimFloat.add (left one) (left other))
            (PrimFloat.add (right one) (right other)).

(** [operator<] and [operator>] compare totals. *)
Definition support_lt (a b : Support) : bool := PrimFloat.ltb (total a) (total b).
Definition support_gt (a b : Support) : bool := PrimFloat.ltb (total b) (total a).

(** [total(s) == 0] as the callers test it *)
Definition total_is_zero (s : Support) : bool := PrimFloat.eqb (total s) 0.

End SupportOps.

(** ** Visits and snarls (the protobuf messages the code works on) *)

(** An oriented node as it stands at a snarl boundary: node id and
    "traversed backward" flag. *)
Record NodeVisit := mkNodeVisit { nv_node_id : Z; nv_backward : bool }.

(** The [snarl] field of a [Visit]: the two boundary visits that identify
    the child snarl.  An unset field reads as the default message, whose
    node ids are 0. *)
Record SnarlEnds := mkEnds { ends_start : NodeVisit; ends_end : NodeVisit }.

Definition no_snarl : SnarlEnds := mkEnds (mkNodeVisit 0 false) (mkNodeVisit 0 false).

(** [Visit]: a node visit has a non-zero [node_id]; a child-snarl visit has
    [node_id = 0] and the child's ends in [snarl]. *)
Record Visit := mkVisit { node_id : Z; snarl : SnarlEnds; backward : bool }.

(** [Visit()] *)
Definition Visit_default : Visit := mkVisit 0 no_snarl false.

(** [to_visit(id, is_reverse)] *)
Definition to_visit (id : Z) (is_reverse : bool) : Visit := mkVisit id no_snarl is_reverse.

(** [visit.snarl().start()] and [visit.snarl().end()], read as Visits *)
Definition visit_snarl_start (v : Visit) : Visit :=
  to_visit (nv_node_id (ends_start (snarl v))) (nv_backward (ends_start (snarl v))).
Definition visit_snarl_end (v : Visit) : Visit :=
  to_visit (nv_node_id (ends_end (snarl v))) (nv_backward (ends_end (snarl v))).

(** Modelled from the spec: [reverse(const Visit&)] is declared outside
    [src/]; "reversing a Visit flips orientation" and leaves the node or the
    snarl it refers to as it is. *)
Definition reverse (v : Visit) : Visit := mkVisit (node_id v) (snarl v) (negb (backward v)).

#[export] Instance NodeVisit_eq_dec : EqDecision NodeVisit.
Proof. solve_decision. Defined.
#[export] Instance SnarlEnds_eq_dec : EqDecision SnarlEnds.
Proof. solve_decision. Defined.
#[export] Instance Visit_eq_dec : EqDecision Visit.
Proof. solve_decision. Defined.

(** [operator==] on Visits: structural *)
Definition visit_eqb (a b : Visit) : bool := bool_decide (a = b).

#[export] Instance NodeVisit_countable : Countable NodeVisit :=
  inj_countable' (fun n => (nv_node_id n, nv_backward n))
                 (fun p => mkNodeVisit p.1 p.2)
                 (fun n => match n with mkNodeVisit _ _ => eq_refl end).
#[export] Instance SnarlEnds_countable : Countable SnarlEnds :=
  inj_countable' (fun e => (ends_start e, ends_end e))
                 (fun p => mkEnds p.1 p.2)
                 (fun e => match e with mkEnds _ _ => eq_refl end).
#[export] Instance Visit_countable : Countable Visit :=
  inj_countable' (fun v => (node_id v, snarl v, backward v))
                 (fun p => mkVisit p.1.1 p.1.2 p.2)
                 (fun v => match v with mkVisit _ _ _ => eq_refl end).

Inductive SnarlType := UNCLASSIFIED | ULTRABUBBLE | UNARY.

#[export] Instance SnarlType_eq_dec : EqDecision SnarlType.
Proof. solve_decision. Defined.

(** The [Snarl] message.  [parent] holds the enclosing snarl's ends, or
    nothing at top level. *)
Record Snarl := mkSnarl {
  type : SnarlType;
  start : Visit;
  end_ : Visit;
  parent : option (Visit * Visit);
  start_self_reachable : bool;
  start_end_reachable : bool;
  end_self_reachable : bool;
  directed_acyclic_net_graph : bool
}.

(** [Snarl()] *)
Definition Snarl_default : Snarl :=
  mkSnarl UNCLASSIFIED Visit_default Visit_default None false false false false.

#[export] Instance Snarl_eq_dec : EqDecision Snarl.
Proof. solve_decision. Defined.

(** Protobuf setters *)
Definition set_type (s : Snarl) (t : SnarlType) : Snarl :=
  mkSnarl t (start s) (end_ s) (parent s) (start_self_reachable s)
          (start_end_reachable s) (end_self_reachable s) (directed_acyclic_net_graph s).
Definition set_ends (s : Snarl) (new_start new_end : Visit) : Snarl :=
  mkSnarl (type s) new_start new_end (parent s) (start_self_reachable s)
          (start_end_reachable s) (end_self_reachable s) (directed_acyclic_net_graph s).
Definition set_parent (s : Snarl) (parent_start parent_end : Visit) : Snarl :=
  mkSnarl (type s) (start s) (end_ s) (Some (parent_start, parent_end))
          (start_self_reachable s) (start_end_reachable s) (end_self_reachable s)
          (directed_acyclic_net_graph s).
Definition set_start_self_reachable (s : Snarl) (b : bool) : Snarl :=
  mkSnarl (type s) (start s) (end_ s) (parent s) b
          (start_end_reachable s) (end_self_reachable s) (directed_acyclic_net_graph s).
Definition set_end_self_reachable (s : Snarl) (b : bool) : Snarl :=
  mkSnarl (type s) (start s) (end_ s) (parent s) (start_self_reachable s)
          (start_end_reachable s) b (directed_acyclic_net_graph s).
Definition set_start_end_reachable (s : Snarl) (b : bool) : Snarl :=
  mkSnarl (type s) (start s) (end_ s) (parent s) (start_self_reachable s)
          b (end_self_reachable s) (directed_acyclic_net_graph s).
Definition set_directed_acyclic_net_graph (s : Snarl) (b : bool) : Snarl :=
  mkSnarl (type s) (start s) (end_ s) (parent s) (start_self_reachable s)
          (start_end_reachable s) (end_self_reachable s) b.

(** [snarl.start().node_id() != 0 || snarl.end().node_id() != 0] (line 728) *)
Definition has_an_end (s : Snarl) : bool :=
  negb (bool_decide (node_id (start s) = 0)) || negb (bool_decide (node_id (end_ s) = 0)).

(** [to_visit(const Snarl&)]: a forward visit of the snarl, as lines
    1635-1637 build it by hand. *)
Definition ends_of (s : Snarl) : SnarlEnds :=
  mkEnds (mkNodeVisit (node_id (start s)) (backward (start s)))
         (mkNodeVisit (node_id (end_ s)) (backward (end_ s))).
Definition to_visit_snarl (s : Snarl) : Visit := mkVisit 0 (ends_of s) false.

(** ** Results of code that can fail *)

(** The text of a [runtime_error], reduced to what it names *)
Inductive error_message : Type :=
| NoBackboneNodeFound                                   (* line 1609 *)
| ExtraRefNodeFound                                     (* line 1730 *)
| CouldntFindInBackbone (anchor site_start site_end : Visit)   (* lines 1871-1874 *)
| GraphError.                                           (* raised inside the graph library *)

(** What a [throw] carries. *)
Inductive exception : Type :=
| runtime_error (what : error_message)
| out_of_range.                   (* [std::map::at] on a missing key *)

Inductive outcome (A : Type) : Type :=
| Ok (a : A)                      (* normal return *)
| AssertionFailure (line : Z)     (* the [assert] on that line of genotypekit.cpp failed *)
| Throw (e : exception)           (* an exception leaving the function *)
| Undefined                       (* undefined behaviour: a null pointer read, a read past the end of a vector *)
| Diverges.                       (* the loop has not finished within the fuel given *)
Arguments Ok {A} a.
Arguments AssertionFailure {A} line.
Arguments Throw {A} e.
Arguments Undefined {A}.
Arguments Diverges {A}.

#[export] Instance outcome_ret : MRet outcome := fun A a => Ok a.
#[export] Instance outcome_bind : MBind outcome := fun A B k m =>
  match m with
  | Ok a => k a
  | AssertionFailure line => AssertionFailure line
  | Throw e => Throw e
  | Undefined => Undefined
  | Diverges => Diverges
  end.

(** [assert(b)] on line [line], then [k] *)
Definition assert {A} (line : Z) (b : bool) (k : outcome A) : outcome A :=
  if b then k else AssertionFailure line.

Definition is_ok {A} (m : outcome A) : bool :=
  match m with Ok _ => true | _ => false end.

(** The assertions a computation can fail on are among those of the given
    lines. *)
Definition asserts_within {A} (lines : list Z) (m : outcome A) : Prop :=
  forall line, m = AssertionFailure line -> line ∈ lines.

(** A [for] loop over a container whose body may fail *)
Fixpoint foldM {A S} (body : S -> A -> outcome S) (s : S) (l : list A) : outcome S :=
  match l with
  | [] => Ok s
  | x :: l' => s' ← body s x; foldM body s' l'
  end.

(** ** Orderings, and [std::set] as a strictly sorted list *)

Definition lex (c1 c2 : comparison) : comparison :=
  match c1 with Eq => c2 | _ => c1 end.

Definition bool_compare (a b : bool) : comparison :=
  match a, b with
  | false, true => Lt
  | true, false => Gt
  | _, _ => Eq
  end.

Definition node_visit_compare (a b : NodeVisit) : comparison :=
  lex (nv_node_id a ?= nv_node_id b) (bool_compare (nv_backward a) (nv_backward b)).

(** Modelled from the spec: [operator<] on Visits is declared outside
    [src/]; "equality and ordering are structural": node id, then the snarl's
    ends, then the orientation. *)
Definition visit_compare (a b : Visit) : comparison :=
  lex (node_id a ?= node_id b)
   (lex (node_visit_compare (ends_start (snarl a)) (ends_start (snarl b)))
    (lex (node_visit_compare (ends_end (snarl a)) (ends_end (snarl b)))
         (bool_compare (backward a) (backward b)))).

(** [std::lexicographical_compare], three-way *)
Fixpoint list_compare {A} (cmp : A -> A -> comparison) (xs ys : list A) : comparison :=
  match xs, ys with
  | [], [] => Eq
  | [], _ :: _ => Lt
  | _ :: _, [] => Gt
  | x :: xs', y :: ys' => lex (cmp x y) (list_compare cmp xs' ys')
  end.

(** [std::pair]'s ordering *)
Definition pair_compare {A B} (ca : A -> A -> comparison) (cb : B -> B -> comparison)
  (p q : A * B) : comparison := lex (ca p.1 q.1) (cb p.2 q.2).

(** [std::set::insert]: the element goes to its place in the order unless
    an equivalent one is there already. *)
Fixpoint set_insert {A} (cmp : A -> A -> comparison) (x : A) (s : list A) : list A :=
  match s with
  | [] => [x]
  | y :: s' =>
      match cmp x y with
      | Lt => x :: s
      | Eq => s
      | Gt => y :: set_insert cmp x s'
      end
  end.

(** A three-way comparison that is a strict total order whose equivalence
    is equality, which is what [std::set] asks of its ordering. *)
Class LawfulCompare {A} (cmp : A -> A -> comparison) : Prop := {
  cmp_eq : forall a b, cmp a b = Eq -> a = b;
  cmp_refl : forall a, cmp a a = Eq;
  cmp_antisym : forall a b, cmp b a = CompOpp (cmp a b);
  cmp_trans : forall a b c, cmp a b = Lt -> cmp b c = Lt -> cmp a c = Lt
}.

(** The invariant of a [std::set]: strictly increasing in iteration order *)
Definition strictly_sorted {A} (cmp : A -> A -> comparison) (s : list A) : Prop :=
  StronglySorted (fun a b => cmp a b = Lt) s.

(** [set<vector<Visit>>] and [set<pair<size_t, list<Visit>>>] *)
Definition path_compare : list Visit -> list Visit -> comparison := list_compare visit_compare.
Definition sized_path_compare : Z * list Visit -> Z * list Visit -> comparison :=
  pair_compare Z.compare path_compare.

(** ** The Snarl Manager's storage *)

(** A [const Snarl*] handed out by the manager. *)
Record SnarlPtr := mkPtr { ptr_slot : nat; ptr_target : Snarl }.

#[export] Instance SnarlPtr_eq_dec : EqDecision SnarlPtr.
Proof. solve_decision. Defined.

(** [Chain] is [vector<const Snarl*>]; an entry may be null. *)
Definition Chain := list (option SnarlPtr).

(** Modelled from the spec: [SnarlManager] and its [add_snarl]/[add_chain]
    are declared outside [src/].  The manager "owns all Snarl instances and
    the forest of Chains": an arena of records, and the chains registered
    with the snarl they are children of (null for root chains). *)
Record SnarlManager := mkManager {
  snarls : list Snarl;
  chains : list (Chain * option SnarlPtr)
}.

(** [SnarlManager()] *)
Definition SnarlManager_empty : SnarlManager := mkManager [] [].

Definition add_snarl (m : SnarlManager) (new_snarl : Snarl) : SnarlPtr * SnarlManager :=
  (mkPtr (length (snarls m)) new_snarl, mkManager (snarls m ++ [new_snarl]) (chains m)).

Definition add_chain (m : SnarlManager) (new_chain : Chain) (chain_parent : option SnarlPtr)
  : SnarlManager :=
  mkManager (snarls m) (chains m ++ [(new_chain, chain_parent)]).

(** ** CactusSnarlFinder (genotypekit.cpp, 557-919) *)

(** [CactusSide]: the interior endpoint of a boundary node *)
Record CactusSide := mkCactusSide { cs_node : Z; cs_is_end : bool }.

(** [stSnarl] of the cactus library's snarl decomposition, with the
    [CactusSide] objects hung on its two edge ends *)
#[local] Unset Elimination Schemes.
Inductive stSnarl : Type :=
  mk_stSnarl (edgeEnd1 edgeEnd2 : CactusSide)
             (chains : list (list stSnarl)) (unarySnarls : list stSnarl).
#[local] Set Elimination Schemes.

(** What the finder asks of the graph, of the cactus library and of the
    [NetGraph] class, none of which is under [src/]. *)
Class SnarlFinderEnv := {
  VG : Type;
  (** [graph.size()] *)
  graph_size : VG -> Z;
  (** [vg_to_cactus] followed by [stCactusGraph_getSnarlDecomposition]:
      the top-level chains and the top-level unary snarls *)
  snarl_decomposition : VG -> list (list stSnarl) * list stSnarl;
  NetGraph : Type;
  handle_t : Type;
  handle_eq_dec :: EqDecision handle_t;
  handle_countable :: Countable handle_t;
  (** [NetGraph(start, end, child_chains, &graph, use_internal_connectivity)] *)
  NetGraph_new : Visit -> Visit -> list Chain -> VG -> bool -> NetGraph;
  get_handle : NetGraph -> Z -> bool -> handle_t;
  flip : NetGraph -> handle_t -> handle_t;
  (** the handles [follow_edges(here, go_left, ...)] passes to its callback, in order *)
  follow_edges : NetGraph -> handle_t -> bool -> list handle_t;
  (** every handle of the net graph (a net graph is finite) *)
  net_handles : NetGraph -> list handle_t;
  (** [algorithms::is_directed_acyclic] *)
  is_directed_acyclic : NetGraph -> bool;
  (** [follow_edges] yields handles of the net graph *)
  follow_edges_handles : forall net here go_left other,
    In other (follow_edges net here go_left) -> In other (net_handles net)
}.

Section CactusSnarlFinder.
Context {env : SnarlFinderEnv}.

(** The [handle_edge] callback: queue a handle the first time it is seen. *)
Definition handle_edge (st : list handle_t * gset handle_t) (other : handle_t)
  : list handle_t * gset handle_t :=
  let '(queue, queued) := st in
  if decide (other ∈ queued) then (queue, queued)
  else (queue ++ [other], {[other]} ∪ queued).

(** The first search (769-790): from the start, looking for the end and for
    the start turned around.  Returns (connected_start_end,
    connected_start_start). *)
Fixpoint search_from_start (fuel : nat) (net : NetGraph) (start_handle end_handle : handle_t)
  (queue : list handle_t) (queued : gset handle_t)
  (connected_start_end connected_start_start : bool) : bool * bool :=
  match fuel with
  | O => (connected_start_end, connected_start_start)
  | S fuel' =>
      match queue with
      | [] => (connected_start_end, connected_start_start)
      | here :: queue =>
          let connected_start_end :=
            if decide (here = end_handle) then true else connected_start_end in
          let connected_start_start :=
            if decide (here = flip net start_handle) then true else connected_start_start in
          if connected_start_end && connected_start_start
          then (connected_start_end, connected_start_start)
          else
            let '(queue, queued) :=
              fold_left handle_edge (follow_edges net here false) (queue, queued) in
            search_from_start fuel' net start_handle end_handle queue queued
              connected_start_end connected_start_start
      end
  end.

(** The second search (800-819): from the end turned inward, looking for the
    end.  Returns connected_end_end. *)
Fixpoint search_from_end (fuel : nat) (net : NetGraph) (end_handle : handle_t)
  (queue : list handle_t) (queued : gset handle_t) : bool :=
  match fuel with
  | O => false
  | S fuel' =>
      match queue with
      | [] => false
      | here :: queue =>
          if decide (here = end_handle) then true
          else
            let '(queue, queued) :=
              fold_left handle_edge (follow_edges net here false) (queue, queued) in
            search_from_end fuel' net end_handle queue queued
      end
  end.

(** A search queues each handle at most once, so after the seed it dequeues
    at most as many handles as the net graph has. *)
Definition search_fuel (net : NetGraph) : nat := S (length (net_handles net)).

(** The loop over the children (868-879), with its two [break]s; reading
    the type through a null child pointer is undefined. *)
Fixpoint chain_all_ultrabubble (chain : Chain) : outcome bool :=
  match chain with
  | [] => Ok true
  | None :: _ => Undefined
  | Some child :: chain' =>
      if decide (type (ptr_target child) = ULTRABUBBLE)
      then chain_all_ultrabubble chain'
      else Ok false
  end.

Fixpoint all_ultrabubble_children (child_chains : list Chain) : outcome bool :=
  match child_chains with
  | [] => Ok true
  | chain :: rest =>
      still_all ← chain_all_ultrabubble chain;
      if (still_all : bool) then all_ultrabubble_children rest else Ok false
  end.

(** Lines 846-904: the type of a snarl whose connectivity flags are set. *)
Definition classify (start end_ : Visit) (snarl : Snarl) (child_chains : list Chain)
  : outcome SnarlType :=
  if decide (node_id start = node_id end_) then Ok UNARY
  else if negb (start_end_reachable snarl) then Ok UNCLASSIFIED
  else if start_self_reachable snarl || end_self_reachable snarl then Ok UNCLASSIFIED
  else
    all_ultrabubble ← all_ultrabubble_children child_chains;
    if negb all_ultrabubble then Ok UNCLASSIFIED
    else if negb (directed_acyclic_net_graph snarl) then Ok UNCLASSIFIED
    else Ok ULTRABUBBLE.

(** Lines 732-843: connectivity and acyclicity of a real snarl. *)
Definition set_connectivity (graph : VG) (start end_ : Visit) (child_chains : list Chain)
  (snarl : Snarl) : Snarl :=
  let connectivity_net_graph := NetGraph_new start end_ child_chains graph true in
  let start_handle := get_handle connectivity_net_graph (node_id start) (backward start) in
  let end_handle := get_handle connectivity_net_graph (node_id end_) (backward end_) in
  let '(connected_start_end, connected_start_start) :=
    search_from_start (search_fuel connectivity_net_graph) connectivity_net_graph
      start_handle end_handle [start_handle] {[start_handle]} false false in
  let end_inward := flip connectivity_net_graph end_handle in
  let connected_end_end :=
    search_from_end (search_fuel connectivity_net_graph) connectivity_net_graph
      end_handle [end_inward] {[end_inward]} in
  let snarl := set_start_self_reachable snarl connected_start_start in
  let snarl := set_end_self_reachable snarl connected_end_end in
  let snarl := set_start_end_reachable snarl connected_start_end in
  let flat_net_graph := NetGraph_new start end_ child_chains graph false in
  set_directed_acyclic_net_graph snarl (is_directed_acyclic flat_net_graph).

(** Child boundaries from the cactus sides (678-686): inward at the start,
    outward at the end. *)
Definition child_start_of (child_snarl : stSnarl) : Visit :=
  match child_snarl with
  | mk_stSnarl cac_child_side1 _ _ _ =>
      to_visit (cs_node cac_child_side1) (negb (cs_is_end cac_child_side1))
  end.
Definition child_end_of (child_snarl : stSnarl) : Visit :=
  match child_snarl with
  | mk_stSnarl _ cac_child_side2 _ _ =>
      to_visit (cs_node cac_child_side2) (cs_is_end cac_child_side2)
  end.

(** The body of [recursively_emit_snarls], with the recursive call on a
    child of this snarl as [recurse]. *)
Definition emit_snarls_body (graph : VG)
  (recurse : stSnarl -> SnarlManager -> outcome (option SnarlPtr * SnarlManager))
  (start end_ parent_start parent_end : Visit)
  (chains_list : list (list stSnarl)) (unary_snarls_list : list stSnarl)
  (destination : SnarlManager) : outcome (option SnarlPtr * SnarlManager) :=
  let snarl := Snarl_default in
  let snarl :=
    if negb (bool_decide (node_id start = 0)) && negb (bool_decide (node_id end_ = 0)) then
      (* This is a real snarl *)
      let snarl := set_ends snarl start end_ in
      if negb (bool_decide (node_id parent_start = 0)) &&
         negb (bool_decide (node_id parent_end = 0))
      then set_parent snarl parent_start parent_end
      else snarl
    else snarl in
  (* one chain per cactus chain *)
  '(child_chains, destination) ←
    foldM (fun '(child_chains, destination) cactus_chain =>
             '(chain, destination) ←
               foldM (fun '(chain, destination) child_snarl =>
                        '(managed_child, destination) ← recurse child_snarl destination;
                        Ok (chain ++ [managed_child], destination))
                     ([], destination) cactus_chain;
             Ok (child_chains ++ [chain], destination))
          ([], destination) chains_list;
  (* a trivial chain per unary child *)
  '(child_chains, destination) ←
    foldM (fun '(child_chains, destination) child_snarl =>
             '(managed_child, destination) ← recurse child_snarl destination;
             Ok (child_chains ++ [[managed_child]], destination))
          (child_chains, destination) unary_snarls_list;
  '(managed, destination) ←
    (if has_an_end snarl then
       let snarl := set_connectivity graph start end_ child_chains snarl in
       t ← classify start end_ snarl child_chains;
       let snarl := set_type snarl t in
       let '(managed, destination) := add_snarl destination snarl in
       Ok (Some managed, destination)
     else Ok (None, destination));
  let destination :=
    fold_left (fun destination chain => add_chain destination chain managed)
              child_chains destination in
  Ok (managed, destination).

(** The recursive call made for one child snarl of a snarl running from
    [start] to [end_]. *)
Fixpoint emit_child (graph : VG) (start end_ : Visit) (child_snarl : stSnarl)
  (destination : SnarlManager) {struct child_snarl}
  : outcome (option SnarlPtr * SnarlManager) :=
  match child_snarl with
  | mk_stSnarl _ _ child_chains child_unarySnarls =>
      emit_snarls_body graph
        (fun grandchild => emit_child graph (child_start_of child_snarl)
                                      (child_end_of child_snarl) grandchild)
        (child_start_of child_snarl) (child_end_of child_snarl) start end_
        child_chains child_unarySnarls destination
  end.

Definition recursively_emit_snarls (graph : VG) (start end_ parent_start parent_end : Visit)
  (chains_list : list (list stSnarl)) (unary_snarls_list : list stSnarl)
  (destination : SnarlManager) : outcome (option SnarlPtr * SnarlManager) :=
  emit_snarls_body graph (emit_child graph start end_)
    start end_ parent_start parent_end chains_list unary_snarls_list destination.

Definition find_snarls (graph : VG) : outcome SnarlManager :=
  if bool_decide (graph_size graph = 0) then
    (* No snarls here! *)
    Ok SnarlManager_empty
  else
    let '(cactus_chains_list, cactus_unary_snarls_list) := snarl_decomposition graph in
    let snarl_manager := SnarlManager_empty in
    '(_, snarl_manager) ←
      recursively_emit_snarls graph Visit_default Visit_default Visit_default Visit_default
        cactus_chains_list cactus_unary_snarls_list snarl_manager;
    Ok snarl_manager.

End CactusSnarlFinder.

(** ** RepresentativeTraversalFinder (genotypekit.cpp, 1505-2699) *)

(** [NodeSide], [Node] (its id and the length of its sequence) and [Edge] *)
Record NodeSide := mkNodeSide { ns_node : Z; ns_is_end : bool }.
Record Node := mkNode { id : Z; sequence_size : Z }.
Record Edge := mkEdge { from : Z; from_start : bool; to : Z; to_end : bool }.

#[export] Instance NodeSide_eq_dec : EqDecision NodeSide.
Proof. solve_decision. Defined.
#[export] Instance Edge_eq_dec : EqDecision Edge.
Proof. solve_decision. Defined.
#[export] Instance Node_eq_dec : EqDecision Node.
Proof. solve_decision. Defined.

(** What the finder writes to [cerr] outside debug builds *)
Inductive message : Type :=
| StoppingForOutOfBoundsNode              (* line 1618, when verbose *)
| RanOutOfRef                             (* line 1859 *)
| NoPathFoundForNode (node : Z)           (* line 1952, when verbose *)
| NoPathFoundForEdge (from to : Z)        (* line 2010, when verbose *)
| NoPathFoundForChild (child : Snarl).    (* line 2041, when verbose *)

(** [PathIndex]: [by_id] maps a node id to its (offset, orientation) on the
    path; [by_start] maps an offset to the visit starting there
    ([found->second.to_visit()]), listed in key order as [std::map] holds
    it. *)
Record PathIndex := mkPathIndex {
  by_id : gmap Z (Z * bool);
  by_start : list (Z * Visit)
}.

(** [index.by_id.count(id)] *)
Definition by_id_count (index : PathIndex) (node : Z) : bool :=
  bool_decide (is_Some (by_id index !! node)).

(** [index.by_id.at(id)] *)
Definition by_id_at (index : PathIndex) (node : Z) : outcome (Z * bool) :=
  match by_id index !! node with
  | Some pos => Ok pos
  | None => Throw out_of_range
  end.

(** [index.by_start.lower_bound(key)]: the first entry whose key is not
    below [key]; [None] is [by_start.end()]. *)
Definition lower_bound (index : PathIndex) (key : Z) : option (Z * Visit) :=
  List.find (fun entry => key <=? entry.1) (by_start index).

(** What the finder asks of the augmented graph, of the Snarl Manager and of
    its own configuration. *)
Class TraversalFinderEnv := {
  (** the node of the graph with a given id, if there is one *)
  graph_node : Z -> option Node;
  (** [augmented.graph.get_edge(side, side)]; null when there is none *)
  get_edge : NodeSide -> NodeSide -> option Edge;
  has_supports : bool;
  get_support_node : Node -> SupportOps.Support;
  get_support_edge : Edge -> SupportOps.Support;
  (** [to_left_side], [to_right_side] of a visit *)
  to_left_side : Visit -> NodeSide;
  to_right_side : Visit -> NodeSide;
  (** [snarl_manager.manage(site)] *)
  manage : Snarl -> SnarlPtr;
  (** [snarl_manager.into_which_snarl(visit)] and [(id, reverse)] *)
  into_which_snarl_visit : Visit -> option SnarlPtr;
  into_which_snarl : Z -> bool -> option SnarlPtr;
  (** [snarl_manager.visits_left(visit, graph, in_snarl)] *)
  visits_left : Visit -> SnarlPtr -> list Visit;
  (** [snarl_manager.shallow_contents(&site, graph, true)], each set in its
      iteration order *)
  shallow_contents : Snarl -> list Node * list Edge;
  (** [snarl_manager.children_of(&site)] *)
  children_of : Snarl -> list SnarlPtr;
  (** [get_index(site)]; null when the site is on no indexed path *)
  get_index : Snarl -> option PathIndex;
  (** [PathIndex(find_backbone(site))]; the assertions on its way are those
      of lines 1434 and 1523 *)
  backbone_index : Snarl -> outcome PathIndex;
  backbone_index_assertions :
    forall site line, backbone_index site = AssertionFailure line ->
                      line = 1434 \/ line = 1523;
  max_depth : Z;
  max_width : Z;
  max_bubble_paths : Z;
  verbose : bool;
  (** the three limits are [size_t] *)
  max_depth_range : 0 <= max_depth < 2 ^ 64;
  max_width_range : 0 <= max_width < 2 ^ 64;
  max_bubble_paths_range : 0 <= max_bubble_paths < 2 ^ 64
}.

Section RepresentativeTraversalFinder.
Context {env : TraversalFinderEnv}.

(** [augmented.graph.get_node(id)]; it throws on an id the graph lacks *)
Definition get_node (id : Z) : outcome Node :=
  match graph_node id with
  | Some node => Ok node
  | None => Throw (runtime_error GraphError)
  end.

(** [bp_length] (2689-2699) *)
Definition bp_length (path : list Visit) : outcome Z :=
  foldM (fun length visit =>
           if negb (bool_decide (node_id visit = 0)) then
             node ← get_node (node_id visit);
             Ok (wrap64 (length + sequence_size node))
           else Ok length)
        0 path.

(** The state of the search loop of [bfs_left] *)
Record bfs_state := mkBfs {
  toReturn : list (Z * list Visit);
  toExtend : list (list Visit);
  alreadyQueued : gset Visit;
  stillToExtend : Z
}.

(** [toReturn.emplace(bp_length(path), move(path))] *)
Definition bfs_emit (st : bfs_state) (path : list Visit) : outcome bfs_state :=
  length ← bp_length path;
  Ok (mkBfs (set_insert sized_path_compare (length, path) (toReturn st))
            (toExtend st) (alreadyQueued st) (stillToExtend st)).

(** The body of the loop over [prevVisits] (2566-2651): one candidate
    extension of [path]. *)
Definition bfs_consider (stopIfVisited : bool) (path : list Visit) (front : Visit)
  (st : bfs_state) (prevVisit : Visit) : outcome bfs_state :=
  rejected ←
    (if negb (bool_decide (node_id prevVisit = 0)) then
       (* This is a visit to a node *)
       match get_edge (to_right_side prevVisit) (to_left_side front) with
       | None => AssertionFailure 2575
       | Some edge =>
           prevNode ← get_node (node_id prevVisit);
           Ok (has_supports &&
               (SupportOps.total_is_zero (get_support_node prevNode) ||
                SupportOps.total_is_zero (get_support_edge edge)))
       end
     else
       (* This is a visit to a child snarl *)
       prevNode ← get_node (ns_node (to_left_side prevVisit));
       Ok (has_supports && SupportOps.total_is_zero (get_support_node prevNode)));
  if (rejected : bool) then Ok st
  else if stopIfVisited && bool_decide (prevVisit ∈ alreadyQueued st) then Ok st
  else if max_width <=? stillToExtend st then Ok st
  else
    let extended := prevVisit :: path in
    Ok (mkBfs (toReturn st) (toExtend st ++ [extended])
              ({[prevVisit]} ∪ alreadyQueued st)
              (wrap64 (stillToExtend st + 1))).

(** One turn of the [while (!toExtend.empty())] loop (2490-2661), for the
    dequeued [path]; [st] is the state after the dequeue. *)
Definition bfs_visit (index : PathIndex) (stopIfVisited : bool) (in_snarl : SnarlPtr)
  (st : bfs_state) (path : list Visit) : outcome bfs_state :=
  match path with
  | [] => Undefined
  | front :: _ =>
      if negb (bool_decide (node_id front = 0)) && by_id_count index (node_id front) then
        bfs_emit st path
      else if bool_decide (node_id front = 0) && negb (backward front) &&
              by_id_count index (node_id (visit_snarl_start front)) then
        bfs_emit st path
      else if bool_decide (node_id front = 0) && backward front &&
              by_id_count index (node_id (visit_snarl_end front)) then
        bfs_emit st path
      else if Z.of_nat (length path) <=? max_depth then
        let prevVisits := visits_left front in_snarl in
        foldM (bfs_consider stopIfVisited path front) st prevVisits
      else if max_depth <=? Z.of_nat (length path) then
        Ok st
      else AssertionFailure 2658
  end.

(** [toExtend.pop_front(); stillToExtend--;] with [rest] the queue behind
    its front *)
Definition bfs_dequeue (st : bfs_state) (rest : list (list Visit)) : bfs_state :=
  mkBfs (toReturn st) rest (alreadyQueued st) (wrap64 (stillToExtend st - 1)).

Fixpoint bfs_loop (fuel : nat) (index : PathIndex) (stopIfVisited : bool)
  (in_snarl : SnarlPtr) (st : bfs_state) : outcome (list (Z * list Visit)) :=
  match toExtend st with
  | [] => Ok (toReturn st)
  | path :: rest =>
      match fuel with
      | O => Diverges
      | S fuel' =>
          let st := bfs_dequeue st rest in
          st ← bfs_visit index stopIfVisited in_snarl st path;
          bfs_loop fuel' index stopIfVisited in_snarl st
      end
  end.

(** The state [bfs_left] starts its loop in (2463-2488) *)
Definition bfs_init (visit : Visit) : bfs_state :=
  mkBfs [] [[visit]] {[visit]} 1.

(** The number of partial paths the search can dequeue when it starts from
    [front] with [depth] extensions to go: this one, and those of every
    candidate extension. *)
Fixpoint search_space (in_snarl : SnarlPtr) (depth : nat) (front : Visit) : nat :=
  match depth with
  | O => 1
  | S depth' =>
      S (list_sum (map (search_space in_snarl depth') (visits_left front in_snarl)))
  end.

Definition bfs_left (visit : Visit) (index : PathIndex) (stopIfVisited : bool)
  (in_snarl : SnarlPtr) : outcome (list (Z * list Visit)) :=
  bfs_loop (search_space in_snarl (Z.to_nat max_depth) visit)
           index stopIfVisited in_snarl (bfs_init visit).

(** The states the [while(!toExtend.empty())] loop of [bfs_left] (2490-2661)
    starts a turn in, when the search is called on [visit]: the state the
    loop is entered with, and the state a turn leaves behind, which is the
    state before it with the path at the front of the queue taken off and
    visited. *)
Inductive loop_state (index : PathIndex) (stopIfVisited : bool) (in_snarl : SnarlPtr)
  (visit : Visit) : bfs_state -> Prop :=
| loop_entered :
    loop_state index stopIfVisited in_snarl visit (bfs_init visit)
| loop_turned st path rest st' :
    loop_state index stopIfVisited in_snarl visit st ->
    toExtend st = path :: rest ->
    bfs_visit index stopIfVisited in_snarl (bfs_dequeue st rest) path = Ok st' ->
    loop_state index stopIfVisited in_snarl visit st'.

(** The counter [stillToExtend] is the length of the queue, and the queue
    is no longer than the greater of 1 and [max_width]. *)
Definition width_kept (st : bfs_state) : Prop :=
  stillToExtend st = Z.of_nat (length (toExtend st)) /\
  Z.of_nat (length (toExtend st)) <= Z.max 1 max_width.

(** [bfs_right] (2666-2687) *)
Definition bfs_right (visit : Visit) (index : PathIndex) (stopIfVisited : bool)
  (in_snarl : SnarlPtr) : outcome (list (Z * list Visit)) :=
  toConvert ← bfs_left (reverse visit) index stopIfVisited in_snarl;
  Ok (fold_left (fun toReturn lengthAndPath =>
                   let second := map reverse (rev lengthAndPath.2) in
                   set_insert sized_path_compare (lengthAndPath.1, second) toReturn)
                toConvert []).

(** [min_support_in_path] (2394-2457): the loop over each visit [cur] and
    its successor *)
Fixpoint min_support_loop (cur : Visit) (rest : list Visit)
  (supportFound : bool) (minSupport : SupportOps.Support) : outcome SupportOps.Support :=
  match rest with
  | [] => Ok minSupport
  | next :: rest' =>
      '(supportFound, minSupport) ←
        (if negb (bool_decide (node_id next = 0)) then
           node ← get_node (node_id next);
           let nextSupport := get_support_node node in
           if (supportFound : bool)
           then Ok (true, SupportOps.support_min minSupport nextSupport)
           else Ok (true, nextSupport)
         else Ok (supportFound, minSupport));
      let '(supportFound, minSupport) :=
        match get_edge (to_right_side cur) (to_left_side next) with
        | Some edge =>
            let edgeSupport := get_support_edge edge in
            if (supportFound : bool)
            then (true, SupportOps.support_min minSupport edgeSupport)
            else (true, edgeSupport)
        | None => (supportFound, minSupport)
        end in
      min_support_loop next rest' supportFound minSupport
  end.

Definition min_support_in_path (path : list Visit) : outcome SupportOps.Support :=
  match path with
  | [] => Ok SupportOps.Support_default
  | cur :: rest =>
      '(supportFound, minSupport) ←
        (if negb (bool_decide (node_id cur = 0)) then
           node ← get_node (node_id cur);
           Ok (true, get_support_node node)
         else Ok (false, SupportOps.Support_default));
      min_support_loop cur rest supportFound minSupport
  end.

(** [find_bubble] (2115-2392) *)

(** Lines 2119-2184: the two visits the search starts from. *)
Definition seed_visits (node : option Node) (edge : option Edge) (snarl : option SnarlPtr)
  (managed_site : SnarlPtr) : outcome (Visit * Visit) :=
  match edge with
  | Some edge =>
      (* Be edge-based *)
      let left_visit := to_visit (from edge) (from_start edge) in
      let right_visit := to_visit (to edge) (to_end edge) in
      let right_child := into_which_snarl_visit right_visit in
      let left_child := into_which_snarl_visit left_visit in
      right_visit ←
        match right_child with
        | Some child =>
            if negb (bool_decide (child = managed_site)) &&
               negb (bool_decide (into_which_snarl_visit (reverse right_visit)
                                  = Some managed_site))
            then
              let right_child_visit := to_visit_snarl (ptr_target child) in
              let right_child_visit :=
                if negb (bool_decide (to_left_side right_visit
                                      = to_left_side right_child_visit))
                then reverse right_child_visit else right_child_visit in
              assert 2149 (bool_decide (to_left_side right_visit
                                        = to_left_side right_child_visit))
                     (Ok right_child_visit)
            else Ok right_visit
        | None => Ok right_visit
        end;
      left_visit ←
        match left_child with
        | Some child =>
            if negb (bool_decide (child = managed_site)) &&
               negb (bool_decide (into_which_snarl_visit (reverse left_visit)
                                  = Some managed_site))
            then
              let left_child_visit := to_visit_snarl (ptr_target child) in
              let left_child_visit :=
                if negb (bool_decide (to_right_side left_visit
                                      = to_right_side left_child_visit))
                then reverse left_child_visit else left_child_visit in
              assert 2168 (bool_decide (to_right_side left_visit
                                        = to_right_side left_child_visit))
                     (Ok left_child_visit)
            else Ok left_visit
        | None => Ok left_visit
        end;
      Ok (left_visit, right_visit)
  | None =>
      match node with
      | Some node =>
          (* Be node-based *)
          Ok (to_visit (id node) false, to_visit (id node) false)
      | None =>
          (* Be snarl-based *)
          match snarl with
          | Some snarl => Ok (to_visit_snarl (ptr_target snarl), to_visit_snarl (ptr_target snarl))
          | None => AssertionFailure 2182
          end
      end
  end.

(** The best path so far with its support, and [bubbleCount] *)
Record bubble_state := mkBubble {
  bestBubblePath : SupportOps.Support * list Visit;
  bubbleCount : Z
}.

(** What a left path contributes to every pairing (2226-2255) *)
Record left_half := mkLeftHalf {
  leftPath : list Visit;
  leftRefPos : Z * bool;
  leftRelativeOrientation : bool;
  leftPathNodes : gset Z;
  leftPathSnarls : gset SnarlEnds;
  minLeftSupport : SupportOps.Support
}.

Definition left_half_of (index : PathIndex) (leftPath : list Visit) : outcome left_half :=
  match leftPath with
  | [] => Undefined
  | front :: _ =>
      let leftSide := to_left_side front in
      let leftOrientation := ns_is_end leftSide in
      leftRefPos ← by_id_at index (ns_node leftSide);
      let leftRelativeOrientation := xorb leftOrientation leftRefPos.2 in
      let '(leftPathNodes, leftPathSnarls) :=
        fold_left (fun acc visit =>
                     if negb (bool_decide (node_id visit = 0))
                     then ({[node_id visit]} ∪ fst acc, snd acc)
                     else (fst acc, {[snarl visit]} ∪ snd acc))
                  leftPath ((∅ : gset Z), (∅ : gset SnarlEnds)) in
      minLeftSupport ← min_support_in_path leftPath;
      Ok (mkLeftHalf leftPath leftRefPos leftRelativeOrientation
                     leftPathNodes leftPathSnarls minLeftSupport)
  end.

(** The body of the loop over the right paths (2257-2368).  The boolean
    says that the loop hit [return bestBubblePath]. *)
Definition try_right_path (from_edge : bool) (index : PathIndex) (lh : left_half)
  (st : bubble_state) (rightPath : list Visit) : outcome (bool * bubble_state) :=
  match last rightPath with
  | None => Undefined
  | Some back =>
      let rightSide := to_right_side back in
      let rightOrientation := negb (ns_is_end rightSide) in
      rightRefPos ← by_id_at index (ns_node rightSide);
      let rightRelativeOrientation := xorb rightOrientation rightRefPos.2 in
      minRightSupport ← min_support_in_path rightPath;
      if Bool.eqb (leftRelativeOrientation lh) rightRelativeOrientation &&
         ((negb (leftRelativeOrientation lh) && ((leftRefPos lh).1 <? rightRefPos.1)) ||
          (leftRelativeOrientation lh && (rightRefPos.1 <? (leftRefPos lh).1)))
      then
        let minFullSupport := SupportOps.support_min (minLeftSupport lh) minRightSupport in
        let '(fullPath, overlap) :=
          fold_left (fun acc it =>
                       (fst acc ++ [it],
                        if negb (bool_decide (node_id it = 0))
                        then (if bool_decide (node_id it ∈ leftPathNodes lh)
                              then true else snd acc)
                        else (if bool_decide (snarl it ∈ leftPathSnarls lh)
                              then true else snd acc)))
                    (if from_edge then rightPath else tail rightPath)
                    (leftPath lh, false) in
        if (overlap : bool) then Ok (false, st)
        else
          let fullPath :=
            if leftRelativeOrientation lh then map reverse (rev fullPath) else fullPath in
          let best := bestBubblePath st in
          let best :=
            if PrimFloat.ltb (SupportOps.total best.1) (SupportOps.total minFullSupport) ||
               (PrimFloat.eqb (SupportOps.total minFullSupport) (SupportOps.total best.1) &&
                bool_decide (best.2 = []))
            then (minFullSupport, fullPath) else best in
          let bubbleCount := bubbleCount st + 1 in
          Ok (bool_decide (max_bubble_paths <= bubbleCount), mkBubble best bubbleCount)
      else Ok (false, st)
  end.

Fixpoint try_right_paths (from_edge : bool) (index : PathIndex) (lh : left_half)
  (st : bubble_state) (rightList : list (list Visit)) : outcome (bool * bubble_state) :=
  match rightList with
  | [] => Ok (false, st)
  | rightPath :: rightList' =>
      '(returned, st) ← try_right_path from_edge index lh st rightPath;
      if (returned : bool) then Ok (true, st)
      else try_right_paths from_edge index lh st rightList'
  end.

(** [testCombinations] (2206-2375) *)
Fixpoint testCombinations (from_edge : bool) (index : PathIndex) (st : bubble_state)
  (leftList rightList : list (list Visit)) : outcome (SupportOps.Support * list Visit) :=
  match leftList with
  | [] => Ok (bestBubblePath st)
  | leftPath :: leftList' =>
      lh ← left_half_of index leftPath;
      '(returned, st) ← try_right_paths from_edge index lh st rightList;
      if (returned : bool) then Ok (bestBubblePath st)
      else testCombinations from_edge index st leftList' rightList
  end.

Definition find_bubble (node : option Node) (edge : option Edge) (snarl : option SnarlPtr)
  (index : PathIndex) (site : Snarl) : outcome (SupportOps.Support * list Visit) :=
  let managed_site := manage site in
  '(left_visit, right_visit) ← seed_visits node edge snarl managed_site;
  leftPaths ← bfs_left left_visit index false managed_site;
  rightPaths ← bfs_right right_visit index false managed_site;
  let bestBubblePath := (SupportOps.Support_default, ([] : list Visit)) in
  let bubbleCount := 0 in
  let leftConverted := map snd leftPaths in
  let rightConverted := map snd rightPaths in
  testCombinations (bool_decide (is_Some edge)) index
                   (mkBubble bestBubblePath bubbleCount) leftConverted rightConverted.

(** [find_traversals] (1536-2113) *)

(** Lines 1546-1570: the primary path's index when the site is strung
    along it, the index of a backbone made for the site otherwise. *)
Definition choose_index (site : Snarl) : outcome PathIndex :=
  match get_index site with
  | None => backbone_index site
  | Some primary_path_index =>
      if negb (by_id_count primary_path_index (node_id (start site))) ||
         negb (by_id_count primary_path_index (node_id (end_ site)))
      then backbone_index site
      else Ok primary_path_index
  end.

(** The [do ... while (!contents.first.count(here))] loop (1651-1666) that
    skips to the far end of a child.  Returns [ref_node_start], [found] and
    [here]. *)
Fixpoint skip_child (fuel : nat) (index : PathIndex) (contents_first : list Node)
  (found : Z * Visit) (here : Node) : outcome (Z * (Z * Visit) * Node) :=
  match fuel with
  | O => Diverges
  | S fuel' =>
      let ref_node_start := wrap64 (found.1 + sequence_size here) in
      match lower_bound index ref_node_start with
      | None => AssertionFailure 1659
      | Some found =>
          let found_visit := found.2 in
          here ← get_node (node_id found_visit);
          if negb (bool_decide (here ∈ contents_first))
          then skip_child fuel' index contents_first found here
          else Ok (ref_node_start, found, here)
      end
  end.

(** The state of the tracing loop *)
Record trace_state := mkTrace {
  ref_node_start : Z;
  ref_path_for_site : list Visit;
  nodes_left : list Node;
  trace_log : list message
}.

(** The branch that visits a child snarl (1632-1689) *)
Definition trace_child (index : PathIndex) (contents_first : list Node) (child : SnarlPtr)
  (found : Z * Visit) (visited_node : Node) (st : trace_state) : outcome trace_state :=
  let found_visit := found.2 in
  backward ←
    (if visit_eqb found_visit (start (ptr_target child)) then Ok false
     else assert 1642 (visit_eqb found_visit (reverse (end_ (ptr_target child)))) (Ok true));
  let child_visit := mkVisit 0 (ends_of (ptr_target child)) backward in
  let ref_path := ref_path_for_site st ++ [child_visit] in
  '(ref_node_start, found, here) ←
    skip_child (S (length (by_start index))) index contents_first found visited_node;
  let found_visit := found.2 in
  '(ref_node_start, found, here) ←
    (if bool_decide (is_Some (into_which_snarl_visit (reverse found_visit))) then
       if negb (bool_decide (is_Some (into_which_snarl_visit found_visit))) then
         let ref_node_start := wrap64 (found.1 + sequence_size here) in
         match lower_bound index ref_node_start with
         | None => AssertionFailure 1675
         | Some found =>
             here ← get_node (node_id found.2);
             Ok (ref_node_start, found, here)
         end
       else Ok (ref_node_start, found, here)
     else Ok (ref_node_start, found, here));
  assert 1689 (bool_decide (here ∈ contents_first))
         (Ok (mkTrace ref_node_start ref_path (nodes_left st) (trace_log st))).

(** The [while (ref_node_start <= primary_max)] loop (1604-1710) *)
Fixpoint trace_loop (fuel : nat) (index : PathIndex) (managed_site : SnarlPtr)
  (contents_first : list Node) (primary_max : Z) (st : trace_state) : outcome trace_state :=
  if ref_node_start st <=? primary_max then
    match fuel with
    | O => Diverges
    | S fuel' =>
        match lower_bound index (ref_node_start st) with
        | None => Throw (runtime_error NoBackboneNodeFound)
        | Some found =>
            if primary_max <? found.1 then
              Ok (mkTrace (ref_node_start st) (ref_path_for_site st) (nodes_left st)
                          (trace_log st ++ if verbose then [StoppingForOutOfBoundsNode] else []))
            else
              let found_visit := found.2 in
              visited_node ← get_node (node_id found_visit);
              let visit_node :=
                Ok (mkTrace (wrap64 (found.1 + sequence_size visited_node))
                            (ref_path_for_site st ++ [found_visit])
                            (filter (fun node => negb (bool_decide (node = visited_node)))
                                    (nodes_left st))
                            (trace_log st)) in
              st ←
                match into_which_snarl_visit found_visit with
                | Some child =>
                    if negb (bool_decide (child = managed_site)) &&
                       negb (bool_decide (into_which_snarl_visit (reverse found_visit)
                                          = Some managed_site))
                    then trace_child index contents_first child found visited_node st
                    else visit_node
                | None => visit_node
                end;
              trace_loop fuel' index managed_site contents_first primary_max st
        end
    end
  else Ok st.

(** Lines 1716-1732: a node of the site that the trace did not visit must
    not be on the backbone, unless it is the boundary of a child. *)
Definition check_nodes_left (index : PathIndex) (nodes_left : list Node) : outcome unit :=
  foldM (fun _ node =>
           if bool_decide (is_Some (into_which_snarl (id node) true)) ||
              bool_decide (is_Some (into_which_snarl (id node) false))
           then Ok tt
           else if by_id_count index (id node)
                then Throw (runtime_error ExtraRefNodeFound)
                else Ok tt)
        tt nodes_left.

(** [frontier_visit] (1772-1788) *)
Definition frontier_visit (visit : Visit) (left_side : bool) : Visit :=
  if negb (bool_decide (node_id visit = 0)) then visit
  else if backward visit && negb left_side then reverse (visit_snarl_start visit)
  else if negb (backward visit) && negb left_side then visit_snarl_end visit
  else if backward visit then reverse (visit_snarl_end visit)
  else visit_snarl_start visit.

(** The first loop of [extend_into_allele] (1790-1799): copy the reference
    path up to the visit the bubble starts at.  [ref_rest] is the part of
    the reference path from [ref_path_index] on; the source reads
    [ref_path_for_site[ref_path_index]] without a bound check. *)
Fixpoint copy_to_left_anchor (ref_rest : list Visit) (path_front : Visit)
  (ref_path_index : nat) (extended_path : list Visit) : outcome (nat * list Visit) :=
  match ref_rest with
  | [] => Undefined
  | ref_visit :: ref_rest' =>
      if negb (visit_eqb (frontier_visit ref_visit false) (frontier_visit path_front true)) &&
         negb (bool_decide (node_id path_front = 0) &&
               visit_eqb (frontier_visit ref_visit false) (frontier_visit path_front false))
      then copy_to_left_anchor ref_rest' path_front (S ref_path_index)
                               (extended_path ++ [ref_visit])
      else Ok (ref_path_index, extended_path)
  end.

(** The scan for the exit (1828-1854): the index of the first reference
    visit from [ref_path_index] on that matches the end of the bubble, or
    the size of the reference path. *)
Fixpoint skip_to_exit (ref_rest : list Visit) (path_back : Visit) (ref_path_index : nat)
  : nat :=
  match ref_rest with
  | [] => ref_path_index
  | ref_visit :: ref_rest' =>
      if visit_eqb (frontier_visit ref_visit true) (frontier_visit path_back false) ||
         (bool_decide (node_id path_back = 0) &&
          visit_eqb (frontier_visit ref_visit false) (frontier_visit path_back false))
      then ref_path_index
      else skip_to_exit ref_rest' path_back (S ref_path_index)
  end.

(** The scan after the restart (1862-1866) *)
Fixpoint skip_to_exit_again (ref_rest : list Visit) (path_back : Visit) (ref_path_index : nat)
  : nat :=
  match ref_rest with
  | [] => ref_path_index
  | ref_visit :: ref_rest' =>
      if negb (visit_eqb (frontier_visit ref_visit true) (frontier_visit path_back false))
      then skip_to_exit_again ref_rest' path_back (S ref_path_index)
      else ref_path_index
  end.

(** Lines 1828-1876: where the reference path resumes after the bubble. *)
Definition locate_exit (site : Snarl) (ref_path : list Visit) (path_back : Visit)
  (ref_path_index : nat) (log : list message) : outcome (nat * list message) :=
  let ref_path_index :=
    skip_to_exit (drop ref_path_index ref_path) path_back ref_path_index in
  if bool_decide (ref_path_index = length ref_path) then
    (* We ran out of ref path; start over from the beginning. *)
    let log := log ++ [RanOutOfRef] in
    let ref_path_index := skip_to_exit_again ref_path path_back 0 in
    if bool_decide (ref_path_index = length ref_path) then
      (* Still couldn't find it! *)
      Throw (runtime_error (CouldntFindInBackbone path_back (start site) (end_ site)))
    else Ok (ref_path_index, log)
  else Ok (ref_path_index, log).

(** Lines 1757-1763: the site has the nodes the bubble visits. *)
Definition check_path_in_site (contents_first : list Node) (path : list Visit)
  : outcome unit :=
  foldM (fun (_ : unit) visit =>
           if negb (bool_decide (node_id visit = 0)) then
             node ← get_node (node_id visit);
             assert 1760 (bool_decide (node ∈ contents_first)) (Ok tt)
           else Ok tt)
        tt path.

(** Lines 1757-1910 of [extend_into_allele]: the bubble's path spliced
    into the reference path, and what was printed on the way. *)
Definition splice_into_ref (site : Snarl) (contents_first : list Node)
  (ref_path : list Visit) (log : list message) (path : list Visit)
  : outcome (list Visit * list message) :=
  _ ← check_path_in_site contents_first path;
  match path, last path with
  | path_front :: _, Some path_back =>
      '(ref_path_index, extended_path) ← copy_to_left_anchor ref_path path_front 0 [];
      match ref_path !! ref_path_index with
      | None => Undefined
      | Some ref_visit =>
          let '(extended_path, bubble_path_index) :=
            if bool_decide (node_id ref_visit = 0) then
              let extended_path := extended_path ++ [ref_visit] in
              if negb (bool_decide (node_id path_front = 0)) ||
                 (bool_decide (ends_start (snarl path_front) = ends_start (snarl ref_visit)) &&
                  bool_decide (ends_end (snarl path_front) = ends_end (snarl ref_visit)))
              then (extended_path, 1%nat)
              else (extended_path, 0%nat)
            else (extended_path, 0%nat) in
          let extended_path := extended_path ++ drop bubble_path_index path in
          '(ref_path_index, log) ← locate_exit site ref_path path_back ref_path_index log;
          match ref_path !! ref_path_index with
          | None => Undefined
          | Some ref_visit =>
              extended_path ←
                (if bool_decide (node_id ref_visit = 0) then
                   match last extended_path with
                   | None => Undefined
                   | Some extended_back =>
                       let extended_path :=
                         if negb (bool_decide (node_id extended_back = 0)) ||
                            (bool_decide (ends_start (snarl ref_visit)
                                          = ends_start (snarl extended_back)) &&
                             bool_decide (ends_end (snarl ref_visit)
                                          = ends_end (snarl extended_back)))
                         then removelast extended_path
                         else extended_path in
                       Ok (extended_path ++ [ref_visit])
                   end
                 else Ok extended_path);
              Ok (extended_path ++ drop (S ref_path_index) ref_path, log)
          end
      end
  | _, _ => Undefined
  end.

(** [extend_into_allele] (1741-1915); [st] holds [site_traversal_set] and
    what was printed. *)
Definition extend_into_allele (site : Snarl) (contents_first : list Node)
  (ref_path : list Visit) (st : list (list Visit) * list message) (path : list Visit)
  : outcome (list (list Visit) * list message) :=
  '(extended_path, log) ← splice_into_ref site contents_first ref_path st.2 path;
  (* Now add it to the set *)
  Ok (set_insert path_compare extended_path st.1, log).

(** What the three seeding loops do with the result of [find_bubble]
    (1946-1961, 1997-2017, 2035-2048) *)
Definition use_bubble (site : Snarl) (contents_first : list Node) (ref_path : list Visit)
  (warning : message) (st : list (list Visit) * list message)
  (sup_path : SupportOps.Support * list Visit) : outcome (list (list Visit) * list message) :=
  let path := sup_path.2 in
  if bool_decide (path = []) then
    (* We couldn't find a path back to the primary path. Discard this material. *)
    Ok (st.1, st.2 ++ if verbose then [warning] else [])
  else extend_into_allele site contents_first ref_path st path.

(** The body of the loop over the nodes (1921-1963) *)
Definition seed_from_node (site : Snarl) (index : PathIndex) (contents_first : list Node)
  (ref_path : list Visit) (st : list (list Visit) * list message) (node : Node)
  : outcome (list (list Visit) * list message) :=
  if bool_decide (is_Some (into_which_snarl (id node) true)) ||
     bool_decide (is_Some (into_which_snarl (id node) false))
  then Ok st
  else if has_supports && SupportOps.total_is_zero (get_support_node node) then Ok st
  else if by_id_count index (id node) then Ok st
  else
    sup_path ← find_bubble (Some node) None None index site;
    use_bubble site contents_first ref_path (NoPathFoundForNode (id node)) st sup_path.

(** The body of the loop over the edges (1970-2018) *)
Definition seed_from_edge (site : Snarl) (index : PathIndex) (contents_first : list Node)
  (ref_path : list Visit) (st : list (list Visit) * list message) (edge : Edge)
  : outcome (list (list Visit) * list message) :=
  if has_supports && SupportOps.total_is_zero (get_support_edge edge) then Ok st
  else if negb (by_id_count index (from edge)) || negb (by_id_count index (to edge))
  then Ok st
  else
    sup_path ← find_bubble None (Some edge) None index site;
    use_bubble site contents_first ref_path (NoPathFoundForEdge (from edge) (to edge))
               st sup_path.

(** The body of the loop over the children (2026-2049) *)
Definition seed_from_child (site : Snarl) (index : PathIndex) (contents_first : list Node)
  (ref_path : list Visit) (st : list (list Visit) * list message) (child : SnarlPtr)
  : outcome (list (list Visit) * list message) :=
  sup_path ← find_bubble None None (Some child) index site;
  use_bubble site contents_first ref_path (NoPathFoundForChild (ptr_target child))
             st sup_path.

(** The three loops in turn (1921-2049), from an empty
    [site_traversal_set] *)
Definition collect_traversals (site : Snarl) (index : PathIndex)
  (contents : list Node * list Edge) (ref_path : list Visit) (log : list message)
  : outcome (list (list Visit) * list message) :=
  st ← foldM (seed_from_node site index contents.1 ref_path) ([], log) contents.1;
  st ← foldM (seed_from_edge site index contents.1 ref_path) st contents.2;
  foldM (seed_from_child site index contents.1 ref_path) st (children_of site).

(** [emit_traversal] (2057-2098): the visits as a [SnarlTraversal], in the
    snarl's orientation *)
Definition emit_traversal (site_start site_end : Z) (visits : list Visit) : list Visit :=
  if site_end <? site_start then map reverse (rev visits) else visits.

(** Lines 2101-2112 *)
Definition emit_all (site_start site_end : Z) (ref_path : list Visit)
  (site_traversal_set : list (list Visit)) : list (list Visit) :=
  emit_traversal site_start site_end ref_path ::
  map (emit_traversal site_start site_end)
      (filter (fun visits => negb (bool_decide (visits = ref_path))) site_traversal_set).

(** Lines 1583-1710: the site's coordinates on the index, and the
    reference path traced between them. *)
Definition site_coordinates (site : Snarl) (index : PathIndex) : outcome (Z * Z) :=
  site_start ← by_id_at index (node_id (start site));
  site_end ← by_id_at index (node_id (end_ site));
  Ok (site_start.1, site_end.1).

Definition trace_ref_path (site : Snarl) (index : PathIndex) (contents_first : list Node)
  (site_start site_end : Z) : outcome trace_state :=
  let primary_min := Z.min site_start site_end in
  let primary_max := Z.max site_start site_end in
  trace_loop (S (length (by_start index))) index (manage site) contents_first primary_max
             (mkTrace primary_min [] contents_first []).

(** Everything after the precondition check of line 1540 *)
Definition find_traversals_checked (site : Snarl) : outcome (list (list Visit) * list message) :=
  index ← choose_index site;
  let contents := shallow_contents site in
  '(site_start, site_end) ← site_coordinates site index;
  traced ← trace_ref_path site index contents.1 site_start site_end;
  _ ← check_nodes_left index (nodes_left traced);
  '(site_traversal_set, log) ←
    collect_traversals site index contents (ref_path_for_site traced) (trace_log traced);
  Ok (emit_all site_start site_end (ref_path_for_site traced) site_traversal_set, log).

Definition find_traversals (site : Snarl) : outcome (list (list Visit) * list message) :=
  assert 1540 (bool_decide (type site = ULTRABUBBLE)) (find_traversals_checked site).

(** The lines of the assertions that [find_traversals] can reach after its
    precondition check *)
Definition assertions_after_the_check : list Z :=
  [1434; 1523; 1642; 1659; 1675; 1689; 1760; 2149; 2168; 2182; 2575; 2658].

End RepresentativeTraversalFinder.

(** ** The bounded search as the specification words it *)

(** A visit anchors on the backbone: a node whose id is in the path index,
    or a child snarl whose boundary facing the search (its start when
    visited forward, its end when visited backward) is. *)
Definition anchors (index : PathIndex) (front : Visit) : bool :=
  if bool_decide (node_id front = 0) then
    by_id_count index
      (node_id (if backward front then visit_snarl_end front else visit_snarl_start front))
  else by_id_count index (node_id front).

(** A reference visit is the exit of a bubble that ends in [path_back]: its
    left frontier is the bubble's right frontier, or the bubble ends in a
    child snarl whose right frontier is also the reference visit's.  The
    scan after the restart looks for the first kind only. *)
Definition is_exit_node (path_back ref_visit : Visit) : bool :=
  visit_eqb (frontier_visit ref_visit true) (frontier_visit path_back false).

Definition is_exit (path_back ref_visit : Visit) : bool :=
  is_exit_node path_back ref_visit ||
  (bool_decide (node_id path_back = 0) &&
   visit_eqb (frontier_visit ref_visit false) (frontier_visit path_back false)).

Section SearchMoments.
Context {env : TraversalFinderEnv}.

(** A walk leftward: each visit is one of [visits_left] of the visit after
    it. *)
Inductive left_walk (in_snarl : SnarlPtr) : list Visit -> Prop :=
| left_walk_seed visit : left_walk in_snarl [visit]
| left_walk_step prevVisit front rest :
    prevVisit ∈ visits_left front in_snarl ->
    left_walk in_snarl (front :: rest) ->
    left_walk in_snarl (prevVisit :: front :: rest).

(** A partial path in the queue: a walk that ends in the seed, anchors
    nowhere behind its front, and makes at most [max_depth] steps. *)
Definition partial_path (index : PathIndex) (in_snarl : SnarlPtr) (visit : Visit)
  (path : list Visit) : Prop :=
  left_walk in_snarl path /\
  Forall (fun v => anchors index v = false) (tail path) /\
  last path = Some visit /\
  Z.of_nat (length path) <= max_depth + 1.

(** What the search may return: a partial path whose front anchors. *)
Definition bubble_half (index : PathIndex) (in_snarl : SnarlPtr) (visit : Visit)
  (path : list Visit) : Prop :=
  partial_path index in_snarl visit path /\
  exists front, head path = Some front /\ anchors index front = true.

(** The graph holds what the Snarl Manager's [visits_left] leads to: the
    node and the edge of a node visit, the far node of a child visit. *)
Definition known_node (v : Visit) : Prop :=
  node_id v <> 0 -> is_Some (graph_node (node_id v)).

Definition graph_consistent (in_snarl : SnarlPtr) : Prop :=
  forall front prevVisit,
    prevVisit ∈ visits_left front in_snarl ->
    (node_id prevVisit <> 0 ->
     is_Some (get_edge (to_right_side prevVisit) (to_left_side front)) /\
     is_Some (graph_node (node_id prevVisit))) /\
    (node_id prevVisit = 0 ->
     is_Some (graph_node (ns_node (to_left_side prevVisit)))).

(** The state of a search in order: partial paths in the queue, bubble
    halves among the results. *)
Definition search_ok (index : PathIndex) (in_snarl : SnarlPtr) (visit : Visit)
  (st : bfs_state) : Prop :=
  Forall (partial_path index in_snarl visit) (toExtend st) /\
  Forall (fun lengthAndPath : Z * list Visit =>
            bubble_half index in_snarl visit lengthAndPath.2) (toReturn st).

(** The bound on the turns of the loop that [bfs_left] runs with: the
    search space of every queued path, with the extensions it has left. *)
Definition extensions_left (path : list Visit) : nat :=
  (S (Z.to_nat max_depth) - length path)%nat.

Definition path_weight (in_snarl : SnarlPtr) (path : list Visit) : nat :=
  match path with
  | [] => 1
  | front :: _ => search_space in_snarl (extensions_left path) front
  end.

Definition queue_weight (in_snarl : SnarlPtr) (queue : list (list Visit)) : nat :=
  list_sum (map (path_weight in_snarl) queue).

End SearchMoments.

(** ** A small concrete graph to run the snarl finder on *)

(** A graph given by its size, the snarl decomposition the cactus library
    finds for it, the directed walks of its net graphs (as pairs of oriented
    nodes) and whether its flat net graphs are acyclic. *)
Record ToyGraph := mkToyGraph {
  toy_size : Z;
  toy_decomposition : list (list stSnarl) * list stSnarl;
  toy_edges : list ((Z * bool) * (Z * bool));
  toy_acyclic : bool
}.

#[export] Instance toy_finder_env : SnarlFinderEnv := {|
  VG := ToyGraph;
  graph_size := toy_size;
  snarl_decomposition := toy_decomposition;
  NetGraph := ToyGraph;
  handle_t := Z * bool;
  NetGraph_new := fun _ _ _ graph _ => graph;
  get_handle := fun _ node_id is_reverse => (node_id, is_reverse);
  flip := fun _ h => (h.1, negb h.2);
  follow_edges := fun net here _ =>
    map snd (filter (fun e => bool_decide (e.1 = here)) (toy_edges net));
  net_handles := fun net => map fst (toy_edges net) ++ map snd (toy_edges net);
  is_directed_acyclic := toy_acyclic;
  follow_edges_handles := ltac:(
    intros net here go_left other Hin; apply in_or_app; right;
    apply in_map_iff in Hin as (e & <- & He);
    apply list_elem_of_In, list_elem_of_filter in He as [_ He];
    now apply in_map, list_elem_of_In)
|}.

(** The graph with no node *)
Definition empty_graph : ToyGraph := mkToyGraph 0 ([], []) [] true.

(** The diamond 1 -> {2, 3} -> 4, one snarl from 1 to 4, with a dangling
    tip on node 5 hung below it as a unary child of the top level *)
Definition diamond_edges : list ((Z * bool) * (Z * bool)) :=
  [ ((1, false), (2, false)); ((1, false), (3, false));
    ((2, false), (4, false)); ((3, false), (4, false));
    ((4, true), (2, true)); ((4, true), (3, true));
    ((2, true), (1, true)); ((3, true), (1, true)) ].

Definition diamond_snarl : stSnarl :=
  mk_stSnarl (mkCactusSide 1 true) (mkCactusSide 4 false) [] [].

Definition tip_snarl : stSnarl :=
  mk_stSnarl (mkCactusSide 5 true) (mkCactusSide 5 true) [] [].

Definition diamond_graph : ToyGraph :=
  mkToyGraph 5 ([[diamond_snarl]], [tip_snarl]) diamond_edges true.

(** ** The classification rules as the specification words them *)

(** The snarls a chain points to (null entries point to none). *)
Definition chain_targets (chain : Chain) : list Snarl :=
  omap (fun entry : option SnarlPtr => ptr_target <$> entry) chain.

(** The chains of the snarl stored in slot [i] of the manager: those
    registered with a pointer to that slot, in the order of registration;
    and its children, the snarls of these chains. *)
Definition chains_at (m : SnarlManager) (i : nat) : list Chain :=
  omap (fun entry : Chain * option SnarlPtr =>
          match entry.2 with
          | Some p => if decide (ptr_slot p = i) then Some entry.1 else None
          | None => None
          end)
       (chains m).

Definition children_at (m : SnarlManager) (i : nat) : list Snarl :=
  flat_map chain_targets (chains_at m i).

(** The decision table of the specification below its first row (the
    boundaries are on different nodes); the first matching rule wins. *)
Definition decision_table (s : Snarl) (children : list Snarl) : SnarlType :=
  if negb (start_end_reachable s) then UNCLASSIFIED
  else if start_self_reachable s || end_self_reachable s then UNCLASSIFIED
  else if existsb (fun child => negb (bool_decide (type child = ULTRABUBBLE))) children
       then UNCLASSIFIED
  else if negb (directed_acyclic_net_graph s) then UNCLASSIFIED
  else ULTRABUBBLE.

(** Chains are registered with snarls that are stored already. *)
Definition parents_in_range (m : SnarlManager) : Prop :=
  forall chain p, (chain, Some p) ∈ chains m -> (ptr_slot p < length (snarls m))%nat.

Section FinderInvariant.
Context {env : SnarlFinderEnv}.

(** What holds of every snarl the finder has stored: its type is UNARY
    exactly when its boundaries are on the same node, and follows the
    decision table otherwise; its four flags are those the searches on its
    two net graphs give. *)
Definition snarl_ok (graph : VG) (s : Snarl) (child_chains : list Chain) : Prop :=
  (type s = UNARY <-> node_id (start s) = node_id (end_ s)) /\
  (node_id (start s) <> node_id (end_ s) ->
   type s = decision_table s (flat_map chain_targets child_chains)) /\
  s = set_type (set_connectivity graph (start s) (end_ s) child_chains s) (type s).

Definition manager_ok (graph : VG) (m : SnarlManager) : Prop :=
  parents_in_range m /\
  forall i s, snarls m !! i = Some s -> snarl_ok graph s (chains_at m i).

(** A recursive call on [child] that takes managers in order to managers in
    order. *)
Definition keeps_manager_ok (graph : VG)
  (recurse : stSnarl -> SnarlManager -> outcome (option SnarlPtr * SnarlManager))
  (child : stSnarl) : Prop :=
  forall d r d', manager_ok graph d -> recurse child d = Ok (r, d') -> manager_ok graph d'.

End FinderInvariant.

(** A snarl from 1 to 6 whose only child chain holds the bubble
    2 -> {3, 4} -> 5 *)
Definition nested_edges : list ((Z * bool) * (Z * bool)) :=
  [ ((1, false), (2, false)); ((2, false), (3, false)); ((2, false), (4, false));
    ((3, false), (5, false)); ((4, false), (5, false)); ((5, false), (6, false));
    ((6, true), (5, true)); ((5, true), (3, true)); ((5, true), (4, true));
    ((3, true), (2, true)); ((4, true), (2, true)); ((2, true), (1, true)) ].

Definition inner_bubble : stSnarl :=
  mk_stSnarl (mkCactusSide 2 true) (mkCactusSide 5 false) [] [].

Definition outer_snarl : stSnarl :=
  mk_stSnarl (mkCactusSide 1 true) (mkCactusSide 6 false) [[inner_bubble]] [].

Definition nested_graph : ToyGraph :=
  mkToyGraph 6 ([[outer_snarl]], []) nested_edges true.

(** The managers the finder builds for the two graphs *)
Definition diamond_manager : SnarlManager :=
  Eval vm_compute in
    match find_snarls diamond_graph with Ok m => m | _ => SnarlManager_empty end.

Definition nested_manager : SnarlManager :=
  Eval vm_compute in
    match find_snarls nested_graph with Ok m => m | _ => SnarlManager_empty end.

(** The snarl the finder stores for the tip on node 5, and the one it
    stores for the snarl from 1 to 6 *)
Definition tip_managed : Snarl :=
  mkSnarl UNARY (to_visit 5 false) (to_visit 5 true) None false false false true.

Definition outer_managed : Snarl :=
  mkSnarl ULTRABUBBLE (to_visit 1 false) (to_visit 6 false) None false true false true.

(** ** A small concrete graph to run the traversal finder on *)

(** Nodes 1 to 7, one base each.  The backbone is 1 - 2 - 4.  Node 3 is the
    other arm of the diamond 1 -> {2, 3} -> 4; nodes 6 and 5 make the detour
    1 -> 6 -> 5 -> 4; node 7 hangs off node 4 and leads nowhere. *)
Definition toy_nodes : list Node :=
  [mkNode 1 1; mkNode 2 1; mkNode 3 1; mkNode 4 1; mkNode 5 1; mkNode 6 1].

Definition toy_graph_edges : list Edge :=
  [mkEdge 1 false 2 false; mkEdge 2 false 4 false;
   mkEdge 1 false 3 false; mkEdge 3 false 4 false;
   mkEdge 1 false 6 false; mkEdge 6 false 5 false; mkEdge 5 false 4 false].

(** The site: the ultrabubble from 1 to 4 *)
Definition toy_site : Snarl :=
  mkSnarl ULTRABUBBLE (to_visit 1 false) (to_visit 4 false) None false true false true.

(** The index of the path 1 - 2 - 4, and of the same path walked from 4 *)
Definition toy_index : PathIndex :=
  mkPathIndex {[ 1 := (0, false); 2 := (1, false); 4 := (2, false) ]}
              [(0, to_visit 1 false); (1, to_visit 2 false); (2, to_visit 4 false)].

Definition toy_index_backward : PathIndex :=
  mkPathIndex {[ 4 := (0, true); 2 := (1, true); 1 := (2, true) ]}
              [(0, to_visit 4 true); (1, to_visit 2 true); (2, to_visit 1 true)].

(** A [size_t] from an integer *)
Definition clamp64 (z : Z) : Z := Z.max 0 (Z.min z (2 ^ 64 - 1)).

(** The finder over this graph, with the limits and the index as given and
    no support data. *)
Definition toy_traversal_env (depth width bubble_paths : Z) (verbose_ : bool)
  (index : PathIndex) : TraversalFinderEnv := {|
  graph_node := fun i => List.find (fun node => bool_decide (id node = i))
                                   (toy_nodes ++ [mkNode 7 1]);
  get_edge := fun side1 side2 =>
    if ns_is_end side1 && negb (ns_is_end side2) then
      List.find (fun e => bool_decide (from e = ns_node side1 /\ to e = ns_node side2))
                toy_graph_edges
    else if negb (ns_is_end side1) && ns_is_end side2 then
      List.find (fun e => bool_decide (from e = ns_node side2 /\ to e = ns_node side1))
                toy_graph_edges
    else None;
  has_supports := false;
  get_support_node := fun _ => SupportOps.Support_default;
  get_support_edge := fun _ => SupportOps.Support_default;
  to_left_side := fun v => mkNodeSide (node_id v) (backward v);
  to_right_side := fun v => mkNodeSide (node_id v) (negb (backward v));
  manage := fun site => mkPtr 0 site;
  into_which_snarl_visit := fun _ => None;
  into_which_snarl := fun _ _ => None;
  visits_left := fun v _ =>
    if backward v
    then map (fun e => to_visit (to e) true)
             (filter (fun e => bool_decide (from e = node_id v)) toy_graph_edges)
    else map (fun e => to_visit (from e) false)
             (filter (fun e => bool_decide (to e = node_id v)) toy_graph_edges);
  shallow_contents := fun _ => (toy_nodes, toy_graph_edges);
  children_of := fun _ => [];
  get_index := fun _ => Some index;
  backbone_index := fun _ => Throw (runtime_error GraphError);
  max_depth := clamp64 depth;
  max_width := clamp64 width;
  max_bubble_paths := clamp64 bubble_paths;
  verbose := verbose_;
  backbone_index_assertions := ltac:(discriminate);
  max_depth_range := ltac:(unfold clamp64; lia);
  max_width_range := ltac:(unfold clamp64; lia);
  max_bubble_paths_range := ltac:(unfold clamp64; lia)
|}.

(** The finder with [max_depth = 2] on the backbone walked from node 4: the
    site starts at coordinate 2 and ends at coordinate 0. *)
Definition backward_env : TraversalFinderEnv :=
  toy_traversal_env 2 10 10 false toy_index_backward.

(** What the stages of [find_traversals] compute there *)
Definition backward_traced : trace_state :=
  Eval vm_compute in
    match trace_ref_path (env := backward_env) toy_site toy_index_backward toy_nodes 2 0 with
    | Ok traced => traced
    | _ => mkTrace 0 [] [] []
    end.

Definition backward_traversal_set : list (list Visit) :=
  Eval vm_compute in
    match collect_traversals (env := backward_env) toy_site toy_index_backward
                             (toy_nodes, toy_graph_edges)
                             (ref_path_for_site backward_traced) [] with
    | Ok st => st.1
    | _ => []
    end.

(** The finder with [max_depth = 1] and warnings on, on the backbone walked
    from node 1 *)
Definition shallow_env : TraversalFinderEnv :=
  toy_traversal_env 1 10 10 true toy_index.

(** The reference path of the site, in backbone order *)
Definition toy_ref_path : list Visit :=
  [to_visit 1 false; to_visit 2 false; to_visit 4 false].

(** * More of genotypekit.cpp and distributions.hpp *)

(** ** Directed walks in a net graph *)

Section NetGraphWalks.
Context {env : SnarlFinderEnv}.

(** One step of a rightward directed walk: [other] is among the handles
    [follow_edges(here, false, ...)] yields. *)
Definition net_step (net : NetGraph) (here other : handle_t) : Prop :=
  In other (follow_edges net here false).

(** [there] can be reached from [here] by a directed walk of any length
    (none included). *)
Definition net_reachable (net : NetGraph) (here there : handle_t) : Prop :=
  rtc (net_step net) here there.

(** The net graph on which [recursively_emit_snarls] tests connectivity,
    and the handles of the two boundaries in it (735-740) *)
Definition connectivity_net_graph (graph : VG) (start_v end_v : Visit)
  (child_chains : list Chain) : NetGraph :=
  NetGraph_new start_v end_v child_chains graph true.

Definition boundary_handle (net : NetGraph) (v : Visit) : handle_t :=
  get_handle net (node_id v) (backward v).

(** A moment of either search: the queue holds each handle once, every
    queued handle can be reached from [origin], and the edges of every
    handle that has left the queue have been scanned. *)
Definition search_moment (net : NetGraph) (origin : handle_t)
  (queue : list handle_t) (queued : gset handle_t) : Prop :=
  NoDup queue /\
  (forall h, In h queue -> h ∈ queued) /\
  origin ∈ queued /\
  (forall h, h ∈ queued -> net_reachable net origin h) /\
  (forall h other, h ∈ queued -> ~ In h queue -> net_step net h other -> other ∈ queued).

(** [target] has left the queue. *)
Definition dequeued (queue : list handle_t) (queued : gset handle_t) (target : handle_t)
  : Prop :=
  target ∈ queued /\ ~ In target queue.

End NetGraphWalks.

(** ** Lengths of paths *)

Section PathLengths.
Context {env : TraversalFinderEnv}.

(** The bases of the nodes a path visits, added up without wrap-around;
    [None] when the graph lacks one of the nodes.  Visits of child snarls
    count for nothing. *)
Fixpoint path_bases (path : list Visit) : option Z :=
  match path with
  | [] => Some 0
  | visit :: rest =>
      if bool_decide (node_id visit = 0) then path_bases rest
      else
        node ← graph_node (node_id visit);
        bases ← path_bases rest;
        Some (sequence_size node + bases)
  end.

End PathLengths.

Section SearchResults.
Context {env : TraversalFinderEnv}.

(** A set of results as [bfs_left] builds it: in the order of [std::set],
    each path beside its own length. *)
Definition measured (results : list (Z * list Visit)) : Prop :=
  strictly_sorted sized_path_compare results /\
  Forall (fun lengthAndPath : Z * list Visit =>
            bp_length lengthAndPath.2 = Ok lengthAndPath.1) results.

End SearchResults.

(** ** The bubbles [find_bubble] pairs up *)

Section Bubbles.
Context {env : TraversalFinderEnv}.

(** A visit of the right half that the left half has made already: the
    test of lines 2318-2338. *)
Definition clashes (nodes : gset Z) (snarls : gset SnarlEnds) (it : Visit) : bool :=
  if negb (bool_decide (node_id it = 0))
  then bool_decide (node_id it ∈ nodes)
  else bool_decide (snarl it ∈ snarls).

(** What the right half adds to the left half: all of it for an edge, all
    but the seed (which the left half ends with) otherwise. *)
Definition right_part (from_edge : bool) (rightPath : list Visit) : list Visit :=
  if from_edge then rightPath else tail rightPath.

(** [best] is the pairing of the left half [lh] with [rightPath]. *)
Definition pairing (from_edge : bool) (lh : left_half) (rightPath : list Visit)
  (best : SupportOps.Support * list Visit) : Prop :=
  exists minRightSupport,
    min_support_in_path rightPath = Ok minRightSupport /\
    best.1 = SupportOps.support_min (minLeftSupport lh) minRightSupport /\
    (best.2 = leftPath lh ++ right_part from_edge rightPath \/
     best.2 = map reverse (rev (leftPath lh ++ right_part from_edge rightPath))) /\
    Forall (fun it => clashes (leftPathNodes lh) (leftPathSnarls lh) it = false)
           (right_part from_edge rightPath).

End Bubbles.

(** ** The stretch of the backbone a site lies on *)

Section BackboneStretch.
Context {env : TraversalFinderEnv}.

(** The test of lines 1630-1631 fails for [found_visit]: it enters no child
    of the site. *)
Definition enters_no_child (managed_site : SnarlPtr) (found_visit : Visit) : Prop :=
  match into_which_snarl_visit found_visit with
  | Some child =>
      child = managed_site \/
      into_which_snarl_visit (reverse found_visit) = Some managed_site
  | None => True
  end.

(** Entries of [by_start] that follow one another on the backbone, with the
    nodes they visit: each node is in the graph and has a base at least,
    each entry starts where the one before it ends or later, no offset
    leaves [size_t], and no visit enters a child. *)
Fixpoint stretch (managed_site : SnarlPtr) (entries : list (Z * Visit))
  (nodes : list Node) : Prop :=
  match entries, nodes with
  | [], [] => True
  | entry :: entries', node :: nodes' =>
      graph_node (node_id entry.2) = Some node /\
      1 <= sequence_size node /\
      0 <= entry.1 /\ entry.1 + sequence_size node < 2 ^ 64 /\
      enters_no_child managed_site entry.2 /\
      match entries' with
      | [] => True
      | next :: _ => entry.1 + sequence_size node <= next.1
      end /\
      stretch managed_site entries' nodes'
  | _, _ => False
  end.

(** Where the trace of a stretch stops: behind its last node. *)
Fixpoint stretch_end (start : Z) (entries : list (Z * Visit)) (nodes : list Node) : Z :=
  match entries, nodes with
  | entry :: entries', node :: nodes' =>
      stretch_end (entry.1 + sequence_size node) entries' nodes'
  | _, _ => start
  end.

End BackboneStretch.

(** An index of the toy backbone that also lists node 3, which the backbone
    does not visit *)
Definition stray_index : PathIndex :=
  mkPathIndex {[ 1 := (0, false); 2 := (1, false); 4 := (2, false); 3 := (5, false) ]}
              [(0, to_visit 1 false); (1, to_visit 2 false); (2, to_visit 4 false)].

(** An index that places the toy site at coordinates 7 to 9 but has no
    entry there *)
Definition short_index : PathIndex :=
  mkPathIndex {[ 1 := (7, false); 4 := (9, false) ]}
              [(0, to_visit 1 false); (1, to_visit 2 false); (2, to_visit 4 false)].

(** ** TrivialTraversalFinder and find_backbone (genotypekit.cpp, 1429-1534) *)

(** A [NodeTraversal]: a node of the graph (by its id) and an orientation *)
Record NodeTraversal := mkNodeTraversal { nt_node : Z; nt_backward : bool }.

#[export] Instance NodeTraversal_eq_dec : EqDecision NodeTraversal.
Proof. solve_decision. Defined.

#[export] Instance NodeTraversal_countable : Countable NodeTraversal :=
  inj_countable' (fun t => (nt_node t, nt_backward t))
                 (fun p => mkNodeTraversal p.1 p.2)
                 (fun t => match t with mkNodeTraversal _ _ => eq_refl end).

(** [to_visit(node_traversal)] *)
Definition to_visit_nt (t : NodeTraversal) : Visit := to_visit (nt_node t) (nt_backward t).

(** What the finder asks of the graph.  A graph is finite:
    [node_traversals] lists its nodes in both orientations. *)
Class WalkGraph := {
  (** the graph has a node with this id *)
  has_node : Z -> bool;
  (** [graph.nodes_next(here)] *)
  nodes_next : NodeTraversal -> list NodeTraversal;
  node_traversals : list NodeTraversal;
  nodes_next_known :
    forall here next, In next (nodes_next here) -> In next node_traversals;
  (** [Mapping] and [to_mapping(visit, graph)] *)
  Mapping : Type;
  to_mapping : Visit -> Mapping
}.

Section TrivialTraversalFinder.
Context {graph : WalkGraph}.

(** Modelled from the spec: [to_node_traversal(visit, graph)] is declared
    outside [src/]; it pairs [graph.get_node(visit.node_id())], which throws
    for an id the graph lacks, with [visit.backward()]. *)
Definition to_node_traversal (visit : Visit) : outcome NodeTraversal :=
  if has_node (node_id visit)
  then Ok (mkNodeTraversal (node_id visit) (backward visit))
  else Throw (runtime_error GraphError).

(** The [while (true)] loop of lines 1457-1470: from [here] back along
    [previous] to the start of the site. *)
Fixpoint trace_back (fuel : nat) (site_start_id : Z)
  (previous : gmap NodeTraversal NodeTraversal) (here : NodeTraversal)
  (path : list NodeTraversal) : outcome (list NodeTraversal) :=
  match fuel with
  | O => Diverges
  | S fuel' =>
      (* Put this traversal on the front of the path *)
      let path := here :: path in
      if bool_decide (nt_node here = site_start_id) then Ok path
      else
        match previous !! here with
        | None => Throw out_of_range
        | Some before => trace_back fuel' site_start_id previous before path
        end
  end.

(** The loop over [graph.nodes_next(here)] (1485-1496) *)
Definition remember_next (here : NodeTraversal)
  (st : gmap NodeTraversal NodeTraversal * list NodeTraversal) (next : NodeTraversal)
  : gmap NodeTraversal NodeTraversal * list NodeTraversal :=
  let '(previous, stack) := st in
  if bool_decide (is_Some (previous !! next)) then (previous, stack)
  else (<[next := here]> previous, next :: stack).

(** The [while (!stack.empty())] loop (1446-1498) *)
Fixpoint trivial_loop (fuel : nat) (site_start_id site_end_id : Z)
  (previous : gmap NodeTraversal NodeTraversal) (stack : list NodeTraversal)
  : outcome (list (list Visit)) :=
  match stack with
  | [] => Ok []
  | here :: stack =>
      match fuel with
      | O => Diverges
      | S fuel' =>
          if bool_decide (nt_node here = site_end_id) then
            path ← trace_back (S (size previous)) site_start_id previous here [];
            Ok [map to_visit_nt path]
          else
            let '(previous, stack) :=
              fold_left (remember_next here) (nodes_next here) (previous, stack) in
            trivial_loop fuel' site_start_id site_end_id previous stack
      end
  end.

(** [TrivialTraversalFinder::find_traversals] (1433-1502).  A traversal
    enters the stack only with a new entry of [previous], so the loop takes
    at most one turn for the start and one for every traversal of the
    graph. *)
Definition trivial_find_traversals (site : Snarl) : outcome (list (list Visit)) :=
  assert 1434 (bool_decide (type site = ULTRABUBBLE))
    (start_traversal ← to_node_traversal (start site);
     trivial_loop (S (length node_traversals)) (node_id (start site)) (node_id (end_ site))
                  ∅ [start_traversal]).

(** [RepresentativeTraversalFinder::find_backbone] (1514-1534) *)
Definition find_backbone (site : Snarl) : outcome (list Mapping) :=
  traversals ← trivial_find_traversals site;
  match traversals with
  | [] => AssertionFailure 1523
  | traversal :: _ => Ok (map to_mapping traversal)
  end.

(** *** Walks *)

(** A walk of the graph: each traversal is among [nodes_next] of the one
    before it. *)
Inductive walk : list NodeTraversal -> Prop :=
| walk_one t : walk [t]
| walk_more t next rest :
    In next (nodes_next t) -> walk (next :: rest) -> walk (t :: next :: rest).

Definition walk_reachable (here there : NodeTraversal) : Prop :=
  rtc (fun a b => In b (nodes_next a)) here there.

(** Following [previous] back from [t] gives [path], which begins on the
    start node of the site and ends in [t]. *)
Inductive traced_back (site_start_id : Z) (previous : gmap NodeTraversal NodeTraversal)
  : NodeTraversal -> list NodeTraversal -> Prop :=
| traced_start t :
    nt_node t = site_start_id -> traced_back site_start_id previous t [t]
| traced_step t before path :
    nt_node t <> site_start_id ->
    previous !! t = Some before ->
    traced_back site_start_id previous before path ->
    traced_back site_start_id previous t (path ++ [t]).

(** A moment of the search: every traversal on the stack can be reached
    from the start and can be traced back, and each entry of [previous] is
    a step of the graph from a traversal that can be traced back. *)
Definition trivial_moment (site_start_id : Z) (start_traversal : NodeTraversal)
  (previous : gmap NodeTraversal NodeTraversal) (stack : list NodeTraversal) : Prop :=
  (forall t, In t stack ->
             walk_reachable start_traversal t /\
             exists path, traced_back site_start_id previous t path) /\
  (forall t before,
      previous !! t = Some before ->
      In t (nodes_next before) /\
      exists path, traced_back site_start_id previous before path).

(** What the search has seen is on the stack or has had its successors
    seen, and is then not on the end node. *)
Definition trivial_seen (site_end_id : Z) (start_traversal : NodeTraversal)
  (previous : gmap NodeTraversal NodeTraversal) (stack : list NodeTraversal) : Prop :=
  forall t,
    t = start_traversal \/ is_Some (previous !! t) ->
    In t stack \/
    (nt_node t <> site_end_id /\
     forall next, In next (nodes_next t) -> is_Some (previous !! next)).

End TrivialTraversalFinder.

(** The toy graph as a graph to walk: its seven edges, followed forward
    from a forward traversal and backward from a backward one *)
#[export] Instance toy_walk_graph : WalkGraph := {|
  has_node := fun i => bool_decide (1 <= i <= 6);
  nodes_next := fun here =>
    if nt_backward here
    then map (fun e => mkNodeTraversal (from e) true)
             (filter (fun e => bool_decide (to e = nt_node here)) toy_graph_edges)
    else map (fun e => mkNodeTraversal (to e) false)
             (filter (fun e => bool_decide (from e = nt_node here)) toy_graph_edges);
  node_traversals :=
    flat_map (fun node => [mkNodeTraversal (id node) false; mkNodeTraversal (id node) true])
             toy_nodes;
  nodes_next_known := ltac:(
    intros [node [|]] next Hin; cbn [nt_backward nt_node] in Hin;
    apply in_map_iff in Hin as (e & <- & He);
    apply list_elem_of_In, list_elem_of_filter in He as [_ He];
    revert e He; apply Forall_forall; vm_compute;
    repeat (constructor; [tauto|]); constructor);
  Mapping := Visit;
  to_mapping := fun visit => visit
|}.

(** A site from node 7, which the toy graph lacks, and a site from node 4
    to node 1, against the direction of the edges *)
Definition stray_site : Snarl :=
  mkSnarl ULTRABUBBLE (to_visit 7 false) (to_visit 4 false) None false true false true.

Definition upstream_site : Snarl :=
  mkSnarl ULTRABUBBLE (to_visit 4 false) (to_visit 1 false) None false true false true.

(** ** ExhaustiveTraversalFinder (genotypekit.cpp, 921-1142) *)

(** What the finder asks of the graph and of the Snarl Manager, and its
    one setting. *)
Class SiteGraph := {
  site_has_node : Z -> bool;
  (** [graph.edges_of(node)], by the id of the node *)
  edges_of : Z -> list Edge;
  (** [snarl_manager.into_which_snarl(id, backward)]; null when the
      traversal enters no snarl *)
  enters_snarl : Z -> bool -> option Snarl;
  include_reversing_traversals : bool
}.

Section ExhaustiveTraversalFinder.
Context {graph : SiteGraph}.

(** Modelled from the spec: [to_node_traversal], [to_rev_node_traversal]
    and [NodeTraversal::reverse] are declared outside [src/]; the first two
    pair [graph.get_node(visit.node_id())], which throws for an id the
    graph lacks, with the orientation of the visit and with its opposite,
    and the third flips the orientation. *)
Definition site_node_traversal (visit : Visit) : outcome NodeTraversal :=
  if site_has_node (node_id visit)
  then Ok (mkNodeTraversal (node_id visit) (backward visit))
  else Throw (runtime_error GraphError).

Definition site_rev_node_traversal (visit : Visit) : outcome NodeTraversal :=
  if site_has_node (node_id visit)
  then Ok (mkNodeTraversal (node_id visit) (negb (backward visit)))
  else Throw (runtime_error GraphError).

Definition nt_reverse (t : NodeTraversal) : NodeTraversal :=
  mkNodeTraversal (nt_node t) (negb (nt_backward t)).

(** What one edge adds to the stack when the walk leaves [walk_head]
    (936-977) *)
Definition walk_over (walk_head : NodeTraversal) (edge : Edge) : option NodeTraversal :=
  let head_id := nt_node walk_head in
  if nt_backward walk_head then
    (* we are leaving from the start of the node *)
    if bool_decide (from edge = head_id) && from_start edge
    then Some (mkNodeTraversal (to edge) (to_end edge))
    else if bool_decide (to edge = head_id) && negb (to_end edge)
    then Some (mkNodeTraversal (from edge) (negb (from_start edge)))
    else None
  else
    (* we are leaving from the end of the node *)
    if bool_decide (from edge = head_id) && negb (from_start edge)
    then Some (mkNodeTraversal (to edge) (to_end edge))
    else if bool_decide (to edge = head_id) && to_end edge
    then Some (mkNodeTraversal (from edge) (negb (from_start edge)))
    else None.

(** [stack_up_valid_walks] (932-978).  The stack is a vector whose back is
    its top: the head of the list.  [None] is the sentinel
    [NodeTraversal(nullptr)], which no traversal of a node equals.
    [graph.get_node] is asked only for the two nodes of an edge the graph
    lists, which the graph holds. *)
Definition stack_up_valid_walks (walk_head : NodeTraversal)
  (stack : list (option NodeTraversal)) : list (option NodeTraversal) :=
  fold_left (fun stack edge =>
               match walk_over walk_head edge with
               | Some next => Some next :: stack
               | None => stack
               end)
            (edges_of (nt_node walk_head)) stack.

(** Lines 1045-1102: the traversals that leave the child snarl entered at
    [node_traversal], pushed on the stack. *)
Definition stack_up_child_exits (into_snarl : Snarl) (node_traversal : NodeTraversal)
  (stack : list (option NodeTraversal)) : outcome (list (option NodeTraversal)) :=
  if bool_decide (node_id (start into_snarl) = nt_node node_traversal) &&
     Bool.eqb (backward (start into_snarl)) (nt_backward node_traversal)
  then
    (* Into the start *)
    stack ←
      (if start_end_reachable into_snarl
       then across ← site_node_traversal (end_ into_snarl); Ok (Some across :: stack)
       else Ok stack);
    if start_self_reachable into_snarl
    then back ← site_rev_node_traversal (start into_snarl);
         Ok (Some (nt_reverse back) :: stack)
    else Ok stack
  else
    (* Into the end *)
    stack ←
      (if start_end_reachable into_snarl
       then across ← site_node_traversal (start into_snarl);
            Ok (Some (nt_reverse across) :: stack)
       else Ok stack);
    if end_self_reachable into_snarl
    then back ← site_rev_node_traversal (end_ into_snarl); Ok (Some back :: stack)
    else Ok stack.

(** The [while (stack.size())] loop of [add_traversals] (995-1107) *)
Fixpoint add_traversals_loop (fuel : nat) (traversal_start : NodeTraversal)
  (stop_at yield_at : gset NodeTraversal) (traversals : list (list Visit))
  (path : list Visit) (stack : list (option NodeTraversal))
  : outcome (list (list Visit)) :=
  match stack with
  | [] => Ok traversals
  | top :: stack =>
      match fuel with
      | O => Diverges
      | S fuel' =>
          match top with
          | None =>
              (* we have traversed all of edges out of the head of the path *)
              match path with
              | [] => Undefined
              | _ => add_traversals_loop fuel' traversal_start stop_at yield_at
                                         traversals (removelast path) stack
              end
          | Some node_traversal =>
              if bool_decide (node_traversal ∈ stop_at) then
                let traversals :=
                  if bool_decide (node_traversal ∈ yield_at)
                  then traversals ++ [path ++ [to_visit_nt node_traversal]]
                  else traversals in
                add_traversals_loop fuel' traversal_start stop_at yield_at
                                    traversals path stack
              else
                let stack := None :: stack in
                let path := path ++ [to_visit (nt_node node_traversal)
                                              (nt_backward node_traversal)] in
                '(path, stack) ←
                  match enters_snarl (nt_node node_traversal) (nt_backward node_traversal)
                  with
                  | Some into_snarl =>
                      if negb (bool_decide (node_traversal = traversal_start)) then
                        let path := path ++ [to_visit_snarl into_snarl] in
                        let stack := None :: stack in
                        stack ← stack_up_child_exits into_snarl node_traversal stack;
                        Ok (path, stack)
                      else Ok (path, stack_up_valid_walks node_traversal stack)
                  | None => Ok (path, stack_up_valid_walks node_traversal stack)
                  end;
                add_traversals_loop fuel' traversal_start stop_at yield_at
                                    traversals path stack
          end
      end
  end.

(** [add_traversals] (980-1108); the search of a graph with cycles need not
    end, so the loop takes fuel *)
Definition add_traversals (fuel : nat) (traversals : list (list Visit))
  (traversal_start : NodeTraversal) (stop_at yield_at : gset NodeTraversal)
  : outcome (list (list Visit)) :=
  add_traversals_loop fuel traversal_start stop_at yield_at traversals []
                      [Some traversal_start].

(** [ExhaustiveTraversalFinder::find_traversals] (1110-1142) *)
Definition exhaustive_find_traversals (fuel : nat) (site : Snarl)
  : outcome (list (list Visit)) :=
  site_end ← site_node_traversal (end_ site);
  site_start ← site_node_traversal (start site);
  let site_rev_start := mkNodeTraversal (nt_node site_start) (negb (nt_backward site_start)) in
  (* stop searching when the traversal is leaving the site *)
  let stop_at : gset NodeTraversal := {[site_rev_start]} ∪ ({[site_end]} ∪ ∅) in
  (* choose which side(s) can be the end of the traversal *)
  let yield_at : gset NodeTraversal := {[site_end]} ∪ ∅ in
  let yield_at :=
    if include_reversing_traversals then {[site_rev_start]} ∪ yield_at else yield_at in
  to_return ← add_traversals fuel [] site_start stop_at yield_at;
  if end_self_reachable site && include_reversing_traversals then
    let yield_at := yield_at ∖ {[site_rev_start]} in
    add_traversals fuel to_return
                   (mkNodeTraversal (nt_node site_end) (negb (nt_backward site_end)))
                   stop_at yield_at
  else Ok to_return.

(** *** The walk and the stack *)

(** The sentinels on the stack are as many as the visits on the path, the
    bottom of the stack is a sentinel, and the path begins with the visit
    of the start. *)
Definition stacked (traversal_start : NodeTraversal) (path : list Visit)
  (stack : list (option NodeTraversal)) : Prop :=
  count_occ (option_eq_dec (A := NodeTraversal)) stack None = length path /\
  (stack = [] \/ last stack = Some None) /\
  (path = [] \/ head path = Some (to_visit_nt traversal_start)).

(** A traversal the search from [traversal_start] may yield: from the visit
    of the start to the visit of a traversal at which the search both stops
    and yields. *)
Definition yielded (traversal_start : NodeTraversal) (stop_at yield_at : gset NodeTraversal)
  (traversal : list Visit) : Prop :=
  head traversal = Some (to_visit_nt traversal_start) /\
  exists last_traversal,
    last traversal = Some (to_visit_nt last_traversal) /\
    last_traversal ∈ stop_at /\ last_traversal ∈ yield_at.

End ExhaustiveTraversalFinder.

(** The toy graph for the exhaustive finder: no child snarls, no reversing
    traversals *)
#[export] Instance toy_site_graph : SiteGraph := {|
  site_has_node := fun i => bool_decide (1 <= i <= 6);
  edges_of := fun node =>
    filter (fun e => bool_decide (from e = node \/ to e = node)) toy_graph_edges;
  enters_snarl := fun _ _ => None;
  include_reversing_traversals := false
|}.

(** ** Splits and multinomial coefficients (distributions.hpp) *)

(** An [int]: 32 bits, two's complement.  Arithmetic that leaves the range
    is undefined behaviour. *)
Definition int_min : Z := - 2 ^ 31.
Definition int_max : Z := 2 ^ 31 - 1.

Definition is_int (z : Z) : Prop := int_min <= z <= int_max.

Definition int_add (a b : Z) : outcome Z :=
  if bool_decide (is_int (a + b)) then Ok (a + b) else Undefined.

Definition int_sub (a b : Z) : outcome Z :=
  if bool_decide (is_int (a - b)) then Ok (a - b) else Undefined.

(** The items of a split, all categories together *)
Definition items (split : list Z) : Z := foldr Z.add 0 split.

(** *** advance_split (177-214) *)

(** An iterator into a vector is the index it stands at; the iterator
    [v.end()] stands at [length v].  [*it] is undefined behaviour for an
    iterator that stands on no entry. *)
Definition deref (v : list Z) (it : nat) : outcome Z :=
  match v !! it with
  | Some entry => Ok entry
  | None => Undefined
  end.

(** [it--] and [--it] on a bidirectional iterator: there is no iterator
    before the first. *)
Definition retreat (it : nat) : outcome nat :=
  match it with
  | O => Undefined
  | S before => Ok before
  end.

(** [advance_split(start, end)] on the vector [v], where [end] stands [span]
    entries behind [start]; the recursion is on what lies between the two.
    The statements [*start--;] and [*next++;] parse as [*(start--);] and
    [*(next++);]: they move the two local iterators and leave the entries
    as they are. *)
Fixpoint advance_split (span : nat) (start : nat) (v : list Z) : outcome (bool * list Z) :=
  match span with
  | O =>
      (* Base case: we hit the end. *)
      Ok (false, v)
  | S span' =>
      let end_ := (start + S span')%nat in
      (* Try advancing what comes after us. *)
      let next := S start in
      '(advanced, v) ← advance_split span' next v;
      if (advanced : bool) then Ok (true, v)
      else
        here ← deref v start;
        if negb (bool_decide (here = 0)) && negb (bool_decide (next = end_)) then
          _ ← deref v start;
          _ ← retreat start;
          _ ← deref v next;
          let next := S next in
          next_to_last ← retreat end_;
          if negb (bool_decide (next_to_last = next)) then
            last_entry ← deref v next_to_last;
            next_entry ← deref v next;
            moved ← int_add next_entry last_entry;
            let v := <[next := moved]> v in
            let v := <[next_to_last := 0]> v in
            Ok (true, v)
          else Ok (true, v)
        else Ok (false, v)
  end.

(** *** multinomial_choose_ln (85-105) and what it calls *)

(** [real_t] is [long double], whose format the platform chooses: its
    arithmetic is left to the platform.  [of_double] widens a [double]. *)
Class LongDouble := {
  real_t : Type;
  of_double : float -> real_t;
  real_add : real_t -> real_t -> real_t;
  real_sub : real_t -> real_t -> real_t;
  real_mul : real_t -> real_t -> real_t;
  real_div : real_t -> real_t -> real_t;
  real_log : real_t -> real_t
}.

Section Multinomials.
Context {long_double : LongDouble}.

#[local] Set Warnings "-inexact-float".

Definition cofactors : list float :=
  [76.18009173; -86.50532033; 24.01409822; -1.231739516; 0.120858003E-2; -0.536382E-5]%float.

(** [gamma_ln] (23-43) *)
Definition gamma_ln (x : real_t) : real_t :=
  let x1 := real_sub x (of_double 1.0) in
  let tmp := real_add x1 (of_double 5.5) in
  let tmp := real_sub tmp (real_mul (real_add x1 (of_double 0.5)) (real_log tmp)) in
  let ser := of_double 1.0 in
  let '(x1, ser) :=
    fold_left (fun '(x1, ser) cofactor =>
                 let x1 := real_add x1 (of_double 1.0) in
                 (x1, real_add ser (real_div (of_double cofactor) x1)))
              cofactors (x1, ser) in
  real_add (real_mul (of_double (-1.0)) tmp)
           (real_log (real_mul (of_double 2.50662827465) ser)).

(** [factorial_ln] (49-59); [n + 1.0] is an addition of doubles *)
Definition factorial_ln (n : Z) : real_t :=
  if bool_decide (n < 0) then of_double (-1.0)
  else if bool_decide (n = 0) then of_double 0.0
  else gamma_ln (of_double (PrimFloat.add (PrimFloat.of_uint63 (Uint63.of_Z n)) 1.0)).

(** [choose_ln] (73-75) *)
Definition choose_ln (n k : Z) : outcome real_t :=
  rest ← int_sub n k;
  Ok (real_sub (factorial_ln n) (real_add (factorial_ln k) (factorial_ln rest))).

(** One turn of the loop of lines 93-98 *)
Definition choose_bucket (st : real_t * Z) (bucket_size : Z) : outcome (real_t * Z) :=
  let '(product_of_binomials_ln, bucket_sum) := st in
  (* Increment the size of what we choose from *)
  bucket_sum ← int_add bucket_sum bucket_size;
  (* Choose this many *)
  chosen ← choose_ln bucket_sum bucket_size;
  Ok (real_add product_of_binomials_ln chosen, bucket_sum).

(** [multinomial_choose_ln] (85-105); the assertion is that of line 102 of
    distributions.hpp *)
Definition multinomial_choose_ln (n : Z) (k : list Z) : outcome real_t :=
  '(product_of_binomials_ln, bucket_sum) ← foldM choose_bucket (of_double 0.0, 0) k;
  assert 102 (bool_decide (bucket_sum = n)) (Ok product_of_binomials_ln).

End Multinomials.

(** Long doubles of which nothing is computed, for running the integer
    part of the code *)
#[export] Instance no_long_double : LongDouble := {|
  real_t := unit;
  of_double := fun _ => tt;
  real_add := fun _ _ => tt;
  real_sub := fun _ _ => tt;
  real_mul := fun _ _ => tt;
  real_div := fun _ _ => tt;
  real_log := fun _ => tt
|}.

(** ** FixedGenotypePriorCalculator (genotypekit.cpp, 1405-1427) *)

(** The [Genotype] message: the allele numbers called and whether they are
    phased *)
Record Genotype := mkGenotype { allele : list Z; is_phased : bool }.

Record FixedGenotypePriorCalculator := mkPriorCalculator {
  homozygous_prior_ln : float;
  heterozygous_prior_ln : float
}.

(** The loop of lines 1410-1422 from allele [i] on: [all_same] when it is
    left.  [allele_value] is the common allele number, -1 for unset. *)
Fixpoint all_same_from (allele_value : Z) (alleles : list Z) : bool :=
  match alleles with
  | [] => true
  | allele_i :: rest =>
      (* On the first one, grab it. *)
      let allele_value := if bool_decide (allele_value = -1) then allele_i else allele_value in
      if bool_decide (allele_value <> allele_i) then false
      else all_same_from allele_value rest
  end.

Definition calculate_log_prior (calculator : FixedGenotypePriorCalculator)
  (genotype : Genotype) : float :=
  let all_same := all_same_from (-1) (allele genotype) in
  if all_same then homozygous_prior_ln calculator else heterozygous_prior_ln calculator.

(** The alleles of a genotype from the first that is not -1 *)
Fixpoint called (alleles : list Z) : list Z :=
  match alleles with
  | [] => []
  | allele_i :: rest => if bool_decide (allele_i = -1) then called rest else alleles
  end.

(** ** What find_snarls stores (genotypekit.cpp, 574-729 and 906-919) *)

(** Both cactus sides of the snarl, and of every snarl below it, are on a
    node: no node id is 0. *)
Fixpoint on_nodes (child_snarl : stSnarl) : bool :=
  match child_snarl with
  | mk_stSnarl edgeEnd1 edgeEnd2 chains unarySnarls =>
      negb (bool_decide (cs_node edgeEnd1 = 0)) &&
      negb (bool_decide (cs_node edgeEnd2 = 0)) &&
      forallb (forallb on_nodes) chains && forallb on_nodes unarySnarls
  end.

(** The snarls of a decomposition, every snarl behind those below it: the
    snarls of its chains in order, then its unary snarls, then the snarl
    itself; each with its start, its end and the ends of the snarl it lies
    in. *)
Fixpoint children_first (parent : option (Visit * Visit)) (child_snarl : stSnarl)
  : list (Visit * Visit * option (Visit * Visit)) :=
  match child_snarl with
  | mk_stSnarl _ _ chains unarySnarls =>
      let here := Some (child_start_of child_snarl, child_end_of child_snarl) in
      flat_map (flat_map (children_first here)) chains ++
      flat_map (children_first here) unarySnarls ++
      [(child_start_of child_snarl, child_end_of child_snarl, parent)]
  end.

(** What a stored snarl says of its place *)
Definition placed (s : Snarl) : Visit * Visit * option (Visit * Visit) :=
  (start s, end_ s, parent s).

(** The parent the finder writes into a snarl (632-636) *)
Definition parent_written (parent_start parent_end : Visit) : option (Visit * Visit) :=
  if negb (bool_decide (node_id parent_start = 0)) &&
     negb (bool_decide (node_id parent_end = 0))
  then Some (parent_start, parent_end) else None.

(** [recurse] stores [child_snarl] and what is below it behind the snarls
    the manager holds, and returns a pointer that is not null. *)
Definition stores_children_first
  (recurse : stSnarl -> SnarlManager -> outcome (option SnarlPtr * SnarlManager))
  (parent : option (Visit * Visit)) (child_snarl : stSnarl) : Prop :=
  forall destination,
    exists managed destination' new_snarls,
      recurse child_snarl destination = Ok (Some managed, destination') /\
      snarls destination' = snarls destination ++ new_snarls /\
      map placed new_snarls = children_first parent child_snarl.

(** ** AugmentedGraph: embedding alignments (genotypekit.cpp, 85-207) *)

From Stdlib Require Import Strings.Byte DecimalNat.

(** A [std::string] is the list of its bytes. *)
#[export] Instance byte_eq_dec : EqDecision byte := Byte.byte_eq_dec.

#[export] Instance byte_countable : Countable byte :=
  inj_countable Byte.to_N Byte.of_N Byte.of_to_N.

Definition unnamed_alignment_ : list byte :=
  ["_"; "u"; "n"; "n"; "a"; "m"; "e"; "d"; "_";
   "a"; "l"; "i"; "g"; "n"; "m"; "e"; "n"; "t"; "_"]%byte.

Definition renamed_alignment_ : list byte :=
  ["_"; "r"; "e"; "n"; "a"; "m"; "e"; "d"; "_";
   "a"; "l"; "i"; "g"; "n"; "m"; "e"; "n"; "t"; "_"]%byte.

Fixpoint digits (d : Decimal.uint) : list byte :=
  match d with
  | Decimal.Nil => []
  | Decimal.D0 d => "0"%byte :: digits d
  | Decimal.D1 d => "1"%byte :: digits d
  | Decimal.D2 d => "2"%byte :: digits d
  | Decimal.D3 d => "3"%byte :: digits d
  | Decimal.D4 d => "4"%byte :: digits d
  | Decimal.D5 d => "5"%byte :: digits d
  | Decimal.D6 d => "6"%byte :: digits d
  | Decimal.D7 d => "7"%byte :: digits d
  | Decimal.D8 d => "8"%byte :: digits d
  | Decimal.D9 d => "9"%byte :: digits d
  end.

(** [std::to_string] of a [size_t]: its decimal digits *)
Definition to_string (i : nat) : list byte := digits (Nat.to_uint i).

(** [std::string::substr(pos, n)]: throws past the end of the string *)
Definition substr (s : list byte) (pos n : Z) : outcome (list byte) :=
  if bool_decide (Z.of_nat (length s) < pos) then Throw out_of_range
  else Ok (take (Z.to_nat (Z.min n (Z.of_nat (length s) - pos))) (drop (Z.to_nat pos) s)).

(** The fields of the [Alignment] message the function reads or writes,
    over the [Path] message *)
Record Alignment (Path : Type) := mkAlignment {
  name : list byte;
  sequence : list byte;
  quality : list byte;
  path : Path
}.
Arguments mkAlignment {Path} name sequence quality path.
Arguments name {Path} a.
Arguments sequence {Path} a.
Arguments quality {Path} a.
Arguments path {Path} a.

(** What the graph, the translator and the alignment helpers, none of which
    is under [src/], do for [augment_from_alignment_edits]. *)
Class Augmenter := {
  (** the [Path] message *)
  Path : Type;
  (** [mapping.position().node_id()] of the mappings of a path, in order *)
  mapping_nodes : Path -> list Z;
  trim_hanging_ends : Path -> Path;
  (** [softclip_start] and [softclip_end]: an [int] each *)
  softclip_start : Alignment Path -> Z;
  softclip_end : Alignment Path -> Z;
  softclip_start_int : forall alignment, is_int (softclip_start alignment);
  softclip_end_int : forall alignment, is_int (softclip_end alignment);
  EditableGraph : Type;
  Translation : Type;
  (** [graph.edit(paths, false, true, false)]: the graph and the paths as it
      leaves them, and the translations it returns *)
  graph_edit : EditableGraph -> list Path -> EditableGraph * list Path * list Translation;
  (** [edit] updates the paths in place *)
  graph_edit_paths : forall graph paths,
    length (graph_edit graph paths).1.2 = length paths;
  Translator : Type;
  (** [translator.load(translations)] *)
  translator_load : Translator -> list Translation -> Translator
}.

Section AugmentedGraph.
Context {augmenter : Augmenter}.

Local Abbreviation Alignment := (Alignment Path).

Definition set_name (alignment : Alignment) (new_name : list byte) : Alignment :=
  mkAlignment new_name (sequence alignment) (quality alignment) (path alignment).
Definition set_sequence (alignment : Alignment) (new_sequence : list byte) : Alignment :=
  mkAlignment (name alignment) new_sequence (quality alignment) (path alignment).
Definition set_quality (alignment : Alignment) (new_quality : list byte) : Alignment :=
  mkAlignment (name alignment) (sequence alignment) new_quality (path alignment).
Definition set_path (alignment : Alignment) (new_path : Path) : Alignment :=
  mkAlignment (name alignment) (sequence alignment) (quality alignment) new_path.

(** [AugmentedGraph]; a [const Alignment*] into [embedded_alignments] is
    the place of the alignment in that vector. *)
Record AugmentedGraph := mkAugmentedGraph {
  graph : EditableGraph;
  translator : Translator;
  embedded_alignments : list Alignment;
  alignments_by_node : gmap Z (list nat)
}.

(** The state of the loop of lines 119-139: the alignments, [names_seen],
    [duplicate_names_warned], and the names the warning was printed for *)
Record naming := mkNaming {
  named : list Alignment;
  names_seen : gset (list byte);
  duplicate_names_warned : bool;
  warned_of : list (list byte)
}.

(** One turn of the loop of lines 119-139 *)
Definition name_alignment (st : naming) (i : nat) : outcome naming :=
  match named st !! i with
  | None => Undefined
  | Some alignment =>
      let alignment :=
        if bool_decide (name alignment = [])
        then (* Generate a name *) set_name alignment (unnamed_alignment_ ++ to_string i)
        else alignment in
      if bool_decide (name alignment ∈ names_seen st) then
        (* This name is duplicated *)
        let '(warned, printed) :=
          if negb (duplicate_names_warned st)
          then (true, warned_of st ++ [name alignment])
          else (duplicate_names_warned st, warned_of st) in
        (* Generate a new name *)
        let alignment := set_name alignment (renamed_alignment_ ++ to_string i) in
        assert 135 (negb (bool_decide (name alignment ∈ names_seen st)))
          (Ok (mkNaming (<[i := alignment]> (named st))
                        ({[name alignment]} ∪ names_seen st) warned printed))
      else
        Ok (mkNaming (<[i := alignment]> (named st))
                     ({[name alignment]} ∪ names_seen st)
                     (duplicate_names_warned st) (warned_of st))
  end.

(** Lines 114-141 *)
Definition make_names_unique (alignments : list Alignment) : outcome naming :=
  foldM name_alignment (mkNaming alignments ∅ false []) (seq 0 (length alignments)).

(** Lines 143-155: trim the softclips off a read *)
Definition trim_softclips (alignment : Alignment) : outcome Alignment :=
  let cut_start := softclip_start alignment in
  let cut_end := softclip_end alignment in
  let kept (s : list byte) := wrap64 (Z.of_nat (length s) - cut_start - cut_end) in
  new_sequence ← substr (sequence alignment) (wrap64 cut_start) (kept (sequence alignment));
  let alignment := set_sequence alignment new_sequence in
  alignment ←
    (if negb (bool_decide (length (quality alignment) = 0%nat)) then
       new_quality ← substr (quality alignment) (wrap64 cut_start) (kept (quality alignment));
       Ok (set_quality alignment new_quality)
     else Ok alignment);
  Ok (set_path alignment (trim_hanging_ends (path alignment))).

(** Lines 171-174: copy all the modified paths back *)
Definition copy_paths_back (alignments : list Alignment) (paths : list Path)
  : outcome (list Alignment) :=
  foldM (fun alignments i =>
           match alignments !! i, paths !! i with
           | Some alignment, Some edited => Ok (<[i := set_path alignment edited]> alignments)
           | _, _ => Undefined
           end)
        alignments (seq 0 (length paths)).

(** Lines 197-203: remember that the alignment at place [i] touches the
    nodes of its path, each node once *)
Definition index_alignment (by_node : gmap Z (list nat)) (i : nat) (alignment : Alignment)
  : gmap Z (list nat) :=
  (fold_left (fun '(by_node, seen) node_id =>
                if negb (bool_decide (node_id ∈ (seen : gset Z)))
                then (<[node_id := default [] (by_node !! node_id) ++ [i]]> by_node,
                      {[node_id]} ∪ seen)
                else (by_node, seen))
             (mapping_nodes (path alignment)) (by_node, ∅)).1.

(** Lines 190-205 *)
Definition index_alignments (by_node : gmap Z (list nat)) (embedded : list Alignment)
  : gmap Z (list nat) :=
  (fold_left (fun '(by_node, i) alignment => (index_alignment by_node i alignment, S i))
             embedded (by_node, 0%nat)).1.

(** [augment_from_alignment_edits] (108-207): the graph, what is left in
    the caller's vector, and the names warned of *)
Definition augment_from_alignment_edits (augmented : AugmentedGraph)
  (alignments : list Alignment) (unique_names leave_edits : bool)
  : outcome (AugmentedGraph * list Alignment * list (list byte)) :=
  (* This should only be called once. *)
  assert 112 (bool_decide (embedded_alignments augmented = []))
    ('(alignments, printed) ←
       (if unique_names then
          st ← make_names_unique alignments;
          Ok (named st, warned_of st)
        else Ok (alignments, []));
     alignments ←
       foldM (fun trimmed alignment =>
                alignment ← trim_softclips alignment; Ok (trimmed ++ [alignment]))
             [] alignments;
     '(graph, translator, alignments) ←
       (if negb leave_edits then
          let paths := map path alignments in
          let '(graph, paths, augmentation_translations) :=
            graph_edit (graph augmented) paths in
          alignments ← copy_paths_back alignments paths;
          Ok (graph, translator_load (translator augmented) augmentation_translations,
              alignments)
        else Ok (graph augmented, translator augmented, alignments));
     (* Steal the alignments for ourselves. *)
     let '(alignments, embedded) := (embedded_alignments augmented, alignments) in
     Ok (mkAugmentedGraph graph translator embedded
           (index_alignments (alignments_by_node augmented) embedded),
         alignments, printed)).

(** [get_alignments(node_id)] (85-92) *)
Definition get_alignments_of (augmented : AugmentedGraph) (node_id : Z) : list nat :=
  if bool_decide (is_Some (alignments_by_node augmented !! node_id))
  then default [] (alignments_by_node augmented !! node_id)
  else [].

(** [get_alignments()] (94-101) *)
Definition get_alignments (augmented : AugmentedGraph) : list nat :=
  seq 0 (length (embedded_alignments augmented)).

(** The places of the alignments whose path has a mapping on the node, in
    order, from place [i] on *)
Fixpoint touching (node_id : Z) (i : nat) (embedded : list Alignment) : list nat :=
  match embedded with
  | [] => []
  | alignment :: rest =>
      if bool_decide (node_id ∈ mapping_nodes (path alignment))
      then i :: touching node_id (S i) rest
      else touching node_id (S i) rest
  end.

(** What the naming loop may have made of the alignment at place [i]: its
    name kept or one of the two generated names, nothing else touched *)
Definition named_from (i : nat) (before after : Alignment) : Prop :=
  sequence after = sequence before /\ quality after = quality before /\
  path after = path before /\
  (name after = name before \/
   name after = unnamed_alignment_ ++ to_string i \/
   name after = renamed_alignment_ ++ to_string i).

(** The naming loop before turn [i] *)
Definition naming_moment (alignments : list Alignment) (i : nat) (st : naming) : Prop :=
  exists done,
    named st = done ++ drop i alignments /\
    length done = i /\ (i <= length alignments)%nat /\
    names_seen st = list_to_set (map name done) /\
    NoDup (map name done) /\
    Forall (fun alignment => name alignment <> []) done /\
    (forall j after, done !! j = Some after ->
                     exists before, alignments !! j = Some before /\ named_from j before after) /\
    (length (warned_of st) <= 1)%nat /\
    (duplicate_names_warned st = false -> warned_of st = []).

End AugmentedGraph.

(** Alignments whose paths are lists of node ids, on a graph that is left
    as it is *)
#[export] Instance toy_augmenter : Augmenter := {|
  Path := list Z;
  mapping_nodes := fun path => path;
  trim_hanging_ends := fun path => path;
  softclip_start := fun _ => 0;
  softclip_end := fun _ => 0;
  softclip_start_int := ltac:(intros; unfold is_int, int_min, int_max; lia);
  softclip_end_int := ltac:(intros; unfold is_int, int_min, int_max; lia);
  EditableGraph := unit;
  Translation := unit;
  graph_edit := fun graph paths => (graph, paths, []);
  graph_edit_paths := ltac:(reflexivity);
  Translator := unit;
  translator_load := fun translator _ => translator
|}.

(** Two reads of the same name, which is the one the loop would generate
    for the second; and three reads, two of them without a name *)
Definition clashing_reads : list (Alignment (list Z)) :=
  [ mkAlignment (renamed_alignment_ ++ to_string 1) [] [] [1; 2];
    mkAlignment (renamed_alignment_ ++ to_string 1) [] [] [2; 3] ].

Definition three_reads : list (Alignment (list Z)) :=
  [ mkAlignment [] [] [] [1; 2; 1];
    mkAlignment ["r"]%byte [] [] [2; 3];
    mkAlignment [] [] [] [] ].

(** ** SimpleTraversalSupportCalculator (genotypekit.cpp, 415-440) *)

(** The body of the inner loop (424-434) for traversal [t]: the [Support]
    it counts in is its own, made anew in every turn.  A read is the
    [read_on_reverse_strand] of the alignment pointed to, [None] for a null
    pointer. *)
Definition count_read (cons_i : list bool) (read : option bool) (t : nat) : outcome unit :=
  let s := SupportOps.Support_default in
  match cons_i !! t with
  | None => Undefined
  | Some consistent =>
      if (consistent : bool) then
        match read with
        | None => Undefined
        | Some read_on_reverse_strand =>
            if negb read_on_reverse_strand then
              let s := SupportOps.mkSupport (SupportOps.quality s)
                         (PrimFloat.add (SupportOps.forward s) 1)
                         (SupportOps.reverse s) (SupportOps.left s) (SupportOps.right s) in
              Ok tt
            else
              let s := SupportOps.mkSupport (SupportOps.quality s) (SupportOps.forward s)
                         (PrimFloat.add (SupportOps.reverse s) 1)
                         (SupportOps.left s) (SupportOps.right s) in
              Ok tt
        end
      else (* continue *) Ok tt
  end.

(** [calculate_supports] (415-440); of the traversals only their number is
    read *)
Definition calculate_supports (traversals : list (list Visit)) (reads : list (option bool))
  (consistencies : list (list bool)) : outcome (list SupportOps.Support) :=
  let site_supports := replicate (length traversals) SupportOps.Support_default in
  _ ← foldM (fun (_ : unit) i =>
               match consistencies !! i, reads !! i with
               | Some cons_i, Some read =>
                   foldM (fun (_ : unit) t => count_read cons_i read t) tt
                         (seq 0 (length traversals))
               | _, _ => Undefined
               end)
            tt (seq 0 (length reads));
  Ok site_supports.

(** The consistencies have a row for every read, every row an entry for
    every traversal, and no row of a null read says "consistent". *)
Definition rows_fit (traversals : nat) (reads : list (option bool))
  (consistencies : list (list bool)) : Prop :=
  forall i read,
    reads !! i = Some read ->
    exists cons_i,
      consistencies !! i = Some cons_i /\ (traversals <= length cons_i)%nat /\
      (read = None -> forall t, (t < traversals)%nat -> cons_i !! t = Some false).

(** ** SupportAugmentedGraph: loading and looking up supports
    (genotypekit.cpp, 222-252) *)

#[export] Instance Edge_countable : Countable Edge :=
  inj_countable' (fun e => (from e, from_start e, to e, to_end e))
                 (fun p => mkEdge p.1.1.1 p.1.1.2 p.1.2 p.2)
                 (fun e => match e with mkEdge _ _ _ _ => eq_refl end).

(** The graph the supports are loaded for *)
Class SupportedGraph := {
  (** the graph has a node with this id; [get_node] throws when not *)
  supported_node : Z -> bool;
  (** [graph.get_edge(side, side)]; null when there is no such edge *)
  supported_edge : NodeSide -> NodeSide -> option Edge
}.

(** The [LocationSupport] message: [node_id] when the location is a node
    ([oneof_location_case() == kNodeId]), the [edge] field, the support *)
Record LocationSupport := mkLocationSupport {
  location_node_id : option Z;
  location_edge : Edge;
  location_support : SupportOps.Support
}.

(** The two maps.  A [Node*] of the graph is the id of the node; an [Edge*]
    is the edge pointed to, [None] for the null pointer. *)
Record SupportMaps := mkSupportMaps {
  node_supports : gmap Z SupportOps.Support;
  edge_supports : gmap (option Edge) SupportOps.Support
}.

Section SupportAugmentedGraph.
Context {supported : SupportedGraph}.

(** [has_supports] (227-229) *)
Definition maps_have_supports (maps : SupportMaps) : bool :=
  negb (bool_decide (node_supports maps = ∅)) || negb (bool_decide (edge_supports maps = ∅)).

(** [get_support] of a node pointer (231-233) *)
Definition get_support_of_node (maps : SupportMaps) (node : Z) : SupportOps.Support :=
  if bool_decide (is_Some (node_supports maps !! node))
  then default SupportOps.Support_default (node_supports maps !! node)
  else SupportOps.Support_default.

(** [get_support] of an edge pointer (235-237) *)
Definition get_support_of_edge (maps : SupportMaps) (edge : option Edge)
  : SupportOps.Support :=
  if bool_decide (is_Some (edge_supports maps !! edge))
  then default SupportOps.Support_default (edge_supports maps !! edge)
  else SupportOps.Support_default.

(** The edge pointer a location's edge is looked up as (246-247) *)
Definition located_edge (edge : Edge) : option Edge :=
  supported_edge (mkNodeSide (from edge) (negb (from_start edge)))
                 (mkNodeSide (to edge) (to_end edge)).

(** The lambda of lines 242-249 *)
Definition load_location (maps : SupportMaps) (entry : LocationSupport) : outcome SupportMaps :=
  match location_node_id entry with
  | Some node_id =>
      if supported_node node_id
      then Ok (mkSupportMaps (<[node_id := location_support entry]> (node_supports maps))
                             (edge_supports maps))
      else Throw (runtime_error GraphError)
  | None =>
      Ok (mkSupportMaps (node_supports maps)
                        (<[located_edge (location_edge entry) := location_support entry]>
                           (edge_supports maps)))
  end.

(** [load_supports] (239-252) on the messages of the stream *)
Definition load_supports (maps : SupportMaps) (in_file : list LocationSupport)
  : outcome SupportMaps :=
  let maps := mkSupportMaps ∅ ∅ in
  foldM load_location maps in_file.

(** The supports a stream gives for a node, and for an edge pointer, in the
    order of the stream *)
Definition supports_given_node (node : Z) (in_file : list LocationSupport)
  : list SupportOps.Support :=
  omap (fun entry => if bool_decide (location_node_id entry = Some node)
                     then Some (location_support entry) else None) in_file.

Definition supports_given_edge (edge : option Edge) (in_file : list LocationSupport)
  : list SupportOps.Support :=
  omap (fun entry => if bool_decide (location_node_id entry = None /\
                                     located_edge (location_edge entry) = edge)
                     then Some (location_support entry) else None) in_file.

End SupportAugmentedGraph.

(** The toy graph's nodes and edges, for loading supports *)
#[export] Instance toy_supported_graph : SupportedGraph := {|
  supported_node := fun i => bool_decide (1 <= i <= 6);
  supported_edge := fun a b =>
    head (filter (fun e => bool_decide (mkNodeSide (from e) (negb (from_start e)) = a /\
                                        mkNodeSide (to e) (to_end e) = b))
                 toy_graph_edges)
|}.

(** ** The forest of chains find_snarls registers (genotypekit.cpp, 906-919) *)

(** The pointer reads the snarl stored in its slot. *)
Definition points_into (m : SnarlManager) (p : SnarlPtr) : Prop :=
  snarls m !! ptr_slot p = Some (ptr_target p).

(** The ends of the snarl a chain is registered under; none for a root
    chain *)
Definition ends_under (chain_parent : option SnarlPtr) : option (Visit * Visit) :=
  (fun q => (start (ptr_target q), end_ (ptr_target q))) <$> chain_parent.

(** An entry of a chain registered under [chain_parent]: not null, a
    pointer to a stored snarl, and that snarl names the ends of
    [chain_parent] as its parent. *)
Definition entry_in_order (m : SnarlManager) (here : option (Visit * Visit))
  (entry : option SnarlPtr) : Prop :=
  exists p, entry = Some p /\ points_into m p /\ parent (ptr_target p) = here.

Definition chain_in_order (m : SnarlManager) (chain : Chain) (chain_parent : option SnarlPtr)
  : Prop :=
  (forall q, chain_parent = Some q -> points_into m q) /\
  Forall (entry_in_order m (ends_under chain_parent)) chain.

Definition forest_in_order (m : SnarlManager) : Prop :=
  Forall (fun registered : Chain * option SnarlPtr =>
            chain_in_order m registered.1 registered.2) (chains m).

(** The entries of all registered chains *)
Definition chain_entries (m : SnarlManager) : list (option SnarlPtr) :=
  flat_map fst (chains m).

(** From [d] to [d']: snarls were stored behind those of [d], the forest is
    in order, and of the snarls stored all but [pending] have become
    entries of registered chains. *)
Definition grown (d d' : SnarlManager) (pending : nat) : Prop :=
  (exists new_snarls, snarls d' = snarls d ++ new_snarls) /\
  forest_in_order d' /\
  (length (snarls d') + length (chain_entries d)
   = length (snarls d) + length (chain_entries d') + pending)%nat.

(** [recurse] stores [child_snarl] with what is below it, keeps the forest
    in order and returns a pointer to the snarl stored for it. *)
Definition stores_in_order
  (recurse : stSnarl -> SnarlManager -> outcome (option SnarlPtr * SnarlManager))
  (here : option (Visit * Visit)) (child_snarl : stSnarl) : Prop :=
  forall destination,
    forest_in_order destination ->
    exists managed destination',
      recurse child_snarl destination = Ok (Some managed, destination') /\
      grown destination destination' 1 /\
      entry_in_order destination' here (Some managed) /\
      (start (ptr_target managed), end_ (ptr_target managed))
      = (child_start_of child_snarl, child_end_of child_snarl).

(** ** Where the alternates of find_traversals come from *)

Section Provenance.
Context {env : TraversalFinderEnv}.

(** [visits] is the reference path with the bubble of one seed of the site
    spliced into it: of a node or an edge of its contents, or of one of its
    children. *)
Definition spliced_from_seed (site : Snarl) (index : PathIndex)
  (contents : list Node * list Edge) (ref_path visits : list Visit) : Prop :=
  exists node edge child sup_path log log',
    ((exists n, n ∈ contents.1 /\ node = Some n /\ edge = None /\ child = None) \/
     (exists e, e ∈ contents.2 /\ node = None /\ edge = Some e /\ child = None) \/
     (exists c, c ∈ children_of site /\ node = None /\ edge = None /\ child = Some c)) /\
    find_bubble node edge child index site = Ok sup_path /\
    sup_path.2 <> [] /\
    splice_into_ref site contents.1 ref_path log sup_path.2 = Ok (visits, log').

End Provenance.

(** ** The seeds the alternates are searched from (genotypekit.cpp, 1921-2049) *)

Section UsedSeeds.
Context {env : TraversalFinderEnv}.





End UsedSeeds.

(** ** A child snarl on the backbone (genotypekit.cpp, 1630-1689) *)

Section ChildOnBackbone.
Context {env : TraversalFinderEnv}.

(** The entries of [by_start] from [found], the entry on whose node [here]
    the trace enters a child, through the inside of the child to [far]:
    every node is at least a base long, every entry starts where the one
    before it ends or later, no offset leaves [size_t], and the nodes of
    the entries between [found] and [far] are in the graph and not among
    the contents of the site. *)
Fixpoint through_child (contents_first : list Node) (here : Node) (found : Z * Visit)
  (inside : list (Z * Visit)) (nodes : list Node) (far : Z * Visit) : Prop :=
  1 <= sequence_size here /\ 0 <= found.1 /\ found.1 + sequence_size here < 2 ^ 64 /\
  match inside, nodes with
  | [], [] => found.1 + sequence_size here <= far.1
  | next :: inside', node :: nodes' =>
      found.1 + sequence_size here <= next.1 /\
      graph_node (node_id next.2) = Some node /\
      (node ∉ contents_first) /\
      through_child contents_first node next inside' nodes' far
  | _, _ => False
  end.

(** Where the entry before [far] ends *)
Fixpoint child_left_at (here : Node) (found : Z * Visit) (inside : list (Z * Visit))
  (nodes : list Node) : Z :=
  match inside, nodes with
  | next :: inside', node :: nodes' => child_left_at node next inside' nodes'
  | _, _ => found.1 + sequence_size here
  end.

(** The visit of the child: backward unless it is entered at its start *)
Definition child_visit_of (child : SnarlPtr) (found_visit : Visit) : Visit :=
  mkVisit 0 (ends_of (ptr_target child))
          (negb (bool_decide (found_visit = start (ptr_target child)))).

End ChildOnBackbone.

(** The path 1 - 2 - 3 - 4 - 5 with the site from 1 to 5 and, in it, a
    child from 2 to 4: node 3 is inside the child. *)
Definition line_nodes : list Node :=
  [mkNode 1 1; mkNode 2 1; mkNode 3 1; mkNode 4 1; mkNode 5 1].

Definition line_edges : list Edge :=
  [mkEdge 1 false 2 false; mkEdge 2 false 3 false;
   mkEdge 3 false 4 false; mkEdge 4 false 5 false].

Definition line_site : Snarl :=
  mkSnarl ULTRABUBBLE (to_visit 1 false) (to_visit 5 false) None false true false true.

Definition line_child : SnarlPtr :=
  mkPtr 1 (mkSnarl ULTRABUBBLE (to_visit 2 false) (to_visit 4 false)
                   (Some (to_visit 1 false, to_visit 5 false)) false true false true).

Definition line_index : PathIndex :=
  mkPathIndex {[ 1 := (0, false); 2 := (1, false); 3 := (2, false);
                 4 := (3, false); 5 := (4, false) ]}
              [(0, to_visit 1 false); (1, to_visit 2 false); (2, to_visit 3 false);
               (3, to_visit 4 false); (4, to_visit 5 false)].

Definition line_enters (v : Visit) : option SnarlPtr :=
  if bool_decide (v = to_visit 2 false) || bool_decide (v = to_visit 4 true)
  then Some line_child
  else if bool_decide (v = to_visit 1 false) || bool_decide (v = to_visit 5 true)
       then Some (mkPtr 0 line_site)
       else None.

(** The sides of a visit, those of a child's boundaries for the visit of a
    child *)
Definition line_left_side (v : Visit) : NodeSide :=
  if bool_decide (node_id v = 0) then
    if backward v
    then mkNodeSide (nv_node_id (ends_end (snarl v))) (negb (nv_backward (ends_end (snarl v))))
    else mkNodeSide (nv_node_id (ends_start (snarl v))) (nv_backward (ends_start (snarl v)))
  else mkNodeSide (node_id v) (backward v).

Definition line_right_side (v : Visit) : NodeSide :=
  if bool_decide (node_id v = 0) then
    if backward v
    then mkNodeSide (nv_node_id (ends_start (snarl v))) (nv_backward (ends_start (snarl v)))
    else mkNodeSide (nv_node_id (ends_end (snarl v))) (negb (nv_backward (ends_end (snarl v))))
  else mkNodeSide (node_id v) (negb (backward v)).

Definition line_env : TraversalFinderEnv := {|
  graph_node := fun i => List.find (fun node => bool_decide (id node = i)) line_nodes;
  get_edge := fun side1 side2 =>
    if ns_is_end side1 && negb (ns_is_end side2) then
      List.find (fun e => bool_decide (from e = ns_node side1 /\ to e = ns_node side2))
                line_edges
    else if negb (ns_is_end side1) && ns_is_end side2 then
      List.find (fun e => bool_decide (from e = ns_node side2 /\ to e = ns_node side1))
                line_edges
    else None;
  has_supports := false;
  get_support_node := fun _ => SupportOps.Support_default;
  get_support_edge := fun _ => SupportOps.Support_default;
  to_left_side := line_left_side;
  to_right_side := line_right_side;
  manage := fun site => mkPtr 0 site;
  into_which_snarl_visit := line_enters;
  into_which_snarl := fun i is_reverse => line_enters (to_visit i is_reverse);
  visits_left := fun v _ =>
    if backward v
    then map (fun e => to_visit (to e) true)
             (filter (fun e => bool_decide (from e = node_id v)) line_edges)
    else map (fun e => to_visit (from e) false)
             (filter (fun e => bool_decide (to e = node_id v)) line_edges);
  shallow_contents := fun _ =>
    ([mkNode 1 1; mkNode 2 1; mkNode 4 1; mkNode 5 1],
     [mkEdge 1 false 2 false; mkEdge 4 false 5 false]);
  children_of := fun _ => [line_child];
  get_index := fun _ => Some line_index;
  backbone_index := fun _ => Throw (runtime_error GraphError);
  max_depth := 2;
  max_width := 10;
  max_bubble_paths := 10;
  verbose := false;
  backbone_index_assertions := ltac:(discriminate);
  max_depth_range := ltac:(lia);
  max_width_range := ltac:(lia);
  max_bubble_paths_range := ltac:(lia)
|}.

(** * Properties *)

(** ** Support arithmetic *)

Section SupportFacts.
Import SupportOps.

(** [operator+] adds every component of the two records. *)
Lemma support_add_components (one other : Support) :
  quality (support_add one other) = PrimFloat.add (quality one) (quality other) /\
  forward (support_add one other) = PrimFloat.add (forward one) (forward other) /\
  reverse (support_add one other) = PrimFloat.add (reverse one) (reverse other) /\
  left (support_add one other) = PrimFloat.add (left one) (left other) /\
  right (support_add one other) = PrimFloat.add (right one) (right other).
Proof. repeat split. Qed.

(** [total] is the forward count plus the reverse count. *)
Lemma total_forward_reverse (s : Support) :
  total s = PrimFloat.add (forward s) (reverse s).
Proof. reflexivity. Qed.

(** [support_min] takes the minimum of the forward, reverse and quality
    components ... *)
Lemma support_min_set_components (a b : Support) :
  forward (support_min a b) = fmin (forward a) (forward b) /\
  reverse (support_min a b) = fmin (reverse a) (reverse b) /\
  quality (support_min a b) = fmin (quality a) (quality b).
Proof. repeat split. Qed.

(** ... and leaves the left and right counts at the default, whatever the
    arguments hold. *)
Lemma support_min_left_right_default (a b : Support) :
  left (support_min a b) = 0%float /\ right (support_min a b) = 0%float.
Proof. split; reflexivity. Qed.

(** C8 (evaluation at the failing input): for two supports whose left count
    is 2 and right count is 3, [support_min] returns left = right = 0, not
    the componentwise minimum (2 and 3), although [operator+] on the same
    arguments does combine left and right (4 and 6), and [total] is
    forward + reverse (5). *)
Theorem support_min_drops_left_and_right :
  let a := mkSupport 1 2 3 2 3 in
  left (support_min a a) = 0%float /\
  right (support_min a a) = 0%float /\
  fmin (left a) (left a) = 2%float /\
  fmin (right a) (right a) = 3%float /\
  PrimFloat.eqb (left (support_min a a)) (fmin (left a) (left a)) = false /\
  PrimFloat.eqb (right (support_min a a)) (fmin (right a) (right a)) = false /\
  left (support_add a a) = 4%float /\
  right (support_add a a) = 6%float /\
  total a = 5%float.
Proof. vm_compute. repeat split. Qed.

End SupportFacts.

(** ** Reasoning about code in the [outcome] monad *)

Lemma bind_Ok_inv {A B} (m : outcome A) (k : A -> outcome B) (b : B) :
  (m ≫= k) = Ok b -> exists a, m = Ok a /\ k a = Ok b.
Proof.
  destruct m as [a| | | |]; cbn; try discriminate.
  intros Hk. exists a. split; [reflexivity | exact Hk].
Qed.

Ltac bind_inv H :=
  let a := fresh "r" in
  let Ha := fresh "Hr" in
  apply bind_Ok_inv in H; destruct H as (a & Ha & H).

Tactic Notation "bind_split" hyp(H) "as" simple_intropattern(a) ident(Ha) :=
  apply bind_Ok_inv in H; destruct H as (a & Ha & H).

(** A property of the loop state that every turn of the body keeps holds
    when the loop is left normally. *)
Lemma foldM_invariant {A S} (I : S -> Prop) (body : S -> A -> outcome S) (l : list A) :
  forall s s',
    (forall s x s', x ∈ l -> I s -> body s x = Ok s' -> I s') ->
    I s -> foldM body s l = Ok s' -> I s'.
Proof.
  induction l as [|x l IH]; intros s s' Hbody Hs Hrun; cbn in Hrun.
  - injection Hrun as <-. exact Hs.
  - bind_inv Hrun. eapply IH; [ | | exact Hrun].
    + intros s1 y s2 Hy. apply Hbody. now right.
    + eapply Hbody; [left | exact Hs | exact Hr].
Qed.

Lemma foldM_not_Diverges {A S} (body : S -> A -> outcome S) (l : list A) :
  (forall s x, body s x <> Diverges) -> forall s, foldM body s l <> Diverges.
Proof.
  intros Hbody. induction l as [|x l IH]; intros s; cbn; [discriminate|].
  specialize (Hbody s x). destruct (body s x); cbn; try apply IH; easy.
Qed.

(** *** Which assertions a computation can fail on *)

Lemma asserts_within_Ok {A} (lines : list Z) (a : A) : asserts_within lines (Ok a).
Proof. intros line Hfail. discriminate. Qed.

Lemma asserts_within_Throw {A} (lines : list Z) (e : exception) :
  asserts_within lines (@Throw A e).
Proof. intros line Hfail. discriminate. Qed.

Lemma asserts_within_Undefined {A} (lines : list Z) : asserts_within lines (@Undefined A).
Proof. intros line Hfail. discriminate. Qed.

Lemma asserts_within_Diverges {A} (lines : list Z) : asserts_within lines (@Diverges A).
Proof. intros line Hfail. discriminate. Qed.

Lemma asserts_within_failure {A} (lines : list Z) (line : Z) :
  line ∈ lines -> asserts_within lines (@AssertionFailure A line).
Proof. intros Hin line' Hfail. now injection Hfail as <-. Qed.

Lemma asserts_within_assert {A} (lines : list Z) (line : Z) (b : bool) (k : outcome A) :
  line ∈ lines -> asserts_within lines k -> asserts_within lines (assert line b k).
Proof.
  intros Hin Hk. unfold assert. destruct b; [exact Hk|].
  now apply asserts_within_failure.
Qed.

Lemma asserts_within_bind {A B} (lines : list Z) (m : outcome A) (k : A -> outcome B) :
  asserts_within lines m ->
  (forall a, asserts_within lines (k a)) ->
  asserts_within lines (m ≫= k).
Proof.
  intros Hm Hk. destruct m as [a|line| | |]; cbn.
  - apply Hk.
  - intros line' Hfail. injection Hfail as <-. now apply Hm.
  - apply asserts_within_Throw.
  - apply asserts_within_Undefined.
  - apply asserts_within_Diverges.
Qed.

Lemma asserts_within_foldM {A S} (lines : list Z) (body : S -> A -> outcome S)
  (l : list A) :
  (forall s x, asserts_within lines (body s x)) ->
  forall s, asserts_within lines (foldM body s l).
Proof.
  intros Hbody. induction l as [|x l IH]; intros s; cbn.
  - apply asserts_within_Ok.
  - apply asserts_within_bind; [apply Hbody | apply IH].
Qed.

Ltac line_in_list :=
  repeat (first [ apply list_elem_of_here | apply list_elem_of_further ]).

(** Goes through the [if]s, [match]es and binds of a computation. *)
Ltac asserts_within_step :=
  lazymatch goal with
  | |- asserts_within _ (Ok _) => apply asserts_within_Ok
  | |- asserts_within _ (Throw _) => apply asserts_within_Throw
  | |- asserts_within _ Undefined => apply asserts_within_Undefined
  | |- asserts_within _ Diverges => apply asserts_within_Diverges
  | |- asserts_within _ (AssertionFailure _) =>
      apply asserts_within_failure; line_in_list
  | |- asserts_within _ (assert _ _ _) =>
      apply asserts_within_assert; [line_in_list|]
  | |- asserts_within _ (foldM _ _ _) => apply asserts_within_foldM; intros
  | |- asserts_within _ (_ ≫= _) => apply asserts_within_bind; [|intros]
  | |- asserts_within _ (if ?b then _ else _) => destruct b
  | |- asserts_within _ (match ?x with _ => _ end) => destruct x
  end.

(** ** Orderings and sorted sets *)

Lemma lex_Eq (c1 c2 : comparison) : lex c1 c2 = Eq <-> c1 = Eq /\ c2 = Eq.
Proof. destruct c1, c2; cbn; intuition congruence. Qed.

Lemma lex_Lt (c1 c2 : comparison) :
  lex c1 c2 = Lt <-> c1 = Lt \/ (c1 = Eq /\ c2 = Lt).
Proof. destruct c1, c2; cbn; intuition congruence. Qed.

Lemma lex_CompOpp (c1 c2 : comparison) :
  CompOpp (lex c1 c2) = lex (CompOpp c1) (CompOpp c2).
Proof. now destruct c1. Qed.

#[export] Instance Z_compare_lawful : LawfulCompare Z.compare.
Proof.
  split.
  - intros a b. apply Z.compare_eq.
  - apply Z.compare_refl.
  - intros a b. apply Z.compare_antisym.
  - intros a b c. rewrite !Z.compare_lt_iff. lia.
Qed.

#[export] Instance bool_compare_lawful : LawfulCompare bool_compare.
Proof.
  split.
  - now intros [] [].
  - now intros [].
  - now intros [] [].
  - now intros [] [] [].
Qed.

Section LawfulCompareFacts.
Context {A B : Type} (ca : A -> A -> comparison) (cb : B -> B -> comparison).
Context {Ha : LawfulCompare ca} {Hb : LawfulCompare cb}.

Lemma cmp_Lt_Eq_trans (a b c : A) : ca a b = Lt -> ca b c = Eq -> ca a c = Lt.
Proof. intros Hab Hbc. apply cmp_eq in Hbc. now subst. Qed.

Lemma cmp_Eq_Lt_trans (a b c : A) : ca a b = Eq -> ca b c = Lt -> ca a c = Lt.
Proof. intros Hab Hbc. apply cmp_eq in Hab. now subst. Qed.

Lemma cmp_Gt_Lt (a b : A) : ca a b = Gt <-> ca b a = Lt.
Proof.
  rewrite (cmp_antisym (cmp := ca) a b).
  destruct (ca a b); cbn; intuition congruence.
Qed.

Lemma cmp_irrefl (a : A) : ca a a <> Lt.
Proof. rewrite (cmp_refl (cmp := ca)). discriminate. Qed.

#[export] Instance pair_compare_lawful : LawfulCompare (pair_compare ca cb).
Proof.
  split; unfold pair_compare.
  - intros [a1 b1] [a2 b2]; cbn. rewrite lex_Eq. intros [H1 H2].
    apply cmp_eq in H1, H2. now subst.
  - intros [a b]; cbn. now rewrite !cmp_refl.
  - intros [a1 b1] [a2 b2]; cbn. now rewrite lex_CompOpp, <- !cmp_antisym.
  - intros [a1 b1] [a2 b2] [a3 b3]; cbn. rewrite !lex_Lt.
    intros [H12|[H12 G12]] [H23|[H23 G23]].
    + left. eapply cmp_trans; eassumption.
    + left. eapply cmp_Lt_Eq_trans; eassumption.
    + left. eapply cmp_Eq_Lt_trans; eassumption.
    + right. split.
      * apply cmp_eq in H12, H23. subst. apply cmp_refl.
      * eapply cmp_trans; eassumption.
Qed.

#[export] Instance list_compare_lawful : LawfulCompare (list_compare ca).
Proof.
  split.
  - intros xs. induction xs as [|x xs IH]; intros [|y ys]; cbn; try discriminate.
    + reflexivity.
    + rewrite lex_Eq. intros [Hx Hxs]. apply cmp_eq in Hx. apply IH in Hxs. now subst.
  - intros xs. induction xs as [|x xs IH]; cbn; [reflexivity|].
    now rewrite cmp_refl.
  - intros xs. induction xs as [|x xs IH]; intros [|y ys]; cbn; try reflexivity.
    now rewrite lex_CompOpp, <- cmp_antisym, <- IH.
  - intros xs. induction xs as [|x xs IH]; intros [|y ys] [|z zs]; cbn;
      try discriminate; try reflexivity.
    rewrite !lex_Lt. intros [H12|[H12 G12]] [H23|[H23 G23]].
    + left. eapply cmp_trans; eassumption.
    + left. eapply cmp_Lt_Eq_trans; eassumption.
    + left. eapply cmp_Eq_Lt_trans; eassumption.
    + right. split.
      * apply cmp_eq in H12, H23. subst. apply cmp_refl.
      * eapply IH; eassumption.
Qed.

(** A lawful comparison read through an injection is lawful. *)
Lemma lawful_through (f : B -> A) :
  (forall x y, f x = f y -> x = y) -> LawfulCompare (fun x y => ca (f x) (f y)).
Proof.
  intros Hinj. split.
  - intros x y Hxy. apply Hinj. now apply cmp_eq.
  - intros x. apply cmp_refl.
  - intros x y. apply cmp_antisym.
  - intros x y z. apply cmp_trans.
Qed.

(** *** [std::set] *)

Lemma set_insert_elem (x y : A) (s : list A) :
  x ∈ set_insert ca y s <-> x = y \/ x ∈ s.
Proof.
  induction s as [|z s IH]; cbn.
  - rewrite list_elem_of_singleton, elem_of_nil. tauto.
  - destruct (ca y z) eqn:Hyz.
    + apply cmp_eq in Hyz. subst z. rewrite elem_of_cons. tauto.
    + rewrite !elem_of_cons. tauto.
    + rewrite !elem_of_cons, IH. tauto.
Qed.

Lemma set_insert_sorted (y : A) (s : list A) :
  strictly_sorted ca s -> strictly_sorted ca (set_insert ca y s).
Proof.
  unfold strictly_sorted. induction 1 as [|z s Hs IH Hz]; cbn.
  - constructor; [constructor | constructor].
  - destruct (ca y z) eqn:Hyz.
    + now constructor.
    + constructor; [now constructor|]. constructor; [exact Hyz|].
      eapply Forall_impl; [exact Hz|]. cbn. intros w Hzw.
      eapply cmp_trans; eassumption.
    + constructor; [exact IH|].
      apply Forall_forall. intros w Hw. apply set_insert_elem in Hw as [->|Hw].
      * now apply cmp_Gt_Lt.
      * rewrite Forall_forall in Hz. now apply Hz.
Qed.


Lemma strictly_sorted_NoDup (s : list A) : strictly_sorted ca s -> NoDup s.
Proof.
  unfold strictly_sorted. induction 1 as [|z s Hs IH Hz]; constructor; [|exact IH].
  intros Hin. rewrite Forall_forall in Hz. apply (cmp_irrefl z). now apply Hz.
Qed.

(** Inserting the images of a list, as a loop of [emplace] calls does *)
Lemma fold_insert_elem (f : B -> A) (l : list B) :
  forall (s : list A) (x : A),
    x ∈ fold_left (fun acc y => set_insert ca (f y) acc) l s
    <-> x ∈ s \/ exists y, y ∈ l /\ x = f y.
Proof.
  induction l as [|y l IH]; intros s x; cbn.
  - split; [tauto|]. intros [Hx|(y & Hy & _)]; [exact Hx|]. now apply elem_of_nil in Hy.
  - rewrite IH, set_insert_elem. split.
    + intros [[->|Hx]|(z & Hz & ->)].
      * right. exists y. split; [left|reflexivity].
      * now left.
      * right. exists z. split; [now right|reflexivity].
    + intros [Hx|(z & Hz & ->)]; [tauto|].
      apply elem_of_cons in Hz as [->|Hz]; [tauto|]. right. now exists z.
Qed.

Lemma fold_insert_sorted (f : B -> A) (l : list B) :
  forall s : list A,
    strictly_sorted ca s ->
    strictly_sorted ca (fold_left (fun acc y => set_insert ca (f y) acc) l s).
Proof.
  induction l as [|y l IH]; intros s Hs; cbn; [exact Hs|].
  apply IH. now apply set_insert_sorted.
Qed.

End LawfulCompareFacts.

#[export] Instance node_visit_compare_lawful : LawfulCompare node_visit_compare.
Proof.
  apply (lawful_through (pair_compare Z.compare bool_compare)
                        (fun n => (nv_node_id n, nv_backward n))).
  intros [i1 b1] [i2 b2]; cbn. now intros [= -> ->].
Qed.

#[export] Instance visit_compare_lawful : LawfulCompare visit_compare.
Proof.
  apply (lawful_through
           (pair_compare Z.compare
              (pair_compare node_visit_compare
                 (pair_compare node_visit_compare bool_compare)))
           (fun v => (node_id v, (ends_start (snarl v), (ends_end (snarl v), backward v))))).
  intros [i1 [s1 e1] b1] [i2 [s2 e2] b2]; cbn. now intros [= -> -> -> ->].
Qed.

#[export] Instance path_compare_lawful : LawfulCompare path_compare.
Proof. unfold path_compare. apply _. Qed.

#[export] Instance sized_path_compare_lawful : LawfulCompare sized_path_compare.
Proof. unfold sized_path_compare. apply _. Qed.

(** ** The snarl finder *)

(** Induction on a snarl decomposition: a property holds of every [stSnarl]
    when it holds of one whose chain members and unary children have it. *)
Fixpoint stSnarl_nested_ind (P : stSnarl -> Prop)
  (step : forall e1 e2 cs us,
      Forall (Forall P) cs -> Forall P us -> P (mk_stSnarl e1 e2 cs us))
  (s : stSnarl) {struct s} : P s :=
  match s with
  | mk_stSnarl e1 e2 cs us =>
      step e1 e2 cs us
        ((fix over_chains (cs : list (list stSnarl)) : Forall (Forall P) cs :=
            match cs return Forall (Forall P) cs with
            | [] => @List.Forall_nil _ _
            | c :: cs' =>
                @List.Forall_cons _ (Forall P) c cs'
                  ((fix over_chain (c : list stSnarl) : Forall P c :=
                      match c return Forall P c with
                      | [] => @List.Forall_nil _ _
                      | x :: c' =>
                          @List.Forall_cons _ P x c' (stSnarl_nested_ind P step x)
                                            (over_chain c')
                      end) c)
                  (over_chains cs')
            end) cs)
        ((fix over_chain (c : list stSnarl) : Forall P c :=
            match c return Forall P c with
            | [] => @List.Forall_nil _ _
            | x :: c' =>
                @List.Forall_cons _ P x c' (stSnarl_nested_ind P step x) (over_chain c')
            end) us)
  end.

Section CactusSnarlFinderFacts.
Context {env : SnarlFinderEnv}.

Abbreviation not_ultrabubble := (fun child => negb (bool_decide (type child = ULTRABUBBLE))).

Lemma chain_all_ultrabubble_spec (chain : Chain) (b : bool) :
  chain_all_ultrabubble chain = Ok b ->
  b = negb (existsb not_ultrabubble (chain_targets chain)).
Proof.
  induction chain as [|[child|] chain IH]; cbn; intros Hrun.
  - now injection Hrun as <-.
  - destruct (decide (type (ptr_target child) = ULTRABUBBLE)) as [Hty|Hty].
    + rewrite (bool_decide_eq_true_2 _ Hty). cbn. now apply IH.
    + rewrite (bool_decide_eq_false_2 _ Hty). cbn. now injection Hrun as <-.
  - discriminate.
Qed.

Lemma all_ultrabubble_children_spec (child_chains : list Chain) (b : bool) :
  all_ultrabubble_children child_chains = Ok b ->
  b = negb (existsb not_ultrabubble (flat_map chain_targets child_chains)).
Proof.
  revert b. induction child_chains as [|chain rest IH]; cbn; intros b Hrun.
  - now injection Hrun as <-.
  - bind_inv Hrun. apply chain_all_ultrabubble_spec in Hr.
    rewrite existsb_app. destruct r.
    + apply IH in Hrun. symmetry in Hr. apply negb_true_iff in Hr.
      now rewrite Hr.
    + injection Hrun as <-. symmetry in Hr. apply negb_false_iff in Hr.
      now rewrite Hr.
Qed.

(** [classify] against the table: lines 846-904 assign UNARY exactly to the
    snarls whose ends share a node id, and follow the table for the others. *)
Lemma classify_spec (start_v end_v : Visit) (snarl : Snarl) (child_chains : list Chain)
  (t : SnarlType) :
  classify start_v end_v snarl child_chains = Ok t ->
  (t = UNARY <-> node_id start_v = node_id end_v) /\
  (node_id start_v <> node_id end_v ->
   t = decision_table snarl (flat_map chain_targets child_chains)).
Proof.
  unfold classify, decision_table. intros Hrun.
  destruct (decide (node_id start_v = node_id end_v)) as [Heq|Hne].
  { injection Hrun as <-. split; [tauto | contradiction]. }
  destruct (start_end_reachable snarl); cbn in *.
  2:{ injection Hrun as <-. split; [split; [discriminate | contradiction] | reflexivity]. }
  destruct (start_self_reachable snarl || end_self_reachable snarl); cbn in *.
  { injection Hrun as <-. split; [split; [discriminate | contradiction] | reflexivity]. }
  bind_inv Hrun. apply all_ultrabubble_children_spec in Hr. subst r.
  destruct (existsb _ _); cbn in *.
  { injection Hrun as <-. split; [split; [discriminate | contradiction] | reflexivity]. }
  destruct (directed_acyclic_net_graph snarl); cbn in *;
    injection Hrun as <-; (split; [split; [discriminate | contradiction] | reflexivity]).
Qed.

(** *** Registering chains *)

Lemma register_chains_snarls (managed : option SnarlPtr) (child_chains : list Chain) :
  forall m,
    snarls (fold_left (fun destination chain => add_chain destination chain managed)
                      child_chains m) = snarls m.
Proof.
  induction child_chains as [|chain rest IH]; intros m; cbn; [reflexivity|].
  now rewrite IH.
Qed.

Lemma register_chains_chains (managed : option SnarlPtr) (child_chains : list Chain) :
  forall m,
    chains (fold_left (fun destination chain => add_chain destination chain managed)
                      child_chains m)
    = chains m ++ map (fun chain => (chain, managed)) child_chains.
Proof.
  induction child_chains as [|chain rest IH]; intros m; cbn.
  - now rewrite app_nil_r.
  - rewrite IH. cbn. now rewrite <- app_assoc.
Qed.

Lemma chains_at_chains (m m' : SnarlManager) (i : nat) :
  chains m' = chains m -> chains_at m' i = chains_at m i.
Proof. unfold chains_at. now intros ->. Qed.

Lemma chains_at_registered (m : SnarlManager) (managed : option SnarlPtr)
  (child_chains : list Chain) (i : nat) :
  chains_at (fold_left (fun destination chain => add_chain destination chain managed)
                       child_chains m) i
  = chains_at m i ++
    match managed with
    | Some p => if decide (ptr_slot p = i) then child_chains else []
    | None => []
    end.
Proof.
  unfold chains_at. rewrite register_chains_chains, omap_app. f_equal.
  induction child_chains as [|chain rest IH]; cbn.
  - destruct managed as [p|]; [destruct (decide _)|]; reflexivity.
  - destruct managed as [p|]; [destruct (decide _)|]; cbn in *;
      rewrite ?IH; reflexivity.
Qed.

(** No chain is registered yet with the slot the next snarl will take. *)
Lemma chains_at_fresh (m : SnarlManager) :
  parents_in_range m -> chains_at m (length (snarls m)) = [].
Proof.
  unfold parents_in_range, chains_at. intros Hrange.
  induction (chains m) as [|[chain parent] rest IH]; cbn; [reflexivity|].
  rewrite IH.
  - destruct parent as [p|]; [|reflexivity].
    destruct (decide _) as [Hslot|]; [|reflexivity].
    specialize (Hrange chain p ltac:(left)). lia.
  - intros c p Hin. apply (Hrange c p). now right.
Qed.

(** Storing a snarl that follows the rules for the chains about to be
    registered with it keeps the manager in order. *)
Lemma store_snarl_ok (graph : VG) (m : SnarlManager) (s : Snarl)
  (child_chains : list Chain) :
  manager_ok graph m ->
  snarl_ok graph s child_chains ->
  manager_ok graph (fold_left (fun destination chain =>
                                 add_chain destination chain (Some (add_snarl m s).1))
                              child_chains (add_snarl m s).2).
Proof.
  intros [Hrange Hok] Hs. split.
  - intros chain p Hin.
    rewrite register_chains_snarls. rewrite register_chains_chains in Hin.
    cbn in *. rewrite length_app. cbn.
    apply elem_of_app in Hin as [Hin|Hin].
    + specialize (Hrange _ _ Hin). lia.
    + apply list_elem_of_fmap in Hin as (c & Heq & _). injection Heq as _ ->. cbn. lia.
  - intros i s' Hlook.
    rewrite register_chains_snarls in Hlook.
    rewrite (chains_at_registered (add_snarl m s).2 (Some (add_snarl m s).1)).
    rewrite (chains_at_chains m (add_snarl m s).2 i eq_refl).
    cbn [add_snarl fst snd ptr_slot snarls] in *.
    destruct (decide (length (snarls m) = i)) as [<-|Hother].
    + rewrite chains_at_fresh by exact Hrange. cbn [app].
      rewrite list_lookup_middle in Hlook by reflexivity.
      now injection Hlook as <-.
    + rewrite app_nil_r. apply Hok.
      apply lookup_app_Some in Hlook as [Hlook|[Hge Hlook]]; [exact Hlook|].
      destruct (i - length (snarls m))%nat as [|k] eqn:Hk; [lia|]. discriminate Hlook.
Qed.

Lemma store_root_chains_ok (graph : VG) (m : SnarlManager) (child_chains : list Chain) :
  manager_ok graph m ->
  manager_ok graph (fold_left (fun destination chain => add_chain destination chain None)
                              child_chains m).
Proof.
  intros [Hrange Hok]. split.
  - intros chain p Hin.
    rewrite register_chains_snarls. rewrite register_chains_chains in Hin.
    apply elem_of_app in Hin as [Hin|Hin]; [now apply (Hrange chain)|].
    apply list_elem_of_fmap in Hin as (c & Heq & _). discriminate.
  - intros i s Hlook. rewrite register_chains_snarls in Hlook.
    rewrite chains_at_registered, app_nil_r. now apply Hok.
Qed.

Lemma manager_ok_empty (graph : VG) : manager_ok graph SnarlManager_empty.
Proof.
  split.
  - intros chain p Hin. cbn in Hin. now apply elem_of_nil in Hin.
  - intros i s Hlook. cbn in Hlook. now rewrite lookup_nil in Hlook.
Qed.

(** *** The two searches run to their end *)

(** Queueing the handles an edge scan yields never makes the queue grow by
    more than the number of handles that were not yet queued. *)
Lemma handle_edge_measure (handles : gset handle_t) (scanned : list handle_t) :
  (forall other, In other scanned -> other ∈ handles) ->
  forall queue queued,
    (length (fold_left handle_edge scanned (queue, queued)).1 +
     size (handles ∖ (fold_left handle_edge scanned (queue, queued)).2)
     <= length queue + size (handles ∖ queued))%nat.
Proof.
  induction scanned as [|other rest IH]; intros Hin queue queued; cbn; [lia|].
  assert (Hrest : forall o, In o rest -> o ∈ handles) by (intros o Ho; apply Hin; now right).
  destruct (decide (other ∈ queued)) as [Hseen|Hnew]; [now apply IH|].
  etransitivity; [apply (IH Hrest)|].
  rewrite length_app. cbn.
  assert (Hsplit : handles ∖ queued = {[other]} ∪ handles ∖ ({[other]} ∪ queued)).
  { apply set_eq. intros h. specialize (Hin other ltac:(now left)).
    rewrite elem_of_union, !elem_of_difference, elem_of_union, elem_of_singleton.
    destruct (decide (h = other)) as [->|Hother]; tauto. }
  rewrite Hsplit.
  rewrite (size_union (C := gset handle_t) {[other]} (handles ∖ ({[other]} ∪ queued))),
    (size_singleton (C := gset handle_t)); [lia|].
  intros h. rewrite elem_of_singleton, elem_of_difference, elem_of_union, elem_of_singleton.
  tauto.
Qed.

Lemma follow_edges_in_handles (net : NetGraph) (here other : handle_t) :
  In other (follow_edges net here false) ->
  other ∈ (list_to_set (net_handles net) : gset handle_t).
Proof.
  intros Hin. apply elem_of_list_to_set, list_elem_of_In.
  exact (follow_edges_handles net here false other Hin).
Qed.

(** Once the fuel covers the queue and the handles still to be queued, more
    fuel changes nothing: the loop has left through its own exits. *)
Lemma search_from_start_enough (net : NetGraph) (start_handle end_handle : handle_t)
  (fuel1 : nat) :
  forall fuel2 queue queued connected_start_end connected_start_start,
    (length queue + size ((list_to_set (net_handles net) : gset handle_t) ∖ queued)
     <= fuel1)%nat ->
    (length queue + size ((list_to_set (net_handles net) : gset handle_t) ∖ queued)
     <= fuel2)%nat ->
    search_from_start fuel1 net start_handle end_handle queue queued
      connected_start_end connected_start_start
    = search_from_start fuel2 net start_handle end_handle queue queued
        connected_start_end connected_start_start.
Proof.
  induction fuel1 as [|fuel1 IH]; intros fuel2 queue queued cse css H1 H2.
  - destruct queue; [|cbn in H1; lia]. now destruct fuel2.
  - destruct fuel2 as [|fuel2].
    + destruct queue; [reflexivity | cbn in H2; lia].
    + destruct queue as [|here queue]; [reflexivity|]. cbn [search_from_start].
      destruct (_ && _); [reflexivity|].
      pose proof (handle_edge_measure (list_to_set (net_handles net))
                    (follow_edges net here false)
                    (follow_edges_in_handles net here) queue queued) as Hstep.
      destruct (fold_left handle_edge _ (queue, queued)) as [queue' queued'].
      cbn [fst snd length] in *. apply IH; lia.
Qed.

Lemma search_from_end_enough (net : NetGraph) (end_handle : handle_t) (fuel1 : nat) :
  forall fuel2 queue queued,
    (length queue + size ((list_to_set (net_handles net) : gset handle_t) ∖ queued)
     <= fuel1)%nat ->
    (length queue + size ((list_to_set (net_handles net) : gset handle_t) ∖ queued)
     <= fuel2)%nat ->
    search_from_end fuel1 net end_handle queue queued
    = search_from_end fuel2 net end_handle queue queued.
Proof.
  induction fuel1 as [|fuel1 IH]; intros fuel2 queue queued H1 H2.
  - destruct queue; [|cbn in H1; lia]. now destruct fuel2.
  - destruct fuel2 as [|fuel2].
    + destruct queue; [reflexivity | cbn in H2; lia].
    + destruct queue as [|here queue]; [reflexivity|]. cbn [search_from_end].
      destruct (decide (here = end_handle)); [reflexivity|].
      pose proof (handle_edge_measure (list_to_set (net_handles net))
                    (follow_edges net here false)
                    (follow_edges_in_handles net here) queue queued) as Hstep.
      destruct (fold_left handle_edge _ (queue, queued)) as [queue' queued'].
      cbn [fst snd length] in *. apply IH; lia.
Qed.

Lemma size_handles (net : NetGraph) (queued : gset handle_t) :
  (size ((list_to_set (net_handles net) : gset handle_t) ∖ queued)
   <= length (net_handles net))%nat.
Proof.
  transitivity (size (list_to_set (net_handles net) : gset handle_t));
    [apply subseteq_size, subseteq_difference_l; reflexivity|].
  induction (net_handles net) as [|h rest IH]; cbn.
  - now rewrite (size_empty (C := gset handle_t)).
  - rewrite (size_union_alt (C := gset handle_t) {[h]} (list_to_set rest)),
      (size_singleton (C := gset handle_t)).
    pose proof (subseteq_size (list_to_set rest ∖ {[h]}) (list_to_set rest : gset handle_t)
                  (subseteq_difference_l _ _ _ (reflexivity _))). lia.
Qed.

(** [search_fuel] is enough for both searches of [set_connectivity]: with
    any larger fuel they return the same flags, so the flags are those of
    the loops of the source run until their queues are empty. *)
Lemma search_from_start_fuel (net : NetGraph) (start_handle end_handle : handle_t)
  (more : nat) :
  search_from_start (search_fuel net + more) net start_handle end_handle
    [start_handle] {[start_handle]} false false
  = search_from_start (search_fuel net) net start_handle end_handle
      [start_handle] {[start_handle]} false false.
Proof.
  pose proof (size_handles net {[start_handle]}).
  apply search_from_start_enough; unfold search_fuel; cbn [length]; lia.
Qed.

Lemma search_from_end_fuel (net : NetGraph) (end_handle : handle_t) (more : nat) :
  search_from_end (search_fuel net + more) net end_handle
    [flip net end_handle] {[flip net end_handle]}
  = search_from_end (search_fuel net) net end_handle
      [flip net end_handle] {[flip net end_handle]}.
Proof.
  pose proof (size_handles net {[flip net end_handle]}).
  apply search_from_end_enough; unfold search_fuel; cbn [length]; lia.
Qed.

(** *** The recursion *)

Lemma set_connectivity_ends (graph : VG) (start_v end_v : Visit) (child_chains : list Chain)
  (snarl : Snarl) :
  start (set_connectivity graph start_v end_v child_chains snarl) = start snarl /\
  end_ (set_connectivity graph start_v end_v child_chains snarl) = end_ snarl.
Proof.
  unfold set_connectivity. destruct (search_from_start _ _ _ _ _ _ _ _). cbn. tauto.
Qed.

Lemma decision_table_set_type (s : Snarl) (t : SnarlType) (children : list Snarl) :
  decision_table (set_type s t) children = decision_table s children.
Proof. reflexivity. Qed.

(** The flags of a classified snarl are those its own ends and chains give. *)
Lemma set_connectivity_again (graph : VG) (start_v end_v : Visit)
  (child_chains : list Chain) (snarl : Snarl) (t : SnarlType) :
  let s := set_type (set_connectivity graph start_v end_v child_chains snarl) t in
  set_type (set_connectivity graph start_v end_v child_chains s) (type s) = s.
Proof.
  unfold set_connectivity. destruct (search_from_start _ _ _ _ _ _ _ _). reflexivity.
Qed.

Lemma emit_snarls_body_ok (graph : VG)
  (recurse : stSnarl -> SnarlManager -> outcome (option SnarlPtr * SnarlManager))
  (start_v end_v parent_start parent_end : Visit)
  (chains_list : list (list stSnarl)) (unary_snarls_list : list stSnarl)
  (m : SnarlManager) (r : option SnarlPtr) (m' : SnarlManager) :
  Forall (Forall (keeps_manager_ok graph recurse)) chains_list ->
  Forall (keeps_manager_ok graph recurse) unary_snarls_list ->
  manager_ok graph m ->
  emit_snarls_body graph recurse start_v end_v parent_start parent_end
                   chains_list unary_snarls_list m = Ok (r, m') ->
  manager_ok graph m'.
Proof.
  intros Hcs Hus Hm Hrun. unfold emit_snarls_body in Hrun.
  bind_split Hrun as [cc1 d1] Hchains.
  assert (Hd1 : manager_ok graph d1).
  { apply (foldM_invariant (fun st => manager_ok graph st.2)) in Hchains;
      [exact Hchains | | exact Hm].
    intros [cc d] chain [cc' d'] Hin Hd Hstep. cbn in *.
    bind_split Hstep as [ch d2] Hchain. injection Hstep as _ <-.
    apply (foldM_invariant (fun st => manager_ok graph st.2)) in Hchain;
      [exact Hchain | | exact Hd].
    intros [ch1 d3] child [ch2 d4] Hchild Hd3 Hstep. cbn in *.
    bind_split Hstep as [p d5] Hrec. injection Hstep as _ <-.
    rewrite Forall_forall in Hcs. specialize (Hcs chain Hin).
    rewrite Forall_forall in Hcs. exact (Hcs child Hchild d3 p d5 Hd3 Hrec). }
  bind_split Hrun as [cc2 d2] Hunary.
  assert (Hd2 : manager_ok graph d2).
  { apply (foldM_invariant (fun st => manager_ok graph st.2)) in Hunary;
      [exact Hunary | | exact Hd1].
    intros [cc d] child [cc' d'] Hin Hd Hstep. cbn in *.
    bind_split Hstep as [p d5] Hrec. injection Hstep as _ <-.
    rewrite Forall_forall in Hus. exact (Hus child Hin d p d5 Hd Hrec). }
  bind_split Hrun as [managed d3] Hstore. injection Hrun as <- <-.
  destruct (negb (bool_decide (node_id start_v = 0)) &&
            negb (bool_decide (node_id end_v = 0))) eqn:Hreal.
  - (* a real snarl *)
    match type of Hstore with
    | (if has_an_end ?sn then _ else _) = _ => set (snarl0 := sn) in *
    end.
    assert (Hends : start snarl0 = start_v /\ end_ snarl0 = end_v).
    { subst snarl0.
      destruct (negb (bool_decide (node_id parent_start = 0)) && _); cbn; tauto. }
    destruct (has_an_end snarl0).
    + bind_split Hstore as t Hclassify. apply classify_spec in Hclassify.
      destruct (add_snarl d2 _) as [managed' d4] eqn:Hadd. injection Hstore as <- <-.
      pose proof (set_connectivity_ends graph start_v end_v cc2 snarl0) as [Hs He].
      pose proof (store_snarl_ok graph d2
                    (set_type (set_connectivity graph start_v end_v cc2 snarl0) t)
                    cc2 Hd2) as Hkeep.
      rewrite Hadd in Hkeep. cbn [fst snd] in Hkeep. apply Hkeep.
      destruct Hends as [Hs0 He0]. destruct Hclassify as [Hsame Htable].
      unfold snarl_ok.
      replace (start (set_type (set_connectivity graph start_v end_v cc2 snarl0) t))
        with start_v by (cbn; congruence).
      replace (end_ (set_type (set_connectivity graph start_v end_v cc2 snarl0) t))
        with end_v by (cbn; congruence).
      split; [exact Hsame|]. split; [exact Htable|].
      symmetry. apply set_connectivity_again.
    + injection Hstore as <- <-. now apply store_root_chains_ok.
  - (* the root of the decomposition, or a snarl without proper ends *)
    cbn in Hstore. injection Hstore as <- <-. now apply store_root_chains_ok.
Qed.

Lemma emit_child_ok (graph : VG) (child : stSnarl) :
  forall start_v end_v, keeps_manager_ok graph (emit_child graph start_v end_v) child.
Proof.
  induction child as [e1 e2 cs us IHcs IHus] using stSnarl_nested_ind.
  intros start_v end_v d r d' Hd Hrun. cbn in Hrun.
  eapply emit_snarls_body_ok in Hrun; [exact Hrun | | | exact Hd].
  - eapply Forall_impl; [exact IHcs|]. intros chain Hchain.
    eapply Forall_impl; [exact Hchain|]. intros grandchild IH. apply IH.
  - eapply Forall_impl; [exact IHus|]. intros grandchild IH. apply IH.
Qed.

Lemma recursively_emit_snarls_ok (graph : VG) (start_v end_v parent_start parent_end : Visit)
  (chains_list : list (list stSnarl)) (unary_snarls_list : list stSnarl)
  (m : SnarlManager) (r : option SnarlPtr) (m' : SnarlManager) :
  manager_ok graph m ->
  recursively_emit_snarls graph start_v end_v parent_start parent_end
                          chains_list unary_snarls_list m = Ok (r, m') ->
  manager_ok graph m'.
Proof.
  intros Hm Hrun. unfold recursively_emit_snarls in Hrun.
  eapply emit_snarls_body_ok in Hrun; [exact Hrun | | | exact Hm].
  - apply Forall_forall. intros chain _. apply Forall_forall. intros child _.
    apply emit_child_ok.
  - apply Forall_forall. intros child _. apply emit_child_ok.
Qed.

(** Every manager the finder returns is in order. *)
Lemma find_snarls_ok (graph : VG) (m : SnarlManager) :
  find_snarls graph = Ok m -> manager_ok graph m.
Proof.
  unfold find_snarls. destruct (bool_decide (graph_size graph = 0)).
  - intros [= <-]. apply manager_ok_empty.
  - destruct (snarl_decomposition graph) as [cs us]. intros Hrun.
    bind_split Hrun as [managed m1] Hemit. injection Hrun as <-.
    eapply recursively_emit_snarls_ok; [apply manager_ok_empty | exact Hemit].
Qed.

Lemma decision_table_ultrabubble (s : Snarl) (children : list Snarl) :
  decision_table s children = ULTRABUBBLE ->
  start_end_reachable s = true /\
  start_self_reachable s = false /\
  end_self_reachable s = false /\
  (forall child, child ∈ children -> type child = ULTRABUBBLE) /\
  directed_acyclic_net_graph s = true.
Proof.
  unfold decision_table.
  destruct (start_end_reachable s); cbn; [|discriminate].
  destruct (start_self_reachable s); cbn; [discriminate|].
  destruct (end_self_reachable s); cbn; [discriminate|].
  destruct (existsb _ children) eqn:Hex; [discriminate|].
  destruct (directed_acyclic_net_graph s); cbn; [|discriminate].
  intros _. repeat split.
  intros child Hin. apply list_elem_of_In in Hin.
  destruct (decide (type child = ULTRABUBBLE)) as [Hty|Hty]; [exact Hty|].
  assert (Hsome : existsb (fun c => negb (bool_decide (type c = ULTRABUBBLE))) children = true).
  { apply existsb_exists. exists child. split; [exact Hin|].
    now rewrite (bool_decide_eq_false_2 _ Hty). }
  congruence.
Qed.

(** C9: on a graph with no node [find_snarls] returns, without error, a
    manager that holds no snarl and no chain. *)
Theorem find_snarls_empty_graph (graph : VG) :
  graph_size graph = 0 ->
  exists m, find_snarls graph = Ok m /\ m = SnarlManager_empty /\
            snarls m = [] /\ chains m = [].
Proof.
  intros Hsize. exists SnarlManager_empty. unfold find_snarls.
  rewrite (bool_decide_eq_true_2 _ Hsize). repeat split.
Qed.

(** C2, as amended: a snarl the finder stores is UNARY exactly when its
    start and end are on the same node (equal node ids), whatever their
    orientations. *)
Theorem unary_iff_same_node (graph : VG) (m : SnarlManager) (s : Snarl) :
  find_snarls graph = Ok m ->
  s ∈ snarls m ->
  (type s = UNARY <-> node_id (start s) = node_id (end_ s)).
Proof.
  intros Hrun Hin. apply find_snarls_ok in Hrun as [_ Hok].
  apply list_elem_of_lookup in Hin as [i Hi]. exact (proj1 (Hok i s Hi)).
Qed.

(** C1: a snarl the finder stores whose start and end are on different
    nodes has the type the decision table gives for its connectivity flags
    and for the children registered with it; so an ULTRABUBBLE connects
    through, cannot turn around at either end, has only ULTRABUBBLE
    children and an acyclic flat net graph.  The flags the table reads are
    the ones the searches on the two net graphs of the snarl give. *)
Theorem snarl_type_follows_decision_table (graph : VG) (m : SnarlManager)
  (i : nat) (s : Snarl) :
  find_snarls graph = Ok m ->
  snarls m !! i = Some s ->
  (node_id (start s) <> node_id (end_ s) ->
   type s = decision_table s (children_at m i)) /\
  (type s = ULTRABUBBLE ->
   start_end_reachable s = true /\
   start_self_reachable s = false /\
   end_self_reachable s = false /\
   (forall child, child ∈ children_at m i -> type child = ULTRABUBBLE) /\
   directed_acyclic_net_graph s = true) /\
  s = set_type (set_connectivity graph (start s) (end_ s) (chains_at m i) s) (type s).
Proof.
  intros Hrun Hi. apply find_snarls_ok in Hrun as [_ Hok].
  destruct (Hok i s Hi) as (Hunary & Htable & Hflags).
  split; [exact Htable|]. split; [|exact Hflags].
  intros Hty. apply decision_table_ultrabubble.
  unfold children_at. rewrite <- Htable; [exact Hty|].
  intros Hsame. apply Hunary in Hsame. congruence.
Qed.

End CactusSnarlFinderFacts.

(** The finder on the empty toy graph *)
Lemma find_snarls_empty_graph_witness :
  exists m, find_snarls empty_graph = Ok m /\ m = SnarlManager_empty /\
            snarls m = [] /\ chains m = [].
Proof. apply (find_snarls_empty_graph (env := toy_finder_env) empty_graph). reflexivity. Defined.

(** C2 as stated fails: the tip on node 5 is stored as a UNARY snarl whose
    start and end differ in orientation, so they are not the same Visit. *)
Lemma unary_snarl_with_distinct_boundaries :
  find_snarls diamond_graph = Ok diamond_manager /\
  snarls diamond_manager !! 1%nat = Some tip_managed /\
  type tip_managed = UNARY /\
  node_id (start tip_managed) = node_id (end_ tip_managed) /\
  backward (start tip_managed) = false /\
  backward (end_ tip_managed) = true /\
  start tip_managed <> end_ tip_managed.
Proof. vm_compute. repeat split. discriminate. Qed.

Lemma unary_iff_same_node_witness :
  type tip_managed = UNARY <-> node_id (start tip_managed) = node_id (end_ tip_managed).
Proof.
  apply (unary_iff_same_node (env := toy_finder_env) diamond_graph diamond_manager tip_managed).
  - vm_compute. reflexivity.
  - apply list_elem_of_lookup. exists 1%nat. vm_compute. reflexivity.
Defined.

Lemma snarl_type_follows_decision_table_witness :
  (node_id (start outer_managed) <> node_id (end_ outer_managed) ->
   type outer_managed = decision_table outer_managed (children_at nested_manager 1)) /\
  (type outer_managed = ULTRABUBBLE ->
   start_end_reachable outer_managed = true /\
   start_self_reachable outer_managed = false /\
   end_self_reachable outer_managed = false /\
   (forall child, child ∈ children_at nested_manager 1 -> type child = ULTRABUBBLE) /\
   directed_acyclic_net_graph outer_managed = true) /\
  outer_managed =
  set_type (set_connectivity (env := toy_finder_env) nested_graph
              (start outer_managed) (end_ outer_managed)
              (chains_at nested_manager 1) outer_managed)
           (type outer_managed).
Proof.
  apply (snarl_type_follows_decision_table (env := toy_finder_env) nested_graph nested_manager 1 outer_managed).
  - vm_compute. reflexivity.
  - vm_compute. reflexivity.
Defined.

(** ** The bounded search *)

Section BoundedSearchFacts.
Context {env : TraversalFinderEnv}.

(** *** One turn of the loop *)

(** The three emitting branches of [bfs_visit] are taken exactly when the
    front of the path anchors. *)
Lemma bfs_visit_anchored (index : PathIndex) (stopIfVisited : bool) (in_snarl : SnarlPtr)
  (st : bfs_state) (front : Visit) (rest : list Visit) :
  anchors index front = true ->
  bfs_visit index stopIfVisited in_snarl st (front :: rest) = bfs_emit st (front :: rest).
Proof.
  unfold anchors, bfs_visit. intros Hanchor.
  destruct (bool_decide (node_id front = 0)); cbn [negb andb] in *.
  - destruct (backward front); cbn [negb andb] in *; now rewrite Hanchor.
  - now rewrite Hanchor.
Qed.

Lemma bfs_visit_not_anchored (index : PathIndex) (stopIfVisited : bool) (in_snarl : SnarlPtr)
  (st : bfs_state) (front : Visit) (rest : list Visit) :
  anchors index front = false ->
  bfs_visit index stopIfVisited in_snarl st (front :: rest) =
  if Z.of_nat (length (front :: rest)) <=? max_depth
  then foldM (bfs_consider stopIfVisited (front :: rest) front) st
             (visits_left front in_snarl)
  else Ok st.
Proof.
  unfold anchors, bfs_visit. intros Hanchor.
  assert (Hdeep : forall X (a : outcome X) b,
             (Z.of_nat (length (front :: rest)) <=? max_depth) = false ->
             (if max_depth <=? Z.of_nat (length (front :: rest)) then a else b) = a).
  { intros X a b Hlen. apply Z.leb_gt in Hlen.
    destruct (Z.leb_spec max_depth (Z.of_nat (length (front :: rest)))); [reflexivity | lia]. }
  destruct (bool_decide (node_id front = 0)); cbn [negb andb] in *.
  - destruct (backward front); cbn [negb andb] in *; rewrite Hanchor;
      (destruct (Z.of_nat (length (front :: rest)) <=? max_depth) eqn:Hlen;
       [reflexivity | now apply Hdeep]).
  - rewrite Hanchor.
    destruct (Z.of_nat (length (front :: rest)) <=? max_depth) eqn:Hlen;
      [reflexivity | now apply Hdeep].
Qed.

Lemma bfs_emit_inv (st st' : bfs_state) (path : list Visit) :
  bfs_emit st path = Ok st' ->
  exists len,
    bp_length path = Ok len /\
    st' = mkBfs (set_insert sized_path_compare (len, path) (toReturn st))
                (toExtend st) (alreadyQueued st) (stillToExtend st).
Proof.
  unfold bfs_emit. intros Hrun. bind_split Hrun as len Hlen.
  exists len. split; [exact Hlen | congruence].
Qed.

(** A candidate extension is either dropped, leaving the state as it was,
    or queued, which needs room below [max_width]. *)
Lemma bfs_consider_inv (stopIfVisited : bool) (path : list Visit) (front : Visit)
  (st st' : bfs_state) (prevVisit : Visit) :
  bfs_consider stopIfVisited path front st prevVisit = Ok st' ->
  st' = st \/
  (stillToExtend st < max_width /\
   st' = mkBfs (toReturn st) (toExtend st ++ [prevVisit :: path])
               ({[prevVisit]} ∪ alreadyQueued st) (wrap64 (stillToExtend st + 1))).
Proof.
  unfold bfs_consider. intros Hrun. bind_split Hrun as rejected Hrej.
  destruct rejected; [left; congruence|].
  destruct (stopIfVisited && _); [left; congruence|].
  destruct (Z.leb_spec max_width (stillToExtend st)); [left; congruence|].
  right. split; [assumption | congruence].
Qed.

(** *** The width of the frontier *)

Lemma wrap64_small (z : Z) : 0 <= z < 2 ^ 64 -> wrap64 z = z.
Proof. intros Hz. unfold wrap64. now apply Z.mod_small. Qed.

Lemma bfs_dequeue_width (st : bfs_state) (path : list Visit) (rest : list (list Visit)) :
  width_kept st ->
  toExtend st = path :: rest ->
  width_kept (bfs_dequeue st rest) /\
  (1 <= max_width -> stillToExtend (bfs_dequeue st rest) < max_width).
Proof.
  pose proof max_width_range as Hrange. intros [Hcount Hwidth] Hqueue.
  rewrite Hqueue in *. unfold width_kept.
  cbn [bfs_dequeue toExtend stillToExtend length] in *.
  rewrite Hcount, wrap64_small by lia. lia.
Qed.

Lemma bfs_consider_width (stopIfVisited : bool) (path : list Visit) (front : Visit)
  (st st' : bfs_state) (prevVisit : Visit) :
  width_kept st ->
  bfs_consider stopIfVisited path front st prevVisit = Ok st' ->
  width_kept st'.
Proof.
  pose proof max_width_range as Hrange. intros [Hcount Hwidth] Hstep.
  apply bfs_consider_inv in Hstep as [-> | [Hroom ->]]; [now split|].
  unfold width_kept. cbn [toExtend stillToExtend]. rewrite length_app. cbn [length].
  rewrite wrap64_small by lia. lia.
Qed.

Lemma foldM_consider_width (stopIfVisited : bool) (path : list Visit) (front : Visit)
  (prevVisits : list Visit) (st st' : bfs_state) :
  width_kept st ->
  foldM (bfs_consider stopIfVisited path front) st prevVisits = Ok st' ->
  width_kept st'.
Proof.
  intros Hst Hrun.
  apply (foldM_invariant width_kept) in Hrun; [exact Hrun | | exact Hst].
  intros s prevVisit s' _ Hs Hstep. eapply bfs_consider_width; eassumption.
Qed.

Lemma bfs_visit_width (index : PathIndex) (stopIfVisited : bool) (in_snarl : SnarlPtr)
  (st st' : bfs_state) (path : list Visit) :
  width_kept st ->
  bfs_visit index stopIfVisited in_snarl st path = Ok st' ->
  width_kept st'.
Proof.
  intros Hst Hrun. destruct path as [|front rest]; [discriminate|].
  destruct (anchors index front) eqn:Hanchor.
  - rewrite bfs_visit_anchored in Hrun by exact Hanchor.
    apply bfs_emit_inv in Hrun as (len & _ & ->). exact Hst.
  - rewrite bfs_visit_not_anchored in Hrun by exact Hanchor.
    destruct (Z.of_nat (length (front :: rest)) <=? max_depth).
    + eapply foldM_consider_width; eassumption.
    + now injection Hrun as <-.
Qed.

(** Every state the loop starts a turn in keeps the width. *)
Lemma loop_state_width (index : PathIndex) (stopIfVisited : bool) (in_snarl : SnarlPtr)
  (visit : Visit) (st : bfs_state) :
  loop_state index stopIfVisited in_snarl visit st -> width_kept st.
Proof.
  induction 1 as [|st path rest st' _ IH Hqueue Hvisit].
  - unfold width_kept. cbn. lia.
  - eapply bfs_visit_width; [|exact Hvisit].
    now apply (bfs_dequeue_width st path rest).
Qed.

(** The loop runs through such states only, and what it returns is what the
    last of them holds. *)
Lemma bfs_loop_states (index : PathIndex) (stopIfVisited : bool) (in_snarl : SnarlPtr)
  (visit : Visit) (fuel : nat) :
  forall st result,
    loop_state index stopIfVisited in_snarl visit st ->
    bfs_loop fuel index stopIfVisited in_snarl st = Ok result ->
    exists final,
      loop_state index stopIfVisited in_snarl visit final /\
      toExtend final = [] /\ toReturn final = result.
Proof.
  induction fuel as [|fuel IH]; intros st result Hst Hrun; cbn [bfs_loop] in Hrun.
  - destruct (toExtend st) eqn:Hqueue; [|discriminate].
    injection Hrun as <-. now exists st.
  - destruct (toExtend st) as [|path rest] eqn:Hqueue.
    + injection Hrun as <-. now exists st.
    + cbv zeta in Hrun. bind_split Hrun as st' Hvisit.
      apply (IH st' result); [|exact Hrun].
      eapply loop_turned; eassumption.
Qed.

(** *** What a turn adds to the queue *)

Lemma foldM_consider_inv (stopIfVisited : bool) (path : list Visit) (front : Visit)
  (prevVisits : list Visit) :
  forall st st',
    foldM (bfs_consider stopIfVisited path front) st prevVisits = Ok st' ->
    exists accepted,
      sublist accepted prevVisits /\
      toExtend st' = toExtend st ++ map (fun prevVisit => prevVisit :: path) accepted /\
      toReturn st' = toReturn st.
Proof.
  induction prevVisits as [|prevVisit prevVisits IH]; intros st st' Hrun; cbn in Hrun.
  - injection Hrun as <-. exists []. rewrite app_nil_r. repeat split. constructor.
  - bind_split Hrun as st1 Hstep. apply IH in Hrun as (accepted & Hsub & Hqueue & Hret).
    apply bfs_consider_inv in Hstep as [-> | [_ ->]].
    + exists accepted. split; [now apply sublist_cons | now split].
    + exists (prevVisit :: accepted). split; [now apply sublist_skip|].
      cbn in *. rewrite Hqueue, <- app_assoc. now split.
Qed.

Lemma search_space_pos (in_snarl : SnarlPtr) (depth : nat) (front : Visit) :
  (1 <= search_space in_snarl depth front)%nat.
Proof. destruct depth; cbn; lia. Qed.

Lemma list_sum_sublist (f : Visit -> nat) (l1 l2 : list Visit) :
  sublist l1 l2 -> (list_sum (map f l1) <= list_sum (map f l2))%nat.
Proof.
  unfold list_sum.
  induction 1 as [|x l1 l2 _ IH|x l1 l2 _ IH]; cbn [map fold_right]; lia.
Qed.

(** A turn of the loop puts back less search space than the dequeued path
    stood for. *)
Lemma bfs_visit_queue (index : PathIndex) (stopIfVisited : bool) (in_snarl : SnarlPtr)
  (st st' : bfs_state) (path : list Visit) :
  bfs_visit index stopIfVisited in_snarl st path = Ok st' ->
  exists added,
    toExtend st' = toExtend st ++ added /\
    (queue_weight in_snarl added < path_weight in_snarl path)%nat.
Proof.
  destruct path as [|front rest]; [discriminate|]. intros Hrun.
  destruct (anchors index front) eqn:Hanchor.
  - rewrite bfs_visit_anchored in Hrun by exact Hanchor.
    apply bfs_emit_inv in Hrun as (len & _ & ->). exists []. cbn [toExtend].
    rewrite app_nil_r. split; [reflexivity|]. apply search_space_pos.
  - rewrite bfs_visit_not_anchored in Hrun by exact Hanchor.
    destruct (Z.leb_spec (Z.of_nat (length (front :: rest))) max_depth) as [Hlen|Hlen].
    + apply foldM_consider_inv in Hrun as (accepted & Hsub & Hqueue & _).
      exists (map (fun prevVisit => prevVisit :: front :: rest) accepted).
      split; [exact Hqueue|].
      unfold queue_weight, path_weight. rewrite map_map.
      assert (Hleft : extensions_left (front :: rest)
                      = S (extensions_left (front :: front :: rest))).
      { unfold extensions_left. cbn [length] in *. lia. }
      rewrite Hleft. cbn [search_space].
      apply Nat.lt_succ_r.
      etransitivity; [|apply (list_sum_sublist _ _ _ Hsub)].
      apply Nat.eq_le_incl. f_equal.
    + injection Hrun as <-. exists []. rewrite app_nil_r. split; [reflexivity|].
      apply search_space_pos.
Qed.

(** *** Termination *)

Lemma bfs_visit_returns_or_fails (index : PathIndex) (stopIfVisited : bool)
  (in_snarl : SnarlPtr) (st : bfs_state) (path : list Visit) :
  bfs_visit index stopIfVisited in_snarl st path <> Diverges.
Proof.
  assert (Hnode : forall i, get_node i <> Diverges).
  { intros i. unfold get_node. now destruct (graph_node i). }
  assert (Hlen : forall p, bp_length p <> Diverges).
  { intros p. unfold bp_length. apply foldM_not_Diverges. intros z v.
    destruct (negb _); [|discriminate].
    specialize (Hnode (node_id v)). now destruct (get_node (node_id v)). }
  assert (Hemit : forall s p, bfs_emit s p <> Diverges).
  { intros s p. unfold bfs_emit. specialize (Hlen p). now destruct (bp_length p). }
  assert (Hconsider : forall p f s v, bfs_consider stopIfVisited p f s v <> Diverges).
  { intros p f s v. unfold bfs_consider.
    destruct (negb (bool_decide (node_id v = 0))).
    - destruct (get_edge _ _); cbn; [|discriminate].
      specialize (Hnode (node_id v)). destruct (get_node (node_id v)); cbn; try easy.
      repeat (destruct (_ : bool); cbn; try discriminate).
    - specialize (Hnode (ns_node (to_left_side v))).
      destruct (get_node (ns_node (to_left_side v))); cbn; try easy.
      repeat (destruct (_ : bool); cbn; try discriminate). }
  assert (Hfold : forall p f vs s, foldM (bfs_consider stopIfVisited p f) s vs <> Diverges).
  { intros p f vs. apply foldM_not_Diverges. apply Hconsider. }
  unfold bfs_visit. destruct path as [|front rest]; [discriminate|].
  repeat (match goal with
          | |- (if ?b then _ else _) <> _ => destruct b
          end); auto; discriminate.
Qed.

Lemma bfs_loop_terminates (index : PathIndex) (stopIfVisited : bool) (in_snarl : SnarlPtr)
  (fuel : nat) :
  forall st,
    (queue_weight in_snarl (toExtend st) <= fuel)%nat ->
    bfs_loop fuel index stopIfVisited in_snarl st <> Diverges.
Proof.
  induction fuel as [|fuel IH]; intros st Hfuel.
  - cbn. destruct (toExtend st) as [|path rest]; [discriminate|].
    unfold queue_weight in Hfuel. cbn in Hfuel.
    pose proof (search_space_pos in_snarl (extensions_left path)) as Hpos.
    unfold path_weight in Hfuel. destruct path as [|front tl]; [lia|].
    specialize (Hpos front). lia.
  - cbn. destruct (toExtend st) as [|path rest] eqn:Hqueue; [discriminate|].
    destruct (bfs_visit index stopIfVisited in_snarl (bfs_dequeue st rest) path)
      as [st'| | | |] eqn:Hvisit; cbn; try discriminate.
    + apply IH. apply bfs_visit_queue in Hvisit as (added & -> & Hless).
      cbn [bfs_dequeue toExtend]. unfold queue_weight in *.
      rewrite map_app, list_sum_app.
      change (path_weight in_snarl path + list_sum (map (path_weight in_snarl) rest)
              <= S fuel)%nat in Hfuel.
      lia.
    + now apply bfs_visit_returns_or_fails in Hvisit.
Qed.

(** [bfs_left] runs its loop with fuel enough to finish. *)
Lemma bfs_left_terminates (visit : Visit) (index : PathIndex) (stopIfVisited : bool)
  (in_snarl : SnarlPtr) :
  bfs_left visit index stopIfVisited in_snarl <> Diverges.
Proof.
  unfold bfs_left. apply bfs_loop_terminates.
  unfold queue_weight, path_weight, extensions_left, list_sum.
  cbn [bfs_init toExtend map length fold_right].
  replace (S (Z.to_nat max_depth) - 1)%nat with (Z.to_nat max_depth) by lia. lia.
Qed.

(** *** What the search returns *)

Lemma partial_path_seed (index : PathIndex) (in_snarl : SnarlPtr) (visit : Visit) :
  partial_path index in_snarl visit [visit].
Proof.
  pose proof max_depth_range. unfold partial_path. cbn.
  repeat split; [constructor | constructor | lia].
Qed.

Lemma partial_path_extend (index : PathIndex) (in_snarl : SnarlPtr) (visit : Visit)
  (prevVisit front : Visit) (rest : list Visit) :
  partial_path index in_snarl visit (front :: rest) ->
  anchors index front = false ->
  Z.of_nat (length (front :: rest)) <= max_depth ->
  prevVisit ∈ visits_left front in_snarl ->
  partial_path index in_snarl visit (prevVisit :: front :: rest).
Proof.
  intros (Hwalk & Htail & Hlast & Hlen) Hanchor Hdepth Hprev. unfold partial_path.
  repeat split.
  - now constructor.
  - cbn [tail] in *. now constructor.
  - now rewrite last_cons_cons.
  - cbn [length] in *. lia.
Qed.

Lemma bfs_visit_ok (index : PathIndex) (stopIfVisited : bool) (in_snarl : SnarlPtr)
  (visit : Visit) (st st' : bfs_state) (path : list Visit) :
  search_ok index in_snarl visit st ->
  partial_path index in_snarl visit path ->
  bfs_visit index stopIfVisited in_snarl st path = Ok st' ->
  search_ok index in_snarl visit st'.
Proof.
  intros [Hqueue Hret] Hpath Hrun.
  destruct path as [|front rest]; [discriminate|].
  destruct (anchors index front) eqn:Hanchor.
  - rewrite bfs_visit_anchored in Hrun by exact Hanchor.
    apply bfs_emit_inv in Hrun as (len & _ & ->). split; [exact Hqueue|].
    cbn [toReturn]. apply Forall_forall. intros lp Hin.
    apply (set_insert_elem sized_path_compare) in Hin as [-> | Hin].
    + split; [exact Hpath|]. exists front. now split.
    + rewrite Forall_forall in Hret. now apply Hret.
  - rewrite bfs_visit_not_anchored in Hrun by exact Hanchor.
    destruct (Z.leb_spec (Z.of_nat (length (front :: rest))) max_depth) as [Hlen|Hlen].
    + apply foldM_consider_inv in Hrun as (accepted & Hsub & Hadded & Hsame).
      split; [|now rewrite Hsame].
      rewrite Hadded. apply Forall_app. split; [exact Hqueue|].
      apply Forall_fmap, Forall_forall. intros prevVisit Hin. cbn.
      apply partial_path_extend; try assumption.
      eapply elem_of_sublist; eassumption.
    + now injection Hrun as <-.
Qed.

Lemma bfs_loop_ok (index : PathIndex) (stopIfVisited : bool) (in_snarl : SnarlPtr)
  (visit : Visit) (fuel : nat) :
  forall st result,
    search_ok index in_snarl visit st ->
    bfs_loop fuel index stopIfVisited in_snarl st = Ok result ->
    Forall (fun lengthAndPath : Z * list Visit =>
              bubble_half index in_snarl visit lengthAndPath.2) result.
Proof.
  induction fuel as [|fuel IH]; intros st result Hst Hrun; cbn in Hrun;
    destruct (toExtend st) as [|path rest] eqn:Hqueue.
  - injection Hrun as <-. apply Hst.
  - discriminate.
  - injection Hrun as <-. apply Hst.
  - bind_split Hrun as st' Hvisit. apply (IH st'); [|exact Hrun].
    destruct Hst as [Hpaths Hret]. rewrite Hqueue in Hpaths.
    apply Forall_cons in Hpaths as [Hpath Hrest].
    eapply bfs_visit_ok; [|exact Hpath|exact Hvisit]. now split.
Qed.

(** Every path [bfs_left] returns is a bubble half of its seed. *)
Lemma bfs_left_results (visit : Visit) (index : PathIndex) (stopIfVisited : bool)
  (in_snarl : SnarlPtr) (result : list (Z * list Visit)) :
  bfs_left visit index stopIfVisited in_snarl = Ok result ->
  Forall (fun lengthAndPath : Z * list Visit =>
            bubble_half index in_snarl visit lengthAndPath.2) result.
Proof.
  unfold bfs_left. apply bfs_loop_ok. split; cbn.
  - constructor; [apply partial_path_seed | constructor].
  - constructor.
Qed.

(** With [max_depth = 1] a seed two or more steps away from the backbone
    has no bubble half. *)
Lemma bubble_half_needs_two_steps (index : PathIndex) (in_snarl : SnarlPtr)
  (visit : Visit) (path : list Visit) :
  max_depth = 1 ->
  anchors index visit = false ->
  (forall prevVisit, prevVisit ∈ visits_left visit in_snarl ->
                     anchors index prevVisit = false) ->
  bubble_half index in_snarl visit path -> False.
Proof.
  intros Hdepth Hseed Hprev [(Hwalk & Htail & Hlast & Hlen) (front & Hhead & Hanchor)].
  rewrite Hdepth in Hlen.
  destruct path as [|v1 [|v2 [|v3 rest]]]; cbn in *; try discriminate; try lia.
  - injection Hhead as ->. injection Hlast as ->. congruence.
  - injection Hhead as ->. injection Hlast as ->.
    inversion Hwalk as [|? ? ? Hstep _]; subst.
    specialize (Hprev _ Hstep). congruence.
Qed.

(** *** The search returns when the graph is consistent *)

Lemma bp_length_known (path : list Visit) :
  Forall known_node path -> exists len, bp_length path = Ok len.
Proof.
  unfold bp_length. intros Hknown.
  enough (Hgen : forall z, exists len,
             foldM (fun length visit =>
                      if negb (bool_decide (node_id visit = 0)) then
                        node ← get_node (node_id visit);
                        Ok (wrap64 (length + sequence_size node))
                      else Ok length) z path = Ok len) by apply Hgen.
  induction Hknown as [|v path Hv _ IH]; intros z; cbn.
  - now exists z.
  - destruct (decide (node_id v = 0)) as [Hzero|Hnode].
    + rewrite (bool_decide_eq_true_2 _ Hzero). cbn. apply IH.
    + rewrite (bool_decide_eq_false_2 _ Hnode). cbn.
      unfold get_node. destruct (Hv Hnode) as [node ->]. cbn. apply IH.
Qed.

Lemma bfs_consider_returns (stopIfVisited : bool) (in_snarl : SnarlPtr)
  (path : list Visit) (front : Visit) (st : bfs_state) (prevVisit : Visit) :
  graph_consistent in_snarl ->
  prevVisit ∈ visits_left front in_snarl ->
  exists st', bfs_consider stopIfVisited path front st prevVisit = Ok st'.
Proof.
  intros Hgraph Hprev. destruct (Hgraph front prevVisit Hprev) as [Hnode Hchild].
  unfold bfs_consider, get_node.
  destruct (decide (node_id prevVisit = 0)) as [Hzero|Hnonzero].
  - rewrite (bool_decide_eq_true_2 _ Hzero). cbn [negb].
    destruct (Hchild Hzero) as [node ->]. cbn.
    repeat (destruct (_ : bool); cbn; try (eexists; reflexivity)).
  - rewrite (bool_decide_eq_false_2 _ Hnonzero). cbn [negb].
    destruct (Hnode Hnonzero) as [[edge ->] [node ->]]. cbn.
    repeat (destruct (_ : bool); cbn; try (eexists; reflexivity)).
Qed.

Lemma foldM_consider_returns (stopIfVisited : bool) (in_snarl : SnarlPtr)
  (path : list Visit) (front : Visit) (prevVisits : list Visit) :
  graph_consistent in_snarl ->
  (forall prevVisit, prevVisit ∈ prevVisits -> prevVisit ∈ visits_left front in_snarl) ->
  forall st, exists st', foldM (bfs_consider stopIfVisited path front) st prevVisits = Ok st'.
Proof.
  intros Hgraph. induction prevVisits as [|prevVisit prevVisits IH]; intros Hsub st; cbn.
  - now exists st.
  - destruct (bfs_consider_returns stopIfVisited in_snarl path front st prevVisit Hgraph)
      as [st1 ->]; [apply Hsub; left|]. cbn.
    apply IH. intros v Hv. apply Hsub. now right.
Qed.

Lemma left_walk_known (in_snarl : SnarlPtr) (path : list Visit) (visit : Visit) :
  graph_consistent in_snarl ->
  known_node visit ->
  left_walk in_snarl path ->
  last path = Some visit ->
  Forall known_node path.
Proof.
  intros Hgraph Hseed Hwalk.
  induction Hwalk as [v | prevVisit front rest Hprev _ IH]; intros Hlast.
  - cbn in Hlast. injection Hlast as ->. now constructor.
  - rewrite last_cons_cons in Hlast. constructor; [|now apply IH].
    intros Hnode. now apply (Hgraph front prevVisit Hprev).
Qed.

Lemma bfs_visit_returns (index : PathIndex) (stopIfVisited : bool) (in_snarl : SnarlPtr)
  (visit : Visit) (st : bfs_state) (path : list Visit) :
  graph_consistent in_snarl ->
  known_node visit ->
  partial_path index in_snarl visit path ->
  exists st', bfs_visit index stopIfVisited in_snarl st path = Ok st'.
Proof.
  intros Hgraph Hseed Hpath.
  assert (Hknown : Forall known_node path).
  { destruct Hpath as (Hwalk & _ & Hlast & _). eapply left_walk_known; eassumption. }
  destruct path as [|front rest].
  { destruct Hpath as (Hwalk & _). inversion Hwalk. }
  destruct (anchors index front) eqn:Hanchor.
  - rewrite bfs_visit_anchored by exact Hanchor. unfold bfs_emit.
    destruct (bp_length_known _ Hknown) as [len ->]. cbn. eexists. reflexivity.
  - rewrite bfs_visit_not_anchored by exact Hanchor.
    destruct (_ <=? _); [|now exists st].
    now apply (foldM_consider_returns stopIfVisited in_snarl).
Qed.

Lemma bfs_loop_returns (index : PathIndex) (stopIfVisited : bool) (in_snarl : SnarlPtr)
  (visit : Visit) (fuel : nat) :
  graph_consistent in_snarl ->
  known_node visit ->
  forall st,
    search_ok index in_snarl visit st ->
    bfs_loop fuel index stopIfVisited in_snarl st = Diverges \/
    exists result, bfs_loop fuel index stopIfVisited in_snarl st = Ok result.
Proof.
  intros Hgraph Hseed.
  induction fuel as [|fuel IH]; intros st Hst; cbn;
    destruct (toExtend st) as [|path rest] eqn:Hqueue;
    try (right; eexists; reflexivity); [now left|].
  assert (Hpath : partial_path index in_snarl visit path).
  { destruct Hst as [Hpaths _]. rewrite Hqueue in Hpaths.
    now apply Forall_cons in Hpaths as [Hpath _]. }
  destruct (bfs_visit_returns index stopIfVisited in_snarl visit
              (bfs_dequeue st rest) path Hgraph Hseed Hpath) as [st' Hvisit].
  rewrite Hvisit. cbn. apply IH.
  eapply bfs_visit_ok; [|exact Hpath|exact Hvisit].
  destruct Hst as [Hpaths Hret]. rewrite Hqueue in Hpaths.
  apply Forall_cons in Hpaths as [_ Hrest]. now split.
Qed.

(** On a consistent graph [bfs_left] returns. *)
Lemma bfs_left_returns (visit : Visit) (index : PathIndex) (stopIfVisited : bool)
  (in_snarl : SnarlPtr) :
  graph_consistent in_snarl ->
  known_node visit ->
  exists result, bfs_left visit index stopIfVisited in_snarl = Ok result.
Proof.
  intros Hgraph Hseed.
  destruct (bfs_loop_returns index stopIfVisited in_snarl visit
              (search_space in_snarl (Z.to_nat max_depth) visit) Hgraph Hseed
              (bfs_init visit)) as [Hdiv | Hok].
  - split; cbn; [|constructor].
    constructor; [apply partial_path_seed | constructor].
  - now apply bfs_left_terminates in Hdiv.
  - exact Hok.
Qed.

(** *** The rightward search *)

Lemma reverse_involutive (v : Visit) : reverse (reverse v) = v.
Proof. destruct v as [i sn b]. unfold reverse. cbn. now rewrite negb_involutive. Qed.

(** C10: [bfs_right] of a visit is [bfs_left] of the reversed visit with
    every returned path turned around (visit order reversed, every visit
    reversed) under the same base-pair length; when the leftward search
    fails, the rightward search fails the same way. *)
Theorem bfs_right_mirrors_bfs_left (visit : Visit) (index : PathIndex)
  (stopIfVisited : bool) (in_snarl : SnarlPtr) :
  match bfs_left (reverse visit) index stopIfVisited in_snarl with
  | Ok toConvert =>
      exists toReturn,
        bfs_right visit index stopIfVisited in_snarl = Ok toReturn /\
        strictly_sorted sized_path_compare toReturn /\
        forall (length : Z) (path : list Visit),
          (length, path) ∈ toReturn <->
          exists mirrored, (length, mirrored) ∈ toConvert /\
                           path = map reverse (rev mirrored)
  | failure => bfs_right visit index stopIfVisited in_snarl = failure
  end.
Proof.
  unfold bfs_right.
  destruct (bfs_left (reverse visit) index stopIfVisited in_snarl) as [toConvert| | | |];
    cbn; try reflexivity.
  eexists. split; [reflexivity|]. split.
  - apply (fold_insert_sorted sized_path_compare
             (fun lp : Z * list Visit => (lp.1, map reverse (rev lp.2)))).
    constructor.
  - intros len path.
    rewrite (fold_insert_elem sized_path_compare
               (fun lp : Z * list Visit => (lp.1, map reverse (rev lp.2)))).
    split.
    + intros [Hnil | ([len' mirrored] & Hin & Heq)]; [now apply elem_of_nil in Hnil|].
      cbn in Heq. injection Heq as -> ->. now exists mirrored.
    + intros (mirrored & Hin & ->). right. now exists (len, mirrored).
Qed.

(** *** The bubble of a seed without a left half *)

Lemma find_bubble_without_left_half (node : option Node) (edge : option Edge)
  (snarl : option SnarlPtr) (index : PathIndex) (site : Snarl)
  (left_visit right_visit : Visit) (rightPaths : list (Z * list Visit)) :
  seed_visits node edge snarl (manage site) = Ok (left_visit, right_visit) ->
  bfs_left left_visit index false (manage site) = Ok [] ->
  bfs_right right_visit index false (manage site) = Ok rightPaths ->
  find_bubble node edge snarl index site = Ok (SupportOps.Support_default, []).
Proof.
  intros Hseed Hleft Hright. unfold find_bubble.
  rewrite Hseed. cbn. rewrite Hleft. cbn. rewrite Hright. reflexivity.
Qed.

(** C4, as amended: a branch of the bounded search is emitted, and not
    extended, when its front anchors on the backbone; it is extended by the
    candidates of [visits_left] while it holds at most [max_depth] visits
    (an extension takes it no further than [max_depth] steps from the
    seed), and is dropped without an error once it holds more.  The search ends
    and returns bubble halves only.  [bfs_left] is the loop run from
    [bfs_init]; a turn of the loop takes the front path off the queue and
    visits it; what the search returns is held by a state the loop reached.
    When [max_width] is 1 or more, in every state the loop starts a turn in
    the counter [stillToExtend] is the length of the queue and the queue
    holds at most [max_width] paths; so it does after every candidate
    considered during the turn and when the turn ends, and after the
    dequeue a slot is free.  A candidate is dropped when [max_width] paths
    are queued.  With [max_depth = 1] a seed two steps from the backbone
    has no left half, and the bubble of a seed without a left half is the
    empty path.  [bfs_right] searches through [bfs_left] alone, from the
    reversed visit, and turns the paths around. *)
Theorem bounded_search_stops_and_stays_bounded (visit : Visit) (index : PathIndex)
  (stopIfVisited : bool) (in_snarl : SnarlPtr) :
  (forall st front rest,
      anchors index front = true ->
      bfs_visit index stopIfVisited in_snarl st (front :: rest)
      = bfs_emit st (front :: rest) /\
      forall st', bfs_emit st (front :: rest) = Ok st' ->
                  toExtend st' = toExtend st /\
                  exists len, (len, front :: rest) ∈ toReturn st') /\
  (forall st front rest,
      anchors index front = false ->
      Z.of_nat (length (front :: rest)) <= max_depth ->
      bfs_visit index stopIfVisited in_snarl st (front :: rest)
      = foldM (bfs_consider stopIfVisited (front :: rest) front) st
              (visits_left front in_snarl)) /\
  (forall st front rest,
      anchors index front = false ->
      max_depth < Z.of_nat (length (front :: rest)) ->
      bfs_visit index stopIfVisited in_snarl st (front :: rest) = Ok st) /\
  bfs_left visit index stopIfVisited in_snarl <> Diverges /\
  (graph_consistent in_snarl -> known_node visit ->
   exists result, bfs_left visit index stopIfVisited in_snarl = Ok result) /\
  (forall result,
      bfs_left visit index stopIfVisited in_snarl = Ok result ->
      forall length path, (length, path) ∈ result ->
                          bubble_half index in_snarl visit path) /\
  (forall fuel st path rest,
      toExtend st = path :: rest ->
      bfs_loop (S fuel) index stopIfVisited in_snarl st
      = (st' ← bfs_visit index stopIfVisited in_snarl (bfs_dequeue st rest) path;
         bfs_loop fuel index stopIfVisited in_snarl st')) /\
  (forall result,
      bfs_left visit index stopIfVisited in_snarl = Ok result ->
      exists final,
        loop_state index stopIfVisited in_snarl visit final /\
        toExtend final = [] /\ toReturn final = result) /\
  (1 <= max_width ->
   forall st,
     loop_state index stopIfVisited in_snarl visit st ->
     stillToExtend st = Z.of_nat (length (toExtend st)) /\
     Z.of_nat (length (toExtend st)) <= max_width /\
     forall path rest,
       toExtend st = path :: rest ->
       stillToExtend (bfs_dequeue st rest) < max_width /\
       Z.of_nat (length (toExtend (bfs_dequeue st rest))) < max_width /\
       (forall front prevVisits st',
           foldM (bfs_consider stopIfVisited path front) (bfs_dequeue st rest) prevVisits
           = Ok st' ->
           stillToExtend st' = Z.of_nat (length (toExtend st')) /\
           Z.of_nat (length (toExtend st')) <= max_width) /\
       (forall st',
           bfs_visit index stopIfVisited in_snarl (bfs_dequeue st rest) path = Ok st' ->
           Z.of_nat (length (toExtend st')) <= max_width)) /\
  (forall st st' path front prevVisit,
      bfs_consider stopIfVisited path front st prevVisit = Ok st' ->
      max_width <= stillToExtend st ->
      st' = st) /\
  (max_depth = 1 ->
   anchors index visit = false ->
   (forall prevVisit, prevVisit ∈ visits_left visit in_snarl ->
                      anchors index prevVisit = false) ->
   (forall result, bfs_left visit index stopIfVisited in_snarl = Ok result ->
                   result = []) /\
   (graph_consistent in_snarl -> known_node visit ->
    bfs_left visit index stopIfVisited in_snarl = Ok [])) /\
  (forall node edge snarl site right_visit rightPaths,
      seed_visits node edge snarl (manage site) = Ok (visit, right_visit) ->
      bfs_left visit index false (manage site) = Ok [] ->
      bfs_right right_visit index false (manage site) = Ok rightPaths ->
      find_bubble node edge snarl index site = Ok (SupportOps.Support_default, [])) /\
  (forall right_visit,
      bfs_right right_visit index stopIfVisited in_snarl
      = (toConvert ← bfs_left (reverse right_visit) index stopIfVisited in_snarl;
         Ok (fold_left (fun toReturn lengthAndPath =>
                          set_insert sized_path_compare
                            (lengthAndPath.1, map reverse (rev lengthAndPath.2)) toReturn)
                       toConvert []))).
Proof.
  repeat apply conj.
  - intros st front rest Hanchor. split; [now apply bfs_visit_anchored|].
    intros st' Hemit. apply bfs_emit_inv in Hemit as (len & _ & ->).
    split; [reflexivity|]. exists len. cbn [toReturn].
    apply (set_insert_elem sized_path_compare). now left.
  - intros st front rest Hanchor Hlen.
    rewrite bfs_visit_not_anchored by exact Hanchor.
    now destruct (Z.leb_spec (Z.of_nat (length (front :: rest))) max_depth); [|lia].
  - intros st front rest Hanchor Hlen.
    rewrite bfs_visit_not_anchored by exact Hanchor.
    now destruct (Z.leb_spec (Z.of_nat (length (front :: rest))) max_depth); [lia|].
  - apply bfs_left_terminates.
  - apply bfs_left_returns.
  - intros result Hrun len path Hin. apply bfs_left_results in Hrun.
    rewrite Forall_forall in Hrun. exact (Hrun (len, path) Hin).
  - intros fuel st path rest Hqueue. cbn [bfs_loop]. now rewrite Hqueue.
  - intros result Hrun.
    apply (bfs_loop_states index stopIfVisited in_snarl visit) in Hrun;
      [exact Hrun | constructor].
  - intros Hwidth st Hst. apply loop_state_width in Hst as Hkept.
    split; [apply Hkept|]. split; [destruct Hkept; lia|].
    intros path rest Hqueue.
    destruct (bfs_dequeue_width st path rest Hkept Hqueue) as [Hdequeued Hroom].
    split; [now apply Hroom|]. split.
    { destruct Hdequeued as [Hcount _]. rewrite <- Hcount. now apply Hroom. }
    split.
    + intros front prevVisits st' Hrun.
      apply (foldM_consider_width _ _ _ _ _ _ Hdequeued) in Hrun as [Hcount Hbound].
      split; [exact Hcount | lia].
    + intros st' Hrun.
      apply (bfs_visit_width _ _ _ _ _ _ Hdequeued) in Hrun as [_ Hbound]. lia.
  - intros st st' path front prevVisit Hstep Hfull.
    apply bfs_consider_inv in Hstep as [-> | [Hroom _]]; [reflexivity | lia].
  - intros Hdepth Hseed Hprev.
    assert (Hempty : forall result,
               bfs_left visit index stopIfVisited in_snarl = Ok result -> result = []).
    { intros result Hrun. apply bfs_left_results in Hrun.
      destruct result as [|[len path] result]; [reflexivity|].
      apply Forall_cons in Hrun as [Hhalf _]. exfalso.
      eapply bubble_half_needs_two_steps; eassumption. }
    split; [exact Hempty|]. intros Hgraph Hknown.
    destruct (bfs_left_returns visit index stopIfVisited in_snarl Hgraph Hknown)
      as [result Hrun].
    now rewrite (Hempty result Hrun) in Hrun.
  - intros node edge snarl site right_visit rightPaths.
    apply find_bubble_without_left_half.
  - reflexivity.
Qed.

End BoundedSearchFacts.

(** ** The traversal finder *)

Create HintDb asserts_db.

Ltac asserts_within_crunch :=
  repeat first [ assumption
               | solve [auto with asserts_db]
               | asserts_within_step ].

Section TraversalFinderFacts.
Context {env : TraversalFinderEnv}.

(** *** The assertions that can fail after the precondition check *)

Abbreviation lines := assertions_after_the_check.

Lemma get_node_asserts (i : Z) : asserts_within lines (get_node i).
Proof. unfold get_node. asserts_within_crunch. Qed.
#[local] Hint Resolve get_node_asserts : asserts_db.

Lemma by_id_at_asserts (index : PathIndex) (i : Z) :
  asserts_within lines (by_id_at index i).
Proof. unfold by_id_at. asserts_within_crunch. Qed.
#[local] Hint Resolve by_id_at_asserts : asserts_db.

Lemma bp_length_asserts (path : list Visit) : asserts_within lines (bp_length path).
Proof. unfold bp_length. asserts_within_crunch. Qed.
#[local] Hint Resolve bp_length_asserts : asserts_db.

Lemma bfs_visit_asserts (index : PathIndex) (stopIfVisited : bool) (in_snarl : SnarlPtr)
  (st : bfs_state) (path : list Visit) :
  asserts_within lines (bfs_visit index stopIfVisited in_snarl st path).
Proof. unfold bfs_visit, bfs_emit, bfs_consider. asserts_within_crunch. Qed.
#[local] Hint Resolve bfs_visit_asserts : asserts_db.

Lemma bfs_loop_asserts (index : PathIndex) (stopIfVisited : bool) (in_snarl : SnarlPtr)
  (fuel : nat) :
  forall st, asserts_within lines (bfs_loop fuel index stopIfVisited in_snarl st).
Proof. induction fuel as [|fuel IH]; intros st; cbn; asserts_within_crunch. Qed.
#[local] Hint Resolve bfs_loop_asserts : asserts_db.

Lemma bfs_left_asserts (visit : Visit) (index : PathIndex) (stopIfVisited : bool)
  (in_snarl : SnarlPtr) :
  asserts_within lines (bfs_left visit index stopIfVisited in_snarl).
Proof. unfold bfs_left. asserts_within_crunch. Qed.
#[local] Hint Resolve bfs_left_asserts : asserts_db.

Lemma bfs_right_asserts (visit : Visit) (index : PathIndex) (stopIfVisited : bool)
  (in_snarl : SnarlPtr) :
  asserts_within lines (bfs_right visit index stopIfVisited in_snarl).
Proof. unfold bfs_right. asserts_within_crunch. Qed.
#[local] Hint Resolve bfs_right_asserts : asserts_db.

Lemma min_support_loop_asserts (rest : list Visit) :
  forall cur found support,
    asserts_within lines (min_support_loop cur rest found support).
Proof.
  induction rest as [|next rest IH]; intros cur found support; cbn;
    asserts_within_crunch.
Qed.
#[local] Hint Resolve min_support_loop_asserts : asserts_db.

Lemma min_support_in_path_asserts (path : list Visit) :
  asserts_within lines (min_support_in_path path).
Proof. unfold min_support_in_path. asserts_within_crunch. Qed.
#[local] Hint Resolve min_support_in_path_asserts : asserts_db.

Lemma seed_visits_asserts (node : option Node) (edge : option Edge)
  (snarl : option SnarlPtr) (managed_site : SnarlPtr) :
  asserts_within lines (seed_visits node edge snarl managed_site).
Proof. unfold seed_visits. asserts_within_crunch. Qed.
#[local] Hint Resolve seed_visits_asserts : asserts_db.

Lemma try_right_paths_asserts (from_edge : bool) (index : PathIndex) (lh : left_half)
  (rightList : list (list Visit)) :
  forall st, asserts_within lines (try_right_paths from_edge index lh st rightList).
Proof.
  induction rightList as [|rightPath rightList IH]; intros st; cbn;
    unfold try_right_path; asserts_within_crunch.
Qed.
#[local] Hint Resolve try_right_paths_asserts : asserts_db.

Lemma testCombinations_asserts (from_edge : bool) (index : PathIndex)
  (leftList rightList : list (list Visit)) :
  forall st, asserts_within lines (testCombinations from_edge index st leftList rightList).
Proof.
  induction leftList as [|leftPath leftList IH]; intros st; cbn;
    unfold left_half_of; asserts_within_crunch.
Qed.
#[local] Hint Resolve testCombinations_asserts : asserts_db.

Lemma find_bubble_asserts (node : option Node) (edge : option Edge)
  (snarl : option SnarlPtr) (index : PathIndex) (site : Snarl) :
  asserts_within lines (find_bubble node edge snarl index site).
Proof. unfold find_bubble. asserts_within_crunch. Qed.
#[local] Hint Resolve find_bubble_asserts : asserts_db.

Lemma choose_index_asserts (site : Snarl) : asserts_within lines (choose_index site).
Proof.
  assert (Hbackbone : asserts_within lines (backbone_index site)).
  { intros line Hfail. apply backbone_index_assertions in Hfail as [-> | ->];
      unfold assertions_after_the_check; line_in_list. }
  unfold choose_index. asserts_within_crunch.
Qed.
#[local] Hint Resolve choose_index_asserts : asserts_db.

Lemma skip_child_asserts (index : PathIndex) (contents_first : list Node) (fuel : nat) :
  forall found here,
    asserts_within lines (skip_child fuel index contents_first found here).
Proof.
  induction fuel as [|fuel IH]; intros found here; cbn; asserts_within_crunch.
Qed.
#[local] Hint Resolve skip_child_asserts : asserts_db.

Lemma trace_child_asserts (index : PathIndex) (contents_first : list Node)
  (child : SnarlPtr) (found : Z * Visit) (visited_node : Node) (st : trace_state) :
  asserts_within lines (trace_child index contents_first child found visited_node st).
Proof. unfold trace_child. asserts_within_crunch. Qed.
#[local] Hint Resolve trace_child_asserts : asserts_db.

Lemma trace_loop_asserts (index : PathIndex) (managed_site : SnarlPtr)
  (contents_first : list Node) (primary_max : Z) (fuel : nat) :
  forall st,
    asserts_within lines
      (trace_loop fuel index managed_site contents_first primary_max st).
Proof. induction fuel as [|fuel IH]; intros st; cbn; asserts_within_crunch. Qed.
#[local] Hint Resolve trace_loop_asserts : asserts_db.

Lemma check_nodes_left_asserts (index : PathIndex) (nodes : list Node) :
  asserts_within lines (check_nodes_left index nodes).
Proof. unfold check_nodes_left. asserts_within_crunch. Qed.
#[local] Hint Resolve check_nodes_left_asserts : asserts_db.

Lemma copy_to_left_anchor_asserts (ref_rest : list Visit) (path_front : Visit) :
  forall i extended,
    asserts_within lines (copy_to_left_anchor ref_rest path_front i extended).
Proof.
  induction ref_rest as [|ref_visit ref_rest IH]; intros i extended; cbn;
    asserts_within_crunch.
Qed.
#[local] Hint Resolve copy_to_left_anchor_asserts : asserts_db.

Lemma locate_exit_asserts (site : Snarl) (ref_path : list Visit) (path_back : Visit)
  (i : nat) (log : list message) :
  asserts_within lines (locate_exit site ref_path path_back i log).
Proof. unfold locate_exit. asserts_within_crunch. Qed.
#[local] Hint Resolve locate_exit_asserts : asserts_db.

Lemma splice_into_ref_asserts (site : Snarl) (contents_first : list Node)
  (ref_path : list Visit) (log : list message) (path : list Visit) :
  asserts_within lines (splice_into_ref site contents_first ref_path log path).
Proof. unfold splice_into_ref, check_path_in_site. asserts_within_crunch. Qed.
#[local] Hint Resolve splice_into_ref_asserts : asserts_db.

Lemma use_bubble_asserts (site : Snarl) (contents_first : list Node)
  (ref_path : list Visit) (warning : message) (st : list (list Visit) * list message)
  (sup_path : SupportOps.Support * list Visit) :
  asserts_within lines (use_bubble site contents_first ref_path warning st sup_path).
Proof. unfold use_bubble, extend_into_allele. asserts_within_crunch. Qed.
#[local] Hint Resolve use_bubble_asserts : asserts_db.

Lemma collect_traversals_asserts (site : Snarl) (index : PathIndex)
  (contents : list Node * list Edge) (ref_path : list Visit) (log : list message) :
  asserts_within lines (collect_traversals site index contents ref_path log).
Proof.
  unfold collect_traversals, seed_from_node, seed_from_edge, seed_from_child.
  asserts_within_crunch.
Qed.
#[local] Hint Resolve collect_traversals_asserts : asserts_db.

(** After its precondition check [find_traversals] can fail on the
    assertions of other lines only. *)
Lemma find_traversals_checked_asserts (site : Snarl) :
  asserts_within lines (find_traversals_checked site).
Proof.
  unfold find_traversals_checked, site_coordinates, trace_ref_path.
  asserts_within_crunch.
Qed.

(** C5: on a snarl that is not an ULTRABUBBLE [find_traversals] fails on the
    assertion of line 1540, whatever the graph, the Snarl Manager and the
    path index hold; on an ULTRABUBBLE it goes on to the rest of the
    function, which cannot fail on that assertion. *)
Theorem find_traversals_requires_ultrabubble (site : Snarl) :
  (type site <> ULTRABUBBLE -> find_traversals site = AssertionFailure 1540) /\
  (type site = ULTRABUBBLE ->
   find_traversals site = find_traversals_checked site /\
   find_traversals site <> AssertionFailure 1540).
Proof.
  unfold find_traversals, assert. split.
  - intros Hty. now rewrite (bool_decide_eq_false_2 _ Hty).
  - intros Hty. rewrite (bool_decide_eq_true_2 _ Hty). split; [reflexivity|].
    intros Hfail. apply find_traversals_checked_asserts in Hfail.
    unfold assertions_after_the_check in Hfail.
    repeat (apply elem_of_cons in Hfail as [Hfail|Hfail]; [discriminate|]).
    now apply elem_of_nil in Hfail.
Qed.

(** *** Splicing: where the reference path resumes *)

Lemma skip_to_exit_spec (path_back : Visit) (ref_rest : list Visit) :
  forall i,
    let j := skip_to_exit ref_rest path_back i in
    (i <= j <= i + length ref_rest)%nat /\
    (j = (i + length ref_rest)%nat <->
     Forall (fun v => is_exit path_back v = false) ref_rest) /\
    (j <> (i + length ref_rest)%nat ->
     exists v, ref_rest !! (j - i)%nat = Some v /\ is_exit path_back v = true).
Proof.
  induction ref_rest as [|v ref_rest IH]; intros i; cbn zeta; cbn [skip_to_exit length].
  - split; [lia|]. split; [split; [constructor | lia] | lia].
  - change (visit_eqb (frontier_visit v true) (frontier_visit path_back false) ||
            bool_decide (node_id path_back = 0) &&
            visit_eqb (frontier_visit v false) (frontier_visit path_back false))
      with (is_exit path_back v).
    destruct (is_exit path_back v) eqn:Hexit.
    + split; [lia|]. split; [split|].
      * intros Hlen. lia.
      * intros Hall. apply Forall_cons in Hall as [Hv _]. congruence.
      * intros _. exists v. rewrite Nat.sub_diag. now split.
    + specialize (IH (S i)). cbn zeta in IH. destruct IH as (Hbound & Hall & Hfound).
      split; [lia|]. split; [split|].
      * intros Hlen. constructor; [exact Hexit|]. apply Hall. lia.
      * intros Hforall. apply Forall_cons in Hforall as [_ Hrest].
        apply Hall in Hrest. lia.
      * intros Hne. destruct Hfound as (w & Hw & Hexit'); [lia|].
        exists w. split; [|exact Hexit'].
        replace (skip_to_exit ref_rest path_back (S i) - i)%nat
          with (S (skip_to_exit ref_rest path_back (S i) - S i)) by lia.
        exact Hw.
Qed.

Lemma skip_to_exit_again_spec (path_back : Visit) (ref_rest : list Visit) :
  forall i,
    let j := skip_to_exit_again ref_rest path_back i in
    (i <= j <= i + length ref_rest)%nat /\
    (j = (i + length ref_rest)%nat <->
     Forall (fun v => is_exit_node path_back v = false) ref_rest) /\
    (j <> (i + length ref_rest)%nat ->
     exists v, ref_rest !! (j - i)%nat = Some v /\ is_exit_node path_back v = true).
Proof.
  induction ref_rest as [|v ref_rest IH]; intros i; cbn zeta;
    cbn [skip_to_exit_again length].
  - split; [lia|]. split; [split; [constructor | lia] | lia].
  - change (visit_eqb (frontier_visit v true) (frontier_visit path_back false))
      with (is_exit_node path_back v).
    destruct (is_exit_node path_back v) eqn:Hexit; cbn [negb].
    + split; [lia|]. split; [split|].
      * intros Hlen. lia.
      * intros Hall. apply Forall_cons in Hall as [Hv _]. congruence.
      * intros _. exists v. rewrite Nat.sub_diag. now split.
    + specialize (IH (S i)). cbn zeta in IH. destruct IH as (Hbound & Hall & Hfound).
      split; [lia|]. split; [split|].
      * intros Hlen. constructor; [exact Hexit|]. apply Hall. lia.
      * intros Hforall. apply Forall_cons in Hforall as [_ Hrest].
        apply Hall in Hrest. lia.
      * intros Hne. destruct Hfound as (w & Hw & Hexit'); [lia|].
        exists w. split; [|exact Hexit'].
        replace (skip_to_exit_again ref_rest path_back (S i) - i)%nat
          with (S (skip_to_exit_again ref_rest path_back (S i) - S i)) by lia.
        exact Hw.
Qed.

Lemma copy_to_left_anchor_index (path_front : Visit) (ref_rest : list Visit) :
  forall i extended j extended',
    copy_to_left_anchor ref_rest path_front i extended = Ok (j, extended') ->
    (i <= j)%nat /\ exists v, ref_rest !! (j - i)%nat = Some v.
Proof.
  induction ref_rest as [|v ref_rest IH]; intros i extended j extended' Hrun;
    cbn in Hrun; [discriminate|].
  destruct (_ && _).
  - apply IH in Hrun as (Hle & w & Hw). split; [lia|]. exists w.
    replace (j - i)%nat with (S (j - S i)) by lia. exact Hw.
  - injection Hrun as <- <-. split; [lia|]. exists v. now rewrite Nat.sub_diag.
Qed.

Lemma is_exit_node_is_exit (path_back v : Visit) :
  is_exit_node path_back v = true -> is_exit path_back v = true.
Proof. unfold is_exit. now intros ->. Qed.

Lemma locate_exit_cases (site : Snarl) (ref_path : list Visit) (path_back : Visit)
  (i : nat) (log : list message) :
  (i <= length ref_path)%nat ->
  let first := skip_to_exit (drop i ref_path) path_back i in
  let second := skip_to_exit_again ref_path path_back 0 in
  (first = length ref_path <->
   Forall (fun v => is_exit path_back v = false) (drop i ref_path)) /\
  (second = length ref_path <->
   Forall (fun v => is_exit_node path_back v = false) ref_path) /\
  (first <> length ref_path ->
   locate_exit site ref_path path_back i log = Ok (first, log) /\
   exists v, ref_path !! first = Some v /\ is_exit path_back v = true) /\
  (first = length ref_path -> second <> length ref_path ->
   locate_exit site ref_path path_back i log = Ok (second, log ++ [RanOutOfRef]) /\
   exists v, ref_path !! second = Some v /\ is_exit_node path_back v = true) /\
  (first = length ref_path -> second = length ref_path ->
   locate_exit site ref_path path_back i log
   = Throw (runtime_error (CouldntFindInBackbone path_back (start site) (end_ site)))).
Proof.
  intros Hi first second.
  pose proof (skip_to_exit_spec path_back (drop i ref_path) i) as Hfirst.
  pose proof (skip_to_exit_again_spec path_back ref_path 0) as Hsecond.
  cbn zeta in Hfirst, Hsecond. fold first in Hfirst. fold second in Hsecond.
  rewrite length_drop in Hfirst.
  replace (i + (length ref_path - i))%nat with (length ref_path) in Hfirst by lia.
  cbn [Nat.add] in Hsecond. rewrite Nat.sub_0_r in Hsecond.
  destruct Hfirst as (Hb1 & Hall1 & Hfound1). destruct Hsecond as (Hb2 & Hall2 & Hfound2).
  split; [exact Hall1|]. split; [exact Hall2|].
  unfold locate_exit. fold first. fold second. repeat apply conj.
  - intros Hne. rewrite (bool_decide_eq_false_2 _ Hne). split; [reflexivity|].
    destruct (Hfound1 Hne) as (v & Hv & Hexit). exists v. split; [|exact Hexit].
    rewrite lookup_drop in Hv. now replace (i + (first - i))%nat with first in Hv by lia.
  - intros Heq Hne. rewrite (bool_decide_eq_true_2 _ Heq), (bool_decide_eq_false_2 _ Hne).
    split; [reflexivity|]. exact (Hfound2 Hne).
  - intros Heq1 Heq2.
    now rewrite (bool_decide_eq_true_2 _ Heq1), (bool_decide_eq_true_2 _ Heq2).
Qed.

(** What a successful splice went through. *)
Lemma splice_into_ref_inv (site : Snarl) (contents_first : list Node)
  (ref_path : list Visit) (log : list message) (path : list Visit)
  (spliced : list Visit * list message) :
  splice_into_ref site contents_first ref_path log path = Ok spliced ->
  exists path_front path_back i extended j,
    head path = Some path_front /\
    last path = Some path_back /\
    copy_to_left_anchor ref_path path_front 0 [] = Ok (i, extended) /\
    locate_exit site ref_path path_back i log = Ok (j, spliced.2).
Proof.
  unfold splice_into_ref. intros Hrun.
  bind_split Hrun as checked Hcheck.
  destruct path as [|path_front tl]; [discriminate|].
  destruct (last (path_front :: tl)) as [path_back|] eqn:Hlast; [|discriminate].
  bind_split Hrun as [i extended] Hcopy.
  destruct (ref_path !! i) as [ref_visit|]; [|discriminate].
  match type of Hrun with
  | context [let '(_, _) := ?c in _] => destruct c as [extended' bubble_path_index]
  end.
  bind_split Hrun as [j log'] Hlocate.
  destruct (ref_path !! j) as [ref_visit'|]; [|discriminate].
  bind_split Hrun as extended'' Hpop. injection Hrun as <-.
  exists path_front, path_back, i, extended, j. now repeat split.
Qed.

(** C6: splicing looks for the bubble's right anchor from where the copy of
    the reference path stopped; when that scan finds nothing it starts over
    once from the beginning of the reference path, and when the second scan
    finds nothing either the splice throws a runtime error that names the
    anchor.  The error leaves [extend_into_allele]; a bubble whose anchor is
    nowhere on the reference path is never added to the set. *)
Theorem exit_scan_restarts_once (site : Snarl) (ref_path : list Visit)
  (path_back : Visit) (i : nat) (log : list message) :
  (i <= length ref_path)%nat ->
  let first := skip_to_exit (drop i ref_path) path_back i in
  let second := skip_to_exit_again ref_path path_back 0 in
  (first = length ref_path <->
   Forall (fun v => is_exit path_back v = false) (drop i ref_path)) /\
  (second = length ref_path <->
   Forall (fun v => is_exit_node path_back v = false) ref_path) /\
  (first <> length ref_path ->
   locate_exit site ref_path path_back i log = Ok (first, log) /\
   exists v, ref_path !! first = Some v /\ is_exit path_back v = true) /\
  (first = length ref_path -> second <> length ref_path ->
   locate_exit site ref_path path_back i log = Ok (second, log ++ [RanOutOfRef]) /\
   exists v, ref_path !! second = Some v /\ is_exit_node path_back v = true) /\
  (first = length ref_path -> second = length ref_path ->
   locate_exit site ref_path path_back i log
   = Throw (runtime_error (CouldntFindInBackbone path_back (start site) (end_ site)))) /\
  (forall contents_first traversals path_front tl extended e,
      last (path_front :: tl) = Some path_back ->
      check_path_in_site contents_first (path_front :: tl) = Ok tt ->
      copy_to_left_anchor ref_path path_front 0 [] = Ok (i, extended) ->
      locate_exit site ref_path path_back i log = Throw e ->
      extend_into_allele site contents_first ref_path (traversals, log) (path_front :: tl)
      = Throw e) /\
  (forall contents_first st path st',
      last path = Some path_back ->
      extend_into_allele site contents_first ref_path st path = Ok st' ->
      exists v, v ∈ ref_path /\ is_exit path_back v = true).
Proof.
  intros Hi first second.
  destruct (locate_exit_cases site ref_path path_back i log Hi)
    as (Hall1 & Hall2 & Hfound & Hrestart & Hthrow).
  split; [exact Hall1|]. split; [exact Hall2|]. split; [exact Hfound|].
  split; [exact Hrestart|]. split; [exact Hthrow|]. split.
  - intros contents_first traversals path_front tl extended e Hlast Hcheck Hcopy Hlocate.
    unfold extend_into_allele, splice_into_ref. cbn [snd].
    rewrite Hcheck. cbn [mbind outcome_bind]. rewrite Hlast, Hcopy.
    cbn [mbind outcome_bind].
    apply copy_to_left_anchor_index in Hcopy as (_ & v & Hv).
    rewrite Nat.sub_0_r in Hv. rewrite Hv.
    match goal with
    | |- context [let '(_, _) := ?c in _] => destruct c as [extended' bubble_path_index]
    end.
    rewrite Hlocate. reflexivity.
  - intros contents_first st path st' Hlast Hrun.
    unfold extend_into_allele in Hrun. bind_split Hrun as [spliced log'] Hsplice.
    apply splice_into_ref_inv in Hsplice
      as (path_front & back & i0 & extended & j & Hhead & Hlast' & Hcopy & Hlocate).
    rewrite Hlast in Hlast'. injection Hlast' as <-.
    apply copy_to_left_anchor_index in Hcopy as (_ & v0 & Hv0).
    rewrite Nat.sub_0_r in Hv0.
    assert (Hi0 : (i0 <= length ref_path)%nat).
    { apply lookup_lt_Some in Hv0. lia. }
    destruct (locate_exit_cases site ref_path path_back i0 st.2 Hi0)
      as (_ & _ & Hfound0 & Hrestart0 & Hthrow0).
    destruct (decide (skip_to_exit (drop i0 ref_path) path_back i0 = length ref_path))
      as [Hfirst|Hfirst].
    + destruct (decide (skip_to_exit_again ref_path path_back 0 = length ref_path))
        as [Hsecond|Hsecond].
      * rewrite (Hthrow0 Hfirst Hsecond) in Hlocate. discriminate.
      * destruct (Hrestart0 Hfirst Hsecond) as (_ & v & Hv & Hexit).
        exists v. split; [now apply list_elem_of_lookup_2 in Hv|].
        now apply is_exit_node_is_exit.
    + destruct (Hfound0 Hfirst) as (_ & v & Hv & Hexit).
      exists v. split; [now apply list_elem_of_lookup_2 in Hv | exact Hexit].
Qed.

(** *** Seeds without a bubble *)

Lemma use_bubble_empty (site : Snarl) (contents_first : list Node) (ref_path : list Visit)
  (warning : message) (st : list (list Visit) * list message) (sup : SupportOps.Support) :
  use_bubble site contents_first ref_path warning st (sup, [])
  = Ok (st.1, st.2 ++ if verbose then [warning] else []).
Proof. reflexivity. Qed.

(** A loop whose body leaves the set of traversals alone for every seed
    leaves it alone. *)
Lemma foldM_keeps_traversals {A}
  (step : list (list Visit) * list message -> A ->
          outcome (list (list Visit) * list message)) (seeds : list A) :
  (forall seed, seed ∈ seeds -> forall st, exists log, step st seed = Ok (st.1, log)) ->
  forall st, exists log, foldM step st seeds = Ok (st.1, log).
Proof.
  induction seeds as [|seed seeds IH]; intros Hstep st; cbn.
  - exists st.2. now destruct st.
  - destruct (Hstep seed ltac:(left) st) as [log ->]. cbn.
    destruct (IH (fun x Hx => Hstep x ltac:(now right)) (st.1, log)) as [log' Hrun].
    now exists log'.
Qed.

(** C7: a seed (node, edge or child snarl) for which [find_bubble] returns
    the empty path leaves the set of traversals as it was, at most a warning
    is printed, and the loop goes on with the seeds after it; when no seed
    has a bubble the three loops end normally with the empty set. *)
Theorem empty_bubble_drops_only_its_seed (site : Snarl) (index : PathIndex)
  (contents_first : list Node) (ref_path : list Visit)
  (st : list (list Visit) * list message) :
  (forall node sup rest,
      find_bubble (Some node) None None index site = Ok (sup, []) ->
      exists log,
        (log = st.2 \/
         log = st.2 ++ if verbose then [NoPathFoundForNode (id node)] else []) /\
        seed_from_node site index contents_first ref_path st node = Ok (st.1, log) /\
        foldM (seed_from_node site index contents_first ref_path) st (node :: rest)
        = foldM (seed_from_node site index contents_first ref_path) (st.1, log) rest) /\
  (forall edge sup rest,
      find_bubble None (Some edge) None index site = Ok (sup, []) ->
      exists log,
        (log = st.2 \/
         log = st.2 ++ if verbose then [NoPathFoundForEdge (from edge) (to edge)] else []) /\
        seed_from_edge site index contents_first ref_path st edge = Ok (st.1, log) /\
        foldM (seed_from_edge site index contents_first ref_path) st (edge :: rest)
        = foldM (seed_from_edge site index contents_first ref_path) (st.1, log) rest) /\
  (forall child sup rest,
      find_bubble None None (Some child) index site = Ok (sup, []) ->
      exists log,
        log = st.2 ++ (if verbose then [NoPathFoundForChild (ptr_target child)] else []) /\
        seed_from_child site index contents_first ref_path st child = Ok (st.1, log) /\
        foldM (seed_from_child site index contents_first ref_path) st (child :: rest)
        = foldM (seed_from_child site index contents_first ref_path) (st.1, log) rest) /\
  (forall contents log0,
      (forall node, node ∈ contents.1 ->
                    exists sup, find_bubble (Some node) None None index site = Ok (sup, [])) ->
      (forall edge, edge ∈ contents.2 ->
                    exists sup, find_bubble None (Some edge) None index site = Ok (sup, [])) ->
      (forall child, child ∈ children_of site ->
                     exists sup, find_bubble None None (Some child) index site = Ok (sup, [])) ->
      exists log, collect_traversals site index contents ref_path log0 = Ok ([], log)).
Proof.
  assert (Hnode : forall cf s node sup,
             find_bubble (Some node) None None index site = Ok (sup, []) ->
             exists log,
               (log = s.2 \/
                log = s.2 ++ if verbose then [NoPathFoundForNode (id node)] else []) /\
               seed_from_node site index cf ref_path s node = Ok (s.1, log)).
  { intros cf s node sup Hbubble. unfold seed_from_node.
    destruct (_ || _); [exists s.2; split; [now left | now destruct s]|].
    destruct (_ && _); [exists s.2; split; [now left | now destruct s]|].
    destruct (by_id_count _ _); [exists s.2; split; [now left | now destruct s]|].
    rewrite Hbubble. cbn [mbind outcome_bind]. rewrite use_bubble_empty.
    eexists. split; [right; reflexivity | reflexivity]. }
  assert (Hedge : forall cf s edge sup,
             find_bubble None (Some edge) None index site = Ok (sup, []) ->
             exists log,
               (log = s.2 \/
                log = s.2 ++ if verbose
                              then [NoPathFoundForEdge (from edge) (to edge)] else []) /\
               seed_from_edge site index cf ref_path s edge = Ok (s.1, log)).
  { intros cf s edge sup Hbubble. unfold seed_from_edge.
    destruct (_ && _); [exists s.2; split; [now left | now destruct s]|].
    destruct (_ || _); [exists s.2; split; [now left | now destruct s]|].
    rewrite Hbubble. cbn [mbind outcome_bind]. rewrite use_bubble_empty.
    eexists. split; [right; reflexivity | reflexivity]. }
  assert (Hchild : forall cf s child sup,
             find_bubble None None (Some child) index site = Ok (sup, []) ->
             seed_from_child site index cf ref_path s child
             = Ok (s.1, s.2 ++ if verbose
                                then [NoPathFoundForChild (ptr_target child)] else [])).
  { intros cf s child sup Hbubble. unfold seed_from_child.
    rewrite Hbubble. cbn [mbind outcome_bind]. now rewrite use_bubble_empty. }
  split; [|split; [|split]].
  - intros node sup rest Hbubble.
    destruct (Hnode contents_first st node sup Hbubble) as (log & Hlog & Hstep).
    exists log. repeat split; [exact Hlog | exact Hstep |].
    cbn [foldM]. now rewrite Hstep.
  - intros edge sup rest Hbubble.
    destruct (Hedge contents_first st edge sup Hbubble) as (log & Hlog & Hstep).
    exists log. repeat split; [exact Hlog | exact Hstep |].
    cbn [foldM]. now rewrite Hstep.
  - intros child sup rest Hbubble.
    pose proof (Hchild contents_first st child sup Hbubble) as Hstep.
    eexists. repeat split; [exact Hstep|].
    cbn [foldM]. now rewrite Hstep.
  - intros contents log0 Hnodes Hedges Hchildren. unfold collect_traversals.
    destruct (foldM_keeps_traversals
                (seed_from_node site index contents.1 ref_path) contents.1) with
      (st := (([] : list (list Visit)), log0)) as [log1 ->].
    { intros node Hin s. destruct (Hnodes node Hin) as [sup Hbubble].
      destruct (Hnode contents.1 s node sup Hbubble) as (log & _ & Hstep). now exists log. }
    cbn [mbind outcome_bind fst].
    destruct (foldM_keeps_traversals
                (seed_from_edge site index contents.1 ref_path) contents.2) with
      (st := (([] : list (list Visit)), log1)) as [log2 ->].
    { intros edge Hin s. destruct (Hedges edge Hin) as [sup Hbubble].
      destruct (Hedge contents.1 s edge sup Hbubble) as (log & _ & Hstep). now exists log. }
    cbn [mbind outcome_bind fst].
    apply (foldM_keeps_traversals (seed_from_child site index contents.1 ref_path)).
    intros child Hin s. destruct (Hchildren child Hin) as [sup Hbubble].
    rewrite (Hchild contents.1 s child sup Hbubble). eexists. reflexivity.
Qed.

(** *** What is emitted *)






End TraversalFinderFacts.

(** C4 as stated fails for [max_width = 0]: the queue holds the seed path,
    one path more than [max_width], and the path dequeued gets no slot for
    its extension, so the search from node 3 returns nothing although node 1
    of the backbone is one step away (with [max_width = 1] it returns the
    path 1, 3). *)
Lemma zero_width_frontier_holds_the_seed :
  let narrow := toy_traversal_env 2 0 10 false toy_index in
  let wide := toy_traversal_env 2 1 10 false toy_index in
  let seed := to_visit 3 false in
  max_width (TraversalFinderEnv := narrow) = 0 /\
  loop_state (env := narrow) toy_index false (mkPtr 0 toy_site) seed (bfs_init seed) /\
  Z.of_nat (length (toExtend (bfs_init seed))) = 1 /\
  bfs_left (env := narrow) seed toy_index false (mkPtr 0 toy_site) = Ok [] /\
  bfs_left (env := wide) seed toy_index false (mkPtr 0 toy_site)
  = Ok [(2, [to_visit 1 false; seed])].
Proof.
  cbv zeta. repeat apply conj; try (vm_compute; reflexivity). constructor.
Qed.

(** The search from node 5 with [max_depth = 1]: node 6, its only way left,
    is not on the backbone.  The queue of ten slots holds the seed when the
    loop is entered, and nothing after the first turn. *)
Lemma bounded_search_witness :
  let env := toy_traversal_env 1 10 10 false toy_index in
  let seed := to_visit 5 false in
  let site_ptr := mkPtr 0 toy_site in
  (max_depth = 1 ->
   anchors toy_index seed = false ->
   (forall prevVisit, prevVisit ∈ visits_left seed site_ptr ->
                      anchors toy_index prevVisit = false) ->
   (forall result, bfs_left seed toy_index false site_ptr = Ok result -> result = []) /\
   (graph_consistent site_ptr -> known_node seed ->
    bfs_left seed toy_index false site_ptr = Ok [])) /\
  bfs_left seed toy_index false site_ptr = Ok [] /\
  find_bubble (Some (mkNode 5 1)) None None toy_index toy_site
  = Ok (SupportOps.Support_default, []) /\
  1 <= max_width /\
  loop_state toy_index false site_ptr seed (bfs_init seed) /\
  Z.of_nat (length (toExtend (bfs_init seed))) <= max_width /\
  stillToExtend (bfs_dequeue (bfs_init seed) []) < max_width.
Proof.
  cbv zeta.
  pose proof (bounded_search_stops_and_stays_bounded
                (env := toy_traversal_env 1 10 10 false toy_index)
                (to_visit 5 false) toy_index false (mkPtr 0 toy_site))
    as (_ & _ & _ & _ & _ & _ & _ & _ & Hwidth & _ & Hdepth & _).
  assert (Hentered : loop_state (env := toy_traversal_env 1 10 10 false toy_index)
                                toy_index false (mkPtr 0 toy_site) (to_visit 5 false)
                                (bfs_init (to_visit 5 false)))
    by constructor.
  assert (Hslots : 1 <= max_width (TraversalFinderEnv :=
                                     toy_traversal_env 1 10 10 false toy_index))
    by (vm_compute; discriminate).
  destruct (Hwidth Hslots _ Hentered) as (_ & Hbound & Hturn).
  destruct (Hturn [to_visit 5 false] [] eq_refl) as (Hroom & _).
  split; [exact Hdepth|]. split; [vm_compute; reflexivity|].
  split; [vm_compute; reflexivity|]. split; [exact Hslots|].
  split; [exact Hentered|]. split; [exact Hbound | exact Hroom].
Defined.

(** What that run returns *)
Lemma find_traversals_backward_backbone :
  find_traversals (env := backward_env) toy_site
  = Ok ([ [to_visit 1 false; to_visit 2 false; to_visit 4 false];
          [to_visit 1 false; to_visit 3 false; to_visit 4 false];
          [to_visit 1 false; to_visit 6 false; to_visit 5 false; to_visit 4 false] ],
        []) /\
  ref_path_for_site backward_traced
  = [to_visit 4 true; to_visit 2 true; to_visit 1 true].
Proof. split; vm_compute; reflexivity. Qed.

(** A bubble that ends on node 7, which the reference path 1, 2, 4 does not
    visit: both scans run to the end and the splice throws. *)
Lemma exit_scan_restarts_once_witness :
  let path_back := to_visit 7 false in
  let first := skip_to_exit (drop 0 toy_ref_path) path_back 0 in
  let second := skip_to_exit_again toy_ref_path path_back 0 in
  (first = length toy_ref_path -> second = length toy_ref_path ->
   locate_exit toy_site toy_ref_path path_back 0 []
   = Throw (runtime_error (CouldntFindInBackbone path_back (start toy_site) (end_ toy_site)))) /\
  first = length toy_ref_path /\
  second = length toy_ref_path /\
  extend_into_allele (env := shallow_env) toy_site (toy_nodes ++ [mkNode 7 1]) toy_ref_path
                     ([], []) [to_visit 1 false; path_back]
  = Throw (runtime_error (CouldntFindInBackbone path_back (start toy_site) (end_ toy_site))).
Proof.
  cbv zeta. split; [|repeat split; vm_compute; reflexivity].
  apply (exit_scan_restarts_once (env := shallow_env) toy_site toy_ref_path
           (to_visit 7 false) 0 []).
  cbn. lia.
Defined.

(** The restart at work: from index 2 on nothing exits a bubble that ends
    on node 2, the scan from the beginning finds the exit at index 1. *)
Lemma exit_found_after_restart :
  locate_exit toy_site toy_ref_path (to_visit 2 false) 2 [] = Ok (1%nat, [RanOutOfRef]).
Proof. vm_compute. reflexivity. Qed.

(** With [max_depth = 1] nodes 5 and 6 have no bubble: the finder warns
    about each, goes on, and returns the reference path and the alternate
    through node 3. *)
Lemma empty_bubble_drops_only_its_seed_witness :
  (forall sup rest,
      find_bubble (env := shallow_env) (Some (mkNode 5 1)) None None toy_index toy_site
      = Ok (sup, []) ->
      exists log,
        (log = [] \/ log = [] ++ [NoPathFoundForNode 5]) /\
        seed_from_node (env := shallow_env) toy_site toy_index toy_nodes toy_ref_path
                       ([], []) (mkNode 5 1) = Ok ([], log) /\
        foldM (seed_from_node (env := shallow_env) toy_site toy_index toy_nodes toy_ref_path)
              ([], []) (mkNode 5 1 :: rest)
        = foldM (seed_from_node (env := shallow_env) toy_site toy_index toy_nodes
                                toy_ref_path)
                ([], log) rest) /\
  find_bubble (env := shallow_env) (Some (mkNode 5 1)) None None toy_index toy_site
  = Ok (SupportOps.Support_default, []) /\
  find_traversals (env := shallow_env) toy_site
  = Ok ([ [to_visit 1 false; to_visit 2 false; to_visit 4 false];
          [to_visit 1 false; to_visit 3 false; to_visit 4 false] ],
        [NoPathFoundForNode 5; NoPathFoundForNode 6]).
Proof.
  split; [|split; vm_compute; reflexivity].
  apply (empty_bubble_drops_only_its_seed (env := shallow_env) toy_site toy_index
           toy_nodes toy_ref_path ([], [])).
Defined.

(** A snarl that is not an ultrabubble is refused; the diamond is not. *)
Lemma find_traversals_requires_ultrabubble_witness :
  (type tip_managed <> ULTRABUBBLE ->
   find_traversals (env := shallow_env) tip_managed = AssertionFailure 1540) /\
  (type toy_site = ULTRABUBBLE ->
   find_traversals (env := shallow_env) toy_site
   = find_traversals_checked (env := shallow_env) toy_site /\
   find_traversals (env := shallow_env) toy_site <> AssertionFailure 1540) /\
  find_traversals (env := shallow_env) tip_managed = AssertionFailure 1540.
Proof.
  split; [|split].
  - apply (find_traversals_requires_ultrabubble (env := shallow_env) tip_managed).
  - apply (find_traversals_requires_ultrabubble (env := shallow_env) toy_site).
  - vm_compute. reflexivity.
Defined.

(** * More of genotypekit.cpp and distributions.hpp *)

(** ** The connectivity flags are reachability in the net graph *)

Section ConnectivityFacts.
Context {env : SnarlFinderEnv}.

(** What a scan of the edges of one handle does to the queue and to the set
    of queued handles. *)
Lemma handle_edge_fold (scanned : list handle_t) :
  forall queue queued,
    let st := fold_left handle_edge scanned (queue, queued) in
    (forall h, h ∈ st.2 <-> h ∈ queued \/ In h scanned) /\
    exists added,
      st.1 = queue ++ added /\ NoDup added /\
      (forall h, In h added -> (h ∉ queued) /\ In h scanned) /\
      (forall h, In h scanned -> h ∉ queued -> In h added).
Proof.
  induction scanned as [|other rest IH]; intros queue queued; cbn.
  - split; [tauto|]. exists []. rewrite app_nil_r.
    split; [reflexivity|]. split; [constructor|]. split; [easy | tauto].
  - destruct (decide (other ∈ queued)) as [Hseen|Hnew].
    + destruct (IH queue queued) as (Hset & added & Hq & Hnd & Hadded & Hall). split.
      * intros h. rewrite Hset. split; [tauto|].
        intros [Hq'|[Heq|Hr]]; [|subst h|]; tauto.
      * exists added. split; [exact Hq|]. split; [exact Hnd|]. split.
        -- intros h Hin. apply Hadded in Hin. tauto.
        -- intros h [Heq|Hin] Hout; [subst h; contradiction | now apply Hall].
    + destruct (IH (queue ++ [other]) ({[other]} ∪ queued))
        as (Hset & added & Hq & Hnd & Hadded & Hall). split.
      * intros h. rewrite Hset, elem_of_union, elem_of_singleton.
        split.
        { intros [[Heq|Hq']|Hr]; [subst h|..]; tauto. }
        { intros [Hq'|[Heq|Hr]]; [|subst h|]; tauto. }
      * exists (other :: added). rewrite Hq, <- app_assoc. split; [reflexivity|]. split.
        { apply NoDup_cons. split; [|exact Hnd].
          intros Hin. apply list_elem_of_In, Hadded in Hin as [Hin _].
          apply Hin, elem_of_union_l, elem_of_singleton. reflexivity. }
        split.
        { intros h [Heq|Hin]; [subst h; split; [exact Hnew | now left]|].
          apply Hadded in Hin as [Hin1 Hin2]. split; [|now right].
          intros Hq'. apply Hin1, elem_of_union_r, Hq'. }
        { intros h Hin Hout. destruct (decide (h = other)) as [->|Hne]; [now left|].
          right. apply Hall.
          - destruct Hin as [Heq|Hin]; [congruence | exact Hin].
          - rewrite elem_of_union, elem_of_singleton. tauto. }
Qed.

(** Dequeuing a handle and scanning its edges leads to another moment of
    the search, in which that handle too has left the queue. *)
Lemma search_moment_step (net : NetGraph) (origin here : handle_t)
  (queue : list handle_t) (queued : gset handle_t) :
  search_moment net origin (here :: queue) queued ->
  let st := fold_left handle_edge (follow_edges net here false) (queue, queued) in
  search_moment net origin st.1 st.2 /\
  (forall target,
      dequeued st.1 st.2 target <->
      target = here \/ dequeued (here :: queue) queued target).
Proof.
  intros (Hnd & Hsub & Horigin & Hreach & Hclosed).
  destruct (handle_edge_fold (follow_edges net here false) queue queued)
    as (Hset & added & Hq & Hnda & Hadded & Hall).
  cbn zeta. destruct (fold_left handle_edge _ (queue, queued)) as [queue' queued'].
  cbn [fst snd] in *. subst queue'.
  apply NoDup_cons in Hnd as [Hhere Hnd]. rewrite list_elem_of_In in Hhere.
  assert (Hhq : here ∈ queued) by (apply Hsub; now left).
  assert (Hfresh : forall h, h ∈ queued -> ~ In h added).
  { intros h Hin Hadd. now apply Hadded in Hadd as [Hout _]. }
  split.
  - split; [|split; [|split; [|split]]].
    + apply NoDup_app. split; [exact Hnd|]. split; [|exact Hnda].
      intros h Hin1 Hin2. apply list_elem_of_In in Hin1, Hin2.
      apply (Hfresh h); [apply Hsub; now right | exact Hin2].
    + intros h Hin. apply Hset. apply in_app_or in Hin as [Hin|Hin].
      * left. apply Hsub. now right.
      * right. now apply Hadded in Hin.
    + apply Hset. now left.
    + intros h Hin. apply Hset in Hin as [Hin|Hin]; [now apply Hreach|].
      eapply rtc_r; [apply Hreach, Hhq | exact Hin].
    + intros h other Hin Hout Hstep. apply Hset.
      destruct (decide (h = here)) as [->|Hne]; [now right|].
      destruct (decide (h ∈ queued)) as [Hold|Hnew].
      * left. apply (Hclosed h other Hold); [|exact Hstep].
        intros [Heq|Hin']; [congruence|]. apply Hout, in_or_app. now left.
      * exfalso. apply Hout, in_or_app. right. apply Hall; [|exact Hnew].
        apply Hset in Hin as [Hin|Hin]; [contradiction | exact Hin].
  - intros target. unfold dequeued. split.
    + intros [Hin Hout]. destruct (decide (target = here)) as [->|Hne]; [now left|].
      right. destruct (decide (target ∈ queued)) as [Hold|Hnew].
      * split; [exact Hold|]. intros [Heq|Hin']; [congruence|].
        apply Hout, in_or_app. now left.
      * exfalso. apply Hout, in_or_app. right. apply Hall; [|exact Hnew].
        apply Hset in Hin as [Hin|Hin]; [contradiction | exact Hin].
    + intros [->|[Hin Hout]].
      * split; [apply Hset; now left|].
        intros Happ. apply in_app_or in Happ as [Hin|Hin]; [contradiction|].
        now apply (Hfresh here).
      * split; [apply Hset; now left|].
        intros Happ. apply in_app_or in Happ as [Hin'|Hin'].
        -- apply Hout. now right.
        -- now apply (Hfresh target).
Qed.

(** The search starts in a moment in which nothing has left the queue. *)
Lemma search_moment_start (net : NetGraph) (origin : handle_t) :
  search_moment net origin [origin] {[origin]} /\
  forall target, ~ dequeued [origin] {[origin]} target.
Proof.
  split.
  - split; [|split; [|split; [|split]]].
    + apply NoDup_singleton.
    + intros h [<-|[]]. now apply elem_of_singleton.
    + now apply elem_of_singleton.
    + intros h Hin. apply elem_of_singleton in Hin as ->. apply rtc_refl.
    + intros h other Hin Hout. apply elem_of_singleton in Hin as ->.
      exfalso. apply Hout. now left.
  - intros target [Hin Hout]. apply elem_of_singleton in Hin as ->. apply Hout. now left.
Qed.

(** When the queue is empty the queued handles are exactly those that can be
    reached. *)
Lemma search_moment_end (net : NetGraph) (origin : handle_t) (queued : gset handle_t) :
  search_moment net origin [] queued ->
  forall target, target ∈ queued <-> net_reachable net origin target.
Proof.
  intros (_ & _ & Horigin & Hreach & Hclosed) target. split; [apply Hreach|].
  intros Hwalk. unfold net_reachable in Hwalk.
  assert (Hgen : forall a b, rtc (net_step net) a b -> a ∈ queued -> b ∈ queued).
  { induction 1 as [h|h mid there Hstep _ IH]; intros Hin; [exact Hin|].
    apply IH. apply (Hclosed h mid Hin); [intros [] | exact Hstep]. }
  exact (Hgen origin target Hwalk Horigin).
Qed.

Lemma dequeued_at_end (queued : gset handle_t) (target : handle_t) :
  dequeued [] queued target <-> target ∈ queued.
Proof. unfold dequeued. cbn. tauto. Qed.

(** The flag of a target after [here] has been taken off the queue *)
Lemma flag_after_dequeue (here target : handle_t) (queue : list handle_t)
  (queued : gset handle_t) (flag : bool) :
  (flag = true <-> dequeued (here :: queue) queued target) ->
  ((if decide (here = target) then true else flag) = true <->
   target = here \/ dequeued (here :: queue) queued target).
Proof.
  intros Hflag. destruct (decide (here = target)) as [->|Hne].
  - split; [now left | reflexivity].
  - rewrite Hflag. split; [now right | intros [->|H]; [contradiction | exact H]].
Qed.

Lemma search_from_start_reach (net : NetGraph) (start_handle end_handle : handle_t)
  (fuel : nat) :
  forall queue queued connected_start_end connected_start_start,
    (length queue + size ((list_to_set (net_handles net) : gset handle_t) ∖ queued)
     <= fuel)%nat ->
    search_moment net start_handle queue queued ->
    (connected_start_end = true <-> dequeued queue queued end_handle) ->
    (connected_start_start = true <-> dequeued queue queued (flip net start_handle)) ->
    let found := search_from_start fuel net start_handle end_handle queue queued
                   connected_start_end connected_start_start in
    (found.1 = true <-> net_reachable net start_handle end_handle) /\
    (found.2 = true <-> net_reachable net start_handle (flip net start_handle)).
Proof.
  assert (Hdone : forall queued cse css,
             search_moment net start_handle [] queued ->
             (cse = true <-> dequeued [] queued end_handle) ->
             (css = true <-> dequeued [] queued (flip net start_handle)) ->
             (cse = true <-> net_reachable net start_handle end_handle) /\
             (css = true <-> net_reachable net start_handle (flip net start_handle))).
  { intros queued cse css Hmoment Hse Hss.
    rewrite Hse, Hss, !dequeued_at_end.
    split; apply (search_moment_end net start_handle queued Hmoment). }
  induction fuel as [|fuel IH]; intros queue queued cse css Hfuel Hmoment Hse Hss.
  - destruct queue; [|cbn in Hfuel; lia]. cbn. now apply (Hdone queued).
  - destruct queue as [|here queue]; [cbn; now apply (Hdone queued)|].
    cbn [search_from_start].
    apply flag_after_dequeue in Hse, Hss.
    destruct (search_moment_step net start_handle here queue queued Hmoment)
      as [Hnext Hleft].
    pose proof (handle_edge_measure (list_to_set (net_handles net))
                  (follow_edges net here false)
                  (follow_edges_in_handles net here) queue queued) as Hstep.
    assert (Hqueued : forall target,
               target = here \/ dequeued (here :: queue) queued target ->
               net_reachable net start_handle target).
    { intros target Hcase. destruct Hmoment as (_ & Hsub & _ & Hreach & _).
      apply Hreach. destruct Hcase as [->|[Hin _]]; [apply Hsub; now left | exact Hin]. }
    destruct ((if decide (here = end_handle) then true else cse) &&
              (if decide (here = flip net start_handle) then true else css)) eqn:Hboth.
    + apply andb_prop in Hboth as [Hfirst Hsecond]. cbn [fst snd].
      rewrite Hfirst, Hsecond. split; (split; [intros _ | reflexivity]).
      * apply Hqueued, Hse, Hfirst.
      * apply Hqueued, Hss, Hsecond.
    + destruct (fold_left handle_edge _ (queue, queued)) as [queue' queued'].
      cbn [fst snd length] in *. apply IH; [lia | exact Hnext | |].
      * rewrite Hse. symmetry. apply Hleft.
      * rewrite Hss. symmetry. apply Hleft.
Qed.

Lemma search_from_end_reach (net : NetGraph) (origin end_handle : handle_t) (fuel : nat) :
  forall queue queued,
    (length queue + size ((list_to_set (net_handles net) : gset handle_t) ∖ queued)
     <= fuel)%nat ->
    search_moment net origin queue queued ->
    ~ dequeued queue queued end_handle ->
    (search_from_end fuel net end_handle queue queued = true
     <-> net_reachable net origin end_handle).
Proof.
  assert (Hdone : forall queued,
             search_moment net origin [] queued ->
             ~ dequeued [] queued end_handle ->
             (false = true <-> net_reachable net origin end_handle)).
  { intros queued Hmoment Hnot. split; [discriminate|]. intros Hwalk.
    exfalso. apply Hnot, dequeued_at_end.
    now apply (search_moment_end net origin queued Hmoment). }
  induction fuel as [|fuel IH]; intros queue queued Hfuel Hmoment Hnot.
  - destruct queue; [|cbn in Hfuel; lia]. cbn. now apply (Hdone queued).
  - destruct queue as [|here queue]; [cbn; now apply (Hdone queued)|].
    cbn [search_from_end].
    destruct (decide (here = end_handle)) as [->|Hne].
    + split; [intros _ | reflexivity].
      destruct Hmoment as (_ & Hsub & _ & Hreach & _). apply Hreach, Hsub. now left.
    + destruct (search_moment_step net origin here queue queued Hmoment)
        as [Hnext Hleft].
      pose proof (handle_edge_measure (list_to_set (net_handles net))
                    (follow_edges net here false)
                    (follow_edges_in_handles net here) queue queued) as Hstep.
      destruct (fold_left handle_edge _ (queue, queued)) as [queue' queued'].
      cbn [fst snd length] in *. apply IH; [lia | exact Hnext |].
      intros Hgone. apply Hleft in Hgone as [Heq|Hgone]; [congruence | contradiction].
Qed.

(** The three connectivity flags [set_connectivity] writes are reachability
    by directed walks in the connectivity net graph. *)
Lemma set_connectivity_reach (graph : VG) (start_v end_v : Visit)
  (child_chains : list Chain) (snarl : Snarl) :
  let net := connectivity_net_graph graph start_v end_v child_chains in
  let start_handle := boundary_handle net start_v in
  let end_handle := boundary_handle net end_v in
  let found := set_connectivity graph start_v end_v child_chains snarl in
  (start_end_reachable found = true <-> net_reachable net start_handle end_handle) /\
  (start_self_reachable found = true
   <-> net_reachable net start_handle (flip net start_handle)) /\
  (end_self_reachable found = true <-> net_reachable net (flip net end_handle) end_handle).
Proof.
  cbn zeta. unfold set_connectivity, connectivity_net_graph, boundary_handle.
  set (net := NetGraph_new start_v end_v child_chains graph true).
  set (start_handle := get_handle net (node_id start_v) (backward start_v)).
  set (end_handle := get_handle net (node_id end_v) (backward end_v)).
  destruct (search_moment_start net start_handle) as [Hstart Hnone].
  pose proof (search_from_start_reach net start_handle end_handle (search_fuel net)
                [start_handle] {[start_handle]} false false) as Hfirst.
  cbn zeta in Hfirst.
  destruct (search_from_start _ _ _ _ _ _ _ _) as [connected_start_end connected_start_start].
  cbn [fst snd] in Hfirst.
  destruct Hfirst as [Hse Hss].
  { pose proof (size_handles net {[start_handle]}). unfold search_fuel. cbn [length]. lia. }
  { exact Hstart. }
  { split; [discriminate | intros H; now apply Hnone in H]. }
  { split; [discriminate | intros H; now apply Hnone in H]. }
  destruct (search_moment_start net (flip net end_handle)) as [Hend Hnone'].
  pose proof (search_from_end_reach net (flip net end_handle) end_handle (search_fuel net)
                [flip net end_handle] {[flip net end_handle]}) as Hee.
  cbn. split; [exact Hse|]. split; [exact Hss|]. apply Hee.
  - pose proof (size_handles net {[flip net end_handle]}). unfold search_fuel. cbn [length]. lia.
  - exact Hend.
  - apply Hnone'.
Qed.

(** X1: the connectivity flags of every snarl [find_snarls] stores are
    reachability in its connectivity net graph: [start_end_reachable] says
    that a directed walk leads from the start to the end,
    [start_self_reachable] that one leads from the start back to the start
    turned around, [end_self_reachable] that one leads from the end turned
    inward back to the end; and [directed_acyclic_net_graph] is what
    [is_directed_acyclic] says of the flat net graph. *)
Theorem stored_flags_are_reachability (graph : VG) (m : SnarlManager) (i : nat)
  (s : Snarl) :
  find_snarls graph = Ok m ->
  snarls m !! i = Some s ->
  let net := connectivity_net_graph graph (start s) (end_ s) (chains_at m i) in
  let start_handle := boundary_handle net (start s) in
  let end_handle := boundary_handle net (end_ s) in
  (start_end_reachable s = true <-> net_reachable net start_handle end_handle) /\
  (start_self_reachable s = true
   <-> net_reachable net start_handle (flip net start_handle)) /\
  (end_self_reachable s = true <-> net_reachable net (flip net end_handle) end_handle) /\
  directed_acyclic_net_graph s
  = is_directed_acyclic (NetGraph_new (start s) (end_ s) (chains_at m i) graph false).
Proof.
  intros Hrun Hi. apply find_snarls_ok in Hrun as [_ Hok].
  destruct (Hok i s Hi) as (_ & _ & Hflags).
  pose proof (set_connectivity_reach graph (start s) (end_ s) (chains_at m i) s)
    as (Hse & Hss & Hee).
  pose proof (f_equal start_end_reachable Hflags) as H1.
  pose proof (f_equal start_self_reachable Hflags) as H2.
  pose proof (f_equal end_self_reachable Hflags) as H3.
  pose proof (f_equal directed_acyclic_net_graph Hflags) as H4.
  cbn [set_type start_end_reachable start_self_reachable end_self_reachable
       directed_acyclic_net_graph] in H1, H2, H3, H4.
  cbn zeta. rewrite H1 at 1. rewrite H2 at 1. rewrite H3 at 1. rewrite H4 at 1.
  split; [exact Hse|]. split; [exact Hss|]. split; [exact Hee|].
  unfold set_connectivity. destruct (search_from_start _ _ _ _ _ _ _ _). reflexivity.
Qed.

End ConnectivityFacts.

(** The outer snarl of the nested toy graph *)
Lemma stored_flags_are_reachability_witness :
  let net := connectivity_net_graph (env := toy_finder_env) nested_graph
               (start outer_managed) (end_ outer_managed) (chains_at nested_manager 1) in
  let start_handle := boundary_handle net (start outer_managed) in
  let end_handle := boundary_handle net (end_ outer_managed) in
  (start_end_reachable outer_managed = true
   <-> net_reachable net start_handle end_handle) /\
  (start_self_reachable outer_managed = true
   <-> net_reachable net start_handle (flip net start_handle)) /\
  (end_self_reachable outer_managed = true
   <-> net_reachable net (flip net end_handle) end_handle) /\
  directed_acyclic_net_graph outer_managed
  = is_directed_acyclic (NetGraph_new (start outer_managed) (end_ outer_managed)
                                      (chains_at nested_manager 1) nested_graph false).
Proof.
  apply (stored_flags_are_reachability (env := toy_finder_env) nested_graph nested_manager
           1 outer_managed).
  - vm_compute. reflexivity.
  - vm_compute. reflexivity.
Defined.

(** ** More on the bounded search *)

Section BoundedSearchMore.
Context {env : TraversalFinderEnv}.

Lemma path_bases_snarls_only (path : list Visit) :
  forallb (fun v => bool_decide (node_id v = 0)) path = true -> path_bases path = Some 0.
Proof.
  induction path as [|visit rest IH]; cbn; [reflexivity|].
  destruct (bool_decide (node_id visit = 0)); cbn; [exact IH | discriminate].
Qed.

(** The loop of [bp_length], started from any count *)
Lemma bp_length_from (path : list Visit) :
  forall z,
    foldM (fun length visit =>
             if negb (bool_decide (node_id visit = 0)) then
               node ← get_node (node_id visit);
               Ok (wrap64 (length + sequence_size node))
             else Ok length) z path
    = match path_bases path with
      | Some bases =>
          Ok (if forallb (fun v => bool_decide (node_id v = 0)) path
              then z else wrap64 (z + bases))
      | None => Throw (runtime_error GraphError)
      end.
Proof.
  induction path as [|visit rest IH]; intros z; cbn; [reflexivity|].
  destruct (bool_decide (node_id visit = 0)); cbn; [apply IH|].
  unfold get_node. destruct (graph_node (node_id visit)) as [node|]; cbn; [|reflexivity].
  rewrite IH. destruct (path_bases rest) as [bases|] eqn:Hbases; cbn; [|reflexivity].
  f_equal. destruct (forallb _ rest) eqn:Hrest.
  - apply path_bases_snarls_only in Hrest. rewrite Hrest in Hbases.
    injection Hbases as <-. f_equal. lia.
  - unfold wrap64. rewrite Zplus_mod_idemp_l. f_equal. lia.
Qed.

Lemma bp_length_bases (path : list Visit) :
  bp_length path = match path_bases path with
                   | Some bases => Ok (wrap64 bases)
                   | None => Throw (runtime_error GraphError)
                   end.
Proof.
  unfold bp_length. rewrite bp_length_from.
  destruct (path_bases path) as [bases|] eqn:Hbases; [|reflexivity].
  destruct (forallb _ path) eqn:Hpath; [|reflexivity].
  apply path_bases_snarls_only in Hpath. rewrite Hpath in Hbases.
  injection Hbases as <-. reflexivity.
Qed.

Lemma path_bases_app (p q : list Visit) :
  path_bases (p ++ q) = (a ← path_bases p; b ← path_bases q; Some (a + b)).
Proof.
  induction p as [|visit rest IH]; cbn.
  - destruct (path_bases q); reflexivity.
  - destruct (bool_decide (node_id visit = 0)); [exact IH|].
    destruct (graph_node (node_id visit)) as [node|]; cbn; [|reflexivity].
    rewrite IH. destruct (path_bases rest); cbn; [|reflexivity].
    destruct (path_bases q); cbn; [|reflexivity]. f_equal. lia.
Qed.

Lemma path_bases_mirror (path : list Visit) :
  path_bases (map reverse (rev path)) = path_bases path.
Proof.
  induction path as [|visit rest IH]; cbn [rev]; [reflexivity|].
  rewrite map_app, path_bases_app, IH. cbn.
  destruct (bool_decide (node_id visit = 0)).
  - destruct (path_bases rest); cbn; [f_equal; lia | reflexivity].
  - destruct (graph_node (node_id visit)) as [node|]; cbn.
    + destruct (path_bases rest); cbn; [f_equal; lia | reflexivity].
    + destruct (path_bases rest); reflexivity.
Qed.

Lemma bp_length_mirror (path : list Visit) :
  bp_length (map reverse (rev path)) = bp_length path.
Proof. now rewrite !bp_length_bases, path_bases_mirror. Qed.

(** X2: [bp_length] adds up, modulo 2^64, the sequence lengths of the nodes
    a path visits (child snarls count for nothing) and throws when the
    graph lacks one of them; so it gives the same for a path and for the
    path turned around as [bfs_right] turns paths around, and the length of
    two paths joined is the sum of their lengths modulo 2^64. *)
Theorem bp_length_ignores_direction (path : list Visit) :
  bp_length path = match path_bases path with
                   | Some bases => Ok (bases mod 2 ^ 64)
                   | None => Throw (runtime_error GraphError)
                   end /\
  bp_length (map reverse (rev path)) = bp_length path /\
  forall more,
    bp_length (path ++ more)
    = (a ← bp_length path; b ← bp_length more; Ok ((a + b) mod 2 ^ 64)).
Proof.
  split; [apply bp_length_bases|]. split.
  - apply bp_length_mirror.
  - intros more. rewrite !bp_length_bases, path_bases_app.
    destruct (path_bases path) as [a|]; cbn; [|reflexivity].
    destruct (path_bases more) as [b|]; cbn; [|reflexivity].
    unfold wrap64. now rewrite <- Zplus_mod.
Qed.

(** *** What the two searches return *)

Lemma measured_insert (len : Z) (path : list Visit) (results : list (Z * list Visit)) :
  bp_length path = Ok len ->
  measured results ->
  measured (set_insert sized_path_compare (len, path) results).
Proof.
  intros Hlen [Hsorted Hall].
  split; [apply (set_insert_sorted sized_path_compare); exact Hsorted|].
  apply Forall_forall. intros lp Hin.
  apply (set_insert_elem sized_path_compare) in Hin as [->|Hin]; [exact Hlen|].
  rewrite Forall_forall in Hall. now apply Hall.
Qed.

Lemma bfs_visit_measured (index : PathIndex) (stopIfVisited : bool) (in_snarl : SnarlPtr)
  (st st' : bfs_state) (path : list Visit) :
  measured (toReturn st) ->
  bfs_visit index stopIfVisited in_snarl st path = Ok st' ->
  measured (toReturn st').
Proof.
  intros Hst Hrun. destruct path as [|front rest]; [discriminate|].
  destruct (anchors index front) eqn:Hanchor.
  - rewrite bfs_visit_anchored in Hrun by exact Hanchor.
    apply bfs_emit_inv in Hrun as (len & Hlen & ->). cbn [toReturn].
    now apply measured_insert.
  - rewrite bfs_visit_not_anchored in Hrun by exact Hanchor.
    destruct (Z.of_nat (length (front :: rest)) <=? max_depth).
    + apply foldM_consider_inv in Hrun as (accepted & _ & _ & Hsame). now rewrite Hsame.
    + now injection Hrun as <-.
Qed.

Lemma bfs_loop_measured (index : PathIndex) (stopIfVisited : bool) (in_snarl : SnarlPtr)
  (fuel : nat) :
  forall st result,
    measured (toReturn st) ->
    bfs_loop fuel index stopIfVisited in_snarl st = Ok result ->
    measured result.
Proof.
  induction fuel as [|fuel IH]; intros st result Hst Hrun; cbn in Hrun;
    destruct (toExtend st) as [|path rest] eqn:Hqueue.
  - now injection Hrun as <-.
  - discriminate.
  - now injection Hrun as <-.
  - bind_split Hrun as st' Hvisit. apply (IH st'); [|exact Hrun].
    eapply bfs_visit_measured; [|exact Hvisit]. exact Hst.
Qed.

Lemma measured_paths_differ (results : list (Z * list Visit)) :
  measured results -> NoDup (map snd results).
Proof.
  intros [Hsorted Hall].
  apply (NoDup_fmap_2_strong snd).
  - intros [len1 path1] [len2 path2] Hin1 Hin2 Heq. cbn in Heq. subst path2.
    rewrite Forall_forall in Hall.
    pose proof (Hall _ Hin1) as H1. pose proof (Hall _ Hin2) as H2. cbn in H1, H2.
    congruence.
  - now apply (strictly_sorted_NoDup sized_path_compare).
Qed.

(** X3: what [bfs_left] and [bfs_right] return is ordered as [std::set]
    orders pairs, holds each path beside its own [bp_length], and holds no
    path twice. *)
Theorem searches_return_measured_paths (visit : Visit) (index : PathIndex)
  (stopIfVisited : bool) (in_snarl : SnarlPtr) (results : list (Z * list Visit)) :
  bfs_left visit index stopIfVisited in_snarl = Ok results \/
  bfs_right visit index stopIfVisited in_snarl = Ok results ->
  strictly_sorted sized_path_compare results /\
  (forall length path, (length, path) ∈ results -> bp_length path = Ok length) /\
  NoDup (map snd results).
Proof.
  intros Hrun.
  assert (Hleft : forall v found,
             bfs_left v index stopIfVisited in_snarl = Ok found -> measured found).
  { intros v found. unfold bfs_left. apply bfs_loop_measured.
    split; [constructor | constructor]. }
  assert (Hresults : measured results).
  { destruct Hrun as [Hrun|Hrun]; [now apply (Hleft visit)|].
    unfold bfs_right in Hrun. bind_split Hrun as toConvert Hconv.
    injection Hrun as <-. apply Hleft in Hconv as [_ Hall]. split.
    - apply (fold_insert_sorted sized_path_compare
               (fun lp : Z * list Visit => (lp.1, map reverse (rev lp.2)))).
      constructor.
    - apply Forall_forall. intros lp Hin.
      apply (fold_insert_elem sized_path_compare
               (fun lp : Z * list Visit => (lp.1, map reverse (rev lp.2)))) in Hin
        as [Hin|(mirrored & Hin & ->)]; [now apply elem_of_nil in Hin|].
      cbn [fst snd]. rewrite Forall_forall in Hall.
      rewrite bp_length_mirror. now apply Hall. }
  split; [apply Hresults|]. split; [|now apply measured_paths_differ].
  intros length path Hin. destruct Hresults as [_ Hall].
  rewrite Forall_forall in Hall. exact (Hall _ Hin).
Qed.

Lemma bfs_left_anchored (visit : Visit) (index : PathIndex) (stopIfVisited : bool)
  (in_snarl : SnarlPtr) :
  anchors index visit = true ->
  bfs_left visit index stopIfVisited in_snarl
  = (length ← bp_length [visit]; Ok [(length, [visit])]).
Proof.
  intros Hanchor. unfold bfs_left.
  pose proof (search_space_pos in_snarl (Z.to_nat max_depth) visit) as Hpos.
  destruct (search_space in_snarl (Z.to_nat max_depth) visit) as [|fuel]; [lia|].
  cbn [bfs_loop bfs_init toExtend]. rewrite bfs_visit_anchored by exact Hanchor.
  unfold bfs_emit. destruct (bp_length [visit]) as [len| | | |]; cbn; try reflexivity.
  destruct fuel; reflexivity.
Qed.

(** X4: a seed that anchors on the backbone itself is not searched from:
    [bfs_left] returns it alone, as a path of one visit with its length,
    whatever the limits are; so does [bfs_right] when the seed anchors
    turned around.  Both fail as [bp_length] fails when the graph lacks the
    seed's node. *)
Theorem anchored_seed_is_returned_alone (visit : Visit) (index : PathIndex)
  (stopIfVisited : bool) (in_snarl : SnarlPtr) :
  (anchors index visit = true ->
   bfs_left visit index stopIfVisited in_snarl
   = (length ← bp_length [visit]; Ok [(length, [visit])])) /\
  (anchors index (reverse visit) = true ->
   bfs_right visit index stopIfVisited in_snarl
   = (length ← bp_length [visit]; Ok [(length, [visit])])).
Proof.
  split; [apply bfs_left_anchored|].
  intros Hanchor. unfold bfs_right. rewrite bfs_left_anchored by exact Hanchor.
  change [reverse visit] with (map reverse (rev [visit])). rewrite bp_length_mirror.
  destruct (bp_length [visit]) as [len| | | |]; cbn; try reflexivity.
  now rewrite reverse_involutive.
Qed.

End BoundedSearchMore.

(** The search leftward from node 5 of the toy graph, which is two steps
    from the backbone *)
Lemma searches_return_measured_paths_witness :
  let results := [(3, [to_visit 1 false; to_visit 6 false; to_visit 5 false])] in
  strictly_sorted sized_path_compare results /\
  (forall length path,
      (length, path) ∈ results ->
      bp_length (env := toy_traversal_env 2 10 10 false toy_index) path = Ok length) /\
  NoDup (map snd results).
Proof.
  apply (searches_return_measured_paths (env := toy_traversal_env 2 10 10 false toy_index)
           (to_visit 5 false) toy_index false (mkPtr 0 toy_site)).
  left. vm_compute. reflexivity.
Defined.

(** Node 1 of the toy graph is on the backbone. *)
Lemma anchored_seed_is_returned_alone_witness :
  bfs_left (env := toy_traversal_env 2 10 10 false toy_index)
           (to_visit 1 false) toy_index false (mkPtr 0 toy_site)
  = (length ← bp_length (env := toy_traversal_env 2 10 10 false toy_index)
                        [to_visit 1 false];
     Ok [(length, [to_visit 1 false])]).
Proof.
  apply (anchored_seed_is_returned_alone (env := toy_traversal_env 2 10 10 false toy_index)
           (to_visit 1 false) toy_index false (mkPtr 0 toy_site)).
  vm_compute. reflexivity.
Defined.

(** ** The bubble of a seed *)

Section BubbleFacts.
Context {env : TraversalFinderEnv}.

(** The loop that appends the right half and looks for a clash (2318-2338) *)
Lemma join_fold (nodes : gset Z) (snarls : gset SnarlEnds) (items : list Visit) :
  forall (joined : list Visit) (overlap : bool),
    fold_left (fun (acc : list Visit * bool) it =>
                 (fst acc ++ [it],
                  if negb (bool_decide (node_id it = 0))
                  then (if bool_decide (node_id it ∈ nodes) then true else snd acc)
                  else (if bool_decide (snarl it ∈ snarls) then true else snd acc)))
              items (joined, overlap)
    = (joined ++ items, overlap || existsb (clashes nodes snarls) items).
Proof.
  induction items as [|it items IH]; intros joined overlap; cbn.
  - now rewrite app_nil_r, orb_false_r.
  - rewrite IH, <- app_assoc. cbn. f_equal. unfold clashes.
    destruct (negb (bool_decide (node_id it = 0)));
      [destruct (bool_decide (node_id it ∈ nodes)) | destruct (bool_decide (snarl it ∈ snarls))];
      cbn; now rewrite ?orb_true_r.
Qed.

Lemma try_right_path_pairing (from_edge : bool) (index : PathIndex) (lh : left_half)
  (st st' : bubble_state) (rightPath : list Visit) (returned : bool) :
  try_right_path from_edge index lh st rightPath = Ok (returned, st') ->
  bestBubblePath st' = bestBubblePath st \/
  pairing from_edge lh rightPath (bestBubblePath st').
Proof.
  unfold try_right_path. intros Hrun.
  destruct (last rightPath) as [back|]; [|discriminate].
  bind_split Hrun as rightRefPos Hpos. bind_split Hrun as minRightSupport Hmin.
  destruct (_ && _); [|injection Hrun as _ <-; now left].
  rewrite join_fold in Hrun. cbn [orb] in Hrun.
  fold (right_part from_edge rightPath) in Hrun.
  destruct (existsb _ (right_part from_edge rightPath)) eqn:Hclash;
    [injection Hrun as _ <-; now left|].
  injection Hrun as _ <-. cbn [bestBubblePath].
  destruct (_ || _); [|now left].
  right. exists minRightSupport. split; [exact Hmin|]. split; [reflexivity|]. split.
  - cbn. destruct (leftRelativeOrientation lh); [now right | now left].
  - apply Forall_forall. intros it Hin.
    destruct (clashes (leftPathNodes lh) (leftPathSnarls lh) it) eqn:Hit; [|reflexivity].
    assert (Hex : existsb (clashes (leftPathNodes lh) (leftPathSnarls lh))
                          (right_part from_edge rightPath) = true).
    { apply existsb_exists. exists it. split; [now apply list_elem_of_In | exact Hit]. }
    congruence.
Qed.

Lemma try_right_paths_pairing (from_edge : bool) (index : PathIndex) (lh : left_half)
  (rightList : list (list Visit)) :
  forall st st' returned,
    try_right_paths from_edge index lh st rightList = Ok (returned, st') ->
    bestBubblePath st' = bestBubblePath st \/
    exists rightPath,
      rightPath ∈ rightList /\ pairing from_edge lh rightPath (bestBubblePath st').
Proof.
  induction rightList as [|rightPath rightList IH]; intros st st' returned Hrun;
    cbn in Hrun.
  - injection Hrun as _ <-. now left.
  - bind_split Hrun as [returned1 st1] Hfirst.
    apply try_right_path_pairing in Hfirst as Hbest.
    assert (Hrest : bestBubblePath st' = bestBubblePath st1 \/
                    exists rightPath',
                      rightPath' ∈ rightList /\
                      pairing from_edge lh rightPath' (bestBubblePath st')).
    { destruct returned1; [injection Hrun as _ <-; now left | now apply IH in Hrun]. }
    destruct Hrest as [Hsame|(rightPath' & Hin & Hpair)].
    + rewrite Hsame. destruct Hbest as [Hbest|Hbest]; [now left|].
      right. exists rightPath. split; [left | exact Hbest].
    + right. exists rightPath'. split; [now right | exact Hpair].
Qed.

(** The nodes a left half remembers are those of its node visits. *)
Lemma left_nodes_fold (leftPath : list Visit) :
  forall (nodes : gset Z) (snarls : gset SnarlEnds) u,
    u ∈ leftPath -> node_id u <> 0 ->
    node_id u ∈ (fold_left (fun (acc : gset Z * gset SnarlEnds) visit =>
                              if negb (bool_decide (node_id visit = 0))
                              then ({[node_id visit]} ∪ fst acc, snd acc)
                              else (fst acc, {[snarl visit]} ∪ snd acc))
                           leftPath (nodes, snarls)).1.
Proof.
  assert (Hkeep : forall (l : list Visit) (nodes : gset Z) (snarls : gset SnarlEnds) n,
             n ∈ nodes ->
             n ∈ (fold_left (fun (acc : gset Z * gset SnarlEnds) visit =>
                               if negb (bool_decide (node_id visit = 0))
                               then ({[node_id visit]} ∪ fst acc, snd acc)
                               else (fst acc, {[snarl visit]} ∪ snd acc))
                            l (nodes, snarls)).1).
  { induction l as [|v l IH]; intros nodes snarls n Hin; cbn; [exact Hin|].
    destruct (negb (bool_decide (node_id v = 0))); cbn; apply IH; [|exact Hin].
    now apply elem_of_union_r. }
  induction leftPath as [|v rest IH]; intros nodes snarls u Hin Hnode.
  - now apply elem_of_nil in Hin.
  - cbn. apply elem_of_cons in Hin as [->|Hin].
    + rewrite (bool_decide_eq_false_2 _ Hnode). cbn. apply Hkeep.
      now apply elem_of_union_l, elem_of_singleton.
    + destruct (negb (bool_decide (node_id v = 0))); cbn; now apply IH.
Qed.

Lemma left_half_of_inv (index : PathIndex) (path : list Visit) (lh : left_half) :
  left_half_of index path = Ok lh ->
  leftPath lh = path /\
  min_support_in_path path = Ok (minLeftSupport lh) /\
  forall u, u ∈ path -> node_id u <> 0 -> node_id u ∈ leftPathNodes lh.
Proof.
  unfold left_half_of. intros Hrun. destruct path as [|front rest]; [discriminate|].
  bind_split Hrun as leftRefPos Hpos.
  pose proof (left_nodes_fold (front :: rest) ∅ ∅) as Hnodes.
  destruct (fold_left _ (front :: rest) (∅, ∅)) as [nodes snarls].
  bind_split Hrun as minLeft Hmin. injection Hrun as <-. cbn.
  split; [reflexivity|]. split; [exact Hmin | exact Hnodes].
Qed.

Lemma testCombinations_pairing (from_edge : bool) (index : PathIndex)
  (rightList leftList : list (list Visit)) :
  forall st best,
    testCombinations from_edge index st leftList rightList = Ok best ->
    best = bestBubblePath st \/
    exists path lh rightPath,
      path ∈ leftList /\ left_half_of index path = Ok lh /\
      rightPath ∈ rightList /\ pairing from_edge lh rightPath best.
Proof.
  induction leftList as [|path leftList IH]; intros st best Hrun; cbn in Hrun.
  - injection Hrun as <-. now left.
  - bind_split Hrun as lh Hlh. bind_split Hrun as [returned st1] Hright.
    apply try_right_paths_pairing in Hright as Hbest.
    assert (Hrest : best = bestBubblePath st1 \/
                    exists path' lh' rightPath,
                      path' ∈ leftList /\ left_half_of index path' = Ok lh' /\
                      rightPath ∈ rightList /\ pairing from_edge lh' rightPath best).
    { destruct returned; [injection Hrun as <-; now left | now apply IH in Hrun]. }
    destruct Hrest as [->|(path' & lh' & rightPath & Hin & Hlh' & Hr & Hpair)].
    + destruct Hbest as [->|(rightPath & Hr & Hpair)]; [now left|].
      right. exists path, lh, rightPath. split; [left|]. now split.
    + right. exists path', lh', rightPath. split; [now right|]. now split.
Qed.

(** Turning a path around twice gives the path back. *)
Lemma mirror_involutive (path : list Visit) :
  map reverse (rev (map reverse (rev path))) = path.
Proof.
  rewrite <- map_rev, rev_involutive, map_map.
  rewrite <- (map_id path) at 2. apply map_ext. apply reverse_involutive.
Qed.

(** X5: a bubble that [find_bubble] returns is one left half joined to one
    right half of its seed: the left half is among the paths [bfs_left]
    returns from the left seed visit and the right half among those
    [bfs_right] returns from the right seed visit (both searches with
    [stopIfVisited] off), so both reach the backbone; the right half follows
    the left one (without the seed, which both hold, unless the seed is an
    edge), the whole being turned around when the left half meets the
    backbone against its direction; no node of the right part is on the
    left half; and the support returned is [support_min] of the least
    supports of the two halves. *)
Theorem bubble_joins_two_halves (node : option Node) (edge : option Edge)
  (snarl : option SnarlPtr) (index : PathIndex) (site : Snarl)
  (sup : SupportOps.Support) (path : list Visit) :
  find_bubble node edge snarl index site = Ok (sup, path) ->
  path <> [] ->
  exists left_visit right_visit leftPaths rightPaths leftLength rightLength
         leftHalf rightHalf,
    seed_visits node edge snarl (manage site) = Ok (left_visit, right_visit) /\
    bfs_left left_visit index false (manage site) = Ok leftPaths /\
    bfs_right right_visit index false (manage site) = Ok rightPaths /\
    (leftLength, leftHalf) ∈ leftPaths /\
    (rightLength, rightHalf) ∈ rightPaths /\
    bubble_half index (manage site) left_visit leftHalf /\
    bubble_half index (manage site) (reverse right_visit) (map reverse (rev rightHalf)) /\
    (path = leftHalf ++ right_part (bool_decide (is_Some edge)) rightHalf \/
     path = map reverse (rev (leftHalf ++ right_part (bool_decide (is_Some edge)) rightHalf)))
    /\
    (forall u it,
        u ∈ leftHalf -> it ∈ right_part (bool_decide (is_Some edge)) rightHalf ->
        node_id it <> 0 -> node_id u <> node_id it) /\
    exists minLeft minRight,
      min_support_in_path leftHalf = Ok minLeft /\
      min_support_in_path rightHalf = Ok minRight /\
      sup = SupportOps.support_min minLeft minRight.
Proof.
  unfold find_bubble. intros Hrun Hpath.
  bind_split Hrun as [left_visit right_visit] Hseed.
  bind_split Hrun as leftPaths Hleft. bind_split Hrun as rightPaths Hright.
  apply testCombinations_pairing in Hrun
    as [Hnone|(leftHalf & lh & rightHalf & Hl & Hlh & Hr & Hpair)].
  { injection Hnone as _ ->. contradiction. }
  apply left_half_of_inv in Hlh as (Hsame & Hmin & Hnodes).
  destruct Hpair as (minRight & HminR & Hsup & Hjoin & Hclear).
  cbn [fst snd] in Hsup, Hjoin. rewrite Hsame in Hjoin.
  apply list_elem_of_fmap in Hl as ([leftLength p] & Hp & Hl). cbn [snd] in Hp.
  subst p.
  apply list_elem_of_fmap in Hr as ([rightLength q] & Hq & Hr). cbn [snd] in Hq.
  subst q.
  exists left_visit, right_visit, leftPaths, rightPaths, leftLength, rightLength,
         leftHalf, rightHalf.
  split; [exact Hseed|]. split; [exact Hleft|]. split; [exact Hright|].
  split; [exact Hl|]. split; [exact Hr|].
  split; [|split; [|split; [exact Hjoin|split]]].
  - apply bfs_left_results in Hleft. rewrite Forall_forall in Hleft.
    exact (Hleft _ Hl).
  - unfold bfs_right in Hright. bind_split Hright as toConvert Hconv.
    injection Hright as <-. pose proof Hr as Hin.
    apply (fold_insert_elem sized_path_compare
             (fun lp : Z * list Visit => (lp.1, map reverse (rev lp.2)))) in Hin
      as [Hin|([len' mirrored] & Hin & Heq)]; [now apply elem_of_nil in Hin|].
    cbn in Heq. injection Heq as -> ->. cbn [snd]. rewrite mirror_involutive.
    apply bfs_left_results in Hconv. rewrite Forall_forall in Hconv. exact (Hconv _ Hin).
  - intros u it Hu Hit Hnode Heq.
    rewrite Forall_forall in Hclear. specialize (Hclear it Hit).
    unfold clashes in Hclear. rewrite (bool_decide_eq_false_2 _ Hnode) in Hclear.
    cbn in Hclear. apply bool_decide_eq_false_1 in Hclear. apply Hclear.
    rewrite <- Heq. apply Hnodes; [exact Hu | congruence].
  - exists (minLeftSupport lh), minRight. now split.
Qed.

End BubbleFacts.

(** The bubble of node 5 of the toy graph: the left half 1, 6, 5 and the
    right half 5, 4 *)
Lemma bubble_joins_two_halves_witness :
  let finder := toy_traversal_env 2 10 10 false toy_index in
  let path := [to_visit 1 false; to_visit 6 false; to_visit 5 false; to_visit 4 false] in
  exists left_visit right_visit leftPaths rightPaths leftLength rightLength
         leftHalf rightHalf,
    seed_visits (env := finder) (Some (mkNode 5 1)) None None (manage toy_site)
    = Ok (left_visit, right_visit) /\
    bfs_left (env := finder) left_visit toy_index false (manage toy_site) = Ok leftPaths /\
    bfs_right (env := finder) right_visit toy_index false (manage toy_site)
    = Ok rightPaths /\
    (leftLength, leftHalf) ∈ leftPaths /\
    (rightLength, rightHalf) ∈ rightPaths /\
    bubble_half (env := finder) toy_index (manage toy_site) left_visit leftHalf /\
    bubble_half (env := finder) toy_index (manage toy_site) (reverse right_visit)
                (map reverse (rev rightHalf)) /\
    (path = leftHalf ++ right_part (bool_decide (is_Some (@None Edge))) rightHalf \/
     path = map reverse
              (rev (leftHalf ++ right_part (bool_decide (is_Some (@None Edge))) rightHalf)))
    /\
    (forall u it,
        u ∈ leftHalf -> it ∈ right_part (bool_decide (is_Some (@None Edge))) rightHalf ->
        node_id it <> 0 -> node_id u <> node_id it) /\
    exists minLeft minRight,
      min_support_in_path (env := finder) leftHalf = Ok minLeft /\
      min_support_in_path (env := finder) rightHalf = Ok minRight /\
      SupportOps.Support_default = SupportOps.support_min minLeft minRight.
Proof.
  apply (bubble_joins_two_halves (env := toy_traversal_env 2 10 10 false toy_index)
           (Some (mkNode 5 1)) None None toy_index toy_site).
  - vm_compute. reflexivity.
  - discriminate.
Defined.

(** ** Splicing a bubble of node visits into a reference path of node visits *)

Section SpliceFacts.
Context {env : TraversalFinderEnv}.

Lemma frontier_visit_node (v : Visit) (left_side : bool) :
  node_id v <> 0 -> frontier_visit v left_side = v.
Proof.
  intros Hnode. unfold frontier_visit. now rewrite (bool_decide_eq_false_2 _ Hnode).
Qed.

Lemma is_exit_node_visits (path_back v : Visit) :
  node_id path_back <> 0 -> node_id v <> 0 ->
  is_exit path_back v = bool_decide (v = path_back) /\
  is_exit_node path_back v = bool_decide (v = path_back).
Proof.
  intros Hback Hv. unfold is_exit, is_exit_node, visit_eqb.
  rewrite !frontier_visit_node by assumption.
  rewrite (bool_decide_eq_false_2 _ Hback). cbn. now rewrite orb_false_r.
Qed.

(** The first loop copies the reference path up to the first visit the
    bubble starts with. *)
Lemma copy_to_left_anchor_nodes (path_front : Visit) (before after : list Visit) :
  node_id path_front <> 0 ->
  Forall (fun v => node_id v <> 0) before ->
  path_front ∉ before ->
  forall i extended,
    copy_to_left_anchor (before ++ path_front :: after) path_front i extended
    = Ok ((i + length before)%nat, extended ++ before).
Proof.
  intros Hfront. induction before as [|v before IH]; intros Hnodes Hout i extended; cbn.
  - unfold visit_eqb. rewrite !frontier_visit_node by assumption.
    rewrite (bool_decide_eq_true_2 _ eq_refl). cbn.
    now rewrite Nat.add_0_r, app_nil_r.
  - apply Forall_cons in Hnodes as [Hv Hnodes]. apply not_elem_of_cons in Hout as [Hne Hout].
    unfold visit_eqb. rewrite !frontier_visit_node by assumption.
    rewrite (bool_decide_eq_false_2 (v = path_front)) by congruence.
    rewrite (bool_decide_eq_false_2 _ Hfront). cbn.
    rewrite IH by assumption. rewrite <- app_assoc. cbn. f_equal. f_equal. lia.
Qed.

(** When the reference path lacks the visit the bubble starts with, the
    first loop reads past its end. *)
Lemma copy_to_left_anchor_missing (path_front : Visit) (ref_rest : list Visit) :
  node_id path_front <> 0 ->
  Forall (fun v => node_id v <> 0) ref_rest ->
  path_front ∉ ref_rest ->
  forall i extended, copy_to_left_anchor ref_rest path_front i extended = Undefined.
Proof.
  intros Hfront. induction ref_rest as [|v rest IH]; intros Hnodes Hout i extended; cbn;
    [reflexivity|].
  apply Forall_cons in Hnodes as [Hv Hnodes]. apply not_elem_of_cons in Hout as [Hne Hout].
  unfold visit_eqb. rewrite !frontier_visit_node by assumption.
  rewrite (bool_decide_eq_false_2 (v = path_front)) by congruence.
  rewrite (bool_decide_eq_false_2 _ Hfront). cbn. now apply IH.
Qed.

Lemma skip_to_exit_nodes (path_back : Visit) (between : list Visit) :
  node_id path_back <> 0 ->
  Forall (fun v => node_id v <> 0) between ->
  path_back ∉ between ->
  forall i,
    (forall after, skip_to_exit (between ++ path_back :: after) path_back i
                   = (i + length between)%nat) /\
    skip_to_exit between path_back i = (i + length between)%nat /\
    (forall after, skip_to_exit_again (between ++ path_back :: after) path_back i
                   = (i + length between)%nat).
Proof.
  intros Hback. induction between as [|v between IH]; intros Hnodes Hout i.
  - cbn. unfold visit_eqb. rewrite !frontier_visit_node by assumption.
    rewrite (bool_decide_eq_true_2 _ eq_refl). cbn. repeat split; intros; lia.
  - apply Forall_cons in Hnodes as [Hv Hnodes]. apply not_elem_of_cons in Hout as [Hne Hout].
    cbn. unfold visit_eqb. rewrite !frontier_visit_node by assumption.
    rewrite (bool_decide_eq_false_2 (v = path_back)) by congruence.
    rewrite (bool_decide_eq_false_2 _ Hback). cbn.
    destruct (IH Hnodes Hout (S i)) as (H1 & H2 & H3).
    split; [intros after; rewrite H1; lia|]. split; [rewrite H2; lia|].
    intros after. rewrite H3. lia.
Qed.

Lemma drop_past_middle {A} (l : list A) (x : A) (rest : list A) :
  drop (S (length l)) (l ++ x :: rest) = rest.
Proof.
  rewrite (cons_middle x), app_assoc. apply drop_app_length'.
  rewrite length_app. cbn. lia.
Qed.

(** X6: where every visit is a node visit, splicing a bubble that runs
    from [front] to [back] into the reference path replaces the stretch of
    the reference path from the first [front] to the first [back] after it
    by the bubble.  When [back] comes only before [front] on the reference
    path, the second scan finds it there: the result is the reference path
    up to [front], the bubble, and the reference path from behind that
    [back] on, so the stretch between them is there twice, and
    "ran out of ref" is printed.  When the reference path lacks [front],
    the first loop reads the reference path past its end. *)
Theorem splice_of_node_visits (site : Snarl) (contents_first : list Node)
  (ref_path : list Visit) (log : list message)
  (front back : Visit) (middle : list Visit) :
  let path := front :: middle ++ [back] in
  Forall (fun v => node_id v <> 0) ref_path ->
  Forall (fun v => node_id v <> 0) path ->
  front <> back ->
  check_path_in_site contents_first path = Ok tt ->
  (forall before between after,
      ref_path = before ++ front :: between ++ back :: after ->
      front ∉ before -> back ∉ between ->
      splice_into_ref site contents_first ref_path log path
      = Ok (before ++ path ++ after, log)) /\
  (forall before between after,
      ref_path = before ++ back :: between ++ front :: after ->
      back ∉ before -> front ∉ before ++ back :: between -> back ∉ after ->
      splice_into_ref site contents_first ref_path log path
      = Ok ((before ++ back :: between) ++ path ++ between ++ front :: after,
            log ++ [RanOutOfRef])) /\
  (front ∉ ref_path ->
   splice_into_ref site contents_first ref_path log path = Undefined).
Proof.
  intros path Href Hpath Hne Hcheck.
  assert (Hfront : node_id front <> 0) by (apply Forall_cons in Hpath; tauto).
  assert (Hback : node_id back <> 0).
  { apply Forall_cons in Hpath as [_ Hrest]. apply Forall_app in Hrest as [_ Hlast].
    now apply Forall_cons in Hlast. }
  assert (Hlast : last (front :: middle ++ [back]) = Some back).
  { now rewrite app_comm_cons, last_snoc. }
  subst path. unfold splice_into_ref. rewrite Hcheck. cbn [mbind outcome_bind].
  cbv beta iota. rewrite Hlast. cbv beta iota.
  split; [|split].
  - intros before between after -> Hb Hbt.
    apply Forall_app in Href as [Hbefore Hrest].
    apply Forall_cons in Hrest as [_ Hrest].
    apply Forall_app in Hrest as [Hbetween _].
    rewrite (copy_to_left_anchor_nodes front before _ Hfront Hbefore Hb). cbn [Nat.add app].
    cbn [mbind outcome_bind].
    rewrite list_lookup_middle by reflexivity.
    rewrite (bool_decide_eq_false_2 _ Hfront). cbn [drop].
    unfold locate_exit. rewrite drop_app_length. cbn [skip_to_exit].
    destruct (is_exit_node_visits back front Hback Hfront) as [Hexit _].
    unfold is_exit, is_exit_node in Hexit. rewrite Hexit.
    rewrite (bool_decide_eq_false_2 (front = back)) by exact Hne.
    destruct (skip_to_exit_nodes back between Hback Hbetween Hbt (S (length before)))
      as [Hskip _].
    rewrite Hskip.
    rewrite bool_decide_eq_false_2
      by (rewrite length_app; cbn; rewrite length_app; cbn; lia).
    cbn [mbind outcome_bind].
    replace (before ++ front :: between ++ back :: after)
      with ((before ++ front :: between) ++ back :: after)
      by (rewrite <- app_assoc; reflexivity).
    replace (S (length before) + length between)%nat
      with (length (before ++ front :: between))
      by (rewrite length_app; cbn; lia).
    rewrite list_lookup_middle by reflexivity.
    rewrite (bool_decide_eq_false_2 _ Hback). cbn [mbind outcome_bind].
    rewrite drop_past_middle. now rewrite <- app_assoc.
  - intros before between after -> Hb Hf Ha.
    apply Forall_app in Href as [Hbefore Hrest].
    apply Forall_cons in Hrest as [_ Hrest].
    apply Forall_app in Hrest as [Hbetween Hrest].
    apply Forall_cons in Hrest as [_ Hafter].
    assert (Hstretch : Forall (fun v => node_id v <> 0) (before ++ back :: between)).
    { apply Forall_app. split; [exact Hbefore|]. now apply Forall_cons. }
    replace (before ++ back :: between ++ front :: after)
      with ((before ++ back :: between) ++ front :: after)
      by (rewrite <- app_assoc; reflexivity).
    rewrite (copy_to_left_anchor_nodes front _ _ Hfront Hstretch Hf). cbn [Nat.add app].
    cbn [mbind outcome_bind].
    rewrite list_lookup_middle by reflexivity.
    rewrite (bool_decide_eq_false_2 _ Hfront). cbn [drop].
    unfold locate_exit. rewrite drop_app_length. cbn [skip_to_exit].
    destruct (is_exit_node_visits back front Hback Hfront) as [Hexit _].
    unfold is_exit, is_exit_node in Hexit. rewrite Hexit.
    rewrite (bool_decide_eq_false_2 (front = back)) by exact Hne.
    destruct (skip_to_exit_nodes back after Hback Hafter Ha
                (S (length (before ++ back :: between)))) as (_ & Hskip & _).
    rewrite Hskip.
    rewrite bool_decide_eq_true_2 by (rewrite (length_app _ (front :: after)); cbn; lia).
    rewrite <- app_assoc. cbn [app].
    destruct (skip_to_exit_nodes back before Hback Hbefore Hb 0) as (_ & _ & Hagain).
    rewrite Hagain. cbn [Nat.add].
    rewrite bool_decide_eq_false_2 by (rewrite length_app; cbn; lia).
    cbn [mbind outcome_bind].
    rewrite list_lookup_middle by reflexivity.
    rewrite (bool_decide_eq_false_2 _ Hback). cbn [mbind outcome_bind].
    rewrite drop_past_middle.
    now rewrite <- (app_assoc (before ++ back :: between)).
  - intros Hmissing.
    now rewrite (copy_to_left_anchor_missing front ref_path Hfront Href Hmissing).
Qed.

End SpliceFacts.

(** The bubble 1, 3, 4 spliced into the reference path 1, 2, 4 of the toy
    site *)
Lemma splice_of_node_visits_witness :
  splice_into_ref (env := toy_traversal_env 2 10 10 false toy_index)
                  toy_site toy_nodes toy_ref_path []
                  [to_visit 1 false; to_visit 3 false; to_visit 4 false]
  = Ok ([to_visit 1 false; to_visit 3 false; to_visit 4 false], []).
Proof.
  refine (proj1 (splice_of_node_visits
                   (env := toy_traversal_env 2 10 10 false toy_index)
                   toy_site toy_nodes toy_ref_path []
                   (to_visit 1 false) (to_visit 4 false) [to_visit 3 false] _ _ _ _)
                [] [to_visit 2 false] [] _ _ _).
  - repeat (constructor; [discriminate|]). constructor.
  - repeat (constructor; [discriminate|]). constructor.
  - discriminate.
  - vm_compute. reflexivity.
  - reflexivity.
  - apply not_elem_of_nil.
  - intros Hin. apply list_elem_of_singleton in Hin. discriminate.
Defined.

(** ** Tracing the reference path *)

Section TraceFacts.
Context {env : TraversalFinderEnv}.

Lemma lower_bound_split (index : PathIndex) (pre post : list (Z * Visit))
  (entry : Z * Visit) (key : Z) :
  by_start index = pre ++ entry :: post ->
  Forall (fun e : Z * Visit => e.1 < key) pre ->
  key <= entry.1 ->
  lower_bound index key = Some entry.
Proof.
  unfold lower_bound. intros -> Hpre Hkey.
  induction Hpre as [|e pre He _ IH]; cbn.
  - destruct (Z.leb_spec key entry.1); [reflexivity | lia].
  - destruct (Z.leb_spec key e.1); [lia | exact IH].
Qed.

(** The keys of a stretch do not pass the key of its last entry. *)
Lemma stretch_keys (managed_site : SnarlPtr) (entries : list (Z * Visit)) :
  forall nodes entry last_entry,
    stretch managed_site (entry :: entries) nodes ->
    last (entry :: entries) = Some last_entry ->
    entry.1 <= last_entry.1 /\ (entries <> [] -> entry.1 < last_entry.1).
Proof.
  induction entries as [|next entries IH]; intros nodes entry last_entry Hstretch Hlast.
  - cbn in Hlast. injection Hlast as <-. split; [lia | congruence].
  - destruct nodes as [|node nodes]; [contradiction|].
    destruct Hstretch as (_ & Hsize & _ & _ & _ & Hnext & Hrest).
    change (last (entry :: next :: entries)) with (last (next :: entries)) in Hlast.
    destruct (IH nodes next last_entry Hrest Hlast) as [Hle _]. split; [lia|]. intros _. lia.
Qed.

Lemma stretch_bounds (managed_site : SnarlPtr) (entries : list (Z * Visit)) :
  forall nodes start last_entry,
    stretch managed_site entries nodes ->
    last entries = Some last_entry ->
    Forall (fun e : Z * Visit => e.1 <= last_entry.1) entries /\
    last_entry.1 < stretch_end start entries nodes.
Proof.
  induction entries as [|entry entries IH]; intros nodes start last_entry Hstretch Hlast;
    [discriminate|].
  destruct nodes as [|node nodes]; [contradiction|].
  pose proof (stretch_keys managed_site entries (node :: nodes) entry last_entry
                Hstretch Hlast) as [Hle _].
  destruct Hstretch as (_ & Hsize & _ & _ & _ & Hnext & Hrest).
  destruct entries as [|next entries].
  - cbn in Hlast. injection Hlast as <-. destruct nodes; [|contradiction].
    split; [constructor; [lia | constructor]|]. cbn. lia.
  - change (last (entry :: next :: entries)) with (last (next :: entries)) in Hlast.
    destruct (IH nodes (entry.1 + sequence_size node) last_entry Hrest Hlast)
      as [Hall Hend].
    split; [constructor; [exact Hle | exact Hall]|]. exact Hend.
Qed.

Lemma filter_out_none (l : list Node) :
  filter (fun node => negb (bool_decide (node ∈ ([] : list Node)))) l = l.
Proof.
  induction l as [|x l IH]; [reflexivity|].
  rewrite filter_cons_True; [now rewrite IH|].
  apply negb_True. rewrite bool_decide_spec. apply not_elem_of_nil.
Qed.

Lemma filter_out_next (visited : Node) (nodes l : list Node) :
  filter (fun node => negb (bool_decide (node ∈ nodes)))
         (filter (fun node => negb (bool_decide (node = visited))) l)
  = filter (fun node => negb (bool_decide (node ∈ visited :: nodes))) l.
Proof.
  rewrite list_filter_filter. apply list_filter_iff. intros x.
  rewrite !negb_True, !bool_decide_spec, elem_of_cons. tauto.
Qed.

(** The loop along a stretch: every entry is visited in turn. *)
Lemma trace_loop_stretch (index : PathIndex) (managed_site : SnarlPtr)
  (contents_first : list Node) (primary_max : Z) (after : list (Z * Visit)) :
  forall todo nodes pre fuel st,
    by_start index = pre ++ todo ++ after ->
    Forall (fun e : Z * Visit => e.1 < ref_node_start st) pre ->
    stretch managed_site todo nodes ->
    match todo with
    | entry :: _ => ref_node_start st <= entry.1
    | [] => True
    end ->
    Forall (fun e : Z * Visit => e.1 <= primary_max) todo ->
    primary_max < stretch_end (ref_node_start st) todo nodes ->
    (length todo <= fuel)%nat ->
    trace_loop fuel index managed_site contents_first primary_max st
    = Ok (mkTrace (stretch_end (ref_node_start st) todo nodes)
                  (ref_path_for_site st ++ map snd todo)
                  (filter (fun node => negb (bool_decide (node ∈ nodes))) (nodes_left st))
                  (trace_log st)).
Proof.
  induction todo as [|entry todo IH];
    intros nodes pre fuel st Hindex Hpre Hstretch Hfirst Hkeys Hend Hfuel.
  - destruct nodes; [|contradiction]. cbn in Hend.
    destruct fuel; cbn [trace_loop];
      (destruct (Z.leb_spec (ref_node_start st) primary_max); [lia|]);
      cbn; rewrite app_nil_r, filter_out_none; now destruct st.
  - destruct nodes as [|node nodes]; [contradiction|].
    destruct Hstretch as (Hnode & Hsize & Hkey & Hwrap & Hchild & Hnext & Hrest).
    apply Forall_cons in Hkeys as [Hkey_max Hkeys].
    destruct fuel as [|fuel]; [cbn in Hfuel; lia|]. cbn [trace_loop].
    destruct (Z.leb_spec (ref_node_start st) primary_max); [|lia].
    rewrite (lower_bound_split index pre (todo ++ after) entry (ref_node_start st));
      [|exact Hindex | exact Hpre | exact Hfirst].
    destruct (Z.ltb_spec primary_max entry.1); [lia|].
    unfold get_node. rewrite Hnode. cbn [mbind outcome_bind].
    assert (Hvisit :
              match into_which_snarl_visit entry.2 with
              | Some child =>
                  if negb (bool_decide (child = managed_site)) &&
                     negb (bool_decide (into_which_snarl_visit (reverse entry.2)
                                        = Some managed_site))
                  then trace_child index contents_first child entry node st
                  else Ok (mkTrace (wrap64 (entry.1 + sequence_size node))
                                   (ref_path_for_site st ++ [entry.2])
                                   (filter (fun n => negb (bool_decide (n = node)))
                                           (nodes_left st))
                                   (trace_log st))
              | None => Ok (mkTrace (wrap64 (entry.1 + sequence_size node))
                                    (ref_path_for_site st ++ [entry.2])
                                    (filter (fun n => negb (bool_decide (n = node)))
                                            (nodes_left st))
                                    (trace_log st))
              end
              = Ok (mkTrace (entry.1 + sequence_size node)
                            (ref_path_for_site st ++ [entry.2])
                            (filter (fun n => negb (bool_decide (n = node)))
                                    (nodes_left st))
                            (trace_log st))).
    { rewrite wrap64_small by lia. unfold enters_no_child in Hchild.
      destruct (into_which_snarl_visit entry.2) as [child|]; [|reflexivity].
      destruct Hchild as [-> | ->].
      - now rewrite (bool_decide_eq_true_2 _ eq_refl).
      - rewrite (bool_decide_eq_true_2 (Some managed_site = Some managed_site) eq_refl).
        now rewrite andb_false_r. }
    rewrite Hvisit. cbn [mbind outcome_bind].
    rewrite (IH nodes (pre ++ [entry]) fuel); cbn [ref_node_start ref_path_for_site
                                                   nodes_left trace_log stretch_end].
    + rewrite <- app_assoc, filter_out_next. reflexivity.
    + rewrite Hindex, <- app_assoc. reflexivity.
    + apply Forall_app. split.
      * eapply Forall_impl; [exact Hpre|]. cbn. intros e He. lia.
      * constructor; [lia | constructor].
    + exact Hrest.
    + destruct todo as [|next todo]; [exact I | exact Hnext].
    + exact Hkeys.
    + exact Hend.
    + cbn in Hfuel. lia.
Qed.

(** X7: on an index whose entries between the site's two coordinates
    follow one another without entering a child (each node known to the
    graph and one base long at least, each entry starting where the one
    before it ends or later, below 2^64), the trace visits exactly these
    entries, in order: the reference path is their visits, the nodes left
    are the site's nodes other than theirs, nothing is printed, and the
    trace stops behind the last of them. *)
Theorem trace_follows_the_backbone (site : Snarl) (index : PathIndex)
  (contents_first : list Node) (site_start site_end : Z)
  (before selected after : list (Z * Visit)) (nodes : list Node)
  (first_entry last_entry : Z * Visit) :
  by_start index = before ++ selected ++ after ->
  Forall (fun e : Z * Visit => e.1 < Z.min site_start site_end) before ->
  stretch (manage site) selected nodes ->
  head selected = Some first_entry ->
  first_entry.1 = Z.min site_start site_end ->
  last selected = Some last_entry ->
  last_entry.1 = Z.max site_start site_end ->
  trace_ref_path site index contents_first site_start site_end
  = Ok (mkTrace (stretch_end (Z.min site_start site_end) selected nodes)
                (map snd selected)
                (filter (fun node => negb (bool_decide (node ∈ nodes))) contents_first)
                []).
Proof.
  intros Hindex Hbefore Hstretch Hhead Hfirst Hlast Hmax. unfold trace_ref_path.
  destruct (stretch_bounds (manage site) selected nodes (Z.min site_start site_end)
              last_entry Hstretch Hlast) as [Hkeys Hend].
  rewrite (trace_loop_stretch index (manage site) contents_first
             (Z.max site_start site_end) after selected nodes before);
    cbn [ref_node_start ref_path_for_site nodes_left trace_log app].
  - reflexivity.
  - exact Hindex.
  - exact Hbefore.
  - exact Hstretch.
  - destruct selected as [|entry selected]; [exact I|].
    cbn in Hhead. injection Hhead as ->. lia.
  - eapply Forall_impl; [exact Hkeys|]. cbn. intros e He. lia.
  - lia.
  - rewrite Hindex, !length_app. lia.
Qed.

Lemma check_nodes_left_stray (index : PathIndex) (nodes_left : list Node) (node : Node) :
  node ∈ nodes_left ->
  into_which_snarl (id node) true = None ->
  into_which_snarl (id node) false = None ->
  by_id_count index (id node) = true ->
  check_nodes_left index nodes_left = Throw (runtime_error ExtraRefNodeFound).
Proof.
  unfold check_nodes_left. intros Hin Htrue Hfalse Hon.
  generalize tt. induction nodes_left as [|first rest IH]; intros u.
  - now apply elem_of_nil in Hin.
  - cbn [foldM].
    destruct (bool_decide (is_Some (into_which_snarl (id first) true)) ||
              bool_decide (is_Some (into_which_snarl (id first) false))) eqn:Hboundary.
    + cbn. apply elem_of_cons in Hin as [Heq|Hin]; [subst first|now apply IH].
      rewrite Htrue, Hfalse in Hboundary.
      rewrite !bool_decide_eq_false_2 in Hboundary by (intros [? ?]; discriminate).
      discriminate.
    + destruct (by_id_count index (id first)) eqn:Hfirst; [reflexivity|].
      cbn. apply elem_of_cons in Hin as [Heq|Hin]; [congruence | now apply IH].
Qed.

Lemma check_nodes_left_clean (index : PathIndex) (nodes_left : list Node) :
  Forall (fun node => is_Some (into_which_snarl (id node) true) \/
                      is_Some (into_which_snarl (id node) false) \/
                      by_id_count index (id node) = false) nodes_left ->
  check_nodes_left index nodes_left = Ok tt.
Proof.
  unfold check_nodes_left. induction 1 as [|node rest Hnode _ IH]; [reflexivity|].
  cbn [foldM].
  destruct (bool_decide (is_Some (into_which_snarl (id node) true)) ||
            bool_decide (is_Some (into_which_snarl (id node) false))) eqn:Hboundary;
    [exact IH|].
  apply orb_false_elim in Hboundary as [H1 H2].
  apply bool_decide_eq_false_1 in H1, H2.
  destruct Hnode as [Hn|[Hn|Hn]]; [contradiction | contradiction | rewrite Hn; exact IH].
Qed.

(** X8: the two runtime errors of the trace reach the caller of
    [find_traversals].  When the index has no entry at or after the lower
    of the site's two coordinates, "No backbone node found" is thrown.
    When a node of the site that the trace did not visit, and that is no
    boundary of a child, is in the index, "Extra ref node found" is
    thrown; when there is no such node the check passes. *)
Theorem trace_errors_reach_the_caller (site : Snarl) (index : PathIndex)
  (site_start site_end : Z) :
  type site = ULTRABUBBLE ->
  choose_index site = Ok index ->
  site_coordinates site index = Ok (site_start, site_end) ->
  (Forall (fun e : Z * Visit => e.1 < Z.min site_start site_end) (by_start index) ->
   find_traversals site = Throw (runtime_error NoBackboneNodeFound)) /\
  (forall traced node,
      trace_ref_path site index (shallow_contents site).1 site_start site_end = Ok traced ->
      node ∈ nodes_left traced ->
      into_which_snarl (id node) true = None ->
      into_which_snarl (id node) false = None ->
      by_id_count index (id node) = true ->
      find_traversals site = Throw (runtime_error ExtraRefNodeFound)) /\
  (forall nodes,
      Forall (fun node => is_Some (into_which_snarl (id node) true) \/
                          is_Some (into_which_snarl (id node) false) \/
                          by_id_count index (id node) = false) nodes ->
      check_nodes_left index nodes = Ok tt).
Proof.
  intros Htype Hindex Hcoords.
  assert (Hstart : find_traversals site
                   = (traced ← trace_ref_path site index (shallow_contents site).1
                                              site_start site_end;
                      _ ← check_nodes_left index (nodes_left traced);
                      '(site_traversal_set, log) ←
                        collect_traversals site index (shallow_contents site)
                                           (ref_path_for_site traced) (trace_log traced);
                      Ok (emit_all site_start site_end (ref_path_for_site traced)
                                   site_traversal_set, log))).
  { unfold find_traversals, assert. rewrite (bool_decide_eq_true_2 _ Htype).
    unfold find_traversals_checked. rewrite Hindex. cbn [mbind outcome_bind].
    rewrite Hcoords. reflexivity. }
  split; [|split].
  - intros Hall. rewrite Hstart. unfold trace_ref_path. cbn [trace_loop ref_node_start].
    destruct (Z.leb_spec (Z.min site_start site_end) (Z.max site_start site_end)); [|lia].
    assert (Hnone : lower_bound index (Z.min site_start site_end) = None).
    { unfold lower_bound. induction Hall as [|e rest He _ IH]; [reflexivity|].
      cbn. destruct (Z.leb_spec (Z.min site_start site_end) e.1); [lia | exact IH]. }
    now rewrite Hnone.
  - intros traced node Htrace Hin Htrue Hfalse Hon. rewrite Hstart, Htrace.
    cbn [mbind outcome_bind].
    now rewrite (check_nodes_left_stray index (nodes_left traced) node).
  - apply check_nodes_left_clean.
Qed.

End TraceFacts.

(** The backbone 1 - 2 - 4 of the toy site *)
Lemma trace_follows_the_backbone_witness :
  trace_ref_path (env := toy_traversal_env 2 10 10 false toy_index)
                 toy_site toy_index toy_nodes 0 2
  = Ok (mkTrace 3 toy_ref_path [mkNode 3 1; mkNode 5 1; mkNode 6 1] []).
Proof.
  apply (trace_follows_the_backbone (env := toy_traversal_env 2 10 10 false toy_index)
           toy_site toy_index toy_nodes 0 2 []
           [(0, to_visit 1 false); (1, to_visit 2 false); (2, to_visit 4 false)] []
           [mkNode 1 1; mkNode 2 1; mkNode 4 1]
           (0, to_visit 1 false) (2, to_visit 4 false)).
  - reflexivity.
  - constructor.
  - cbn. repeat split; lia.
  - reflexivity.
  - reflexivity.
  - reflexivity.
  - reflexivity.
Defined.

(** The toy site on an index that lists node 3 off the backbone *)
Lemma trace_errors_reach_the_caller_witness :
  find_traversals (env := toy_traversal_env 2 10 10 false stray_index) toy_site
  = Throw (runtime_error ExtraRefNodeFound).
Proof.
  refine (proj1 (proj2 (trace_errors_reach_the_caller
                          (env := toy_traversal_env 2 10 10 false stray_index)
                          toy_site stray_index 0 2 _ _ _))
                (mkTrace 3 toy_ref_path [mkNode 3 1; mkNode 5 1; mkNode 6 1] [])
                (mkNode 3 1) _ _ _ _ _).
  - reflexivity.
  - vm_compute. reflexivity.
  - vm_compute. reflexivity.
  - vm_compute. reflexivity.
  - left.
  - reflexivity.
  - reflexivity.
  - vm_compute. reflexivity.
Defined.

(** The toy site on an index without an entry at its coordinates *)
Lemma no_backbone_node_found_on_short_index :
  find_traversals (env := toy_traversal_env 2 10 10 false short_index) toy_site
  = Throw (runtime_error NoBackboneNodeFound).
Proof. vm_compute. reflexivity. Qed.

(** ** TrivialTraversalFinder *)

Section TrivialFinderFacts.
Context {graph : WalkGraph}.

(** *** Tracing back *)

Lemma traced_back_mono (site_start_id : Z)
  (previous previous' : gmap NodeTraversal NodeTraversal) (t : NodeTraversal)
  (path : list NodeTraversal) :
  previous ⊆ previous' ->
  traced_back site_start_id previous t path ->
  traced_back site_start_id previous' t path.
Proof.
  intros Hsub. induction 1 as [t Hid|t before path Hid Hprev _ IH].
  - now constructor.
  - econstructor; [exact Hid | | exact IH]. eapply lookup_weaken; eassumption.
Qed.

Lemma traced_back_functional (site_start_id : Z)
  (previous : gmap NodeTraversal NodeTraversal) (t : NodeTraversal)
  (path1 path2 : list NodeTraversal) :
  traced_back site_start_id previous t path1 ->
  traced_back site_start_id previous t path2 ->
  path1 = path2.
Proof.
  intros H1. revert path2.
  induction H1 as [t Hid|t before path Hid Hprev _ IH]; intros path2 H2;
    destruct H2 as [t Hid'|t before' path' Hid' Hprev' H2]; try congruence.
  rewrite Hprev in Hprev'. injection Hprev' as <-. now rewrite (IH path' H2).
Qed.

Lemma traced_back_ends (site_start_id : Z)
  (previous : gmap NodeTraversal NodeTraversal) (t : NodeTraversal)
  (path : list NodeTraversal) :
  traced_back site_start_id previous t path ->
  last path = Some t /\
  exists first rest,
    path = first :: rest /\ nt_node first = site_start_id /\
    forall u, In u rest -> is_Some (previous !! u).
Proof.
  induction 1 as [t Hid|t before path Hid Hprev _ IH].
  - split; [reflexivity|]. exists t, []. split; [reflexivity|]. split; [exact Hid | easy].
  - split; [apply last_snoc|].
    destruct IH as (_ & first & rest & -> & Hfirst & Hkeys).
    exists first, (rest ++ [t]). split; [reflexivity|]. split; [exact Hfirst|].
    intros u Hin. apply in_app_or in Hin as [Hin|[<-|[]]]; [now apply Hkeys|].
    now rewrite Hprev.
Qed.

(** Every traversal on a traced path has a traced path of its own, which is
    no longer. *)
Lemma traced_back_member (site_start_id : Z)
  (previous : gmap NodeTraversal NodeTraversal) (t : NodeTraversal)
  (path : list NodeTraversal) :
  traced_back site_start_id previous t path ->
  forall u, In u path ->
            exists pre, traced_back site_start_id previous u pre /\
                        (length pre <= length path)%nat.
Proof.
  induction 1 as [t Hid|t before path Hid Hprev Hbefore IH]; intros u Hin.
  - destruct Hin as [<-|[]]. exists [t]. split; [now constructor | cbn; lia].
  - apply in_app_or in Hin as [Hin|[<-|[]]].
    + destruct (IH u Hin) as (pre & Hpre & Hlen). exists pre. split; [exact Hpre|].
      rewrite length_app. lia.
    + exists (path ++ [t]). split; [|lia]. eapply traced_step; eassumption.
Qed.

Lemma traced_back_NoDup (site_start_id : Z)
  (previous : gmap NodeTraversal NodeTraversal) (t : NodeTraversal)
  (path : list NodeTraversal) :
  traced_back site_start_id previous t path -> NoDup path.
Proof.
  induction 1 as [t Hid|t before path Hid Hprev Hbefore IH].
  - apply NoDup_singleton.
  - apply NoDup_app. split; [exact IH|]. split; [|apply NoDup_singleton].
    intros u Hin Hu. apply list_elem_of_singleton in Hu as ->.
    apply list_elem_of_In in Hin.
    destruct (traced_back_member _ _ _ _ Hbefore t Hin) as (pre & Hpre & Hlen).
    assert (Hfull : traced_back site_start_id previous t (path ++ [t]))
      by (eapply traced_step; eassumption).
    rewrite (traced_back_functional _ _ _ _ _ Hpre Hfull), length_app in Hlen.
    cbn in Hlen. lia.
Qed.

(** A traced path is no longer than [previous] has entries, the start
    apart. *)
Lemma traced_back_length (site_start_id : Z)
  (previous : gmap NodeTraversal NodeTraversal) (t : NodeTraversal)
  (path : list NodeTraversal) :
  traced_back site_start_id previous t path ->
  (length path <= S (size previous))%nat.
Proof.
  intros Htraced.
  pose proof (traced_back_NoDup _ _ _ _ Htraced) as Hnd.
  destruct (traced_back_ends _ _ _ _ Htraced) as (_ & first & rest & -> & _ & Hkeys).
  apply NoDup_cons in Hnd as [_ Hnd]. cbn. apply le_n_S.
  rewrite <- (length_map_to_list previous), <- (length_fmap fst (map_to_list previous)).
  apply submseteq_length, NoDup_submseteq; [exact Hnd|].
  intros u Hu. apply list_elem_of_In, Hkeys in Hu as [before Hbefore].
  apply list_elem_of_fmap. exists (u, before). split; [reflexivity|].
  now apply elem_of_map_to_list.
Qed.

Lemma trace_back_traced (site_start_id : Z)
  (previous : gmap NodeTraversal NodeTraversal) (t : NodeTraversal)
  (path : list NodeTraversal) :
  traced_back site_start_id previous t path ->
  forall fuel acc,
    (length path <= fuel)%nat ->
    trace_back fuel site_start_id previous t acc = Ok (path ++ acc).
Proof.
  induction 1 as [t Hid|t before path Hid Hprev _ IH]; intros fuel acc Hfuel.
  - destruct fuel; [cbn in Hfuel; lia|]. cbn.
    now rewrite (bool_decide_eq_true_2 _ Hid).
  - rewrite length_app in Hfuel. cbn in Hfuel.
    destruct fuel; [lia|]. cbn.
    rewrite (bool_decide_eq_false_2 _ Hid), Hprev, IH by lia.
    now rewrite <- app_assoc.
Qed.

(** *** Walks *)

Lemma walk_snoc (path : list NodeTraversal) (before t : NodeTraversal) :
  walk path -> last path = Some before -> In t (nodes_next before) ->
  walk (path ++ [t]).
Proof.
  induction 1 as [u|u next rest Hstep Hrest IH]; intros Hlast Hin.
  - cbn in Hlast. injection Hlast as ->. cbn. constructor; [exact Hin | constructor].
  - cbn [app]. constructor; [exact Hstep|]. apply IH; [|exact Hin]. exact Hlast.
Qed.

Lemma traced_back_walk (site_start_id : Z)
  (previous : gmap NodeTraversal NodeTraversal) (t : NodeTraversal)
  (path : list NodeTraversal) :
  (forall u before, previous !! u = Some before -> In u (nodes_next before)) ->
  traced_back site_start_id previous t path ->
  walk path.
Proof.
  intros Hsteps. induction 1 as [t Hid|t before path Hid Hprev Hbefore IH].
  - constructor.
  - apply (walk_snoc path before t IH).
    + now destruct (traced_back_ends _ _ _ _ Hbefore) as [Hlast _].
    + now apply Hsteps.
Qed.

Lemma walk_reaches (path : list NodeTraversal) (first t : NodeTraversal) :
  walk path -> head path = Some first -> last path = Some t -> walk_reachable first t.
Proof.
  intros Hwalk. revert first.
  induction Hwalk as [u|u next rest Hstep Hrest IH]; intros first Hhead Hlast.
  - cbn in *. injection Hhead as <-. injection Hlast as <-. apply rtc_refl.
  - cbn in Hhead. injection Hhead as <-.
    eapply rtc_l; [exact Hstep|]. apply IH; [reflexivity | exact Hlast].
Qed.

(** *** One turn of the search *)

Lemma remember_fold (here : NodeTraversal) (nexts : list NodeTraversal) :
  forall previous stack,
    let st := fold_left (remember_next here) nexts (previous, stack) in
    previous ⊆ st.1 /\
    (forall t before,
        st.1 !! t = Some before ->
        previous !! t = Some before \/
        (before = here /\ In t nexts /\ previous !! t = None)) /\
    (forall next, In next nexts -> is_Some (st.1 !! next)) /\
    (forall t, In t st.2 ->
               In t stack \/ (In t nexts /\ st.1 !! t = Some here /\ previous !! t = None)) /\
    (forall t, In t stack -> In t st.2) /\
    (forall t, is_Some (st.1 !! t) -> previous !! t = None -> In t st.2) /\
    (forall known : gset NodeTraversal,
        (forall next, In next nexts -> next ∈ known) ->
        (length st.2 + size (known ∖ dom st.1) <= length stack + size (known ∖ dom previous))%nat).
Proof.
  induction nexts as [|next nexts IH]; intros previous stack; cbn zeta;
    cbn [fold_left fst snd].
  - split; [reflexivity|]. split; [intros; now left|]. split; [intros ? []|].
    split; [intros; now left|]. split; [tauto|].
    split; [intros t [before Hsome] Hnone; congruence|]. intros known _. lia.
  - destruct (previous !! next) as [known_before|] eqn:Hnext.
    + assert (Hrem : remember_next here (previous, stack) next = (previous, stack)).
      { unfold remember_next. rewrite Hnext.
        now rewrite bool_decide_eq_true_2 by (now exists known_before). }
      rewrite Hrem.
      destruct (IH previous stack) as (Hsub & Hnew & Hall & Hstack & Hkeep & Hpushed & Hsize).
      split; [exact Hsub|]. split; [|split; [|split; [|split; [|split]]]].
      * intros t before Hlook. destruct (Hnew t before Hlook) as [?|(? & ? & ?)];
          [now left | right; split; [|split]; [assumption | now right | assumption]].
      * intros n [<-|Hin]; [|now apply Hall].
        exists known_before. eapply lookup_weaken; eassumption.
      * intros t Hin. destruct (Hstack t Hin) as [?|(? & ? & ?)];
          [now left | right; split; [|split]; [now right | assumption | assumption]].
      * exact Hkeep.
      * exact Hpushed.
      * intros known Hknown. apply Hsize. intros n Hn. apply Hknown. now right.
    + assert (Hrem : remember_next here (previous, stack) next
                     = (<[next := here]> previous, next :: stack)).
      { unfold remember_next. rewrite Hnext.
        now rewrite bool_decide_eq_false_2 by (intros [? ?]; discriminate). }
      rewrite Hrem.
      destruct (IH (<[next := here]> previous) (next :: stack))
        as (Hsub & Hnew & Hall & Hstack & Hkeep & Hpushed & Hsize).
      assert (Hfresh : previous ⊆ <[next := here]> previous) by now apply insert_subseteq.
      split; [now transitivity (<[next := here]> previous)|].
      split; [|split; [|split; [|split; [|split]]]].
      * intros t before Hlook. destruct (Hnew t before Hlook) as [Hold|(-> & Hin & Hnone)].
        -- destruct (decide (t = next)) as [->|Hne].
           ++ rewrite lookup_insert_eq in Hold. injection Hold as <-.
              right. split; [reflexivity|]. split; [now left | exact Hnext].
           ++ rewrite lookup_insert_ne in Hold by congruence. now left.
        -- right. split; [reflexivity|]. split; [now right|].
           destruct (decide (t = next)) as [->|Hne]; [exact Hnext|].
           now rewrite lookup_insert_ne in Hnone by congruence.
      * intros n [<-|Hin]; [|now apply Hall].
        exists here. eapply lookup_weaken; [|exact Hsub]. apply lookup_insert_eq.
      * intros t Hin. destruct (Hstack t Hin) as [[<-|Hold]|(Hin' & Hlook & Hnone)].
        -- right. split; [now left|]. split; [|exact Hnext].
           eapply lookup_weaken; [|exact Hsub]. apply lookup_insert_eq.
        -- now left.
        -- right. split; [now right|]. split; [exact Hlook|].
           destruct (decide (t = next)) as [->|Hne]; [exact Hnext|].
           now rewrite lookup_insert_ne in Hnone by congruence.
      * intros t Hin. apply Hkeep. now right.
      * intros t Hsome Hnone. destruct (decide (t = next)) as [->|Hne].
        -- apply Hkeep. now left.
        -- apply Hpushed; [exact Hsome|]. now rewrite lookup_insert_ne by congruence.
      * intros known Hknown.
        etransitivity; [apply Hsize; intros n Hn; apply Hknown; now right|].
        cbn [length].
        assert (Hsplit : known ∖ dom previous
                         = {[next]} ∪ known ∖ dom (<[next := here]> previous)).
        { apply set_eq. intros t.
          rewrite elem_of_union, !elem_of_difference, dom_insert, elem_of_union,
            !elem_of_singleton.
          specialize (Hknown next ltac:(now left)).
          apply not_elem_of_dom in Hnext.
          destruct (decide (t = next)) as [->|Hne]; tauto. }
        rewrite Hsplit.
        rewrite (size_union (C := gset NodeTraversal) {[next]}
                   (known ∖ dom (<[next := here]> previous))),
          (size_singleton (C := gset NodeTraversal)); [lia|].
        intros t. rewrite elem_of_singleton, elem_of_difference, dom_insert,
                    elem_of_union, elem_of_singleton. tauto.
Qed.

(** *** The loop *)

Lemma trivial_loop_sound (site_start_id site_end_id : Z) (start_traversal : NodeTraversal)
  (fuel : nat) :
  forall previous stack,
    (length stack + size ((list_to_set node_traversals : gset NodeTraversal) ∖ dom previous)
     <= fuel)%nat ->
    trivial_moment site_start_id start_traversal previous stack ->
    exists result,
      trivial_loop fuel site_start_id site_end_id previous stack = Ok result /\
      (result = [] \/
       exists path first last_traversal,
         result = [map to_visit_nt path] /\ walk path /\
         head path = Some first /\ nt_node first = site_start_id /\
         last path = Some last_traversal /\ nt_node last_traversal = site_end_id /\
         walk_reachable start_traversal last_traversal).
Proof.
  induction fuel as [|fuel IH]; intros previous stack Hfuel [Hstack Hprev].
  - destruct stack; [|cbn in Hfuel; lia]. exists []. split; [reflexivity | now left].
  - destruct stack as [|here stack]; [exists []; split; [reflexivity | now left]|].
    cbn [trivial_loop].
    destruct (Hstack here ltac:(now left)) as (Hreach & path & Hpath).
    destruct (decide (nt_node here = site_end_id)) as [Hend|Hgo].
    + rewrite (bool_decide_eq_true_2 _ Hend).
      rewrite (trace_back_traced _ _ _ _ Hpath)
        by exact (traced_back_length _ _ _ _ Hpath).
      cbn. rewrite app_nil_r. eexists. split; [reflexivity|]. right.
      destruct (traced_back_ends _ _ _ _ Hpath) as (Hlast & first & rest & Heq & Hfirst & _).
      exists path, first, here. split; [reflexivity|]. split.
      { apply (traced_back_walk site_start_id previous here); [|exact Hpath].
        intros u before Hu. now apply Hprev in Hu. }
      rewrite Heq. cbn [head]. rewrite <- Heq. now repeat split.
    + rewrite (bool_decide_eq_false_2 _ Hgo).
      destruct (remember_fold here (nodes_next here) previous stack)
        as (Hsub & Hnew & Hall & Hpush & Hkeep & Hpushed & Hsize).
      specialize (Hsize (list_to_set node_traversals)).
      destruct (fold_left (remember_next here) (nodes_next here) (previous, stack))
        as [previous' stack'].
      cbn [fst snd] in *. apply IH.
      * cbn [length] in Hfuel.
        assert ((length stack' + size (list_to_set node_traversals ∖ dom previous')
                 <= length stack + size (list_to_set node_traversals ∖ dom previous))%nat);
          [|lia].
        apply Hsize. intros next Hnext. apply elem_of_list_to_set, list_elem_of_In.
        exact (nodes_next_known here next Hnext).
      * split.
        -- intros t Hin. destruct (Hpush t Hin) as [Hold|(Hnext & Hlook & Hnone)].
           ++ destruct (Hstack t ltac:(now right)) as (Hr & p & Hp).
              split; [exact Hr|]. exists p. eapply traced_back_mono; eassumption.
           ++ split; [eapply rtc_r; [exact Hreach | exact Hnext]|].
              destruct (decide (nt_node t = site_start_id)) as [Hid|Hid].
              ** exists [t]. now constructor.
              ** exists (path ++ [t]). eapply traced_step; [exact Hid | exact Hlook|].
                 eapply traced_back_mono; eassumption.
        -- intros t before Hlook.
           destruct (Hnew t before Hlook) as [Hold|(-> & Hnext & Hnone)].
           ++ destruct (Hprev t before Hold) as (Hstep & p & Hp).
              split; [exact Hstep|]. exists p. eapply traced_back_mono; eassumption.
           ++ split; [exact Hnext|]. exists path. eapply traced_back_mono; eassumption.
Qed.

Lemma trivial_loop_complete (site_start_id site_end_id : Z)
  (start_traversal : NodeTraversal) (fuel : nat) :
  forall previous stack,
    trivial_seen site_end_id start_traversal previous stack ->
    trivial_loop fuel site_start_id site_end_id previous stack = Ok [] ->
    forall t, walk_reachable start_traversal t -> nt_node t <> site_end_id.
Proof.
  induction fuel as [|fuel IH]; intros previous stack Hseen Hrun;
    destruct stack as [|here stack]; try discriminate.
  1, 2: (intros t Hwalk;
         assert (Hclosed : forall a b,
                    rtc (fun a b => In b (nodes_next a)) a b ->
                    a = start_traversal \/ is_Some (previous !! a) ->
                    b = start_traversal \/ is_Some (previous !! b));
         [ induction 1 as [a|a mid b Hstep _ IHw]; intros Ha; [exact Ha|];
           apply IHw; right;
           destruct (Hseen a Ha) as [[]|[_ Hnext]]; now apply Hnext
         | destruct (Hseen t (Hclosed _ _ Hwalk (or_introl eq_refl))) as [[]|[Hid _]];
           exact Hid ]).
  cbn [trivial_loop] in Hrun.
  destruct (decide (nt_node here = site_end_id)) as [Hend|Hgo].
  - rewrite (bool_decide_eq_true_2 _ Hend) in Hrun. bind_split Hrun as path Hpath.
    discriminate.
  - rewrite (bool_decide_eq_false_2 _ Hgo) in Hrun.
    destruct (remember_fold here (nodes_next here) previous stack)
      as (Hsub & Hnew & Hall & Hpush & Hkeep & Hpushed & _).
    destruct (fold_left (remember_next here) (nodes_next here) (previous, stack))
      as [previous' stack'].
    cbn [fst snd] in *. apply (IH previous' stack'); [|exact Hrun].
    intros t Ht.
    assert (Hcase : (t = start_traversal \/ is_Some (previous !! t)) \/
                    (is_Some (previous' !! t) /\ previous !! t = None)).
    { destruct Ht as [->|Hsome]; [left; now left|].
      destruct (previous !! t) eqn:Hold; [left; right; now eexists | right; now split]. }
    destruct Hcase as [Hold|[Hsome Hnone]]; [|left; now apply Hpushed].
    destruct (Hseen t Hold) as [[<-|Hin]|[Hid Hnext]].
    + right. split; [exact Hgo | exact Hall].
    + left. now apply Hkeep.
    + right. split; [exact Hid|]. intros next Hin.
      destruct (Hnext next Hin) as [before Hbefore].
      exists before. eapply lookup_weaken; eassumption.
Qed.

Lemma trivial_loop_start (site : Snarl) :
  let start_traversal := mkNodeTraversal (node_id (start site)) (backward (start site)) in
  (length [start_traversal] +
   size ((list_to_set node_traversals : gset NodeTraversal) ∖ dom (∅ : gmap NodeTraversal NodeTraversal))
   <= S (length node_traversals))%nat /\
  trivial_moment (node_id (start site)) start_traversal ∅ [start_traversal] /\
  trivial_seen (node_id (end_ site)) start_traversal ∅ [start_traversal].
Proof.
  cbn zeta. split; [|split].
  - cbn [length]. apply le_n_S.
    transitivity (size (list_to_set node_traversals : gset NodeTraversal)).
    + apply subseteq_size, subseteq_difference_l. reflexivity.
    + induction node_traversals as [|t rest IH]; cbn.
      * now rewrite (size_empty (C := gset NodeTraversal)).
      * rewrite (size_union_alt (C := gset NodeTraversal) {[t]} (list_to_set rest)),
          (size_singleton (C := gset NodeTraversal)).
        pose proof (subseteq_size (list_to_set rest ∖ {[t]})
                      (list_to_set rest : gset NodeTraversal)
                      (subseteq_difference_l _ _ _ (reflexivity _))). lia.
  - split.
    + intros t [<-|[]]. split; [apply rtc_refl|]. eexists. now constructor.
    + intros t before Hlook. now rewrite lookup_empty in Hlook.
  - intros t [->|[before Hlook]]; [left; now left|]. now rewrite lookup_empty in Hlook.
Qed.

(** X9: [TrivialTraversalFinder::find_traversals] fails its assertion on a
    snarl that is not an ULTRABUBBLE and throws when the graph lacks the
    start node.  Otherwise it returns, without an error and within the
    bound of the model: either no traversal, and then no traversal of the
    end node can be reached from the start by steps of [nodes_next]; or one
    traversal, which is a walk of the graph that begins on the start node,
    ends on the end node, and ends where the start leads to. *)
Theorem trivial_finder_finds_a_walk (site : Snarl) :
  (type site <> ULTRABUBBLE -> trivial_find_traversals site = AssertionFailure 1434) /\
  (type site = ULTRABUBBLE -> has_node (node_id (start site)) = false ->
   trivial_find_traversals site = Throw (runtime_error GraphError)) /\
  (type site = ULTRABUBBLE -> has_node (node_id (start site)) = true ->
   let start_traversal := mkNodeTraversal (node_id (start site)) (backward (start site)) in
   (trivial_find_traversals site = Ok [] /\
    forall t, walk_reachable start_traversal t -> nt_node t <> node_id (end_ site)) \/
   exists path first last_traversal,
     trivial_find_traversals site = Ok [map to_visit_nt path] /\
     walk path /\
     head path = Some first /\ nt_node first = node_id (start site) /\
     last path = Some last_traversal /\ nt_node last_traversal = node_id (end_ site) /\
     walk_reachable start_traversal last_traversal).
Proof.
  unfold trivial_find_traversals, assert, to_node_traversal. split; [|split].
  - intros Htype. now rewrite (bool_decide_eq_false_2 _ Htype).
  - intros Htype Hnode. now rewrite (bool_decide_eq_true_2 _ Htype), Hnode.
  - intros Htype Hnode. rewrite (bool_decide_eq_true_2 _ Htype), Hnode.
    cbn [mbind outcome_bind]. cbn zeta.
    destruct (trivial_loop_start site) as (Hfuel & Hmoment & Hseen).
    destruct (trivial_loop_sound (node_id (start site)) (node_id (end_ site)) _ _ _ _
                Hfuel Hmoment) as (result & Hrun & Hresult).
    destruct Hresult as [->|(path & first & last_traversal & -> & Hrest)].
    + left. split; [exact Hrun|].
      eapply trivial_loop_complete; [exact Hseen | exact Hrun].
    + right. exists path, first, last_traversal. split; [exact Hrun | exact Hrest].
Qed.

(** X10: [find_backbone] ends in one of four ways and no other: the
    assertion of line 1434 for a snarl that is not an ULTRABUBBLE, the
    graph's error for a start node it lacks, the assertion of line 1523
    when no traversal of the end node can be reached from the start, and
    otherwise the mappings of a walk from the start node to the end node. *)
Theorem find_backbone_needs_a_walk (site : Snarl) :
  (type site <> ULTRABUBBLE -> find_backbone site = AssertionFailure 1434) /\
  (type site = ULTRABUBBLE -> has_node (node_id (start site)) = false ->
   find_backbone site = Throw (runtime_error GraphError)) /\
  (type site = ULTRABUBBLE -> has_node (node_id (start site)) = true ->
   let start_traversal := mkNodeTraversal (node_id (start site)) (backward (start site)) in
   (find_backbone site = AssertionFailure 1523 /\
    forall t, walk_reachable start_traversal t -> nt_node t <> node_id (end_ site)) \/
   exists path first last_traversal,
     find_backbone site = Ok (map to_mapping (map to_visit_nt path)) /\
     walk path /\
     head path = Some first /\ nt_node first = node_id (start site) /\
     last path = Some last_traversal /\ nt_node last_traversal = node_id (end_ site) /\
     walk_reachable start_traversal last_traversal).
Proof.
  unfold find_backbone. split; [|split].
  - intros Htype.
    assert (Hrun : trivial_find_traversals site = AssertionFailure 1434).
    { unfold trivial_find_traversals, assert. now rewrite (bool_decide_eq_false_2 _ Htype). }
    now rewrite Hrun.
  - intros Htype Hnode.
    assert (Hrun : trivial_find_traversals site = Throw (runtime_error GraphError)).
    { unfold trivial_find_traversals, assert, to_node_traversal.
      now rewrite (bool_decide_eq_true_2 _ Htype), Hnode. }
    now rewrite Hrun.
  - intros Htype Hnode. cbn zeta.
    assert (Hrun : exists result,
               trivial_find_traversals site = Ok result /\
               (result = [] /\
                (forall t, walk_reachable
                             (mkNodeTraversal (node_id (start site)) (backward (start site))) t ->
                           nt_node t <> node_id (end_ site)) \/
                exists path first last_traversal,
                  result = [map to_visit_nt path] /\ walk path /\
                  head path = Some first /\ nt_node first = node_id (start site) /\
                  last path = Some last_traversal /\
                  nt_node last_traversal = node_id (end_ site) /\
                  walk_reachable
                    (mkNodeTraversal (node_id (start site)) (backward (start site)))
                    last_traversal)).
    { unfold trivial_find_traversals, assert, to_node_traversal.
      rewrite (bool_decide_eq_true_2 _ Htype), Hnode. cbn [mbind outcome_bind].
      destruct (trivial_loop_start site) as (Hfuel & Hmoment & Hseen).
      destruct (trivial_loop_sound (node_id (start site)) (node_id (end_ site)) _ _ _ _
                  Hfuel Hmoment) as (result & Hrun & Hresult).
      exists result. split; [exact Hrun|].
      destruct Hresult as [->|(path & first & last_traversal & -> & Hrest)].
      - left. split; [reflexivity|].
        eapply trivial_loop_complete; [exact Hseen | exact Hrun].
      - right. now exists path, first, last_traversal. }
    destruct Hrun as (result & -> & [[-> Hnone]|(path & first & last_traversal & -> & Hrest)]).
    + left. now split.
    + right. exists path, first, last_traversal. now split.
Qed.

End TrivialFinderFacts.

(** A site whose start node the toy graph lacks *)
Lemma trivial_finder_finds_a_walk_witness :
  trivial_find_traversals (graph := toy_walk_graph) stray_site
  = Throw (runtime_error GraphError).
Proof.
  apply (trivial_finder_finds_a_walk (graph := toy_walk_graph) stray_site);
    vm_compute; reflexivity.
Defined.

Lemma find_backbone_needs_a_walk_witness :
  find_backbone (graph := toy_walk_graph) stray_site = Throw (runtime_error GraphError).
Proof.
  apply (find_backbone_needs_a_walk (graph := toy_walk_graph) stray_site);
    vm_compute; reflexivity.
Defined.

(** What the two functions return on the toy site, and on a site whose end
    lies upstream of its start *)
Lemma find_backbone_on_the_toy_graph :
  trivial_find_traversals (graph := toy_walk_graph) toy_site
  = Ok [[to_visit 1 false; to_visit 6 false; to_visit 5 false; to_visit 4 false]] /\
  find_backbone (graph := toy_walk_graph) toy_site
  = Ok [to_visit 1 false; to_visit 6 false; to_visit 5 false; to_visit 4 false] /\
  trivial_find_traversals (graph := toy_walk_graph) upstream_site = Ok [] /\
  find_backbone (graph := toy_walk_graph) upstream_site = AssertionFailure 1523.
Proof. vm_compute. repeat split. Qed.

(** ** ExhaustiveTraversalFinder *)

Section ExhaustiveFinderFacts.
Context {graph : SiteGraph}.

Lemma stack_up_valid_walks_pushes (walk_head : NodeTraversal) :
  forall stack,
    exists pushed,
      stack_up_valid_walks walk_head stack = map Some pushed ++ stack /\
      forall next, In next pushed <->
                   exists edge, In edge (edges_of (nt_node walk_head)) /\
                                walk_over walk_head edge = Some next.
Proof.
  unfold stack_up_valid_walks.
  induction (edges_of (nt_node walk_head)) as [|edge edges IH]; intros stack; cbn.
  - exists []. split; [reflexivity|]. intros next. split; [intros [] | intros (e & [] & _)].
  - destruct (walk_over walk_head edge) as [next|] eqn:Hedge.
    + destruct (IH (Some next :: stack)) as (pushed & -> & Hpushed).
      exists (pushed ++ [next]). split.
      * rewrite map_app, <- app_assoc. reflexivity.
      * intros n. rewrite in_app_iff, Hpushed. cbn. split.
        -- intros [(e & He & Hn)|[<-|[]]].
           ++ exists e. split; [now right | exact Hn].
           ++ exists edge. split; [now left | exact Hedge].
        -- intros (e & [<-|He] & Hn).
           ++ right. left. congruence.
           ++ left. now exists e.
    + destruct (IH stack) as (pushed & -> & Hpushed).
      exists pushed. split; [reflexivity|]. intros n. rewrite Hpushed. split.
      * intros (e & He & Hn). exists e. split; [now right | exact Hn].
      * intros (e & [<-|He] & Hn); [congruence|]. now exists e.
Qed.

Lemma stack_up_child_exits_pushes (into_snarl : Snarl) (node_traversal : NodeTraversal)
  (stack stack' : list (option NodeTraversal)) :
  stack_up_child_exits into_snarl node_traversal stack = Ok stack' ->
  exists pushed, stack' = map Some pushed ++ stack.
Proof.
  unfold stack_up_child_exits. intros Hrun.
  destruct (_ && _).
  - bind_split Hrun as stack1 Hfirst.
    assert (H1 : exists pushed, stack1 = map Some pushed ++ stack).
    { destruct (start_end_reachable into_snarl).
      - bind_split Hfirst as across Hacross. injection Hfirst as <-. now exists [across].
      - injection Hfirst as <-. now exists []. }
    destruct H1 as (pushed & ->).
    destruct (start_self_reachable into_snarl).
    + bind_split Hrun as back Hback. injection Hrun as <-.
      now exists (nt_reverse back :: pushed).
    + injection Hrun as <-. now exists pushed.
  - bind_split Hrun as stack1 Hfirst.
    assert (H1 : exists pushed, stack1 = map Some pushed ++ stack).
    { destruct (start_end_reachable into_snarl).
      - bind_split Hfirst as across Hacross. injection Hfirst as <-.
        now exists [nt_reverse across].
      - injection Hfirst as <-. now exists []. }
    destruct H1 as (pushed & ->).
    destruct (end_self_reachable into_snarl).
    + bind_split Hrun as back Hback. injection Hrun as <-. now exists (back :: pushed).
    + injection Hrun as <-. now exists pushed.
Qed.

Lemma stack_up_child_exits_defined (into_snarl : Snarl) (node_traversal : NodeTraversal)
  (stack : list (option NodeTraversal)) :
  stack_up_child_exits into_snarl node_traversal stack <> Undefined.
Proof.
  unfold stack_up_child_exits, site_node_traversal, site_rev_node_traversal.
  destruct (_ && _); destruct (start_end_reachable into_snarl);
    destruct (start_self_reachable into_snarl); destruct (end_self_reachable into_snarl);
    destruct (site_has_node (node_id (start into_snarl)));
    destruct (site_has_node (node_id (end_ into_snarl))); cbn; discriminate.
Qed.

Lemma count_pushed (pushed : list NodeTraversal) (stack : list (option NodeTraversal)) :
  count_occ (option_eq_dec (A := NodeTraversal)) (map Some pushed ++ stack) None
  = count_occ (option_eq_dec (A := NodeTraversal)) stack None.
Proof.
  induction pushed as [|t pushed IH]; [reflexivity|]. cbn [map app].
  rewrite count_occ_cons_neq by discriminate. exact IH.
Qed.

Lemma last_pushed (pushed : list NodeTraversal) (stack : list (option NodeTraversal)) :
  last (map Some pushed ++ None :: stack) = last (None :: stack).
Proof.
  induction pushed as [|t pushed IH]; [reflexivity|]. cbn [map app].
  rewrite <- IH. destruct (map Some pushed ++ None :: stack) eqn:Heq; [|reflexivity].
  now destruct pushed.
Qed.

Lemma count_last_sentinel (stack : list (option NodeTraversal)) :
  last stack = Some None ->
  (1 <= count_occ (option_eq_dec (A := NodeTraversal)) stack None)%nat.
Proof.
  intros Hlast. apply count_occ_In, list_elem_of_In.
  destruct stack as [|top stack] using rev_ind; [discriminate|].
  rewrite last_snoc in Hlast. injection Hlast as ->.
  apply elem_of_app. right. now left.
Qed.

Lemma stacked_pop_traversal (traversal_start node_traversal : NodeTraversal)
  (path : list Visit) (stack : list (option NodeTraversal)) :
  (Some node_traversal :: stack = [Some traversal_start] /\ path = []) \/
  stacked traversal_start path (Some node_traversal :: stack) ->
  stacked traversal_start path stack /\ (path = [] -> node_traversal = traversal_start).
Proof.
  intros [[Heq ->]|(Hcount & Hbottom & Hhead)].
  - injection Heq as -> ->. split; [|reflexivity].
    split; [reflexivity|]. split; now left.
  - rewrite count_occ_cons_neq in Hcount by discriminate.
    destruct Hbottom as [|Hlast]; [discriminate|].
    destruct stack as [|top stack]; [discriminate|].
    change (last (Some node_traversal :: top :: stack)) with (last (top :: stack)) in Hlast.
    split; [split; [exact Hcount|]; split; [now right | exact Hhead]|].
    intros ->. apply count_last_sentinel in Hlast. cbn [length] in Hcount. lia.
Qed.

Lemma stacked_pop_sentinel (traversal_start : NodeTraversal)
  (path : list Visit) (stack : list (option NodeTraversal)) :
  stacked traversal_start path (None :: stack) ->
  path <> [] /\ stacked traversal_start (removelast path) stack.
Proof.
  intros (Hcount & Hbottom & Hhead).
  rewrite count_occ_cons_eq in Hcount by reflexivity.
  destruct path as [|first rest]; [discriminate|]. split; [discriminate|].
  split; [|split].
  - rewrite (app_removelast_last first (l := first :: rest)) in Hcount by discriminate.
    rewrite length_app in Hcount. cbn in Hcount. cbn [removelast]. lia.
  - destruct stack as [|top stack]; [now left|]. right.
    destruct Hbottom as [|Hlast]; [discriminate | exact Hlast].
  - destruct rest as [|second rest]; [now left|]. right.
    destruct Hhead as [|Hhead]; [discriminate|]. exact Hhead.
Qed.

Lemma stacked_push (traversal_start : NodeTraversal)
  (path : list Visit) (stack : list (option NodeTraversal))
  (pushed : list NodeTraversal) (visit : Visit) :
  stacked traversal_start path stack ->
  (path = [] -> visit = to_visit_nt traversal_start) ->
  stacked traversal_start (path ++ [visit]) (map Some pushed ++ None :: stack).
Proof.
  intros (Hcount & Hbottom & Hhead) Hfirst. split; [|split].
  - rewrite count_pushed, count_occ_cons_eq, length_app by reflexivity. cbn. lia.
  - right. rewrite last_pushed.
    destruct stack as [|top stack]; [reflexivity|].
    destruct Hbottom as [|Hlast]; [discriminate | exact Hlast].
  - right. destruct path as [|first rest]; [cbn; now rewrite Hfirst|].
    destruct Hhead as [|Hhead]; [discriminate | exact Hhead].
Qed.

(** The loop never pops a visit off an empty path, and all it yields runs
    from the start to a traversal of the yield set. *)
Lemma add_traversals_loop_yields (traversal_start : NodeTraversal)
  (stop_at yield_at : gset NodeTraversal) (fuel : nat) :
  forall traversals path stack,
    (stack = [Some traversal_start] /\ path = []) \/ stacked traversal_start path stack ->
    Forall (yielded traversal_start stop_at yield_at) traversals ->
    match add_traversals_loop fuel traversal_start stop_at yield_at traversals path stack
    with
    | Ok result =>
        Forall (yielded traversal_start stop_at yield_at) result /\
        exists more, result = traversals ++ more
    | Undefined => False
    | _ => True
    end.
Proof.
  induction fuel as [|fuel IH]; intros traversals path stack Hstate Hyielded;
    destruct stack as [|top stack]; cbn [add_traversals_loop];
    try (split; [exact Hyielded | exists []; now rewrite app_nil_r]); [exact I|].
  destruct top as [node_traversal|].
  - apply stacked_pop_traversal in Hstate as [Hstacked Hstart].
    destruct (bool_decide (node_traversal ∈ stop_at)) eqn:Hstop.
    + apply bool_decide_eq_true_1 in Hstop.
      destruct (bool_decide (node_traversal ∈ yield_at)) eqn:Hyield.
      * apply bool_decide_eq_true_1 in Hyield.
        assert (Hnew : Forall (yielded traversal_start stop_at yield_at)
                              (traversals ++ [path ++ [to_visit_nt node_traversal]])).
        { apply Forall_app. split; [exact Hyielded|]. constructor; [|constructor]. split.
          - destruct path as [|first rest]; [cbn; now rewrite Hstart|].
            destruct Hstacked as (_ & _ & [|Hhead]); [discriminate | exact Hhead].
          - exists node_traversal. split; [apply last_snoc | now split]. }
        specialize (IH (traversals ++ [path ++ [to_visit_nt node_traversal]]) path stack
                       (or_intror Hstacked) Hnew).
        destruct (add_traversals_loop fuel _ _ _ _ path stack) as [result| | | |];
          try exact IH.
        destruct IH as [Hall (more & ->)].
        split; [exact Hall|]. eexists. now rewrite <- app_assoc.
      * apply (IH traversals path stack (or_intror Hstacked) Hyielded).
    + set (visit := to_visit (nt_node node_traversal) (nt_backward node_traversal)).
      assert (Hvisit : path = [] -> visit = to_visit_nt traversal_start).
      { intros Hpath. now rewrite <- (Hstart Hpath). }
      pose proof (stacked_push traversal_start path stack [] visit
                    Hstacked Hvisit) as Hone.
      cbn [map app] in Hone.
      assert (Hwalks : stacked traversal_start (path ++ [visit])
                               (stack_up_valid_walks node_traversal (None :: stack))).
      { destruct (stack_up_valid_walks_pushes node_traversal (None :: stack))
          as (pushed & -> & _).
        now apply stacked_push. }
      destruct (enters_snarl (nt_node node_traversal) (nt_backward node_traversal))
        as [into_snarl|].
      * destruct (negb (bool_decide (node_traversal = traversal_start))).
        -- pose proof (stack_up_child_exits_defined into_snarl node_traversal
                         (None :: None :: stack)) as Hdefined.
           destruct (stack_up_child_exits into_snarl node_traversal (None :: None :: stack))
             as [stack'| | | |] eqn:Hexits; cbn [mbind outcome_bind]; try exact I;
             [|contradiction].
           apply stack_up_child_exits_pushes in Hexits as (pushed & ->).
           apply IH; [right|exact Hyielded].
           apply stacked_push; [exact Hone|]. now destruct path.
        -- cbn [mbind outcome_bind]. apply IH; [now right | exact Hyielded].
      * cbn [mbind outcome_bind]. apply IH; [now right | exact Hyielded].
  - destruct Hstate as [[Heq _]|Hstacked]; [discriminate|].
    apply stacked_pop_sentinel in Hstacked as [Hpath Hstacked].
    destruct path as [|first rest]; [contradiction|].
    apply IH; [now right | exact Hyielded].
Qed.

Lemma add_traversals_yields (fuel : nat) (traversals : list (list Visit))
  (traversal_start : NodeTraversal) (stop_at yield_at : gset NodeTraversal) :
  match add_traversals fuel traversals traversal_start stop_at yield_at with
  | Ok result =>
      exists more, result = traversals ++ more /\
                   Forall (yielded traversal_start stop_at yield_at) more
  | Undefined => False
  | _ => True
  end.
Proof.
  unfold add_traversals.
  pose proof (add_traversals_loop_yields traversal_start stop_at yield_at fuel []
                [] [Some traversal_start] (or_introl (conj eq_refl eq_refl))
                (@List.Forall_nil _ _)) as Hfresh.
  assert (Hsame : forall fuel' kept path stack,
             add_traversals_loop fuel' traversal_start stop_at yield_at kept path stack
             = match add_traversals_loop fuel' traversal_start stop_at yield_at [] path stack
               with
               | Ok more => Ok (kept ++ more)
               | AssertionFailure line => AssertionFailure line
               | Throw e => Throw e
               | Undefined => Undefined
               | Diverges => Diverges
               end).
  { induction fuel' as [|fuel' IH]; intros kept path stack;
      destruct stack as [|top stack]; cbn [add_traversals_loop];
      try (now rewrite app_nil_r); try reflexivity.
    destruct top as [node_traversal|].
    - destruct (bool_decide (node_traversal ∈ stop_at)).
      + destruct (bool_decide (node_traversal ∈ yield_at)).
        * rewrite (IH (kept ++ _)), (IH ([] ++ _)).
          destruct (add_traversals_loop fuel' _ _ _ [] path stack); try reflexivity.
          now rewrite <- app_assoc.
        * apply IH.
      + destruct (enters_snarl _ _) as [into_snarl|].
        * destruct (negb _); [|cbn [mbind outcome_bind]; apply IH].
          destruct (stack_up_child_exits _ _ _); cbn [mbind outcome_bind];
            try reflexivity. apply IH.
        * cbn [mbind outcome_bind]. apply IH.
    - destruct path; [reflexivity | apply IH]. }
  rewrite Hsame.
  destruct (add_traversals_loop fuel traversal_start stop_at yield_at [] []
              [Some traversal_start]) as [more| | | |]; try exact Hfresh.
  exists more. split; [reflexivity | apply Hfresh].
Qed.

(** X11: [ExhaustiveTraversalFinder::find_traversals] never pops a visit
    off an empty path, and every traversal it returns spans the site: a
    traversal of the first search begins with the visit of the site's start
    and ends with the visit of its end, or, where reversing traversals are
    included, with the visit of the start turned around; a traversal of the
    second search, made only where reversing traversals are included and
    the end is self-reachable, begins with the visit of the end turned
    around and ends with the visit of the end. *)
Theorem exhaustive_traversals_span_the_site (fuel : nat) (site : Snarl) :
  let start_visit := to_visit (node_id (start site)) (backward (start site)) in
  let end_visit := to_visit (node_id (end_ site)) (backward (end_ site)) in
  exhaustive_find_traversals fuel site <> Undefined /\
  forall traversals,
    exhaustive_find_traversals fuel site = Ok traversals ->
    forall traversal,
      traversal ∈ traversals ->
      (head traversal = Some start_visit /\
       (last traversal = Some end_visit \/
        include_reversing_traversals = true /\
        last traversal = Some (reverse start_visit))) \/
      (include_reversing_traversals = true /\ end_self_reachable site = true /\
       head traversal = Some (reverse end_visit) /\
       last traversal = Some end_visit).
Proof.
  cbn zeta. unfold exhaustive_find_traversals, site_node_traversal.
  destruct (site_has_node (node_id (end_ site))); [|split; [discriminate|discriminate]].
  destruct (site_has_node (node_id (start site))); [|split; [discriminate|discriminate]].
  cbn [mbind outcome_bind nt_node nt_backward].
  set (site_end := mkNodeTraversal (node_id (end_ site)) (backward (end_ site))).
  set (site_start := mkNodeTraversal (node_id (start site)) (backward (start site))).
  set (site_rev_start := mkNodeTraversal (node_id (start site))
                                         (negb (backward (start site)))).
  set (yield_at := (if include_reversing_traversals
                    then {[site_rev_start]} ∪ ({[site_end]} ∪ ∅)
                    else {[site_end]} ∪ ∅) : gset NodeTraversal).
  set (stop_at := ({[site_rev_start]} ∪ ({[site_end]} ∪ ∅) : gset NodeTraversal)).
  pose proof (add_traversals_yields fuel [] site_start stop_at yield_at) as Hfirst.
  destruct (add_traversals fuel [] site_start stop_at yield_at)
    as [to_return| | | |]; cbn [mbind outcome_bind];
    try (split; [discriminate | discriminate]); [|contradiction].
  destruct Hfirst as (more & -> & Hmore). cbn [app].
  assert (Hspan : forall traversal,
             traversal ∈ more ->
             head traversal = Some (to_visit (node_id (start site)) (backward (start site)))
             /\ (last traversal
                 = Some (to_visit (node_id (end_ site)) (backward (end_ site))) \/
                 include_reversing_traversals = true /\
                 last traversal
                 = Some (reverse (to_visit (node_id (start site))
                                           (backward (start site)))))).
  { intros traversal Hin. rewrite Forall_forall in Hmore.
    destruct (Hmore traversal Hin) as (Hhead & last_traversal & Hlast & _ & Hyield).
    split; [exact Hhead|]. subst yield_at. rewrite Hlast.
    destruct include_reversing_traversals.
    - apply elem_of_union in Hyield as [Hy|Hy].
      + apply elem_of_singleton in Hy as ->. right. now split.
      + apply elem_of_union in Hy as [Hy|Hy]; [|now apply elem_of_empty in Hy].
        apply elem_of_singleton in Hy as ->. now left.
    - apply elem_of_union in Hyield as [Hy|Hy]; [|now apply elem_of_empty in Hy].
      apply elem_of_singleton in Hy as ->. now left. }
  destruct (end_self_reachable site && include_reversing_traversals) eqn:Hsecond.
  - apply andb_prop in Hsecond as [Hself Hinclude].
    pose proof (add_traversals_yields fuel more
                  (mkNodeTraversal (node_id (end_ site)) (negb (backward (end_ site))))
                  stop_at (yield_at ∖ {[site_rev_start]})) as Hnext.
    destruct (add_traversals fuel more _ stop_at (yield_at ∖ {[site_rev_start]}))
      as [result| | | |]; try (split; [discriminate | discriminate]); [|contradiction].
    destruct Hnext as (again & -> & Hagain). split; [discriminate|].
    intros traversals Heq traversal Hin. injection Heq as <-.
    apply elem_of_app in Hin as [Hin|Hin]; [left; now apply Hspan|].
    right. rewrite Forall_forall in Hagain.
    destruct (Hagain traversal Hin) as (Hhead & last_traversal & Hlast & _ & Hyield).
    split; [exact Hinclude|]. split; [exact Hself|]. split; [exact Hhead|].
    rewrite Hlast. apply elem_of_difference in Hyield as [Hyield Hnot].
    subst yield_at. rewrite Hinclude in Hyield.
    apply elem_of_union in Hyield as [Hy|Hy]; [contradiction|].
    apply elem_of_union in Hy as [Hy|Hy]; [|now apply elem_of_empty in Hy].
    now apply elem_of_singleton in Hy as ->.
  - split; [discriminate|]. intros traversals Heq traversal Hin. injection Heq as <-.
    left. now apply Hspan.
Qed.

(** *** Walks can be turned around *)

Lemma walk_over_turned (walk_head next : NodeTraversal) (edge : Edge) :
  walk_over walk_head edge = Some next ->
  walk_over (nt_reverse next) edge = Some (nt_reverse walk_head) /\
  (nt_node next = from edge \/ nt_node next = to edge).
Proof.
  destruct walk_head as [n b], edge as [f fs t te]. unfold walk_over, nt_reverse.
  cbn [nt_node nt_backward from from_start to to_end].
  destruct b, fs, te; cbn [negb andb];
    rewrite ?andb_true_r, ?andb_false_r;
    destruct (decide (f = n)) as [->|Hf];
    rewrite ?(bool_decide_eq_true_2 (n = n) eq_refl), ?(bool_decide_eq_false_2 _ Hf);
    try (destruct (decide (t = n)) as [->|Ht];
         rewrite ?(bool_decide_eq_true_2 (n = n) eq_refl), ?(bool_decide_eq_false_2 _ Ht));
    cbn [negb andb]; intros Heq; try discriminate; injection Heq as <-;
    cbn [nt_node nt_backward negb];
    rewrite ?(bool_decide_eq_true_2 (n = n) eq_refl),
      ?(bool_decide_eq_true_2 (t = t) eq_refl), ?(bool_decide_eq_true_2 (f = f) eq_refl);
    cbn [negb andb];
    try (destruct (decide (t = f)) as [->|Htf];
         rewrite ?(bool_decide_eq_true_2 (f = f) eq_refl), ?(bool_decide_eq_false_2 _ Htf));
    try (destruct (decide (n = t)) as [->|Hnt];
         rewrite ?(bool_decide_eq_true_2 (t = t) eq_refl), ?(bool_decide_eq_false_2 _ Hnt));
    try (destruct (decide (t = n)) as [->|Htn];
         rewrite ?(bool_decide_eq_true_2 (n = n) eq_refl), ?(bool_decide_eq_false_2 _ Htn));
    cbn [negb andb]; (split; [reflexivity || congruence | tauto]).
Qed.

(** X12: the steps [stack_up_valid_walks] takes can be turned around.  It
    leaves what was on the stack below what it pushes; and when the graph
    lists every edge at both of its nodes, a traversal [next] it pushes for
    [walk_head] has [walk_head] turned around among the traversals pushed
    for [next] turned around. *)
Theorem valid_walks_turn_around (walk_head next : NodeTraversal)
  (stack : list (option NodeTraversal)) :
  (forall node edge, In edge (edges_of node) ->
                     In edge (edges_of (from edge)) /\ In edge (edges_of (to edge))) ->
  stack_up_valid_walks walk_head stack = stack_up_valid_walks walk_head [] ++ stack /\
  (In (Some next) (stack_up_valid_walks walk_head []) ->
   In (Some (nt_reverse walk_head)) (stack_up_valid_walks (nt_reverse next) [])).
Proof.
  intros Hboth. split.
  - unfold stack_up_valid_walks.
    change stack with ([] ++ stack) at 1. generalize (@nil (option NodeTraversal)).
    induction (edges_of (nt_node walk_head)) as [|edge edges IH]; intros above;
      [reflexivity|].
    cbn [fold_left]. destruct (walk_over walk_head edge) as [pushed|]; [|apply IH].
    apply (IH (Some pushed :: above)).
  - intros Hin.
    destruct (stack_up_valid_walks_pushes walk_head []) as (pushed & Heq & Hpushed).
    rewrite Heq, app_nil_r in Hin. apply in_map_iff in Hin as (n & Hn & Hin).
    injection Hn as ->. apply Hpushed in Hin as (edge & Hedge & Hover).
    apply walk_over_turned in Hover as [Hback Hnode].
    destruct (stack_up_valid_walks_pushes (nt_reverse next) []) as (pushed' & -> & Hpushed').
    rewrite app_nil_r. apply in_map. apply Hpushed'. exists edge. split; [|exact Hback].
    destruct (Hboth _ _ Hedge) as [Hfrom Hto]. cbn [nt_reverse nt_node].
    destruct Hnode as [->| ->]; assumption.
Qed.

End ExhaustiveFinderFacts.

(** The step from node 1 to node 2 of the toy graph, turned around *)
Lemma valid_walks_turn_around_witness :
  In (Some (mkNodeTraversal 2 false))
     (stack_up_valid_walks (graph := toy_site_graph) (mkNodeTraversal 1 false) []) /\
  In (Some (nt_reverse (mkNodeTraversal 1 false)))
     (stack_up_valid_walks (graph := toy_site_graph)
                           (nt_reverse (mkNodeTraversal 2 false)) []).
Proof.
  assert (Hstep : In (Some (mkNodeTraversal 2 false))
                     (stack_up_valid_walks (graph := toy_site_graph)
                                           (mkNodeTraversal 1 false) []))
    by (vm_compute; tauto).
  split; [exact Hstep|].
  refine (proj2 (valid_walks_turn_around (graph := toy_site_graph)
                   (mkNodeTraversal 1 false) (mkNodeTraversal 2 false) [] _) Hstep).
  intros node edge Hin. unfold edges_of, toy_site_graph in Hin.
  apply list_elem_of_In, list_elem_of_filter in Hin as [_ Hin].
  revert edge Hin. apply Forall_forall. vm_compute.
  repeat (constructor; [tauto|]). constructor.
Defined.

(** The three traversals of the toy site *)
Lemma exhaustive_traversals_of_the_toy_site :
  exhaustive_find_traversals (graph := toy_site_graph) 20 toy_site
  = Ok [[to_visit 1 false; to_visit 6 false; to_visit 5 false; to_visit 4 false];
        [to_visit 1 false; to_visit 3 false; to_visit 4 false];
        [to_visit 1 false; to_visit 2 false; to_visit 4 false]].
Proof. vm_compute. reflexivity. Qed.

(** ** Splits and multinomial coefficients *)

Section SplitFacts.

Lemma items_insert (v : list Z) (k : nat) (old new : Z) :
  v !! k = Some old -> items (<[k := new]> v) = items v - old + new.
Proof.
  unfold items. revert k. induction v as [|entry v IH]; intros k Hk; [discriminate|].
  destruct k as [|k].
  - injection Hk as ->. cbn. lia.
  - change (entry + foldr Z.add 0 (<[k := new]> v) = entry + foldr Z.add 0 v - old + new).
    rewrite (IH k Hk). lia.
Qed.

Lemma deref_Ok (v : list Z) (it : nat) (entry : Z) :
  v !! it = Some entry -> deref v it = Ok entry.
Proof. intros H. unfold deref. now rewrite H. Qed.

Lemma advance_split_idle (span start : nat) (v : list Z) :
  (start + span)%nat = length v ->
  (forall j, (start <= j)%nat -> (S j < length v)%nat -> v !! j = Some 0) ->
  advance_split span start v = Ok (false, v).
Proof.
  revert start. induction span as [|span IH]; intros start Hend Hzero; [reflexivity|].
  cbn [advance_split].
  rewrite (IH (S start)) by (try lia; intros j Hj; apply Hzero; lia).
  cbn [mbind outcome_bind]. cbv beta iota.
  destruct (lookup_lt_is_Some_2 v start ltac:(lia)) as [here Hhere].
  rewrite (deref_Ok _ _ _ Hhere). cbn [mbind outcome_bind].
  destruct span as [|span].
  - rewrite (bool_decide_eq_true_2 (S start = (start + 1)%nat)) by lia.
    now rewrite andb_false_r.
  - rewrite (Hzero start) in Hhere by lia. injection Hhere as <-.
    now rewrite (bool_decide_eq_true_2 (0 = 0)) by reflexivity.
Qed.

Lemma advance_split_moves (span start : nat) (v : list Z) (i : nat) (x last_entry : Z) :
  (start + span)%nat = length v ->
  (start <= i)%nat -> (S i < length v)%nat ->
  v !! i = Some x -> x <> 0 ->
  (forall j, (i < j)%nat -> (S j < length v)%nat -> v !! j = Some 0) ->
  v !! (length v - 1)%nat = Some last_entry -> is_int last_entry ->
  advance_split span start v =
  if bool_decide (i = 0%nat \/ (i + 2)%nat = length v) then Undefined
  else if bool_decide ((i + 3)%nat = length v) then Ok (true, v)
  else Ok (true, <[(length v - 1)%nat := 0]> (<[(i + 2)%nat := last_entry]> v)).
Proof.
  intros Hend Hstart Hi Hx Hnz Hzero Hlast Hint. revert start Hend Hstart.
  induction span as [|span IH]; intros start Hend Hstart; [lia|].
  cbn [advance_split].
  destruct (decide (start = i)) as [->|Hne].
  - rewrite (advance_split_idle span (S i) v) by (try lia; intros j Hj; apply Hzero; lia).
    cbn [mbind outcome_bind]. cbv beta iota.
    rewrite (deref_Ok _ _ _ Hx). cbn [mbind outcome_bind].
    rewrite (bool_decide_eq_false_2 (x = 0)) by exact Hnz.
    rewrite (bool_decide_eq_false_2 (S i = (i + S span)%nat)) by lia.
    cbn [negb andb].
    destruct i as [|i]; cbn [retreat mbind outcome_bind].
    { now rewrite bool_decide_eq_true_2 by (left; reflexivity). }
    destruct (lookup_lt_is_Some_2 v (S (S i)) ltac:(lia)) as [after Hafter].
    rewrite (deref_Ok _ _ _ Hafter). cbn [mbind outcome_bind].
    replace (S i + S span)%nat with (S (S i + span)) by lia.
    cbn [retreat mbind outcome_bind].
    replace (S i + span)%nat with (length v - 1)%nat by lia.
    destruct (decide ((S i + 3)%nat = length v)) as [Hthree|Hthree].
    + rewrite (bool_decide_eq_true_2 ((length v - 1)%nat = S (S (S i)))) by lia.
      cbn [negb].
      rewrite (bool_decide_eq_false_2 (S i = 0%nat \/ _)) by lia.
      now rewrite (bool_decide_eq_true_2 _ Hthree).
    + rewrite (bool_decide_eq_false_2 ((length v - 1)%nat = S (S (S i)))) by lia.
      cbn [negb].
      rewrite (deref_Ok _ _ _ Hlast). cbn [mbind outcome_bind].
      destruct (decide ((S i + 2)%nat = length v)) as [Htwo|Htwo].
      * rewrite (bool_decide_eq_true_2 (S i = 0%nat \/ _)) by (right; exact Htwo).
        unfold deref. now rewrite (lookup_ge_None_2 v (S (S (S i)))) by lia.
      * rewrite (bool_decide_eq_false_2 (S i = 0%nat \/ _)) by lia.
        rewrite (bool_decide_eq_false_2 _ Hthree).
        rewrite (deref_Ok v (S (S (S i))) 0) by (apply Hzero; lia).
        cbn [mbind outcome_bind]. unfold int_add.
        rewrite (bool_decide_eq_true_2 (is_int (0 + last_entry))) by exact Hint.
        cbn [mbind outcome_bind].
        now replace (S i + 2)%nat with (S (S (S i))) by lia.
  - rewrite (IH (S start)) by lia.
    destruct (bool_decide (i = 0%nat \/ _)); [reflexivity|].
    now destruct (bool_decide ((i + 3)%nat = length v)).
Qed.

Lemma advance_split_keeps (span start : nat) (v : list Z) (advanced : bool) (v' : list Z) :
  advance_split span start v = Ok (advanced, v') ->
  items v' = items v /\ length v' = length v /\
  (Forall (fun entry => 0 <= entry) v -> Forall (fun entry => 0 <= entry) v').
Proof.
  revert start v advanced v'.
  induction span as [|span IH]; intros start v advanced v' Hrun.
  - injection Hrun as <- <-. tauto.
  - cbn [advance_split] in Hrun.
    destruct (advance_split span (S start) v) as [[after v1]| | | |] eqn:Hrec;
      try discriminate.
    apply IH in Hrec as (Hitems & Hlength & Hpos).
    cbn [mbind outcome_bind] in Hrun. cbv beta iota in Hrun.
    destruct after; [injection Hrun as <- <-; tauto|].
    unfold deref in Hrun.
    destruct (v1 !! start) as [here|]; [|discriminate].
    cbn [mbind outcome_bind] in Hrun.
    destruct (negb (bool_decide (here = 0)) && _); [|injection Hrun as <- <-; tauto].
    cbn [mbind outcome_bind] in Hrun.
    destruct (retreat start); try discriminate. cbn [mbind outcome_bind] in Hrun.
    destruct (v1 !! S start); [|discriminate].
    cbn [mbind outcome_bind] in Hrun.
    destruct (retreat (start + S span)) as [next_to_last| | | |]; try discriminate.
    cbn [mbind outcome_bind] in Hrun.
    destruct (bool_decide (next_to_last = S (S start))) eqn:Hsame;
      cbn [negb] in Hrun; [injection Hrun as <- <-; tauto|].
    apply bool_decide_eq_false_1 in Hsame.
    destruct (v1 !! next_to_last) as [last_entry|] eqn:Hlast; [|discriminate].
    cbn [mbind outcome_bind] in Hrun.
    destruct (v1 !! S (S start)) as [next_entry|] eqn:Hnext; [|discriminate].
    cbn [mbind outcome_bind] in Hrun. unfold int_add in Hrun.
    destruct (bool_decide (is_int (next_entry + last_entry))); [|discriminate].
    cbn [mbind outcome_bind] in Hrun. injection Hrun as <- <-.
    split; [|split].
    + rewrite (items_insert _ _ last_entry)
        by (rewrite list_lookup_insert_ne by congruence; exact Hlast).
      rewrite (items_insert _ _ next_entry) by exact Hnext. lia.
    + now rewrite !length_insert.
    + intros Hv. specialize (Hpos Hv).
      assert (0 <= next_entry) by (eapply (Forall_lookup_1 _ v1); eassumption).
      assert (0 <= last_entry) by (eapply (Forall_lookup_1 _ v1); eassumption).
      apply Forall_insert; [apply Forall_insert; [exact Hpos | lia] | lia].
Qed.

(** X13: [advance_split] never takes an item out of a category.  Called
    on a whole vector, it leaves the split as it is and returns false when
    every entry but the last is zero.  Otherwise let [i] be the place of
    the last non-zero entry before the last entry: the behaviour is
    undefined when [i] is the first place (the iterator is moved before
    the first entry) or the place before the last (the entry behind the
    vector is written); the split is returned as it is, with true, when
    [i] is two before the last; and in all other cases the last entry is
    moved to place [i + 2] and true is returned.  Whatever it returns has
    the items and the length of what it was given. *)
Theorem advance_split_moves_only_the_last_entry (span start : nat) (v : list Z) :
  (start + span)%nat = length v ->
  ((forall j, (start <= j)%nat -> (S j < length v)%nat -> v !! j = Some 0) ->
   advance_split span start v = Ok (false, v)) /\
  (forall i x last_entry,
     (start <= i)%nat -> (S i < length v)%nat ->
     v !! i = Some x -> x <> 0 ->
     (forall j, (i < j)%nat -> (S j < length v)%nat -> v !! j = Some 0) ->
     last v = Some last_entry -> is_int last_entry ->
     advance_split span start v =
     if bool_decide (i = 0%nat \/ (i + 2)%nat = length v) then Undefined
     else if bool_decide ((i + 3)%nat = length v) then Ok (true, v)
     else Ok (true, <[(length v - 1)%nat := 0]> (<[(i + 2)%nat := last_entry]> v))) /\
  (forall advanced v',
     advance_split span start v = Ok (advanced, v') ->
     items v' = items v /\ length v' = length v).
Proof.
  intros Hend. split; [|split].
  - now apply advance_split_idle.
  - intros i x last_entry Hstart Hi Hx Hnz Hzero Hlast Hint.
    apply (advance_split_moves span start v i x last_entry); try assumption.
    rewrite last_lookup in Hlast.
    now replace (length v - 1)%nat with (Nat.pred (length v)) by lia.
  - intros advanced v' Hrun.
    destruct (advance_split_keeps _ _ _ _ _ Hrun) as (? & ? & _). tauto.
Qed.

End SplitFacts.

(** A split of seven items over five categories: the last entry moves, the
    three items of the second category stay.  Two splits on which the
    behaviour is undefined. *)
Lemma advance_split_moves_only_the_last_entry_witness :
  advance_split 5 0 [0; 3; 0; 0; 4] = Ok (true, [0; 3; 0; 4; 0]) /\
  advance_split 3 0 [3; 0; 0] = Undefined /\
  advance_split 2 0 [0; 0] = Ok (false, [0; 0]).
Proof.
  split; [|split].
  - apply (proj1 (proj2 (advance_split_moves_only_the_last_entry 5 0 [0; 3; 0; 0; 4]
                           eq_refl)) 1%nat 3 4);
      cbn; try lia; try reflexivity; [|unfold is_int, int_min, int_max; lia].
    intros [|[|[|[|j]]]] ? ?; try lia; reflexivity.
  - reflexivity.
  - apply (advance_split_moves_only_the_last_entry 2 0 [0; 0] eq_refl).
    intros [|[|j]] ? ?; cbn in *; try lia; reflexivity.
Defined.

Section MultinomialFacts.
Context {long_double : LongDouble}.

Lemma items_nonneg (k : list Z) : Forall (fun entry => 0 <= entry) k -> 0 <= items k.
Proof.
  unfold items. induction 1 as [|entry k Hentry _ IH]; cbn; lia.
Qed.

Lemma choose_buckets_sum (k : list Z) (product_of_binomials_ln : real_t) (bucket_sum : Z) :
  Forall (fun entry => 0 <= entry) k ->
  0 <= bucket_sum -> bucket_sum + items k <= int_max ->
  exists product,
    foldM choose_bucket (product_of_binomials_ln, bucket_sum) k
    = Ok (product, bucket_sum + items k).
Proof.
  intros Hk. revert product_of_binomials_ln bucket_sum.
  induction Hk as [|bucket_size k Hsize Hk IH]; intros product bucket_sum Hsum Hmax.
  - exists product. cbn. now rewrite Z.add_0_r.
  - pose proof (items_nonneg k Hk) as Hrest.
    change (items (bucket_size :: k)) with (bucket_size + items k) in *.
    cbn [foldM choose_bucket]. unfold int_add, choose_ln, int_sub.
    rewrite (bool_decide_eq_true_2 (is_int (bucket_sum + bucket_size)))
      by (unfold is_int, int_min, int_max in *; lia).
    cbn [mbind outcome_bind].
    rewrite (bool_decide_eq_true_2 (is_int (bucket_sum + bucket_size - bucket_size)))
      by (unfold is_int, int_min, int_max in *; lia).
    cbn [mbind outcome_bind].
    destruct (IH (real_add product
                    (real_sub (factorial_ln (bucket_sum + bucket_size))
                       (real_add (factorial_ln bucket_size)
                          (factorial_ln (bucket_sum + bucket_size - bucket_size)))))
                 (bucket_sum + bucket_size)) as [result Hresult]; [lia | lia |].
    exists result. rewrite Hresult. f_equal. f_equal. lia.
Qed.

Lemma multinomial_choose_ln_sum (n : Z) (k : list Z) :
  Forall (fun entry => 0 <= entry) k -> items k <= int_max ->
  (items k = n -> exists result, multinomial_choose_ln n k = Ok result) /\
  (items k <> n -> multinomial_choose_ln n k = AssertionFailure 102).
Proof.
  intros Hk Hmax. unfold multinomial_choose_ln.
  destruct (choose_buckets_sum k (of_double 0) 0 Hk) as [product ->]; [lia | lia |].
  cbn [mbind outcome_bind]. cbv beta iota. unfold assert. rewrite Z.add_0_l. split.
  - intros Hn. exists product. now rewrite (bool_decide_eq_true_2 _ Hn).
  - intros Hn. now rewrite (bool_decide_eq_false_2 _ Hn).
Qed.

(** X14: on a split of counts (no entry negative, all together within
    [int]) [multinomial_choose_ln(n, k)] returns when the entries of [k] add
    up to [n] and fails its assertion when they do not; and since
    [advance_split] keeps the items of a split, the coefficient the sampler
    takes again after advancing a split (line 348) does not fail the
    assertion where the one before did not. *)
Theorem multinomial_choose_ln_checks_the_items (n : Z) (k : list Z) :
  Forall (fun entry => 0 <= entry) k -> items k <= int_max ->
  (items k <> n -> multinomial_choose_ln n k = AssertionFailure 102) /\
  (items k = n ->
   (exists result, multinomial_choose_ln n k = Ok result) /\
   forall advanced k',
     advance_split (length k) 0 k = Ok (advanced, k') ->
     exists result', multinomial_choose_ln n k' = Ok result').
Proof.
  intros Hk Hmax. split; [apply (multinomial_choose_ln_sum n k Hk Hmax)|].
  intros Hn. split; [now apply (multinomial_choose_ln_sum n k Hk Hmax)|].
  intros advanced k' Hrun.
  destruct (advance_split_keeps _ _ _ _ _ Hrun) as (Hitems & _ & Hpos).
  apply (multinomial_choose_ln_sum n k' (Hpos Hk)); lia.
Qed.

End MultinomialFacts.

(** Seven items in five buckets, taken as six *)
Lemma multinomial_choose_ln_checks_the_items_witness :
  multinomial_choose_ln (long_double := no_long_double) 6 [0; 3; 0; 0; 4]
  = AssertionFailure 102 /\
  exists result',
    multinomial_choose_ln (long_double := no_long_double) 7 [0; 3; 0; 4; 0] = Ok result'.
Proof.
  assert (Hk : Forall (fun entry => 0 <= entry) [0; 3; 0; 0; 4])
    by (repeat constructor; lia).
  assert (Hmax : items [0; 3; 0; 0; 4] <= int_max) by (vm_compute; discriminate).
  split.
  - apply (multinomial_choose_ln_checks_the_items (long_double := no_long_double)
             6 [0; 3; 0; 0; 4] Hk Hmax).
    vm_compute. discriminate.
  - apply (proj2 (proj2 (multinomial_choose_ln_checks_the_items
                           (long_double := no_long_double) 7 [0; 3; 0; 0; 4] Hk Hmax)
                    eq_refl) true [0; 3; 0; 4; 0]).
    reflexivity.
Defined.

(** ** The genotype prior *)

Section PriorFacts.

Lemma all_same_from_set (allele_value : Z) (alleles : list Z) :
  allele_value <> -1 ->
  (all_same_from allele_value alleles = true /\ Forall (fun a => a = allele_value) alleles) \/
  (all_same_from allele_value alleles = false /\
   exists a, In a alleles /\ a <> allele_value).
Proof.
  intros Hset. induction alleles as [|allele_i rest IH]; [left; split; [reflexivity|constructor]|].
  cbn [all_same_from]. rewrite (bool_decide_eq_false_2 _ Hset).
  destruct (decide (allele_value = allele_i)) as [<-|Hne].
  - rewrite (bool_decide_eq_false_2 (allele_value <> allele_value)) by tauto.
    destruct IH as [[-> Hall]|[-> (a & Hin & Ha)]].
    + left. split; [reflexivity | now constructor].
    + right. split; [reflexivity|]. exists a. split; [now right | exact Ha].
  - rewrite (bool_decide_eq_true_2 _ Hne). right. split; [reflexivity|].
    exists allele_i. split; [now left | congruence].
Qed.

Lemma all_same_from_unset (alleles : list Z) :
  (all_same_from (-1) alleles = true /\
   forall a b, In a (called alleles) -> In b (called alleles) -> a = b) \/
  (all_same_from (-1) alleles = false /\
   exists a b, In a (called alleles) /\ In b (called alleles) /\ a <> b).
Proof.
  induction alleles as [|allele_i rest IH]; [left; split; [reflexivity|intros ? ? []]|].
  cbn [all_same_from called].
  rewrite (bool_decide_eq_true_2 (-1 = -1)) by reflexivity.
  rewrite (bool_decide_eq_false_2 (allele_i <> allele_i)) by tauto.
  destruct (decide (allele_i = -1)) as [->|Hset].
  - rewrite (bool_decide_eq_true_2 (-1 = -1)) by reflexivity. exact IH.
  - rewrite (bool_decide_eq_false_2 _ Hset).
    destruct (all_same_from_set allele_i rest Hset) as [[-> Hall]|[-> (a & Hin & Ha)]].
    + left. split; [reflexivity|]. rewrite Forall_forall in Hall.
      intros a b [<-|Ha] [<-|Hb]; try reflexivity.
      * symmetry. now apply Hall, list_elem_of_In.
      * now apply Hall, list_elem_of_In.
      * transitivity allele_i; [|symmetry]; now apply Hall, list_elem_of_In.
    + right. split; [reflexivity|]. exists a, allele_i.
      split; [now right | split; [now left | exact Ha]].
Qed.

Lemma called_all (alleles : list Z) :
  Forall (fun a => a <> -1) alleles -> called alleles = alleles.
Proof.
  destruct 1 as [|allele_i rest Hset _]; [reflexivity|].
  cbn [called]. now rewrite (bool_decide_eq_false_2 _ Hset).
Qed.

(** X15: [calculate_log_prior] passes over the alleles numbered -1 with
    which a genotype begins: it returns the homozygous prior when the
    alleles from the first other than -1 on are all the same (so also for a
    genotype of no alleles, or of -1 only), and the heterozygous prior when
    two of them differ.  For a genotype without an allele -1 that is: the
    homozygous prior exactly when all alleles are the same. *)
Theorem log_prior_passes_over_unset_alleles (calculator : FixedGenotypePriorCalculator)
  (genotype : Genotype) :
  ((calculate_log_prior calculator genotype = homozygous_prior_ln calculator /\
    forall a b, In a (called (allele genotype)) -> In b (called (allele genotype)) -> a = b) \/
   (calculate_log_prior calculator genotype = heterozygous_prior_ln calculator /\
    exists a b, In a (called (allele genotype)) /\ In b (called (allele genotype)) /\ a <> b)) /\
  (Forall (fun a => a <> -1) (allele genotype) -> called (allele genotype) = allele genotype) /\
  (forall alleles phased,
     calculate_log_prior calculator (mkGenotype (-1 :: alleles) phased)
     = calculate_log_prior calculator (mkGenotype alleles phased)).
Proof.
  unfold calculate_log_prior. split; [|split].
  - destruct (all_same_from_unset (allele genotype)) as [[-> Hsame]|[-> Hdiffer]].
    + left. split; [reflexivity | exact Hsame].
    + right. split; [reflexivity | exact Hdiffer].
  - apply called_all.
  - reflexivity.
Qed.

End PriorFacts.

(** ** The order in which find_snarls stores the snarls *)

Section StorageFacts.
Context {env : SnarlFinderEnv}.

Lemma chain_all_ultrabubble_defined (chain : Chain) :
  Forall is_Some chain -> exists b, chain_all_ultrabubble chain = Ok b.
Proof.
  induction 1 as [|child chain [managed ->] _ IH]; cbn; [now exists true|].
  destruct (decide (type (ptr_target managed) = ULTRABUBBLE)); [exact IH | now exists false].
Qed.

Lemma all_ultrabubble_children_defined (child_chains : list Chain) :
  Forall (Forall is_Some) child_chains ->
  exists b, all_ultrabubble_children child_chains = Ok b.
Proof.
  induction 1 as [|chain rest Hchain _ IH]; cbn; [now exists true|].
  destruct (chain_all_ultrabubble_defined chain Hchain) as [[|] ->]; cbn;
    [exact IH | now exists false].
Qed.

Lemma classify_defined (start_v end_v : Visit) (snarl : Snarl) (child_chains : list Chain) :
  Forall (Forall is_Some) child_chains ->
  exists t, classify start_v end_v snarl child_chains = Ok t.
Proof.
  intros Hchains. unfold classify.
  destruct (decide (node_id start_v = node_id end_v)); [now exists UNARY|].
  destruct (negb (start_end_reachable snarl)); [now exists UNCLASSIFIED|].
  destruct (start_self_reachable snarl || end_self_reachable snarl);
    [now exists UNCLASSIFIED|].
  destruct (all_ultrabubble_children_defined child_chains Hchains) as [b ->].
  cbn [mbind outcome_bind].
  destruct (negb b); [now exists UNCLASSIFIED|].
  destruct (negb (directed_acyclic_net_graph snarl)); eauto.
Qed.

Lemma set_connectivity_parent (graph : VG) (start_v end_v : Visit)
  (child_chains : list Chain) (snarl : Snarl) :
  parent (set_connectivity graph start_v end_v child_chains snarl) = parent snarl.
Proof.
  unfold set_connectivity. now destruct (search_from_start _ _ _ _ _ _ _ _).
Qed.

Lemma emit_chain_children_first
  (recurse : stSnarl -> SnarlManager -> outcome (option SnarlPtr * SnarlManager))
  (here : option (Visit * Visit)) (cactus_chain : list stSnarl) :
  Forall (stores_children_first recurse here) cactus_chain ->
  forall (chain : list (option SnarlPtr)) (destination : SnarlManager),
    Forall is_Some chain ->
    exists chain' destination' new_snarls,
      foldM (fun '(chain, destination) child_snarl =>
               '(managed_child, destination) ← recurse child_snarl destination;
               Ok (chain ++ [managed_child], destination))
            (chain, destination) cactus_chain = Ok (chain', destination') /\
      Forall is_Some chain' /\
      snarls destination' = snarls destination ++ new_snarls /\
      map placed new_snarls = flat_map (children_first here) cactus_chain.
Proof.
  induction 1 as [|child_snarl rest Hchild _ IH]; intros chain destination Hchain.
  - exists chain, destination, []. cbn. now rewrite app_nil_r.
  - destruct (Hchild destination) as (managed & d1 & new1 & Hrun & Hd1 & Hnew1).
    cbn [foldM]. rewrite Hrun. cbn [mbind outcome_bind]. cbv beta iota.
    destruct (IH (chain ++ [Some managed]) d1)
      as (chain' & d2 & new2 & Hrest & Hsome & Hd2 & Hnew2).
    { apply Forall_app. split; [exact Hchain | repeat constructor; eauto]. }
    exists chain', d2, (new1 ++ new2). split; [exact Hrest|]. split; [exact Hsome|].
    split; [now rewrite Hd2, Hd1, app_assoc|].
    cbn [flat_map]. now rewrite map_app, Hnew1, Hnew2.
Qed.

Lemma emit_chains_children_first
  (recurse : stSnarl -> SnarlManager -> outcome (option SnarlPtr * SnarlManager))
  (here : option (Visit * Visit)) (chains_list : list (list stSnarl)) :
  Forall (Forall (stores_children_first recurse here)) chains_list ->
  forall (child_chains : list (list (option SnarlPtr))) (destination : SnarlManager),
    Forall (Forall is_Some) child_chains ->
    exists child_chains' destination' new_snarls,
      foldM (fun '(child_chains, destination) cactus_chain =>
               '(chain, destination) ←
                 foldM (fun '(chain, destination) child_snarl =>
                          '(managed_child, destination) ← recurse child_snarl destination;
                          Ok (chain ++ [managed_child], destination))
                       ([], destination) cactus_chain;
               Ok (child_chains ++ [chain], destination))
            (child_chains, destination) chains_list = Ok (child_chains', destination') /\
      Forall (Forall is_Some) child_chains' /\
      snarls destination' = snarls destination ++ new_snarls /\
      map placed new_snarls = flat_map (flat_map (children_first here)) chains_list.
Proof.
  induction 1 as [|cactus_chain rest Hchain _ IH]; intros child_chains destination Hchains.
  - exists child_chains, destination, []. cbn. now rewrite app_nil_r.
  - destruct (emit_chain_children_first recurse here cactus_chain Hchain [] destination)
      as (chain & d1 & new1 & Hrun & Hsome & Hd1 & Hnew1); [constructor|].
    cbn [foldM]. rewrite Hrun. cbn [mbind outcome_bind]. cbv beta iota.
    destruct (IH (child_chains ++ [chain]) d1)
      as (child_chains' & d2 & new2 & Hrest & Hsome2 & Hd2 & Hnew2).
    { apply Forall_app. split; [exact Hchains | repeat constructor; exact Hsome]. }
    exists child_chains', d2, (new1 ++ new2). split; [exact Hrest|]. split; [exact Hsome2|].
    split; [now rewrite Hd2, Hd1, app_assoc|].
    cbn [flat_map]. now rewrite map_app, Hnew1, Hnew2.
Qed.

Lemma emit_unary_children_first
  (recurse : stSnarl -> SnarlManager -> outcome (option SnarlPtr * SnarlManager))
  (here : option (Visit * Visit)) (unary_snarls_list : list stSnarl) :
  Forall (stores_children_first recurse here) unary_snarls_list ->
  forall (child_chains : list (list (option SnarlPtr))) (destination : SnarlManager),
    Forall (Forall is_Some) child_chains ->
    exists child_chains' destination' new_snarls,
      foldM (fun '(child_chains, destination) child_snarl =>
               '(managed_child, destination) ← recurse child_snarl destination;
               Ok (child_chains ++ [[managed_child]], destination))
            (child_chains, destination) unary_snarls_list
      = Ok (child_chains', destination') /\
      Forall (Forall is_Some) child_chains' /\
      snarls destination' = snarls destination ++ new_snarls /\
      map placed new_snarls = flat_map (children_first here) unary_snarls_list.
Proof.
  induction 1 as [|child_snarl rest Hchild _ IH]; intros child_chains destination Hchains.
  - exists child_chains, destination, []. cbn. now rewrite app_nil_r.
  - destruct (Hchild destination) as (managed & d1 & new1 & Hrun & Hd1 & Hnew1).
    cbn [foldM]. rewrite Hrun. cbn [mbind outcome_bind]. cbv beta iota.
    destruct (IH (child_chains ++ [[Some managed]]) d1)
      as (child_chains' & d2 & new2 & Hrest & Hsome & Hd2 & Hnew2).
    { apply Forall_app. split; [exact Hchains | repeat constructor; eauto]. }
    exists child_chains', d2, (new1 ++ new2). split; [exact Hrest|]. split; [exact Hsome|].
    split; [now rewrite Hd2, Hd1, app_assoc|].
    cbn [flat_map]. now rewrite map_app, Hnew1, Hnew2.
Qed.

(** The body for a snarl with both ends on nodes *)
Lemma emit_snarls_body_children_first (graph : VG)
  (recurse : stSnarl -> SnarlManager -> outcome (option SnarlPtr * SnarlManager))
  (start_v end_v parent_start parent_end : Visit) (here : option (Visit * Visit))
  (chains_list : list (list stSnarl)) (unary_snarls_list : list stSnarl)
  (destination : SnarlManager) :
  node_id start_v <> 0 -> node_id end_v <> 0 ->
  Forall (Forall (stores_children_first recurse here)) chains_list ->
  Forall (stores_children_first recurse here) unary_snarls_list ->
  exists managed destination' new_snarls,
    emit_snarls_body graph recurse start_v end_v parent_start parent_end
                     chains_list unary_snarls_list destination
    = Ok (Some managed, destination') /\
    snarls destination' = snarls destination ++ new_snarls /\
    map placed new_snarls =
    flat_map (flat_map (children_first here)) chains_list ++
    flat_map (children_first here) unary_snarls_list ++
    [(start_v, end_v, parent_written parent_start parent_end)].
Proof.
  intros Hstart Hend Hchains Hunary. unfold emit_snarls_body.
  destruct (emit_chains_children_first recurse here chains_list Hchains [] destination)
    as (cc1 & d1 & new1 & -> & Hsome1 & Hd1 & Hnew1); [constructor|].
  cbn [mbind outcome_bind]. cbv beta iota.
  destruct (emit_unary_children_first recurse here unary_snarls_list Hunary cc1 d1 Hsome1)
    as (cc2 & d2 & new2 & -> & Hsome2 & Hd2 & Hnew2).
  cbn [mbind outcome_bind]. cbv beta iota.
  rewrite (bool_decide_eq_false_2 _ Hstart), (bool_decide_eq_false_2 _ Hend).
  cbn [negb andb].
  match goal with
  | |- context [has_an_end ?sn] => set (snarl0 := sn)
  end.
  assert (Hplaced : placed snarl0 = (start_v, end_v, parent_written parent_start parent_end)).
  { subst snarl0. unfold parent_written.
    now destruct (negb (bool_decide (node_id parent_start = 0)) && _). }
  assert (Hreal : has_an_end snarl0 = true).
  { unfold has_an_end. injection Hplaced as -> _ _.
    now rewrite (bool_decide_eq_false_2 _ Hstart). }
  rewrite Hreal.
  destruct (classify_defined start_v end_v
              (set_connectivity graph start_v end_v cc2 snarl0) cc2 Hsome2) as [t ->].
  cbn [mbind outcome_bind]. unfold add_snarl. cbv beta iota.
  eexists _, _, (new1 ++ new2 ++ [_]). split; [reflexivity|]. split.
  - rewrite register_chains_snarls. cbn [snarls]. rewrite Hd2, Hd1.
    now rewrite <- !app_assoc.
  - rewrite !map_app, Hnew1, Hnew2. cbn [map]. do 3 f_equal.
    pose proof (set_connectivity_ends graph start_v end_v cc2 snarl0) as [Hs He].
    pose proof (set_connectivity_parent graph start_v end_v cc2 snarl0) as Hp.
    unfold placed in *. cbn [start end_ parent set_type].
    now rewrite Hs, He, Hp.
Qed.

Lemma on_nodes_inv (edgeEnd1 edgeEnd2 : CactusSide) (chains_list : list (list stSnarl))
  (unary_snarls_list : list stSnarl) :
  on_nodes (mk_stSnarl edgeEnd1 edgeEnd2 chains_list unary_snarls_list) = true ->
  cs_node edgeEnd1 <> 0 /\ cs_node edgeEnd2 <> 0 /\
  forallb (forallb on_nodes) chains_list = true /\
  forallb on_nodes unary_snarls_list = true.
Proof.
  cbn [on_nodes]. rewrite !andb_true_iff, !negb_true_iff.
  intros [[[H1 H2] H3] H4].
  apply bool_decide_eq_false_1 in H1. apply bool_decide_eq_false_1 in H2. tauto.
Qed.

Lemma emit_child_children_first (graph : VG) (child_snarl : stSnarl) :
  on_nodes child_snarl = true ->
  forall start_v end_v,
    stores_children_first (emit_child graph start_v end_v)
                          (parent_written start_v end_v) child_snarl.
Proof.
  induction child_snarl as [e1 e2 cs us IHcs IHus] using stSnarl_nested_ind.
  intros Hnodes start_v end_v destination.
  apply on_nodes_inv in Hnodes as (H1 & H2 & Hcs & Hus).
  cbn [emit_child].
  set (child_snarl := mk_stSnarl e1 e2 cs us) in *.
  assert (Hhere : parent_written (child_start_of child_snarl) (child_end_of child_snarl)
                  = Some (child_start_of child_snarl, child_end_of child_snarl)).
  { unfold parent_written. cbn.
    now rewrite (bool_decide_eq_false_2 _ H1), (bool_decide_eq_false_2 _ H2). }
  destruct (emit_snarls_body_children_first graph
              (emit_child graph (child_start_of child_snarl) (child_end_of child_snarl))
              (child_start_of child_snarl) (child_end_of child_snarl) start_v end_v
              (Some (child_start_of child_snarl, child_end_of child_snarl))
              cs us destination) as (managed & d' & new_snarls & Hrun & Hd & Hnew);
    [exact H1 | exact H2 | | |].
  - rewrite forallb_forall in Hcs. rewrite Forall_forall in IHcs |- *.
    intros chain Hchain. specialize (IHcs chain Hchain).
    specialize (Hcs chain (proj1 (list_elem_of_In _ _) Hchain)).
    rewrite forallb_forall in Hcs. rewrite Forall_forall in IHcs |- *.
    intros grandchild Hin. rewrite <- Hhere.
    apply (IHcs grandchild Hin), Hcs, list_elem_of_In, Hin.
  - rewrite forallb_forall in Hus. rewrite Forall_forall in IHus |- *.
    intros grandchild Hin. rewrite <- Hhere.
    apply (IHus grandchild Hin), Hus, list_elem_of_In, Hin.
  - exists managed, d', new_snarls. split; [exact Hrun|]. split; [exact Hd|].
    rewrite Hnew. reflexivity.
Qed.

(** X16: when the graph has a node and no side of the snarl decomposition
    is on node 0, [find_snarls] returns, and the manager holds one snarl for
    every snarl of the decomposition, each behind the snarls below it: the
    snarls of the top-level chains in order, then the top-level unary
    snarls, and for each of them first the snarls of its chains, then its
    unary snarls, then the snarl itself.  Each has the start and end read
    off its two cactus sides (inward at the start, outward at the end) and,
    as parent, the ends of the snarl it lies in; a top-level snarl has no
    parent. *)
Theorem find_snarls_stores_children_first (graph : VG)
  (chains_list : list (list stSnarl)) (unary_snarls_list : list stSnarl) :
  graph_size graph <> 0 ->
  snarl_decomposition graph = (chains_list, unary_snarls_list) ->
  forallb (forallb on_nodes) chains_list = true ->
  forallb on_nodes unary_snarls_list = true ->
  exists snarl_manager,
    find_snarls graph = Ok snarl_manager /\
    map placed (snarls snarl_manager) =
    flat_map (flat_map (children_first None)) chains_list ++
    flat_map (children_first None) unary_snarls_list.
Proof.
  intros Hsize Hdecomposition Hcs Hus. unfold find_snarls.
  rewrite (bool_decide_eq_false_2 _ Hsize), Hdecomposition.
  unfold recursively_emit_snarls, emit_snarls_body.
  assert (Hchild : forall child_snarl,
             on_nodes child_snarl = true ->
             stores_children_first (emit_child graph Visit_default Visit_default)
                                   None child_snarl).
  { intros child_snarl Hnodes.
    exact (emit_child_children_first graph child_snarl Hnodes Visit_default Visit_default). }
  destruct (emit_chains_children_first (emit_child graph Visit_default Visit_default) None
              chains_list) with (child_chains := @nil (list (option SnarlPtr)))
                                (destination := SnarlManager_empty)
    as (cc1 & d1 & new1 & -> & Hsome1 & Hd1 & Hnew1); [|constructor|].
  { rewrite forallb_forall in Hcs. apply Forall_forall. intros chain Hchain.
    specialize (Hcs chain (proj1 (list_elem_of_In _ _) Hchain)).
    rewrite forallb_forall in Hcs. apply Forall_forall. intros child_snarl Hin.
    apply Hchild, Hcs, list_elem_of_In, Hin. }
  cbn [mbind outcome_bind]. cbv beta iota.
  destruct (emit_unary_children_first (emit_child graph Visit_default Visit_default) None
              unary_snarls_list) with (child_chains := cc1) (destination := d1)
    as (cc2 & d2 & new2 & -> & Hsome2 & Hd2 & Hnew2); [|exact Hsome1|].
  { rewrite forallb_forall in Hus. apply Forall_forall. intros child_snarl Hin.
    apply Hchild, Hus, list_elem_of_In, Hin. }
  cbn [mbind outcome_bind]. cbv beta iota.
  eexists. split; [reflexivity|].
  rewrite register_chains_snarls, Hd2, Hd1. cbn [snarls SnarlManager_empty app].
  now rewrite map_app, Hnew1, Hnew2.
Qed.

End StorageFacts.

(** The nested graph: the bubble from 2 to 5 is stored before the snarl
    from 1 to 6 it lies in, and names it as its parent. *)
Lemma find_snarls_stores_children_first_witness :
  exists snarl_manager,
    find_snarls nested_graph = Ok snarl_manager /\
    map placed (snarls snarl_manager) =
    [ (to_visit 2 false, to_visit 5 false, Some (to_visit 1 false, to_visit 6 false));
      (to_visit 1 false, to_visit 6 false, None) ].
Proof.
  apply (find_snarls_stores_children_first (env := toy_finder_env) nested_graph
           [[outer_snarl]] []);
    [vm_compute; discriminate | reflexivity | reflexivity | reflexivity].
Defined.

(** ** Embedding alignments *)

Lemma foldM_seq_moment {S} (I : nat -> S -> Prop) (line : Z)
  (body : S -> nat -> outcome S) (len : nat) :
  forall (start : nat) (st : S),
    (forall i st, (start <= i < start + len)%nat -> I i st ->
                  (exists st', body st i = Ok st' /\ I (Datatypes.S i) st') \/
                  body st i = AssertionFailure line) ->
    I start st ->
    (exists st', foldM body st (seq start len) = Ok st' /\ I (start + len)%nat st') \/
    foldM body st (seq start len) = AssertionFailure line.
Proof.
  induction len as [|len IH]; intros start st Hbody Hst.
  - left. exists st. split; [reflexivity|]. now rewrite Nat.add_0_r.
  - cbn [seq foldM].
    destruct (Hbody start st ltac:(lia) Hst) as [(st1 & -> & Hst1)| ->]; [|now right].
    cbn [mbind outcome_bind].
    replace (start + Datatypes.S len)%nat with (Datatypes.S start + len)%nat by lia.
    apply IH; [|exact Hst1]. intros i st2 Hi. apply Hbody. lia.
Qed.

Lemma foldM_seq_defined {S} (I : nat -> S -> Prop)
  (body : S -> nat -> outcome S) (len : nat) :
  forall (start : nat) (st : S),
    (forall i st, (start <= i < start + len)%nat -> I i st ->
                  exists st', body st i = Ok st' /\ I (Datatypes.S i) st') ->
    I start st ->
    exists st', foldM body st (seq start len) = Ok st' /\ I (start + len)%nat st'.
Proof.
  induction len as [|len IH]; intros start st Hbody Hst.
  - exists st. split; [reflexivity|]. now rewrite Nat.add_0_r.
  - cbn [seq foldM].
    destruct (Hbody start st ltac:(lia) Hst) as (st1 & -> & Hst1).
    cbn [mbind outcome_bind].
    replace (start + Datatypes.S len)%nat with (Datatypes.S start + len)%nat by lia.
    apply IH; [|exact Hst1]. intros i st2 Hi. apply Hbody. lia.
Qed.

Lemma digits_inj (d d' : Decimal.uint) : digits d = digits d' -> d = d'.
Proof.
  revert d'. induction d; intros []; cbn; intros H; try discriminate; try reflexivity;
    injection H as H; f_equal; now apply IHd.
Qed.

Lemma to_string_inj (i j : nat) : to_string i = to_string j -> i = j.
Proof. intros H. now apply Unsigned.to_uint_inj, digits_inj. Qed.

Section NamingFacts.
Context {augmenter : Augmenter}.

Local Abbreviation Alignment := (Alignment Path).

(** The step both branches of the loop body share *)
Lemma naming_moment_next (alignments : list Alignment) (i : nat) (st : naming)
  (before after : Alignment) (warned : bool) (printed : list (list byte)) :
  naming_moment alignments i st ->
  alignments !! i = Some before ->
  named_from i before after ->
  name after <> [] -> name after ∉ names_seen st ->
  (length printed <= 1)%nat -> (warned = false -> printed = []) ->
  naming_moment alignments (S i)
    (mkNaming (<[i := after]> (named st)) ({[name after]} ∪ names_seen st) warned printed).
Proof.
  intros (done & Hnamed & Hlen & Hle & Hseen & Hnodup & Hnonempty & Hfrom & _ & _)
         Hbefore Hafter Hname Hfresh Hprinted Hwarned.
  exists (done ++ [after]). cbn [named names_seen warned_of duplicate_names_warned].
  pose proof (lookup_lt_Some _ _ _ Hbefore) as Hi.
  split; [|split; [|split; [|split; [|split; [|split; [|split; [|split]]]]]]].
  - rewrite Hnamed, (drop_S _ _ _ Hbefore).
    rewrite insert_app_r_alt by lia. rewrite Hlen, Nat.sub_diag. cbn [insert list_insert].
    now rewrite <- app_assoc.
  - rewrite length_app. cbn. lia.
  - lia.
  - rewrite map_app. cbn [map]. rewrite list_to_set_snoc_L, Hseen. apply union_comm_L.
  - rewrite map_app. apply NoDup_app. split; [exact Hnodup|]. split.
    + intros x Hx Hx'. apply list_elem_of_singleton in Hx'. subst x.
      apply Hfresh. rewrite Hseen. now apply elem_of_list_to_set.
    + apply NoDup_singleton.
  - apply Forall_app. split; [exact Hnonempty | now repeat constructor].
  - intros j after' Hj. destruct (decide (j < length done)%nat) as [Hlt|Hge].
    + rewrite lookup_app_l in Hj by exact Hlt. now apply Hfrom.
    + rewrite lookup_app_r in Hj by lia.
      destruct (j - length done)%nat eqn:Hzero; [|now destruct n].
      injection Hj as <-. replace j with i by lia. now exists before.
  - exact Hprinted.
  - exact Hwarned.
Qed.

Lemma naming_moment_lookup (alignments : list Alignment) (i : nat) (st : naming)
  (before : Alignment) :
  naming_moment alignments i st -> alignments !! i = Some before ->
  named st !! i = Some before.
Proof.
  intros (done & Hnamed & Hlen & _) Hbefore.
  rewrite Hnamed, lookup_app_r by lia. rewrite Hlen, Nat.sub_diag.
  now rewrite (drop_S _ _ _ Hbefore).
Qed.

Lemma name_alignment_moment (alignments : list Alignment) (i : nat) (st : naming) :
  (i < length alignments)%nat ->
  naming_moment alignments i st ->
  (exists st', name_alignment st i = Ok st' /\ naming_moment alignments (S i) st') \/
  name_alignment st i = AssertionFailure 135.
Proof.
  intros Hi Hst.
  destruct (lookup_lt_is_Some_2 alignments i Hi) as [before Hbefore].
  unfold name_alignment. rewrite (naming_moment_lookup _ _ _ _ Hst Hbefore).
  set (given := if bool_decide (name before = [])
                then set_name before (unnamed_alignment_ ++ to_string i) else before).
  assert (Hgiven : named_from i before given /\ name given <> []).
  { subst given. unfold named_from.
    destruct (decide (name before = [])) as [Hempty|Hfull].
    - rewrite (bool_decide_eq_true_2 _ Hempty). cbn. split; [tauto | discriminate].
    - rewrite (bool_decide_eq_false_2 _ Hfull). tauto. }
  destruct Hgiven as [Hfrom Hname].
  pose proof Hst as (done & _ & _ & _ & _ & _ & _ & _ & Hprinted & Hwarned).
  destruct (decide (name given ∈ names_seen st)) as [Hseen|Hfresh].
  - rewrite (bool_decide_eq_true_2 _ Hseen).
    set (renamed := set_name given (renamed_alignment_ ++ to_string i)).
    assert (Hrenamed : named_from i before renamed /\ name renamed <> []).
    { subst renamed. unfold named_from in *. cbn. split; [tauto | discriminate]. }
    set (warning := if negb (duplicate_names_warned st)
                    then (true, warned_of st ++ [name given])
                    else (duplicate_names_warned st, warned_of st)).
    assert (Hwarning : (length warning.2 <= 1)%nat /\ (warning.1 = false -> warning.2 = [])).
    { subst warning. destruct (duplicate_names_warned st) eqn:Hfirst; cbn [negb fst snd].
      - split; [exact Hprinted | discriminate].
      - rewrite (Hwarned eq_refl). split; [cbn; lia | discriminate]. }
    destruct warning as [warned printed]. cbn [fst snd] in Hwarning.
    unfold assert.
    destruct (decide (name renamed ∈ names_seen st)) as [Hagain|Hnew].
    + rewrite (bool_decide_eq_true_2 _ Hagain). now right.
    + rewrite (bool_decide_eq_false_2 _ Hnew). left. eexists. split; [reflexivity|].
      apply naming_moment_next with (before := before); tauto.
  - rewrite (bool_decide_eq_false_2 _ Hfresh). left. eexists. split; [reflexivity|].
    now apply naming_moment_next with (before := before).
Qed.

Lemma naming_moment_start (alignments : list Alignment) :
  naming_moment alignments 0 (mkNaming alignments ∅ false []).
Proof.
  exists []. cbn. repeat split; try lia; try constructor.
  intros j after Hj. discriminate.
Qed.

(** A generated name is not among the names seen when no given name begins
    with an underscore. *)
Lemma renamed_is_new (alignments : list Alignment) (i : nat) (st : naming) :
  Forall (fun alignment => head (name alignment) <> Some "_"%byte) alignments ->
  naming_moment alignments i st ->
  renamed_alignment_ ++ to_string i ∉ names_seen st.
Proof.
  intros Hgiven (done & _ & Hlen & _ & Hseen & _ & _ & Hfrom & _) Hin.
  rewrite Hseen in Hin. apply elem_of_list_to_set, list_elem_of_fmap in Hin
    as (after & Hname & Hafter).
  apply list_elem_of_lookup in Hafter as [j Hj].
  pose proof (lookup_lt_Some _ _ _ Hj) as Hlt.
  destruct (Hfrom j after Hj) as (before & Hbefore & _ & _ & _ & Hcases).
  destruct Hcases as [Hkept|[Hunnamed|Hrenamed]].
  - rewrite Forall_forall in Hgiven.
    apply (Hgiven before); [eapply list_elem_of_lookup_2; exact Hbefore|].
    now rewrite <- Hkept, <- Hname.
  - rewrite Hunnamed in Hname. discriminate.
  - rewrite Hrenamed in Hname. apply app_inv_head, to_string_inj in Hname. lia.
Qed.

Lemma name_alignment_defined (alignments : list Alignment) (i : nat) (st : naming) :
  Forall (fun alignment => head (name alignment) <> Some "_"%byte) alignments ->
  (i < length alignments)%nat ->
  naming_moment alignments i st ->
  exists st', name_alignment st i = Ok st' /\ naming_moment alignments (S i) st'.
Proof.
  intros Hgiven Hi Hst.
  destruct (name_alignment_moment alignments i st Hi Hst) as [Hok|Hfail]; [exact Hok|].
  exfalso. pose proof (renamed_is_new alignments i st Hgiven Hst) as Hnew.
  destruct (lookup_lt_is_Some_2 alignments i Hi) as [before Hbefore].
  unfold name_alignment in Hfail. rewrite (naming_moment_lookup _ _ _ _ Hst Hbefore) in Hfail.
  destruct (bool_decide (name _ ∈ names_seen st)); [|discriminate].
  destruct (negb (duplicate_names_warned st)); cbv beta iota in Hfail; unfold assert in Hfail;
    cbn [name set_name] in Hfail;
    rewrite (bool_decide_eq_false_2 _ Hnew) in Hfail; discriminate.
Qed.

Lemma make_names_unique_run (alignments : list Alignment) :
  (exists st, make_names_unique alignments = Ok st /\
              naming_moment alignments (length alignments) st) \/
  make_names_unique alignments = AssertionFailure 135.
Proof.
  unfold make_names_unique.
  apply (foldM_seq_moment (naming_moment alignments) 135 name_alignment
           (length alignments) 0 (mkNaming alignments ∅ false []));
    [|apply naming_moment_start].
  intros i st Hi. apply name_alignment_moment. lia.
Qed.

Lemma naming_moment_end (alignments : list Alignment) (st : naming) :
  naming_moment alignments (length alignments) st ->
  NoDup (map name (named st)) /\
  Forall (fun alignment => name alignment <> []) (named st) /\
  length (named st) = length alignments /\
  (forall i before after,
     alignments !! i = Some before -> named st !! i = Some after ->
     named_from i before after) /\
  (length (warned_of st) <= 1)%nat.
Proof.
  intros (done & Hnamed & Hlen & _ & _ & Hnodup & Hnonempty & Hfrom & Hprinted & _).
  rewrite drop_all, app_nil_r in Hnamed. rewrite Hnamed.
  split; [exact Hnodup|]. split; [exact Hnonempty|]. split; [exact Hlen|].
  split; [|exact Hprinted].
  intros i before after Hbefore Hafter.
  destruct (Hfrom i after Hafter) as (before' & Hbefore' & Hnamed_from).
  now assert (before' = before) as -> by congruence.
Qed.

(** X17: the naming loop of [augment_from_alignment_edits] either fails
    the assertion of line 135 or leaves the alignments with names that are
    all different and none empty; it changes nothing but names, gives the
    alignment at place [i] one of the names [_unnamed_alignment_i] and
    [_renamed_alignment_i] if it does not keep its name, and warns at most
    once.  When no given name begins with an underscore the assertion does
    not fail. *)
Theorem generated_names_are_unique (alignments : list Alignment) :
  ((exists st, make_names_unique alignments = Ok st) \/
   make_names_unique alignments = AssertionFailure 135) /\
  (forall st,
     make_names_unique alignments = Ok st ->
     NoDup (map name (named st)) /\
     Forall (fun alignment => name alignment <> []) (named st) /\
     length (named st) = length alignments /\
     (forall i before after,
        alignments !! i = Some before -> named st !! i = Some after ->
        named_from i before after) /\
     (length (warned_of st) <= 1)%nat) /\
  (Forall (fun alignment => head (name alignment) <> Some "_"%byte) alignments ->
   exists st, make_names_unique alignments = Ok st).
Proof.
  pose proof (make_names_unique_run alignments) as Hrun.
  split; [|split].
  - destruct Hrun as [(st & Hst & _)|Hfail]; [left; now exists st | now right].
  - intros st Hst. destruct Hrun as [(st' & Hst' & Hmoment)|Hfail]; [|congruence].
    assert (st' = st) as -> by congruence.
    now apply naming_moment_end.
  - intros Hgiven. unfold make_names_unique.
    destruct (foldM_seq_defined (naming_moment alignments) name_alignment
                (length alignments) 0 (mkNaming alignments ∅ false []))
      as (st & Hst & _); [|apply naming_moment_start|now exists st].
    intros i st Hi. apply name_alignment_defined; [exact Hgiven | lia].
Qed.

End NamingFacts.

(** Two reads of the same name, which is the one the loop generates for the
    second of them: the assertion fails.  Three reads, two without a name:
    each of the two is given the name of its place. *)
Lemma generated_names_on_reads :
  make_names_unique (augmenter := toy_augmenter) clashing_reads = AssertionFailure 135 /\
  (exists st,
     make_names_unique (augmenter := toy_augmenter) three_reads = Ok st /\
     map name (named st) =
     [unnamed_alignment_ ++ to_string 0; ["r"]%byte; unnamed_alignment_ ++ to_string 2]).
Proof. split; [reflexivity|]. eexists. split; reflexivity. Qed.

Section IndexFacts.
Context {augmenter : Augmenter}.

Local Abbreviation Alignment := (Alignment Path).

Lemma index_nodes_fold (i : nat) (nodes : list Z) :
  forall (by_node : gmap Z (list nat)) (seen : gset Z) (node_id : Z),
    default [] ((fold_left (fun '(by_node, seen) node_id =>
                              if negb (bool_decide (node_id ∈ (seen : gset Z)))
                              then (<[node_id := default [] (by_node !! node_id) ++ [i]]>
                                      by_node,
                                    {[node_id]} ∪ seen)
                              else (by_node, seen))
                           nodes (by_node, seen)).1 !! node_id)
    = default [] (by_node !! node_id) ++
      (if bool_decide (node_id ∈ nodes /\ node_id ∉ seen) then [i] else []).
Proof.
  induction nodes as [|node rest IH]; intros by_node seen node_id.
  - cbn [fold_left fst].
    rewrite (bool_decide_eq_false_2 (node_id ∈ [] /\ _)), app_nil_r; [reflexivity|].
    intros [Hin _]. now apply not_elem_of_nil in Hin.
  - cbn [fold_left]. destruct (decide (node ∈ seen)) as [Hseen|Hnew].
    + rewrite (bool_decide_eq_true_2 _ Hseen). cbn [negb]. rewrite IH.
      f_equal. erewrite bool_decide_ext; [reflexivity|]. rewrite elem_of_cons.
      split; [tauto|]. intros [[->|Hin] Hnot]; tauto.
    + rewrite (bool_decide_eq_false_2 _ Hnew). cbn [negb]. rewrite IH.
      destruct (decide (node_id = node)) as [->|Hother].
      * rewrite lookup_insert_eq. cbn [default].
        rewrite (bool_decide_eq_false_2 (node ∈ rest /\ _))
          by (rewrite elem_of_union, elem_of_singleton; tauto).
        rewrite (bool_decide_eq_true_2 (node ∈ node :: rest /\ _))
          by (split; [left | exact Hnew]).
        now rewrite app_nil_r.
      * rewrite lookup_insert_ne by congruence. f_equal.
        erewrite bool_decide_ext; [reflexivity|].
        rewrite elem_of_cons, elem_of_union, elem_of_singleton. tauto.
Qed.

Lemma index_alignment_touches (by_node : gmap Z (list nat)) (i : nat) (alignment : Alignment)
  (node_id : Z) :
  default [] (index_alignment by_node i alignment !! node_id)
  = default [] (by_node !! node_id) ++
    (if bool_decide (node_id ∈ mapping_nodes (path alignment)) then [i] else []).
Proof.
  unfold index_alignment. rewrite index_nodes_fold. f_equal.
  erewrite bool_decide_ext; [reflexivity|]. rewrite elem_of_empty. tauto.
Qed.

Lemma index_alignments_touching (embedded : list Alignment) (node_id : Z) :
  forall (by_node : gmap Z (list nat)) (i : nat),
    default [] ((fold_left (fun '(by_node, i) alignment =>
                              (index_alignment by_node i alignment, S i))
                           embedded (by_node, i)).1 !! node_id)
    = default [] (by_node !! node_id) ++ touching node_id i embedded.
Proof.
  induction embedded as [|alignment rest IH]; intros by_node i.
  - cbn. now rewrite app_nil_r.
  - cbn [fold_left touching]. rewrite IH, index_alignment_touches, <- app_assoc.
    now destruct (bool_decide (node_id ∈ mapping_nodes (path alignment))).
Qed.

Lemma get_alignments_of_default (augmented : AugmentedGraph) (node_id : Z) :
  get_alignments_of augmented node_id
  = default [] (alignments_by_node augmented !! node_id).
Proof.
  unfold get_alignments_of.
  destruct (alignments_by_node augmented !! node_id) as [found|] eqn:Hfound.
  - now rewrite bool_decide_eq_true_2 by eauto.
  - rewrite bool_decide_eq_false_2; [reflexivity|]. now intros [? ?].
Qed.

Lemma trim_softclips_name (alignment trimmed : Alignment) :
  trim_softclips alignment = Ok trimmed -> name trimmed = name alignment.
Proof.
  unfold trim_softclips. intros Hrun.
  bind_split Hrun as new_sequence Hsequence. bind_split Hrun as cut Hquality.
  injection Hrun as <-. cbn [name set_path].
  destruct (negb (bool_decide (length (quality _) = 0%nat))).
  - bind_split Hquality as new_quality Hsubstr. now injection Hquality as <-.
  - now injection Hquality as <-.
Qed.

Lemma trim_loop_names (alignments : list Alignment) :
  forall trimmed result,
    foldM (fun trimmed alignment =>
             alignment ← trim_softclips alignment; Ok (trimmed ++ [alignment]))
          trimmed alignments = Ok result ->
    map name result = map name trimmed ++ map name alignments.
Proof.
  induction alignments as [|alignment rest IH]; intros trimmed result Hrun; cbn in Hrun.
  - injection Hrun as <-. now rewrite app_nil_r.
  - bind_split Hrun as next Hnext. bind_split Hnext as cut Hcut. injection Hnext as <-.
    rewrite (IH _ _ Hrun), map_app. cbn [map].
    rewrite (trim_softclips_name _ _ Hcut). now rewrite <- app_assoc.
Qed.

Lemma copy_paths_back_names (alignments : list Alignment) (paths : list Path)
  (result : list Alignment) :
  copy_paths_back alignments paths = Ok result -> map name result = map name alignments.
Proof.
  unfold copy_paths_back. intros Hrun.
  apply (foldM_invariant (fun st => map name st = map name alignments)) in Hrun;
    [exact Hrun | | reflexivity].
  intros st i st' _ Hst Hstep.
  destruct (st !! i) as [alignment|] eqn:Hi; [|discriminate].
  destruct (paths !! i) as [edited|]; [|discriminate].
  injection Hstep as <-. rewrite <- Hst.
  change (map name ?l) with (name <$> l).
  rewrite list_fmap_insert. apply list_insert_id.
  now rewrite list_lookup_fmap, Hi.
Qed.

(** X18: when [augment_from_alignment_edits] returns, the caller's vector
    is left empty, as many alignments are embedded as were given, under the
    names the naming loop left them with, and [get_alignments(node_id)]
    returns what it returned before followed by the embedded alignments
    whose path has a mapping on the node: each of them once, in the order
    in which they are embedded.  With [unique_names] no two embedded
    alignments have the same name.  Once alignments are embedded, every
    further call fails the assertion of line 112. *)
Theorem embedded_alignments_are_indexed (augmented augmented' : AugmentedGraph)
  (alignments left_over : list Alignment) (unique_names leave_edits : bool)
  (printed : list (list byte)) :
  augment_from_alignment_edits augmented alignments unique_names leave_edits
  = Ok (augmented', left_over, printed) ->
  left_over = [] /\
  length (embedded_alignments augmented') = length alignments /\
  (forall node_id,
     get_alignments_of augmented' node_id
     = get_alignments_of augmented node_id ++
       touching node_id 0 (embedded_alignments augmented')) /\
  get_alignments augmented' = seq 0 (length alignments) /\
  (unique_names = true -> NoDup (map name (embedded_alignments augmented'))) /\
  (unique_names = false ->
   map name (embedded_alignments augmented') = map name alignments) /\
  (embedded_alignments augmented' <> [] ->
   forall more unique_names' leave_edits',
     augment_from_alignment_edits augmented' more unique_names' leave_edits'
     = AssertionFailure 112).
Proof.
  unfold augment_from_alignment_edits at 1, assert. intros Hrun.
  destruct (decide (embedded_alignments augmented = [])) as [Hempty|Hfull];
    [rewrite (bool_decide_eq_true_2 _ Hempty) in Hrun
    |rewrite (bool_decide_eq_false_2 _ Hfull) in Hrun; discriminate].
  bind_split Hrun as [renamed warned] Hnames.
  bind_split Hrun as trimmed Htrim.
  bind_split Hrun as [[graph' translator'] embedded] Hedit.
  cbv beta iota in Hrun. injection Hrun as <- <- <-.
  cbn [embedded_alignments alignments_by_node].
  assert (Hembedded : map name embedded = map name renamed).
  { apply trim_loop_names in Htrim. cbn [map app] in Htrim. rewrite <- Htrim.
    destruct (negb leave_edits).
    - destruct (graph_edit (graph augmented) (map path trimmed)) as [[g paths] translations].
      bind_split Hedit as copied Hcopy. injection Hedit as _ _ <-.
      now apply copy_paths_back_names in Hcopy.
    - now injection Hedit as _ _ <-. }
  assert (Hrenamed : length renamed = length alignments /\
                     (unique_names = true -> NoDup (map name renamed)) /\
                     (unique_names = false -> renamed = alignments)).
  { destruct unique_names.
    - bind_split Hnames as st Hst. injection Hnames as <- _.
      destruct (make_names_unique_run alignments) as [(st' & Hst' & Hmoment)|Hfail];
        [|congruence].
      assert (st' = st) as -> by congruence.
      apply naming_moment_end in Hmoment as (Hnodup & _ & Hlength & _).
      split; [exact Hlength|]. split; [intros _; exact Hnodup | discriminate].
    - injection Hnames as <- _. split; [reflexivity|]. split; [discriminate | reflexivity]. }
  destruct Hrenamed as (Hlength & Hnodup & Hsame).
  assert (Hcount : length embedded = length alignments).
  { rewrite <- Hlength, <- (length_map name embedded), Hembedded. apply length_map. }
  split; [exact Hempty|]. split; [exact Hcount|]. split; [|split; [|split; [|split]]].
  - intros node_id. rewrite !get_alignments_of_default. cbn [alignments_by_node].
    unfold index_alignments. apply index_alignments_touching.
  - unfold get_alignments. cbn [embedded_alignments]. now rewrite Hcount.
  - intros Hunique. rewrite Hembedded. now apply Hnodup.
  - intros Hkept. now rewrite Hembedded, (Hsame Hkept).
  - intros Hsome more unique_names' leave_edits'.
    unfold augment_from_alignment_edits, assert. cbn [embedded_alignments].
    now rewrite (bool_decide_eq_false_2 _ Hsome).
Qed.

End IndexFacts.

(** Three reads embedded in a fresh graph: node 2 is on the paths of the
    first two, node 1 twice on the path of the first, which is listed once. *)
Lemma embedded_alignments_are_indexed_witness :
  exists augmented',
    augment_from_alignment_edits (augmenter := toy_augmenter)
      (mkAugmentedGraph tt tt [] ∅) three_reads true false = Ok (augmented', [], []) /\
    get_alignments_of augmented' 2 = [0%nat; 1%nat] /\
    get_alignments_of augmented' 1 = [0%nat] /\
    get_alignments_of augmented' 7 = [].
Proof.
  eexists. split; [reflexivity|].
  match goal with
  | |- get_alignments_of ?a _ = _ /\ _ =>
      pose proof (embedded_alignments_are_indexed (augmenter := toy_augmenter)
                    (mkAugmentedGraph tt tt [] ∅) a three_reads [] true false []
                    eq_refl) as (_ & _ & Hindex & _)
  end.
  rewrite !Hindex. repeat split.
Defined.

(** ** The simple support calculator *)

Section SupportCalculatorFacts.

Lemma foldM_unit_defined {A} (body : unit -> A -> outcome unit) (l : list A) :
  (forall x, x ∈ l -> body tt x = Ok tt) -> foldM body tt l = Ok tt.
Proof.
  induction l as [|x l IH]; intros Hbody; [reflexivity|].
  cbn [foldM]. rewrite (Hbody x) by left. cbn [mbind outcome_bind].
  apply IH. intros y Hy. apply Hbody. now right.
Qed.

Lemma foldM_unit_undefined {A} (body : unit -> A -> outcome unit) (l : list A) :
  (forall x, x ∈ l -> body tt x = Ok tt \/ body tt x = Undefined) ->
  (foldM body tt l = Ok tt /\ forall x, x ∈ l -> body tt x = Ok tt) \/
  (foldM body tt l = Undefined /\ exists x, x ∈ l /\ body tt x = Undefined).
Proof.
  induction l as [|x l IH]; intros Hbody.
  - left. split; [reflexivity|]. intros x Hx. now apply not_elem_of_nil in Hx.
  - cbn [foldM]. destruct (Hbody x ltac:(left)) as [Hx|Hx]; rewrite Hx; cbn [mbind outcome_bind].
    + destruct IH as [[Hrest Hall]|[Hrest (y & Hy & Hbad)]].
      * intros y Hy. apply Hbody. now right.
      * left. split; [exact Hrest|]. intros y [->|Hy]%elem_of_cons; [exact Hx | now apply Hall].
      * right. split; [exact Hrest|]. exists y. split; [now right | exact Hbad].
    + right. split; [reflexivity|]. exists x. split; [left | exact Hx].
Qed.

Lemma count_read_cases (cons_i : list bool) (read : option bool) (t : nat) :
  (count_read cons_i read t = Ok tt /\
   exists consistent, cons_i !! t = Some consistent /\ (consistent = true -> read <> None)) \/
  (count_read cons_i read t = Undefined /\
   (cons_i !! t = None \/ cons_i !! t = Some true /\ read = None)).
Proof.
  unfold count_read. destruct (cons_i !! t) as [[|]|]; [| |right; tauto].
  - destruct read as [[|]|]; [left|left|right; tauto];
      (split; [reflexivity|]; exists true; split; [reflexivity | discriminate]).
  - left. split; [reflexivity|]. exists false. split; [reflexivity | discriminate].
Qed.

(** X19: [calculate_supports] counts no read: it returns when the
    consistencies have a row for every read, with an entry for every
    traversal, and no row of a null read says "consistent", and what it
    returns is then one [Support] of all zeros for every traversal,
    whatever the reads and the consistencies are.  Otherwise its behaviour
    is undefined (a vector read past its end, or a null read looked at). *)
Theorem calculate_supports_counts_nothing (traversals : list (list Visit))
  (reads : list (option bool)) (consistencies : list (list bool)) :
  (rows_fit (length traversals) reads consistencies ->
   calculate_supports traversals reads consistencies
   = Ok (replicate (length traversals) SupportOps.Support_default)) /\
  (~ rows_fit (length traversals) reads consistencies ->
   calculate_supports traversals reads consistencies = Undefined).
Proof.
  unfold calculate_supports.
  set (row := fun (_ : unit) (i : nat) =>
                match consistencies !! i, reads !! i with
                | Some cons_i, Some read =>
                    foldM (fun (_ : unit) t => count_read cons_i read t) tt
                          (seq 0 (length traversals))
                | _, _ => Undefined
                end).
  assert (Hrow : forall i read,
             reads !! i = Some read ->
             (row tt i = Ok tt /\
              exists cons_i, consistencies !! i = Some cons_i /\
                           (length traversals <= length cons_i)%nat /\
                           (read = None -> forall t, (t < length traversals)%nat ->
                                                     cons_i !! t = Some false)) \/
             (row tt i = Undefined /\
              ~ exists cons_i, consistencies !! i = Some cons_i /\
                             (length traversals <= length cons_i)%nat /\
                             (read = None -> forall t, (t < length traversals)%nat ->
                                                       cons_i !! t = Some false))).
  { intros i read Hread. subst row. cbv beta. rewrite Hread.
    destruct (consistencies !! i) as [cons_i|]; [|right; split; [reflexivity|]; now intros (? & ? & _)].
    destruct (foldM_unit_undefined (fun (_ : unit) t => count_read cons_i read t)
                (seq 0 (length traversals))) as [[Hrun Hall]|[Hrun (t & Ht & Hbad)]].
    - intros t _. destruct (count_read_cases cons_i read t) as [[? _]|[? _]]; tauto.
    - left. split; [exact Hrun|]. exists cons_i. split; [reflexivity|].
      assert (Hentry : forall t, (t < length traversals)%nat ->
                exists consistent, cons_i !! t = Some consistent /\
                                   (consistent = true -> read <> None)).
      { intros t Ht. specialize (Hall t ltac:(apply elem_of_seq; lia)).
        destruct (count_read_cases cons_i read t) as [[_ Hok]|[Hbad _]];
          [exact Hok | congruence]. }
      split.
      + destruct (decide (length traversals <= length cons_i)%nat) as [|Hshort]; [assumption|].
        destruct (Hentry (length cons_i) ltac:(lia)) as (c & Hc & _).
        apply lookup_lt_Some in Hc. lia.
      + intros -> t Ht. destruct (Hentry t Ht) as ([|] & Hc & Hnull); [|exact Hc].
        now destruct (Hnull eq_refl).
    - right. split; [exact Hrun|]. intros (cons_j & [= <-] & Hlong & Hnull).
      apply elem_of_seq in Ht.
      destruct (count_read_cases cons_i read t) as [[Hok _]|[_ [Hnone|[Htrue ->]]]];
        [congruence | |].
      + apply lookup_ge_None in Hnone. lia.
      + rewrite (Hnull eq_refl t ltac:(lia)) in Htrue. discriminate. }
  destruct (foldM_unit_undefined row (seq 0 (length reads))) as [[Hrun Hall]|[Hrun (i & Hi & Hbad)]].
  - intros i Hi. apply elem_of_seq in Hi.
    destruct (lookup_lt_is_Some_2 reads i ltac:(lia)) as [read Hread].
    destruct (Hrow i read Hread) as [[? _]|[? _]]; tauto.
  - rewrite Hrun. cbn [mbind outcome_bind]. split; [reflexivity|].
    intros Hnot. exfalso. apply Hnot. intros i read Hread.
    pose proof (lookup_lt_Some _ _ _ Hread) as Hlt.
    specialize (Hall i ltac:(apply elem_of_seq; lia)).
    destruct (Hrow i read Hread) as [[_ Hfit]|[Hbad _]]; [exact Hfit | congruence].
  - rewrite Hrun. cbn [mbind outcome_bind]. split; [|reflexivity].
    intros Hfit. exfalso. apply elem_of_seq in Hi.
    destruct (lookup_lt_is_Some_2 reads i ltac:(lia)) as [read Hread].
    destruct (Hrow i read Hread) as [[Hok _]|[_ Hnot]]; [congruence|].
    apply Hnot, (Hfit i read Hread).
Qed.

End SupportCalculatorFacts.

(** Two reads, both consistent with the first of two traversals: no support
    is counted.  A row too short for the traversals. *)
Lemma calculate_supports_counts_nothing_witness :
  calculate_supports [[]; []] [Some false; Some true] [[true; false]; [true; true]]
  = Ok [SupportOps.Support_default; SupportOps.Support_default] /\
  calculate_supports [[]; []] [Some false] [[true]] = Undefined.
Proof.
  split.
  - apply (calculate_supports_counts_nothing [[]; []] [Some false; Some true]
             [[true; false]; [true; true]]).
    intros [|[|i]] read Hread; try discriminate; eexists; (split; [reflexivity|]);
      (split; [cbn; lia|]); injection Hread as <-; discriminate.
  - apply (calculate_supports_counts_nothing [[]; []] [Some false] [[true]]).
    intros Hfit. destruct (Hfit 0%nat (Some false) eq_refl) as (cons_i & [= <-] & Hlong & _).
    cbn in Hlong. lia.
Defined.

(** ** Loading supports *)

Section SupportMapFacts.
Context {supported : SupportedGraph}.

(** Every node location of the stream is a node of the graph. *)
Abbreviation locations_known := (Forall (fun entry =>
  forall node_id, location_node_id entry = Some node_id -> supported_node node_id = true)).

Lemma load_location_node (maps : SupportMaps) (entry : LocationSupport) (node_id : Z) :
  location_node_id entry = Some node_id -> supported_node node_id = true ->
  load_location maps entry
  = Ok (mkSupportMaps (<[node_id := location_support entry]> (node_supports maps))
                      (edge_supports maps)).
Proof. intros Hlocation Hnode. unfold load_location. now rewrite Hlocation, Hnode. Qed.

Lemma load_location_lacking (maps : SupportMaps) (entry : LocationSupport) (node_id : Z) :
  location_node_id entry = Some node_id -> supported_node node_id = false ->
  load_location maps entry = Throw (runtime_error GraphError).
Proof. intros Hlocation Hnode. unfold load_location. now rewrite Hlocation, Hnode. Qed.

Lemma load_location_edge (maps : SupportMaps) (entry : LocationSupport) :
  location_node_id entry = None ->
  load_location maps entry
  = Ok (mkSupportMaps (node_supports maps)
                      (<[located_edge (location_edge entry) := location_support entry]>
                         (edge_supports maps))).
Proof. intros Hlocation. unfold load_location. now rewrite Hlocation. Qed.

Lemma supports_given_node_cons (node : Z) (entry : LocationSupport)
  (rest : list LocationSupport) :
  supports_given_node node (entry :: rest)
  = if bool_decide (location_node_id entry = Some node)
    then location_support entry :: supports_given_node node rest
    else supports_given_node node rest.
Proof.
  unfold supports_given_node. cbn [omap list_omap].
  now destruct (bool_decide (location_node_id entry = Some node)).
Qed.

Lemma supports_given_edge_cons (edge : option Edge) (entry : LocationSupport)
  (rest : list LocationSupport) :
  supports_given_edge edge (entry :: rest)
  = if bool_decide (location_node_id entry = None /\
                    located_edge (location_edge entry) = edge)
    then location_support entry :: supports_given_edge edge rest
    else supports_given_edge edge rest.
Proof.
  unfold supports_given_edge. cbn [omap list_omap].
  now destruct (bool_decide (location_node_id entry = None /\ _)).
Qed.

Lemma load_loop_found (in_file : list LocationSupport) :
  locations_known in_file ->
  forall maps,
    exists loaded,
      foldM load_location maps in_file = Ok loaded /\
      (forall node,
         node_supports loaded !! node =
         match last (supports_given_node node in_file) with
         | Some support => Some support
         | None => node_supports maps !! node
         end) /\
      (forall edge,
         edge_supports loaded !! edge =
         match last (supports_given_edge edge in_file) with
         | Some support => Some support
         | None => edge_supports maps !! edge
         end).
Proof.
  induction 1 as [|entry rest Hentry _ IH]; intros maps.
  - exists maps. repeat split.
  - cbn [foldM].
    destruct (location_node_id entry) as [node_id|] eqn:Hlocation.
    + rewrite (load_location_node maps entry node_id Hlocation (Hentry node_id eq_refl)).
      cbn [mbind outcome_bind].
      destruct (IH (mkSupportMaps (<[node_id := location_support entry]> (node_supports maps))
                                  (edge_supports maps)))
        as (loaded & -> & Hnodes & Hedges).
      exists loaded. split; [reflexivity|]. cbn [node_supports edge_supports] in *. split.
      * intros node. rewrite Hnodes, supports_given_node_cons, Hlocation.
        destruct (decide (node_id = node)) as [->|Hother].
        -- rewrite (bool_decide_eq_true_2 (Some node = Some node)) by reflexivity.
           rewrite last_cons, lookup_insert_eq.
           now destruct (last (supports_given_node node rest)).
        -- rewrite (bool_decide_eq_false_2 (Some node_id = Some node)) by congruence.
           now rewrite lookup_insert_ne by exact Hother.
      * intros edge. rewrite Hedges, supports_given_edge_cons, Hlocation.
        now rewrite (bool_decide_eq_false_2 (Some node_id = None /\ _))
          by (intros [? _]; discriminate).
    + rewrite (load_location_edge maps entry Hlocation). cbn [mbind outcome_bind].
      destruct (IH (mkSupportMaps (node_supports maps)
                      (<[located_edge (location_edge entry) := location_support entry]>
                         (edge_supports maps))))
        as (loaded & -> & Hnodes & Hedges).
      exists loaded. split; [reflexivity|]. cbn [node_supports edge_supports] in *. split.
      * intros node. rewrite Hnodes, supports_given_node_cons, Hlocation.
        now rewrite (bool_decide_eq_false_2 (None = Some node)) by discriminate.
      * intros edge. rewrite Hedges, supports_given_edge_cons, Hlocation.
        destruct (decide (located_edge (location_edge entry) = edge)) as [->|Hother].
        -- rewrite (bool_decide_eq_true_2 (None = None /\ _)) by tauto.
           rewrite last_cons, lookup_insert_eq.
           now destruct (last (supports_given_edge _ rest)).
        -- rewrite (bool_decide_eq_false_2 (None = None /\ _)) by tauto.
           now rewrite lookup_insert_ne by exact Hother.
Qed.

Lemma load_loop_throws (in_file : list LocationSupport) :
  ~ locations_known in_file ->
  forall maps, foldM load_location maps in_file = Throw (runtime_error GraphError).
Proof.
  induction in_file as [|entry rest IH]; intros Hnot maps; [destruct Hnot; constructor|].
  cbn [foldM].
  destruct (location_node_id entry) as [node_id|] eqn:Hlocation.
  - destruct (supported_node node_id) eqn:Hnode.
    + rewrite (load_location_node maps entry node_id Hlocation Hnode).
      cbn [mbind outcome_bind]. apply IH. intros Hrest. apply Hnot.
      constructor; [|exact Hrest]. intros node_id' Hsame. congruence.
    + now rewrite (load_location_lacking maps entry node_id Hlocation Hnode).
  - rewrite (load_location_edge maps entry Hlocation).
    cbn [mbind outcome_bind]. apply IH. intros Hrest. apply Hnot.
    constructor; [|exact Hrest]. intros node_id' Hsame. congruence.
Qed.

(** X20: [load_supports] forgets what was loaded before.  It throws the
    graph's error when the stream names a node the graph lacks.  Otherwise
    [get_support] of a node then returns the support of the last message of
    the stream for that node, [get_support] of an edge pointer that of the
    last message whose edge the graph finds under that pointer (under the
    null pointer for every edge the graph lacks), each returns the default
    support when the stream has no such message, and [has_supports] holds
    exactly when the stream had a message. *)
Theorem loaded_supports_are_found (maps : SupportMaps) (in_file : list LocationSupport) :
  (locations_known in_file ->
   exists loaded,
     load_supports maps in_file = Ok loaded /\
     (forall node,
        get_support_of_node loaded node
        = default SupportOps.Support_default (last (supports_given_node node in_file))) /\
     (forall edge,
        get_support_of_edge loaded edge
        = default SupportOps.Support_default (last (supports_given_edge edge in_file))) /\
     maps_have_supports loaded = negb (bool_decide (in_file = []))) /\
  (~ locations_known in_file ->
   load_supports maps in_file = Throw (runtime_error GraphError)).
Proof.
  unfold load_supports. split; [|intros Hnot; now apply load_loop_throws].
  intros Hknown.
  destruct (load_loop_found in_file Hknown (mkSupportMaps ∅ ∅))
    as (loaded & Hrun & Hnodes & Hedges).
  cbn [node_supports edge_supports] in *.
  exists loaded. split; [exact Hrun|]. split; [|split].
  - intros node. unfold get_support_of_node. rewrite Hnodes, lookup_empty.
    destruct (last (supports_given_node node in_file)) as [support|].
    + now rewrite bool_decide_eq_true_2 by eauto.
    + rewrite bool_decide_eq_false_2; [reflexivity | now intros [? ?]].
  - intros edge. unfold get_support_of_edge. rewrite Hedges, lookup_empty.
    destruct (last (supports_given_edge edge in_file)) as [support|].
    + now rewrite bool_decide_eq_true_2 by eauto.
    + rewrite bool_decide_eq_false_2; [reflexivity | now intros [? ?]].
  - unfold maps_have_supports. destruct in_file as [|entry rest].
    + cbn in Hrun. injection Hrun as <-. cbn [node_supports edge_supports].
      now rewrite !bool_decide_eq_true_2 by reflexivity.
    + rewrite (bool_decide_eq_false_2 (entry :: rest = [])) by discriminate. cbn [negb].
      destruct (location_node_id entry) as [node_id|] eqn:Hlocation.
      * assert (Hsome : is_Some (node_supports loaded !! node_id)).
        { rewrite Hnodes, supports_given_node_cons, Hlocation.
          rewrite (bool_decide_eq_true_2 (Some node_id = Some node_id)) by reflexivity.
          rewrite last_cons. destruct (last _); eauto. }
        rewrite (bool_decide_eq_false_2 (node_supports loaded = ∅)); [reflexivity|].
        intros Hempty. rewrite Hempty, lookup_empty in Hsome. now destruct Hsome.
      * assert (Hsome : is_Some (edge_supports loaded !! located_edge (location_edge entry))).
        { rewrite Hedges, supports_given_edge_cons, Hlocation.
          rewrite (bool_decide_eq_true_2 (None = None /\ _)) by tauto.
          rewrite last_cons. destruct (last _); eauto. }
        rewrite (bool_decide_eq_false_2 (edge_supports loaded = ∅)), orb_true_r;
          [reflexivity|].
        intros Hempty. rewrite Hempty, lookup_empty in Hsome. now destruct Hsome.
Qed.

End SupportMapFacts.

(** Two messages for node 2 and none for node 3: the second is found for
    node 2, the default for node 3.  A message for node 9, which the toy
    graph lacks. *)
Lemma loaded_supports_are_found_witness :
  (exists loaded,
     load_supports (supported := toy_supported_graph) (mkSupportMaps ∅ ∅)
       [ mkLocationSupport (Some 2) (mkEdge 0 false 0 false) (SupportOps.make_support 3 1 0);
         mkLocationSupport (Some 2) (mkEdge 0 false 0 false) (SupportOps.make_support 5 2 0) ]
     = Ok loaded /\
     get_support_of_node loaded 2 = SupportOps.make_support 5 2 0 /\
     get_support_of_node loaded 3 = SupportOps.Support_default /\
     maps_have_supports loaded = true) /\
  load_supports (supported := toy_supported_graph) (mkSupportMaps ∅ ∅)
    [ mkLocationSupport (Some 9) (mkEdge 0 false 0 false) SupportOps.Support_default ]
  = Throw (runtime_error GraphError).
Proof.
  split.
  - destruct (proj1 (loaded_supports_are_found (supported := toy_supported_graph)
                       (mkSupportMaps ∅ ∅)
                       [ mkLocationSupport (Some 2) (mkEdge 0 false 0 false)
                                           (SupportOps.make_support 3 1 0);
                         mkLocationSupport (Some 2) (mkEdge 0 false 0 false)
                                           (SupportOps.make_support 5 2 0) ]))
      as (loaded & Hrun & Hnodes & _ & Hsome).
    { repeat constructor; intros node_id [= <-]; reflexivity. }
    exists loaded. split; [exact Hrun|]. rewrite !Hnodes, Hsome. repeat split.
  - apply (loaded_supports_are_found (supported := toy_supported_graph)).
    intros Hknown. apply Forall_inv in Hknown. now specialize (Hknown 9 eq_refl).
Defined.

(** ** The forest of chains *)

Section ForestFacts.
Context {env : SnarlFinderEnv}.

Lemma points_into_grows (d d' : SnarlManager) (p : SnarlPtr) :
  (exists new_snarls, snarls d' = snarls d ++ new_snarls) ->
  points_into d p -> points_into d' p.
Proof.
  intros [new_snarls Hnew] Hp. unfold points_into in *. rewrite Hnew.
  now apply lookup_app_l_Some.
Qed.

Lemma entry_in_order_grows (d d' : SnarlManager) (here : option (Visit * Visit))
  (entry : option SnarlPtr) :
  (exists new_snarls, snarls d' = snarls d ++ new_snarls) ->
  entry_in_order d here entry -> entry_in_order d' here entry.
Proof.
  intros Hnew (p & -> & Hp & Hparent). exists p. split; [reflexivity|]. split; [|exact Hparent].
  now apply (points_into_grows d d').
Qed.

Lemma chain_in_order_grows (d d' : SnarlManager) (chain : Chain)
  (chain_parent : option SnarlPtr) :
  (exists new_snarls, snarls d' = snarls d ++ new_snarls) ->
  chain_in_order d chain chain_parent -> chain_in_order d' chain chain_parent.
Proof.
  intros Hnew [Hparent Hentries]. split.
  - intros q Hq. now apply (points_into_grows d d'), Hparent.
  - eapply Forall_impl; [exact Hentries|]. intros entry. now apply entry_in_order_grows.
Qed.

Lemma grown_here (d : SnarlManager) : forest_in_order d -> grown d d 0.
Proof.
  intros Hforest. split; [exists []; now rewrite app_nil_r|]. split; [exact Hforest | lia].
Qed.

Lemma grown_further (d d1 d2 : SnarlManager) (a b : nat) :
  grown d d1 a -> grown d1 d2 b -> grown d d2 (a + b).
Proof.
  intros ([new1 H1] & _ & Hcount1) ([new2 H2] & Hforest & Hcount2).
  split; [exists (new1 ++ new2); now rewrite H2, H1, app_assoc|].
  split; [exact Hforest | lia].
Qed.

Lemma emit_chain_in_order
  (recurse : stSnarl -> SnarlManager -> outcome (option SnarlPtr * SnarlManager))
  (here : option (Visit * Visit)) (cactus_chain : list stSnarl) :
  Forall (stores_in_order recurse here) cactus_chain ->
  forall (chain : list (option SnarlPtr)) (destination : SnarlManager),
    forest_in_order destination ->
    Forall (entry_in_order destination here) chain ->
    exists chain' destination' k,
      foldM (fun '(chain, destination) child_snarl =>
               '(managed_child, destination) ← recurse child_snarl destination;
               Ok (chain ++ [managed_child], destination))
            (chain, destination) cactus_chain = Ok (chain', destination') /\
      length chain' = (length chain + k)%nat /\
      grown destination destination' k /\
      Forall (entry_in_order destination' here) chain'.
Proof.
  induction 1 as [|child_snarl rest Hchild _ IH]; intros chain destination Hforest Hchain.
  - exists chain, destination, 0%nat. split; [reflexivity|]. split; [lia|].
    split; [now apply grown_here | exact Hchain].
  - destruct (Hchild destination Hforest) as (managed & d1 & Hrun & Hgrown & Hentry & _).
    cbn [foldM]. rewrite Hrun. cbn [mbind outcome_bind]. cbv beta iota.
    destruct (IH (chain ++ [Some managed]) d1) as (chain' & d2 & k & Hrest & Hlen & Hgrown2 & Hall).
    { apply Hgrown. }
    { apply Forall_app. split; [|now repeat constructor].
      eapply Forall_impl; [exact Hchain|]. intros entry.
      apply entry_in_order_grows, Hgrown. }
    exists chain', d2, (1 + k)%nat. split; [exact Hrest|].
    split; [rewrite Hlen, length_app; cbn; lia|].
    split; [now apply (grown_further _ d1) | exact Hall].
Qed.

Lemma emit_chains_in_order
  (recurse : stSnarl -> SnarlManager -> outcome (option SnarlPtr * SnarlManager))
  (here : option (Visit * Visit)) (chains_list : list (list stSnarl)) :
  Forall (Forall (stores_in_order recurse here)) chains_list ->
  forall (child_chains : list (list (option SnarlPtr))) (destination : SnarlManager),
    forest_in_order destination ->
    Forall (Forall (entry_in_order destination here)) child_chains ->
    exists child_chains' destination' k,
      foldM (fun '(child_chains, destination) cactus_chain =>
               '(chain, destination) ←
                 foldM (fun '(chain, destination) child_snarl =>
                          '(managed_child, destination) ← recurse child_snarl destination;
                          Ok (chain ++ [managed_child], destination))
                       ([], destination) cactus_chain;
               Ok (child_chains ++ [chain], destination))
            (child_chains, destination) chains_list = Ok (child_chains', destination') /\
      length (concat child_chains') = (length (concat child_chains) + k)%nat /\
      grown destination destination' k /\
      Forall (Forall (entry_in_order destination' here)) child_chains'.
Proof.
  induction 1 as [|cactus_chain rest Hchain _ IH]; intros child_chains destination Hforest Hchains.
  - exists child_chains, destination, 0%nat. split; [reflexivity|]. split; [lia|].
    split; [now apply grown_here | exact Hchains].
  - destruct (emit_chain_in_order recurse here cactus_chain Hchain [] destination Hforest)
      as (chain & d1 & k1 & Hrun & Hlen1 & Hgrown1 & Hall1); [constructor|].
    cbn [foldM]. rewrite Hrun. cbn [mbind outcome_bind]. cbv beta iota.
    destruct (IH (child_chains ++ [chain]) d1)
      as (child_chains' & d2 & k2 & Hrest & Hlen2 & Hgrown2 & Hall2).
    { apply Hgrown1. }
    { apply Forall_app. split; [|now repeat constructor].
      eapply Forall_impl; [exact Hchains|]. intros c Hc.
      eapply Forall_impl; [exact Hc|]. intros entry.
      apply entry_in_order_grows, Hgrown1. }
    exists child_chains', d2, (k1 + k2)%nat. split; [exact Hrest|].
    split.
    { rewrite Hlen2, concat_app, length_app. cbn [concat]. rewrite app_nil_r, Hlen1.
      cbn [length]. lia. }
    split; [now apply (grown_further _ d1) | exact Hall2].
Qed.

Lemma emit_unary_in_order
  (recurse : stSnarl -> SnarlManager -> outcome (option SnarlPtr * SnarlManager))
  (here : option (Visit * Visit)) (unary_snarls_list : list stSnarl) :
  Forall (stores_in_order recurse here) unary_snarls_list ->
  forall (child_chains : list (list (option SnarlPtr))) (destination : SnarlManager),
    forest_in_order destination ->
    Forall (Forall (entry_in_order destination here)) child_chains ->
    exists child_chains' destination' k,
      foldM (fun '(child_chains, destination) child_snarl =>
               '(managed_child, destination) ← recurse child_snarl destination;
               Ok (child_chains ++ [[managed_child]], destination))
            (child_chains, destination) unary_snarls_list
      = Ok (child_chains', destination') /\
      length (concat child_chains') = (length (concat child_chains) + k)%nat /\
      grown destination destination' k /\
      Forall (Forall (entry_in_order destination' here)) child_chains'.
Proof.
  induction 1 as [|child_snarl rest Hchild _ IH]; intros child_chains destination Hforest Hchains.
  - exists child_chains, destination, 0%nat. split; [reflexivity|]. split; [lia|].
    split; [now apply grown_here | exact Hchains].
  - destruct (Hchild destination Hforest) as (managed & d1 & Hrun & Hgrown & Hentry & _).
    cbn [foldM]. rewrite Hrun. cbn [mbind outcome_bind]. cbv beta iota.
    destruct (IH (child_chains ++ [[Some managed]]) d1)
      as (child_chains' & d2 & k & Hrest & Hlen & Hgrown2 & Hall).
    { apply Hgrown. }
    { apply Forall_app. split; [|now repeat constructor].
      eapply Forall_impl; [exact Hchains|]. intros c Hc.
      eapply Forall_impl; [exact Hc|]. intros entry.
      apply entry_in_order_grows, Hgrown. }
    exists child_chains', d2, (1 + k)%nat. split; [exact Hrest|].
    split.
    { rewrite Hlen, concat_app, length_app. cbn. lia. }
    split; [now apply (grown_further _ d1) | exact Hall].
Qed.

(** Registering the chains of a snarl (or the root chains) *)
Lemma register_chains_in_order (d : SnarlManager) (managed : option SnarlPtr)
  (child_chains : list Chain) :
  forest_in_order d ->
  (forall q, managed = Some q -> points_into d q) ->
  Forall (Forall (entry_in_order d (ends_under managed))) child_chains ->
  let d' := fold_left (fun destination chain => add_chain destination chain managed)
                      child_chains d in
  forest_in_order d' /\
  length (chain_entries d') = (length (chain_entries d) + length (concat child_chains))%nat.
Proof.
  intros Hforest Hmanaged Hchains d'.
  assert (Hsnarls : snarls d' = snarls d) by apply register_chains_snarls.
  assert (Hregistered : chains d' = chains d ++ map (fun chain => (chain, managed)) child_chains)
    by apply register_chains_chains.
  assert (Hsame : exists new_snarls, snarls d' = snarls d ++ new_snarls)
    by (exists []; now rewrite app_nil_r).
  split.
  - unfold forest_in_order. rewrite Hregistered. apply Forall_app. split.
    + eapply Forall_impl; [exact Hforest|]. intros [chain chain_parent].
      now apply chain_in_order_grows.
    + apply Forall_forall. intros registered Hin.
      apply list_elem_of_fmap in Hin as (chain & -> & Hchain). cbn [fst snd].
      rewrite Forall_forall in Hchains. split.
      * intros q Hq. now apply (points_into_grows d d'), Hmanaged.
      * eapply Forall_impl; [exact (Hchains chain Hchain)|]. intros entry.
        now apply entry_in_order_grows.
  - unfold chain_entries. rewrite Hregistered, flat_map_app, length_app. f_equal.
    clear. induction child_chains as [|chain rest IH]; [reflexivity|].
    cbn. rewrite !length_app. now rewrite IH.
Qed.

Lemma emit_snarls_body_in_order (graph : VG)
  (recurse : stSnarl -> SnarlManager -> outcome (option SnarlPtr * SnarlManager))
  (start_v end_v parent_start parent_end : Visit)
  (chains_list : list (list stSnarl)) (unary_snarls_list : list stSnarl)
  (destination : SnarlManager) :
  node_id start_v <> 0 -> node_id end_v <> 0 ->
  Forall (Forall (stores_in_order recurse (Some (start_v, end_v)))) chains_list ->
  Forall (stores_in_order recurse (Some (start_v, end_v))) unary_snarls_list ->
  forest_in_order destination ->
  exists managed destination',
    emit_snarls_body graph recurse start_v end_v parent_start parent_end
                     chains_list unary_snarls_list destination
    = Ok (Some managed, destination') /\
    grown destination destination' 1 /\
    entry_in_order destination' (parent_written parent_start parent_end) (Some managed) /\
    (start (ptr_target managed), end_ (ptr_target managed)) = (start_v, end_v).
Proof.
  intros Hstart Hend Hchains Hunary Hforest. unfold emit_snarls_body.
  destruct (emit_chains_in_order recurse _ chains_list Hchains [] destination Hforest)
    as (cc1 & d1 & k1 & -> & Hlen1 & Hgrown1 & Hall1); [constructor|].
  cbn [mbind outcome_bind]. cbv beta iota.
  destruct (emit_unary_in_order recurse _ unary_snarls_list Hunary cc1 d1)
    as (cc2 & d2 & k2 & -> & Hlen2 & Hgrown2 & Hall2); [apply Hgrown1 | exact Hall1 |].
  cbn [mbind outcome_bind]. cbv beta iota.
  rewrite (bool_decide_eq_false_2 _ Hstart), (bool_decide_eq_false_2 _ Hend).
  cbn [negb andb].
  match goal with
  | |- context [has_an_end ?sn] => set (snarl0 := sn)
  end.
  assert (Hplaced : placed snarl0 = (start_v, end_v, parent_written parent_start parent_end)).
  { subst snarl0. unfold parent_written.
    now destruct (negb (bool_decide (node_id parent_start = 0)) && _). }
  assert (Hreal : has_an_end snarl0 = true).
  { unfold has_an_end. injection Hplaced as -> _ _.
    now rewrite (bool_decide_eq_false_2 _ Hstart). }
  rewrite Hreal.
  assert (Hsome : Forall (Forall is_Some) cc2).
  { eapply Forall_impl; [exact Hall2|]. intros c Hc.
    eapply Forall_impl; [exact Hc|]. intros entry (p & -> & _). eauto. }
  destruct (classify_defined start_v end_v
              (set_connectivity graph start_v end_v cc2 snarl0) cc2 Hsome) as [t ->].
  cbn [mbind outcome_bind]. unfold add_snarl. cbv beta iota.
  set (stored := set_type (set_connectivity graph start_v end_v cc2 snarl0) t).
  set (managed := mkPtr (length (snarls d2)) stored).
  set (d3 := mkManager (snarls d2 ++ [stored]) (chains d2)).
  assert (Hstored : placed stored = (start_v, end_v, parent_written parent_start parent_end)).
  { pose proof (set_connectivity_ends graph start_v end_v cc2 snarl0) as [Hs He].
    pose proof (set_connectivity_parent graph start_v end_v cc2 snarl0) as Hp.
    subst stored. unfold placed in *. cbn [start end_ parent set_type].
    now rewrite Hs, He, Hp. }
  pose proof (f_equal (fun x => x.1.1) Hstored) as Hs.
  pose proof (f_equal (fun x => x.1.2) Hstored) as He.
  pose proof (f_equal snd Hstored) as Hp.
  unfold placed in Hs, He, Hp. cbn [fst snd] in Hs, He, Hp.
  assert (Hmore : exists new_snarls, snarls d3 = snarls d2 ++ new_snarls)
    by (now exists [stored]).
  assert (Hpoints : points_into d3 managed).
  { unfold points_into. cbn. apply list_lookup_middle. reflexivity. }
  assert (Hforest3 : forest_in_order d3).
  { destruct Hgrown2 as (_ & Hforest2 & _).
    eapply Forall_impl; [exact Hforest2|]. intros [chain chain_parent].
    now apply chain_in_order_grows. }
  destruct (register_chains_in_order d3 (Some managed) cc2 Hforest3) as [Hforest4 Hentries4].
  { now intros q [= <-]. }
  { cbn [ends_under fmap option_fmap option_map ptr_target managed].
    rewrite Hs, He.
    eapply Forall_impl; [exact Hall2|]. intros c Hc.
    eapply Forall_impl; [exact Hc|]. intros entry.
    now apply entry_in_order_grows. }
  cbv zeta in Hforest4, Hentries4.
  eexists managed, _. split; [reflexivity|]. split; [|split].
  - pose proof (grown_further _ _ _ _ _ Hgrown1 Hgrown2) as ([new_snarls Hnew] & _ & Hcount).
    split; [|split; [exact Hforest4|]].
    + exists (new_snarls ++ [stored]). rewrite register_chains_snarls. cbn [snarls d3].
      now rewrite Hnew, app_assoc.
    + rewrite Hentries4. rewrite register_chains_snarls. cbn [snarls d3].
      unfold chain_entries at 2. cbn [chains d3]. fold (chain_entries d2).
      rewrite length_app. cbn [length]. cbn [concat length] in Hlen1. lia.
  - exists managed. split; [reflexivity|]. split; [|exact Hp].
    apply (points_into_grows d3); [|exact Hpoints].
    exists []. now rewrite register_chains_snarls, app_nil_r.
  - cbn [ptr_target managed]. now rewrite Hs, He.
Qed.

Lemma emit_child_in_order (graph : VG) (child_snarl : stSnarl) :
  on_nodes child_snarl = true ->
  forall start_v end_v,
    stores_in_order (emit_child graph start_v end_v)
                    (parent_written start_v end_v) child_snarl.
Proof.
  induction child_snarl as [e1 e2 cs us IHcs IHus] using stSnarl_nested_ind.
  intros Hnodes start_v end_v destination Hforest.
  apply on_nodes_inv in Hnodes as (H1 & H2 & Hcs & Hus).
  cbn [emit_child].
  set (child_snarl := mk_stSnarl e1 e2 cs us) in *.
  assert (Hhere : parent_written (child_start_of child_snarl) (child_end_of child_snarl)
                  = Some (child_start_of child_snarl, child_end_of child_snarl)).
  { unfold parent_written. cbn.
    now rewrite (bool_decide_eq_false_2 _ H1), (bool_decide_eq_false_2 _ H2). }
  apply emit_snarls_body_in_order; [exact H1 | exact H2 | | | exact Hforest].
  - rewrite forallb_forall in Hcs. rewrite Forall_forall in IHcs |- *.
    intros chain Hchain. specialize (IHcs chain Hchain).
    specialize (Hcs chain (proj1 (list_elem_of_In _ _) Hchain)).
    rewrite forallb_forall in Hcs. rewrite Forall_forall in IHcs |- *.
    intros grandchild Hin. rewrite <- Hhere.
    apply (IHcs grandchild Hin), Hcs, list_elem_of_In, Hin.
  - rewrite forallb_forall in Hus. rewrite Forall_forall in IHus |- *.
    intros grandchild Hin. rewrite <- Hhere.
    apply (IHus grandchild Hin), Hus, list_elem_of_In, Hin.
Qed.

(** X21: under the same conditions the forest of chains [find_snarls]
    registers is in order.  No entry of a registered chain is null; every
    entry points to the snarl stored in the slot it names; the snarl an
    entry points to names, as its parent, the ends of the snarl the chain
    is registered under, and has no parent when the chain is a root chain;
    the snarl a chain is registered under is stored as well; and the
    registered chains have as many entries as there are snarls stored:
    every snarl is an entry of a chain. *)
Theorem find_snarls_registers_every_snarl (graph : VG)
  (chains_list : list (list stSnarl)) (unary_snarls_list : list stSnarl) :
  graph_size graph <> 0 ->
  snarl_decomposition graph = (chains_list, unary_snarls_list) ->
  forallb (forallb on_nodes) chains_list = true ->
  forallb on_nodes unary_snarls_list = true ->
  exists snarl_manager,
    find_snarls graph = Ok snarl_manager /\
    forest_in_order snarl_manager /\
    length (chain_entries snarl_manager) = length (snarls snarl_manager).
Proof.
  intros Hsize Hdecomposition Hcs Hus. unfold find_snarls.
  rewrite (bool_decide_eq_false_2 _ Hsize), Hdecomposition.
  unfold recursively_emit_snarls, emit_snarls_body.
  assert (Hchild : forall child_snarl,
             on_nodes child_snarl = true ->
             stores_in_order (emit_child graph Visit_default Visit_default)
                             None child_snarl).
  { intros child_snarl Hnodes.
    exact (emit_child_in_order graph child_snarl Hnodes Visit_default Visit_default). }
  assert (Hempty : forest_in_order SnarlManager_empty) by constructor.
  destruct (emit_chains_in_order (emit_child graph Visit_default Visit_default) None
              chains_list) with (child_chains := @nil (list (option SnarlPtr)))
                                (destination := SnarlManager_empty)
    as (cc1 & d1 & k1 & -> & Hlen1 & Hgrown1 & Hall1); [|exact Hempty|constructor|].
  { rewrite forallb_forall in Hcs. apply Forall_forall. intros chain Hchain.
    specialize (Hcs chain (proj1 (list_elem_of_In _ _) Hchain)).
    rewrite forallb_forall in Hcs. apply Forall_forall. intros child_snarl Hin.
    apply Hchild, Hcs, list_elem_of_In, Hin. }
  cbn [mbind outcome_bind]. cbv beta iota.
  destruct (emit_unary_in_order (emit_child graph Visit_default Visit_default) None
              unary_snarls_list) with (child_chains := cc1) (destination := d1)
    as (cc2 & d2 & k2 & -> & Hlen2 & Hgrown2 & Hall2); [|apply Hgrown1|exact Hall1|].
  { rewrite forallb_forall in Hus. apply Forall_forall. intros child_snarl Hin.
    apply Hchild, Hus, list_elem_of_In, Hin. }
  cbn [mbind outcome_bind]. cbv beta iota.
  destruct (register_chains_in_order d2 None cc2) as [Hforest Hentries];
    [apply Hgrown2 | discriminate | exact Hall2 |].
  cbv zeta in Hforest, Hentries.
  eexists. split; [reflexivity|]. split; [exact Hforest|].
  rewrite Hentries, register_chains_snarls.
  pose proof (grown_further _ _ _ _ _ Hgrown1 Hgrown2) as (_ & _ & Hcount).
  cbn [concat length] in Hlen1. cbn in Hcount. lia.
Qed.

End ForestFacts.

(** The nested graph: two chains of one entry each, the bubble registered
    under the snarl from 1 to 6, that snarl as a root chain *)
Lemma find_snarls_registers_every_snarl_witness :
  exists snarl_manager,
    find_snarls nested_graph = Ok snarl_manager /\
    forest_in_order snarl_manager /\
    length (chain_entries snarl_manager) = length (snarls snarl_manager).
Proof.
  apply (find_snarls_registers_every_snarl (env := toy_finder_env) nested_graph
           [[outer_snarl]] []);
    [vm_compute; discriminate | reflexivity | reflexivity | reflexivity].
Defined.

(** ** Where the alternates come from *)

Section ProvenanceFacts.
Context {env : TraversalFinderEnv}.

Lemma length_set_insert {A} (cmp : A -> A -> comparison) (x : A) (s : list A) :
  (length (set_insert cmp x s) <= S (length s))%nat.
Proof.
  induction s as [|y s IH]; cbn; [lia|].
  destruct (cmp x y); cbn; lia.
Qed.

Lemma foldM_seeds {A} (P : list Visit -> Prop)
  (step : list (list Visit) * list message -> A ->
          outcome (list (list Visit) * list message)) (seeds : list A) :
  (forall seed st st', seed ∈ seeds -> step st seed = Ok st' ->
                       st'.1 = st.1 \/
                       exists x, P x /\ st'.1 = set_insert path_compare x st.1) ->
  forall st st',
    foldM step st seeds = Ok st' ->
    (forall v, v ∈ st.1 -> P v) ->
    (forall v, v ∈ st'.1 -> P v) /\
    (length st'.1 <= length st.1 + length seeds)%nat.
Proof.
  induction seeds as [|seed seeds IH]; intros Hstep st st' Hrun Hst; cbn in Hrun.
  - injection Hrun as <-. split; [exact Hst | lia].
  - bind_split Hrun as st1 Hseed.
    destruct (IH (fun s a b Hs => Hstep s a b ltac:(now right)) st1 st' Hrun) as [Hall Hlen].
    + destruct (Hstep seed st st1 ltac:(left) Hseed) as [->|(x & Hx & ->)]; [exact Hst|].
      intros v [->|Hv]%(set_insert_elem path_compare); [exact Hx | now apply Hst].
    + split; [exact Hall|]. cbn [length].
      destruct (Hstep seed st st1 ltac:(left) Hseed) as [Hsame|(x & _ & Hinsert)].
      * rewrite Hsame in Hlen. lia.
      * rewrite Hinsert in Hlen. pose proof (length_set_insert path_compare x st.1). lia.
Qed.

Lemma use_bubble_spliced (site : Snarl) (contents_first : list Node)
  (ref_path : list Visit) (warning : message)
  (st st' : list (list Visit) * list message) (sup_path : SupportOps.Support * list Visit) :
  use_bubble site contents_first ref_path warning st sup_path = Ok st' ->
  st'.1 = st.1 \/
  exists extended_path log',
    sup_path.2 <> [] /\
    splice_into_ref site contents_first ref_path st.2 sup_path.2 = Ok (extended_path, log') /\
    st'.1 = set_insert path_compare extended_path st.1.
Proof.
  unfold use_bubble, extend_into_allele.
  destruct (decide (sup_path.2 = [])) as [Hempty|Hfull].
  - rewrite (bool_decide_eq_true_2 _ Hempty). intros [= <-]. now left.
  - rewrite (bool_decide_eq_false_2 _ Hfull). intros Hrun.
    bind_split Hrun as [extended_path log'] Hsplice. injection Hrun as <-.
    right. now exists extended_path, log'.
Qed.

Lemma collect_traversals_seeded (site : Snarl) (index : PathIndex)
  (contents : list Node * list Edge) (ref_path : list Visit) (log : list message)
  (st : list (list Visit) * list message) :
  collect_traversals site index contents ref_path log = Ok st ->
  (forall visits, visits ∈ st.1 -> spliced_from_seed site index contents ref_path visits) /\
  (length st.1 <= length contents.1 + length contents.2 + length (children_of site))%nat.
Proof.
  unfold collect_traversals. intros Hrun.
  bind_split Hrun as st1 Hnodes. bind_split Hrun as st2 Hedges.
  apply (foldM_seeds (spliced_from_seed site index contents ref_path)) in Hnodes
    as [Hall1 Hlen1].
  - apply (foldM_seeds (spliced_from_seed site index contents ref_path)) in Hedges
      as [Hall2 Hlen2]; [| |exact Hall1].
    + apply (foldM_seeds (spliced_from_seed site index contents ref_path)) in Hrun
        as [Hall3 Hlen3]; [| |exact Hall2].
      * split; [exact Hall3|]. cbn [fst length] in Hlen1. lia.
      * intros child s s' Hchild Hstep. unfold seed_from_child in Hstep.
        bind_split Hstep as sup_path Hbubble.
        apply use_bubble_spliced in Hstep as [Hsame|(x & log' & Hfull & Hsplice & Hinsert)];
          [now left|].
        right. exists x. split; [|exact Hinsert].
        exists None, None, (Some child), sup_path, s.2, log'.
        split; [right; right; now exists child|]. tauto.
    + intros edge s s' Hedge Hstep. unfold seed_from_edge in Hstep.
      destruct (_ && _); [injection Hstep as <-; now left|].
      destruct (_ || _); [injection Hstep as <-; now left|].
      bind_split Hstep as sup_path Hbubble.
      apply use_bubble_spliced in Hstep as [Hsame|(x & log' & Hfull & Hsplice & Hinsert)];
        [now left|].
      right. exists x. split; [|exact Hinsert].
      exists None, (Some edge), None, sup_path, s.2, log'.
      split; [right; left; now exists edge|]. tauto.
  - intros node s s' Hnode Hstep. unfold seed_from_node in Hstep.
    destruct (_ || _); [injection Hstep as <-; now left|].
    destruct (_ && _); [injection Hstep as <-; now left|].
    destruct (by_id_count _ _); [injection Hstep as <-; now left|].
    bind_split Hstep as sup_path Hbubble.
    apply use_bubble_spliced in Hstep as [Hsame|(x & log' & Hfull & Hsplice & Hinsert)];
      [now left|].
    right. exists x. split; [|exact Hinsert].
    exists (Some node), None, None, sup_path, s.2, log'.
    split; [left; now exists node|]. tauto.
  - intros v Hv. now apply elem_of_nil in Hv.
Qed.

(** X22: whatever [find_traversals] returns is the traced reference path
    followed by alternates, each of which is the reference path with the
    bubble [find_bubble] found for one seed (a node or an edge of the
    site's contents, or a child) spliced into it, turned into the snarl's
    orientation like the reference path; no alternate equals the reference
    path, and there are at most as many alternates as there are nodes,
    edges and children to seed from. *)
Theorem alternates_come_from_seeds (site : Snarl) (traversals : list (list Visit))
  (log : list message) :
  find_traversals site = Ok (traversals, log) ->
  exists index site_start site_end traced,
    choose_index site = Ok index /\
    site_coordinates site index = Ok (site_start, site_end) /\
    trace_ref_path site index (shallow_contents site).1 site_start site_end = Ok traced /\
    head traversals
    = Some (emit_traversal site_start site_end (ref_path_for_site traced)) /\
    (forall traversal,
       traversal ∈ tail traversals ->
       exists visits,
         traversal = emit_traversal site_start site_end visits /\
         visits <> ref_path_for_site traced /\
         spliced_from_seed site index (shallow_contents site)
                           (ref_path_for_site traced) visits) /\
    (length traversals <= 1 + length (shallow_contents site).1 +
                          length (shallow_contents site).2 +
                          length (children_of site))%nat.
Proof.
  unfold find_traversals, assert. destruct (bool_decide (type site = ULTRABUBBLE));
    [|discriminate].
  unfold find_traversals_checked. intros Hrun.
  bind_split Hrun as index Hindex.
  bind_split Hrun as [site_start site_end] Hcoordinates.
  bind_split Hrun as traced Htrace.
  bind_split Hrun as checked Hcheck.
  bind_split Hrun as [site_traversal_set log'] Hcollect.
  injection Hrun as <- <-.
  apply collect_traversals_seeded in Hcollect as [Hseeded Hlength]. cbn [fst] in *.
  exists index, site_start, site_end, traced.
  split; [exact Hindex|]. split; [exact Hcoordinates|]. split; [exact Htrace|].
  unfold emit_all. split; [reflexivity|]. split.
  - cbn [tail]. intros traversal Hin.
    apply list_elem_of_fmap in Hin as (visits & -> & Hvisits).
    apply list_elem_of_filter in Hvisits as [Hother Hvisits].
    exists visits. split; [reflexivity|]. split; [|now apply Hseeded].
    apply negb_True in Hother. now rewrite bool_decide_spec in Hother.
  - cbn [length]. rewrite length_map.
    pose proof (length_filter (fun visits => negb (bool_decide (visits = ref_path_for_site traced)))
                  site_traversal_set).
    lia.
Qed.

End ProvenanceFacts.

(** The three traversals of the diamond with its detour: the reference
    path and two alternates *)
Lemma alternates_come_from_seeds_witness :
  let traversals :=
    [ [to_visit 1 false; to_visit 2 false; to_visit 4 false];
      [to_visit 1 false; to_visit 3 false; to_visit 4 false];
      [to_visit 1 false; to_visit 6 false; to_visit 5 false; to_visit 4 false] ] in
  exists index site_start site_end traced,
    choose_index (env := backward_env) toy_site = Ok index /\
    site_coordinates toy_site index = Ok (site_start, site_end) /\
    trace_ref_path (env := backward_env) toy_site index
                   (shallow_contents (TraversalFinderEnv := backward_env) toy_site).1
                   site_start site_end = Ok traced /\
    head traversals
    = Some (emit_traversal site_start site_end (ref_path_for_site traced)) /\
    (forall traversal,
       traversal ∈ tail traversals ->
       exists visits,
         traversal = emit_traversal site_start site_end visits /\
         visits <> ref_path_for_site traced /\
         spliced_from_seed (env := backward_env) toy_site index
                           (shallow_contents (TraversalFinderEnv := backward_env) toy_site)
                           (ref_path_for_site traced) visits) /\
    (length traversals <=
     1 + length (shallow_contents (TraversalFinderEnv := backward_env) toy_site).1 +
     length (shallow_contents (TraversalFinderEnv := backward_env) toy_site).2 +
     length (children_of (TraversalFinderEnv := backward_env) toy_site))%nat.
Proof.
  apply (alternates_come_from_seeds (env := backward_env) toy_site
           [ [to_visit 1 false; to_visit 2 false; to_visit 4 false];
             [to_visit 1 false; to_visit 3 false; to_visit 4 false];
             [to_visit 1 false; to_visit 6 false; to_visit 5 false; to_visit 4 false] ] []).
  vm_compute. reflexivity.
Defined.

(** ** The set of alternates, exactly *)

Section AlternateFacts.
Context {env : TraversalFinderEnv}.










End AlternateFacts.


(** In that run the set holds the reference path, to which the bubbles of
    the edges along the backbone splice, once, and the two alternates; the
    reference path is the visits of the three entries of the index. *)
Lemma backward_run_splices :
  backward_traversal_set
  = [ [to_visit 4 true; to_visit 2 true; to_visit 1 true];
      [to_visit 4 true; to_visit 3 true; to_visit 1 true];
      [to_visit 4 true; to_visit 5 true; to_visit 6 true; to_visit 1 true] ] /\
  ref_path_for_site backward_traced = map snd (by_start toy_index_backward).
Proof. split; vm_compute; reflexivity. Qed.

(** ** A child snarl on the backbone *)

Section ChildFacts.
Context {env : TraversalFinderEnv}.

Lemma skip_child_through (index : PathIndex) (contents_first : list Node)
  (far : Z * Visit) (far_node : Node) (rest : list (Z * Visit)) (inside : list (Z * Visit)) :
  graph_node (node_id far.2) = Some far_node ->
  far_node ∈ contents_first ->
  forall nodes pre found here fuel,
    by_start index = pre ++ found :: inside ++ far :: rest ->
    Forall (fun e : Z * Visit => e.1 <= found.1) pre ->
    through_child contents_first here found inside nodes far ->
    (length inside < fuel)%nat ->
    skip_child fuel index contents_first found here
    = Ok (child_left_at here found inside nodes, far, far_node).
Proof.
  intros Hfar Hcontents.
  induction inside as [|next inside IH]; intros nodes pre found here fuel Hindex Hpre Hthrough Hfuel.
  - destruct nodes; [|destruct Hthrough as (_ & _ & _ & [])].
    destruct Hthrough as (Hsize & Hkey & Hwrap & Hnext).
    destruct fuel as [|fuel]; [cbn in Hfuel; lia|]. cbn [skip_child child_left_at].
    rewrite wrap64_small by lia.
    rewrite (lower_bound_split index (pre ++ [found]) rest far (found.1 + sequence_size here)).
    + unfold get_node. rewrite Hfar. cbn [mbind outcome_bind].
      now rewrite (bool_decide_eq_true_2 _ Hcontents).
    + now rewrite Hindex, <- app_assoc.
    + apply Forall_app. split; [|repeat constructor; lia].
      eapply Forall_impl; [exact Hpre|]. cbn. intros e He. lia.
    + exact Hnext.
  - destruct nodes as [|node nodes]; [destruct Hthrough as (_ & _ & _ & [])|].
    destruct Hthrough as (Hsize & Hkey & Hwrap & Hnext & Hnode & Hout & Hrest).
    destruct fuel as [|fuel]; [cbn in Hfuel; lia|]. cbn [skip_child child_left_at].
    rewrite wrap64_small by lia.
    rewrite (lower_bound_split index (pre ++ [found]) (inside ++ far :: rest) next
               (found.1 + sequence_size here)).
    + unfold get_node. rewrite Hnode. cbn [mbind outcome_bind].
      rewrite (bool_decide_eq_false_2 _ Hout). cbn [negb].
      apply (IH nodes (pre ++ [found])).
      * now rewrite Hindex, <- app_assoc.
      * apply Forall_app. split; [|repeat constructor; lia].
        eapply Forall_impl; [exact Hpre|]. cbn. intros e He. lia.
      * exact Hrest.
      * cbn in Hfuel. lia.
    + now rewrite Hindex, <- app_assoc.
    + apply Forall_app. split; [|repeat constructor; lia].
      eapply Forall_impl; [exact Hpre|]. cbn. intros e He. lia.
    + exact Hnext.
Qed.

Lemma find_nothing {A} (f : A -> bool) (l : list A) :
  (forall x, In x l -> f x = false) -> List.find f l = None.
Proof.
  induction l as [|x l IH]; intros Hall; [reflexivity|].
  cbn. rewrite (Hall x) by now left. apply IH. intros y Hy. apply Hall. now right.
Qed.

Lemma through_child_keys (contents_first : list Node) (far : Z * Visit)
  (inside : list (Z * Visit)) :
  forall nodes here found,
    through_child contents_first here found inside nodes far ->
    found.1 < child_left_at here found inside nodes <= far.1 /\
    Forall (fun e : Z * Visit => e.1 < child_left_at here found inside nodes) inside.
Proof.
  induction inside as [|next inside IH]; intros nodes here found Hthrough.
  - destruct nodes; [|destruct Hthrough as (_ & _ & _ & [])].
    destruct Hthrough as (Hsize & Hkey & Hwrap & Hnext). cbn. split; [lia | constructor].
  - destruct nodes as [|node nodes]; [destruct Hthrough as (_ & _ & _ & [])|].
    destruct Hthrough as (Hsize & Hkey & Hwrap & Hnext & Hnode & Hout & Hrest).
    destruct (IH nodes node next Hrest) as [Hkeys Hinside]. cbn [child_left_at].
    split; [lia|]. constructor; [lia | exact Hinside].
Qed.

(** X23: a child snarl the backbone runs through becomes one visit of the
    reference path.  When the trace finds the entry of a node that enters
    a child, and the index goes on through the inside of the child to an
    entry [far] on a node of the site's contents, [trace_child] fails the
    assertion of line 1642 if the entry is neither the child's start nor
    its end reversed; otherwise it adds the visit of the child (backward
    unless entered at the start) and nothing else to the reference path and
    leaves [nodes_left] as it is.  If [far] reversed enters a snarl and
    [far] itself enters none, [far] is passed over: the trace goes on behind
    it, and fails the assertion of line 1675 when the index ends there and
    that of line 1689 when the next node is not among the contents.
    Otherwise the trace goes on at [far]. *)
Theorem child_becomes_one_visit (index : PathIndex) (contents_first : list Node)
  (child : SnarlPtr) (pre inside rest : list (Z * Visit)) (found far : Z * Visit)
  (nodes : list Node) (visited_node far_node : Node) (st : trace_state) :
  by_start index = pre ++ found :: inside ++ far :: rest ->
  Forall (fun e : Z * Visit => e.1 <= found.1) pre ->
  through_child contents_first visited_node found inside nodes far ->
  graph_node (node_id far.2) = Some far_node ->
  far_node ∈ contents_first ->
  0 <= far.1 /\ far.1 + sequence_size far_node < 2 ^ 64 /\ 1 <= sequence_size far_node ->
  let traced := fun ref_node_start =>
    mkTrace ref_node_start (ref_path_for_site st ++ [child_visit_of child found.2])
            (nodes_left st) (trace_log st) in
  let passes_over :=
    bool_decide (is_Some (into_which_snarl_visit (reverse far.2))) &&
    negb (bool_decide (is_Some (into_which_snarl_visit far.2))) in
  (found.2 <> start (ptr_target child) ->
   found.2 <> reverse (end_ (ptr_target child)) ->
   trace_child index contents_first child found visited_node st = AssertionFailure 1642) /\
  (found.2 = start (ptr_target child) \/ found.2 = reverse (end_ (ptr_target child)) ->
   (passes_over = false ->
    trace_child index contents_first child found visited_node st
    = Ok (traced (child_left_at visited_node found inside nodes))) /\
   (passes_over = true ->
    match rest with
    | [] =>
        trace_child index contents_first child found visited_node st = AssertionFailure 1675
    | next :: _ =>
        far.1 + sequence_size far_node <= next.1 ->
        forall next_node,
          graph_node (node_id next.2) = Some next_node ->
          trace_child index contents_first child found visited_node st
          = if bool_decide (next_node ∈ contents_first)
            then Ok (traced (far.1 + sequence_size far_node))
            else AssertionFailure 1689
    end)).
Proof.
  intros Hindex Hpre Hthrough Hfar Hcontents (Hkey & Hwrap & Hsize) traced passes_over.
  pose proof (skip_child_through index contents_first far far_node rest inside Hfar Hcontents
                nodes pre found visited_node (S (length (by_start index))) Hindex Hpre Hthrough)
    as Hskip.
  rewrite Hindex in Hskip at 1.
  specialize (Hskip ltac:(rewrite length_app; cbn [length]; rewrite length_app; lia)).
  destruct (through_child_keys _ _ _ _ _ _ Hthrough) as [Hkeys Hinside].
  unfold trace_child, visit_eqb, assert. split.
  - intros Hstart Hend.
    now rewrite (bool_decide_eq_false_2 _ Hstart), (bool_decide_eq_false_2 _ Hend).
  - intros Hentered.
    assert (Hbackward :
              (if bool_decide (found.2 = start (ptr_target child)) then Ok false
               else if bool_decide (found.2 = reverse (end_ (ptr_target child)))
                    then Ok true else AssertionFailure 1642)
              = Ok (negb (bool_decide (found.2 = start (ptr_target child))))).
    { destruct (decide (found.2 = start (ptr_target child))) as [Hstart|Hstart].
      - now rewrite (bool_decide_eq_true_2 _ Hstart).
      - rewrite (bool_decide_eq_false_2 _ Hstart).
        destruct Hentered as [Hyes|Hend]; [contradiction|].
        now rewrite (bool_decide_eq_true_2 _ Hend). }
    rewrite Hbackward. cbn [mbind outcome_bind]. rewrite Hskip.
    cbn [mbind outcome_bind]. cbv beta iota.
    fold (child_visit_of child found.2). subst passes_over.
    destruct (bool_decide (is_Some (into_which_snarl_visit (reverse far.2)))) eqn:Hreverse;
      [destruct (bool_decide (is_Some (into_which_snarl_visit far.2))) eqn:Hforward|];
      cbn [negb andb]; (split; [intros Hcase | intros Hcase]); try discriminate.
    + (* back-to-back children *)
      cbn [mbind outcome_bind]. now rewrite (bool_decide_eq_true_2 _ Hcontents).
    + (* [far] is passed over *)
      rewrite wrap64_small by lia.
      destruct rest as [|next rest].
      * unfold lower_bound. rewrite Hindex.
        assert (Hnone : List.find (fun entry : Z * Visit => far.1 + sequence_size far_node <=? entry.1)
                          (pre ++ found :: inside ++ [far]) = None).
        { apply find_nothing. intros e He.
          apply Z.leb_gt. apply in_app_or in He as [He|[<-|He]].
          - rewrite Forall_forall in Hpre.
            specialize (Hpre e (proj2 (list_elem_of_In _ _) He)). cbn in Hpre. lia.
          - lia.
          - apply in_app_or in He as [He|[<-|[]]]; [|lia].
            rewrite Forall_forall in Hinside.
            specialize (Hinside e (proj2 (list_elem_of_In _ _) He)). cbn in Hinside. lia. }
        now rewrite Hnone.
      * intros Hnext next_node Hnode.
        rewrite (lower_bound_split index (pre ++ found :: inside ++ [far]) rest next
                   (far.1 + sequence_size far_node)).
        -- unfold get_node. rewrite Hnode. cbn [mbind outcome_bind].
           now destruct (bool_decide (next_node ∈ contents_first)).
        -- rewrite Hindex. rewrite <- !app_assoc. cbn [app]. now rewrite <- app_assoc.
        -- apply Forall_app. split.
           ++ eapply Forall_impl; [exact Hpre|]. cbn. intros e He. lia.
           ++ constructor; [lia|]. apply Forall_app. split; [|repeat constructor; lia].
              eapply Forall_impl; [exact Hinside|]. cbn. intros e He. lia.
        -- exact Hnext.
    + (* [far] reversed enters nothing *)
      cbn [mbind outcome_bind]. now rewrite (bool_decide_eq_true_2 _ Hcontents).
Qed.

End ChildFacts.

(** The line 1 - 2 - 3 - 4 - 5 with the child from 2 to 4: entered at node
    2, the child is visited once, node 4 is passed over, and the trace goes
    on at coordinate 4, where node 5 starts. *)
Lemma child_becomes_one_visit_witness :
  trace_child (env := line_env) line_index
              [mkNode 1 1; mkNode 2 1; mkNode 4 1; mkNode 5 1] line_child
              (1, to_visit 2 false) (mkNode 2 1)
              (mkTrace 1 [to_visit 1 false] [mkNode 2 1; mkNode 4 1; mkNode 5 1] [])
  = Ok (mkTrace 4 [to_visit 1 false; to_visit_snarl (ptr_target line_child)]
                [mkNode 2 1; mkNode 4 1; mkNode 5 1] []).
Proof.
  assert (Hpre : Forall (fun e : Z * Visit => e.1 <= 1) [(0, to_visit 1 false)])
    by (repeat constructor; cbn; lia).
  assert (Hthrough : through_child (env := line_env)
                       [mkNode 1 1; mkNode 2 1; mkNode 4 1; mkNode 5 1] (mkNode 2 1)
                       (1, to_visit 2 false) [(2, to_visit 3 false)] [mkNode 3 1]
                       (3, to_visit 4 false)).
  { cbn. repeat split; try lia.
    now apply (bool_decide_eq_false_1 (mkNode 3 1 ∈ [mkNode 1 1; mkNode 2 1; mkNode 4 1; mkNode 5 1])). }
  assert (Hfar : mkNode 4 1 ∈ [mkNode 1 1; mkNode 2 1; mkNode 4 1; mkNode 5 1])
    by now apply (bool_decide_eq_true_1 (mkNode 4 1 ∈ _)).
  pose proof (child_becomes_one_visit (env := line_env) line_index
                [mkNode 1 1; mkNode 2 1; mkNode 4 1; mkNode 5 1] line_child
                [(0, to_visit 1 false)] [(2, to_visit 3 false)] [(4, to_visit 5 false)]
                (1, to_visit 2 false) (3, to_visit 4 false) [mkNode 3 1]
                (mkNode 2 1) (mkNode 4 1)
                (mkTrace 1 [to_visit 1 false] [mkNode 2 1; mkNode 4 1; mkNode 5 1] [])
                eq_refl Hpre Hthrough eq_refl Hfar ltac:(cbn; lia)) as [_ Hentered].
  destruct (Hentered (or_introl eq_refl)) as [_ Hpass].
  exact (Hpass eq_refl ltac:(cbn; lia) (mkNode 5 1) eq_refl).
Defined.
